(** * LSM-vs-BTREE: a shallow embedding of the two index engines

    The development follows the C++ sources:
    - [src/old_implementation/lsm/RegisterBlockedBloomFilter.h]  (module [Bloom])
    - [src/old_implementation/lsm/learned_index.cpp]             (modules [Learned],
      [LearnedFloat])
    - [src/old_implementation/lsm/SSTables.h], [src/lsm/SSTables.h],
      [src/old_implementation/lsm/lsm_tree.h]                    (module [LSM])
    - [src/btree/btree.h]                                        (module [BTree])
    - [src/old_implementation/lsm/BloomFilter.h]                 (module [SimpleBloom])
    - [src/zipf_implementation.h]                                (module [Zipf])
    - [src/old_implementation/LSM/memtable/skiplist_memtable.cpp] (module [SkipList])

    Conventions.  A [uint64_t] / [size_t] is a [Z]; where the source can wrap
    around, the reduction modulo [2^64] is written out ([u64]).  A
    [std::vector] is a [list] read with [!!] / [!!!] and written with
    [<[i:=x]>]; a [tbb::concurrent_hash_map] is a [gmap].  The sentinel
    [SIZE_MAX] that the B+ tree uses for "no node" is [None].  A [double]
    or [long double] is a number of the IEEE 754 format (module [IEEE]). *)

From Stdlib Require Import ZArith Lia.
From Stdlib Require OrdersEx SpecFloat.
From stdpp Require Import base option list gmap strings sorting.

Local Open Scope Z_scope.

(** Reduction of a mathematical integer to a 64-bit unsigned machine word. *)
Definition u64 (x : Z) : Z := x mod 2 ^ 64.

Lemma u64_range x : 0 ≤ u64 x < 2 ^ 64.
Proof. unfold u64. apply Z.mod_pos_bound. lia. Qed.

(** ** Bit-level facts used by the Bloom filter *)

Lemma land_lor_absorb b m : Z.land (Z.lor b m) m = m.
Proof.
  apply Z.bits_inj'; intros n _.
  rewrite Z.land_spec, Z.lor_spec.
  destruct (Z.testbit b n), (Z.testbit m n); reflexivity.
Qed.

Lemma land_lor_mono b m m' : Z.land b m = m → Z.land (Z.lor b m') m = m.
Proof.
  intros H. apply Z.bits_inj'; intros n _.
  apply (f_equal (fun z => Z.testbit z n)) in H.
  rewrite Z.land_spec in H. rewrite Z.land_spec, Z.lor_spec.
  destruct (Z.testbit b n), (Z.testbit m n), (Z.testbit m' n);
    simpl in *; congruence.
Qed.

(** * Register-blocked Bloom filter *)

Module Bloom.
Section WithHash.

(** [std::hash<uint64_t>] is implementation-defined; the filter is modelled
    for an arbitrary one.  Its result is a [size_t], so every use reduces
    it with [u64]. *)
Variable std_hash : Z → Z.

Record RegisterBlockedBloomFilter := mkFilter {
  num_blocks_ : Z;
  num_hashes_ : Z;
  blocks_ : list Z
}.

(** [RegisterBlockedBloomFilter(num_blocks, num_hashes)]:
    [blocks_(num_blocks, 0)]. *)
Definition new (num_blocks num_hashes : Z) : RegisterBlockedBloomFilter :=
  mkFilter num_blocks num_hashes (replicate (Z.to_nat num_blocks) 0).

(** [std::hash<uint64_t>{}(key ^ (0x9e3779b9 * i))], the product taken in
    [size_t]. *)
Definition ComputeHash (key i : Z) : Z :=
  u64 (std_hash (Z.lxor key (u64 (0x9e3779b9 * i)))).

(** [GetBlock] returns a pointer into [blocks_]; the model returns the
    index it points at. *)
Definition GetBlock (f : RegisterBlockedBloomFilter) (hash : Z) : Z :=
  ComputeHash hash 0 mod num_blocks_ f.

(** The body of [for (size_t i = 1; i < num_hashes_; ++i)], run for [cnt]
    more iterations from index [i]. *)
Fixpoint mask_loop (hash i : Z) (cnt : nat) (mask : Z) : Z :=
  match cnt with
  | O => mask
  | S cnt' =>
      let bit_pos := ComputeHash hash i mod 64 in
      mask_loop hash (i + 1) cnt' (Z.lor mask (Z.shiftl 1 bit_pos))
  end.

Definition ConstructMask (f : RegisterBlockedBloomFilter) (hash : Z) : Z :=
  mask_loop hash 1 (Z.to_nat (num_hashes_ f - 1)) 0.

(** [*block |= ConstructMask(hash)].  With [num_blocks_ = 0] the source
    divides by zero; the model then leaves the filter unchanged. *)
Definition Insert (f : RegisterBlockedBloomFilter) (key : Z) : RegisterBlockedBloomFilter :=
  let hash := u64 (std_hash key) in
  let block := Z.to_nat (GetBlock f hash) in
  let mask := ConstructMask f hash in
  mkFilter (num_blocks_ f) (num_hashes_ f)
           (alter (λ b, Z.lor b mask) block (blocks_ f)).

Definition Query (f : RegisterBlockedBloomFilter) (key : Z) : bool :=
  let hash := u64 (std_hash key) in
  let block := Z.to_nat (GetBlock f hash) in
  let mask := ConstructMask f hash in
  match blocks_ f !! block with
  | Some b => bool_decide (Z.land b mask = mask)
  | None => false
  end.

(** A filter as the constructor leaves it and [Insert] keeps it: one word
    per block, at least one block. *)
Definition wf (f : RegisterBlockedBloomFilter) : Prop :=
  0 < num_blocks_ f ∧ length (blocks_ f) = Z.to_nat (num_blocks_ f).

Lemma wf_new nb nh : 0 < nb → wf (new nb nh).
Proof. intros H. split; [done|]. simpl. by rewrite length_replicate. Qed.

Lemma Insert_params f k :
  num_blocks_ (Insert f k) = num_blocks_ f ∧ num_hashes_ (Insert f k) = num_hashes_ f.
Proof. done. Qed.

Lemma wf_Insert f k : wf f → wf (Insert f k).
Proof.
  intros [Hpos Hlen]. split; [done|]. simpl. by rewrite length_alter.
Qed.

Lemma GetBlock_lt f hash : wf f → (Z.to_nat (GetBlock f hash) < length (blocks_ f))%nat.
Proof.
  intros [Hpos Hlen]. rewrite Hlen. unfold GetBlock.
  pose proof (Z.mod_pos_bound (ComputeHash hash 0) (num_blocks_ f) Hpos). lia.
Qed.

(** [Query] right after [Insert] of the same key. *)
Lemma Query_Insert_same f k : wf f → Query (Insert f k) k = true.
Proof.
  intros Hwf. unfold Query, Insert, GetBlock, ConstructMask. simpl.
  pose proof (GetBlock_lt f (u64 (std_hash k)) Hwf) as Hlt.
  unfold GetBlock in Hlt.
  destruct (lookup_lt_is_Some_2 _ _ Hlt) as [b Hb].
  rewrite list_lookup_alter_eq, Hb. simpl.
  apply bool_decide_eq_true. apply land_lor_absorb.
Qed.

(** A later [Insert] only sets more bits. *)
Lemma Query_Insert_mono f k k' : Query f k = true → Query (Insert f k') k = true.
Proof.
  unfold Query, Insert. simpl.
  change (GetBlock (mkFilter (num_blocks_ f) (num_hashes_ f) ?l) ?h) with (GetBlock f h).
  change (ConstructMask (mkFilter (num_blocks_ f) (num_hashes_ f) ?l) ?h) with (ConstructMask f h).
  set (j := Z.to_nat (GetBlock f (u64 (std_hash k)))).
  set (i := Z.to_nat (GetBlock f (u64 (std_hash k')))).
  destruct (blocks_ f !! j) as [b|] eqn:Hb; [|done].
  intros H%bool_decide_eq_true.
  destruct (decide (i = j)) as [Heq|Hne].
  - rewrite Heq, list_lookup_alter_eq, Hb. simpl.
    apply bool_decide_eq_true. by apply land_lor_mono.
  - rewrite list_lookup_alter_ne by done. rewrite Hb.
    by apply bool_decide_eq_true.
Qed.

Lemma wf_fold_Insert keys f : wf f → wf (foldl Insert f keys).
Proof.
  revert f. induction keys as [|k keys IH]; intros f Hwf; simpl; [done|].
  apply IH. by apply wf_Insert.
Qed.

Lemma Query_fold_mono keys f k : Query f k = true → Query (foldl Insert f keys) k = true.
Proof.
  revert f. induction keys as [|k' keys IH]; intros f H; simpl; [done|].
  apply IH. by apply Query_Insert_mono.
Qed.

(** C7. No false negatives: on a filter with at least one block, once
    [Insert k] is among the calls made (in any position of the sequence
    [keys]), [Query k] answers [true]. *)
Theorem no_false_negatives (f : RegisterBlockedBloomFilter) (keys : list Z) (k : Z) :
  wf f → k ∈ keys → Query (foldl Insert f keys) k = true.
Proof.
  revert f. induction keys as [|k' keys IH]; intros f Hwf Hin.
  - by apply elem_of_nil in Hin.
  - simpl. apply elem_of_cons in Hin as [->|Hin].
    + apply Query_fold_mono. by apply Query_Insert_same.
    + apply IH; [by apply wf_Insert | done].
Qed.

(** ** Fresh filters and the order of inserts *)

Lemma mask_loop_zero hash cnt : ∀ i mask,
  mask_loop hash i cnt mask = 0 → mask = 0 ∧ cnt = O.
Proof.
  induction cnt as [|cnt IH]; intros i mask H; [done|].
  cbn [mask_loop] in H. apply IH in H as [H _].
  apply Z.lor_eq_0_iff in H as [_ H].
  pose proof (Z.mod_pos_bound (ComputeHash hash i) 64 ltac:(lia)) as Hb.
  rewrite Z.shiftl_mul_pow2 in H by lia.
  pose proof (Z.pow_pos_nonneg 2 (ComputeHash hash i mod 64) ltac:(lia) ltac:(lia)). lia.
Qed.

(** A filter that has seen no key rejects every key, unless it was built
    with fewer than two hash functions: then the mask is empty and every
    query is answered [true]. *)
Theorem fresh_filter_query (num_blocks num_hashes key : Z) :
  0 < num_blocks →
  Query (new num_blocks num_hashes) key = bool_decide (num_hashes ≤ 1).
Proof.
  intros Hpos. unfold Query.
  pose proof (GetBlock_lt (new num_blocks num_hashes) (u64 (std_hash key))
                (wf_new _ num_hashes Hpos)) as Hlt.
  destruct (lookup_lt_is_Some_2 _ _ Hlt) as [b Hb]. rewrite Hb.
  apply lookup_replicate in Hb as [-> _]. rewrite Z.land_0_l.
  unfold ConstructMask. cbn [new num_hashes_].
  destruct (decide (num_hashes ≤ 1)) as [Hnh|Hnh].
  - rewrite (bool_decide_eq_true_2 (num_hashes ≤ 1)) by done.
    replace (Z.to_nat (num_hashes - 1)) with O by lia. by apply bool_decide_eq_true.
  - rewrite (bool_decide_eq_false_2 (num_hashes ≤ 1)) by done.
    apply bool_decide_eq_false. intros H. symmetry in H.
    apply mask_loop_zero in H as [_ H]. lia.
Qed.

Lemma Insert_comm f a b : Insert (Insert f a) b = Insert (Insert f b) a.
Proof.
  unfold Insert. cbn [num_blocks_ num_hashes_ blocks_].
  change (GetBlock (mkFilter (num_blocks_ f) (num_hashes_ f) ?l) ?h) with (GetBlock f h).
  change (ConstructMask (mkFilter (num_blocks_ f) (num_hashes_ f) ?l) ?h)
    with (ConstructMask f h).
  f_equal.
  set (ja := Z.to_nat (GetBlock f (u64 (std_hash a)))).
  set (jb := Z.to_nat (GetBlock f (u64 (std_hash b)))).
  destruct (decide (jb = ja)) as [->|Hne]; [|by apply list_alter_alter_ne].
  rewrite !list_alter_alter_eq. apply list_alter_ext; [|done].
  intros x _. simpl. rewrite <- !Z.lor_assoc. f_equal. apply Z.lor_comm.
Qed.

(** The filter does not depend on the order in which its keys were
    inserted. *)
Theorem insert_order_irrelevant (f : RegisterBlockedBloomFilter) (keys keys' : list Z) :
  keys ≡ₚ keys' → foldl Insert f keys = foldl Insert f keys'.
Proof.
  intros Hperm. revert f.
  induction Hperm as [|k l l' _ IH|k k' l|l l' l'' _ IH1 _ IH2]; intros f; simpl.
  - done.
  - apply IH.
  - by rewrite Insert_comm.
  - by rewrite IH1.
Qed.

End WithHash.
End Bloom.

(** The filter every SSTable builds, [bloom(512, 7)], over the identity
    hash of libstdc++, after inserting 10, 20 and 30. *)
Lemma no_false_negatives_witness :
  Bloom.Query (λ x, x)
    (foldl (Bloom.Insert (λ x, x)) (Bloom.new 512 7) [10; 20; 30]) 20 = true.
Proof.
  apply Bloom.no_false_negatives.
  - apply Bloom.wf_new. lia.
  - set_solver.
Defined.

(** * IEEE 754 arithmetic

    The floating-point code of the repository is modelled on the
    bit-level specification of the Standard Library ([SpecFloat]): a
    number is a sign, a mantissa and an exponent, and every operation
    rounds its exact result to the nearest number of the format, ties to
    even. *)

Module IEEE.

Definition float : Type := SpecFloat.spec_float.

(** A binary format: the precision in bits and the exponent bound. *)
Record format := mkFormat { prec : Z; emax : Z }.

(** [double] *)
Definition binary64 : format := mkFormat 53 1024.
(** [long double] where it is the x87 extended format (x86 with GCC or
    Clang), where it is [double] (MSVC, Apple arm64) and where it is the
    quadruple format (AArch64 Linux). *)
Definition x87_extended : format := mkFormat 64 16384.
Definition binary128 : format := mkFormat 113 16384.

Definition zero : float := SpecFloat.S754_zero false.

(** [static_cast] of an integer to the format. *)
Definition of_Z (f : format) (n : Z) : float :=
  SpecFloat.binary_normalize (prec f) (emax f) n 0 false.

(** [static_cast] of a floating-point number to the format. *)
Definition convert (f : format) (x : float) : float :=
  match x with
  | SpecFloat.S754_finite s m e =>
      SpecFloat.binary_normalize (prec f) (emax f) (SpecFloat.cond_Zopp s (Zpos m)) e s
  | _ => x
  end.

Definition add (f : format) : float → float → float := SpecFloat.SFadd (prec f) (emax f).
Definition sub (f : format) : float → float → float := SpecFloat.SFsub (prec f) (emax f).
Definition mul (f : format) : float → float → float := SpecFloat.SFmul (prec f) (emax f).
Definition div (f : format) : float → float → float := SpecFloat.SFdiv (prec f) (emax f).

(** [std::abs] and [<], the latter on two numbers of one format. *)
Definition abs : float → float := SpecFloat.SFabs.
Definition ltb : float → float → bool := SpecFloat.SFltb.

(** [std::max(a, b)] is [(a < b) ? b : a], [std::min(a, b)] is
    [(b < a) ? b : a]. *)
Definition max (a b : float) : float := if ltb a b then b else a.
Definition min (a b : float) : float := if ltb b a then b else a.

(** The integer [std::floor], [std::ceil] and the truncation of a cast
    produce; an infinity or a NaN has none (0 stands in). *)
Definition floor (x : float) : Z :=
  match x with
  | SpecFloat.S754_finite s m e =>
      if decide (e < 0) then SpecFloat.cond_Zopp s (Zpos m) / 2 ^ (- e)
      else SpecFloat.cond_Zopp s (Zpos m) * 2 ^ e
  | _ => 0
  end.

Definition ceil (x : float) : Z := - floor (SpecFloat.SFopp x).

Definition trunc (x : float) : Z :=
  match x with
  | SpecFloat.S754_finite true _ _ => ceil x
  | _ => floor x
  end.

End IEEE.

(** * Piecewise-linear learned index: segmentation *)

Module Learned.

(** [global.h] *)
Definition LEARNED_INDEX_TARGET_KEYS_PER_SEGMENT : Z := 256.
Definition LEARNED_INDEX_MIN_KEYS_FOR_MULTISEGMENT : Z :=
  LEARNED_INDEX_TARGET_KEYS_PER_SEGMENT * 2.

Section WithDoubles.

(** The least-squares fit works on [double] and [long double]; in this
    section its three results (slope, intercept, maximal absolute
    residual) are any values, so that what is proved of the integer code
    of [train] (sizes, offsets, keys) holds whatever the arithmetic.
    [LearnedFloat] below supplies the arithmetic. *)
Variable double : Type.
Variable fit : list Z → list Z → double * double * double.

Record SegmentModel := mkSegment {
  first_key : Z;
  slope : double;
  intercept : double;
  max_abs_error : double;
  start_index_global : Z;
  num_keys_in_segment : Z
}.

Record LearnedIndex := mkIndex {
  segments_ : list SegmentModel;
  model_trained_ : bool;
  min_overall_key_ : Z;
  max_overall_key_ : Z;
  total_keys_trained_on_ : Z
}.

(** [LearnedIndex::LearnedIndex()] *)
Definition empty_index : LearnedIndex :=
  mkIndex [] false 0 (2 ^ 64 - 1) 0.

(** [train_linear_model] answers [false] exactly when [num_keys == 0];
    on every other path it fills the three outputs and answers [true]. *)
Definition train_linear_model (keys global_indices : list Z) :
    option (double * double * double) :=
  if decide (length keys = 0%nat) then None else Some (fit keys global_indices).

Definition num_segments_of (num_total_keys : Z) : Z :=
  if decide (num_total_keys < LEARNED_INDEX_MIN_KEYS_FOR_MULTISEGMENT) then 1
  else Z.max 1 (u64 (num_total_keys + LEARNED_INDEX_TARGET_KEYS_PER_SEGMENT - 1)
                / LEARNED_INDEX_TARGET_KEYS_PER_SEGMENT).

(** [sorted_keys[a .. a+n)] as the pointer-and-length pair the source passes. *)
Definition slice {A} (l : list A) (a n : Z) : list A :=
  take (Z.to_nat n) (drop (Z.to_nat a) l).

(** One iteration of [for (size_t i = 0; i < num_segments; ++i)]. *)
Definition train_segment (sorted_keys global_indices : list Z)
    (num_total_keys num_segments i : Z) (segs : list SegmentModel) : list SegmentModel :=
  let segment_start_offset := u64 (i * num_total_keys) / num_segments in
  let segment_end_offset :=
    if decide (i = num_segments - 1) then num_total_keys
    else u64 ((i + 1) * num_total_keys) / num_segments in
  let current_segment_num_keys := u64 (segment_end_offset - segment_start_offset) in
  if decide (current_segment_num_keys = 0) then segs
  else
    let segment_first_key := sorted_keys !!! Z.to_nat segment_start_offset in
    let segment_start_global_idx := global_indices !!! Z.to_nat segment_start_offset in
    match train_linear_model
            (slice sorted_keys segment_start_offset current_segment_num_keys)
            (slice global_indices segment_start_offset current_segment_num_keys) with
    | Some (s_slope, s_intercept, s_max_abs_error) =>
        segs ++ [mkSegment segment_first_key s_slope s_intercept s_max_abs_error
                           segment_start_global_idx current_segment_num_keys]
    | None => segs
    end.

Fixpoint train_loop (sorted_keys global_indices : list Z)
    (num_total_keys num_segments i : Z) (cnt : nat) (segs : list SegmentModel) :
    list SegmentModel :=
  match cnt with
  | O => segs
  | S cnt' =>
      train_loop sorted_keys global_indices num_total_keys num_segments (i + 1) cnt'
        (train_segment sorted_keys global_indices num_total_keys num_segments i segs)
  end.

(** [LearnedIndex::train], on an index in any state. *)
Definition train (idx : LearnedIndex) (sorted_keys : list Z) : LearnedIndex :=
  let num_total_keys := Z.of_nat (length sorted_keys) in
  match sorted_keys with
  | [] => mkIndex [] false (min_overall_key_ idx) (max_overall_key_ idx) num_total_keys
  | front :: _ =>
      let back := sorted_keys !!! (length sorted_keys - 1)%nat in
      let global_indices := seqZ 0 num_total_keys in
      let num_segments := num_segments_of num_total_keys in
      let segs := train_loop sorted_keys global_indices num_total_keys num_segments
                    0 (Z.to_nat num_segments) [] in
      mkIndex segs (bool_decide (segs ≠ [])) front back num_total_keys
  end.

(** The segment the spec of [train] expects at position [j] among [S]. *)
Definition segment_at (sorted_keys : list Z) (S j : Z) : SegmentModel :=
  let N := Z.of_nat (length sorted_keys) in
  let a := j * N / S in
  let n := (j + 1) * N / S - a in
  let '(s, i, e) := fit (slice sorted_keys a n) (slice (seqZ 0 N) a n) in
  mkSegment (sorted_keys !!! Z.to_nat a) s i e a n.


Lemma seg_bounds (N S j : Z) :
  0 < S ≤ N → 0 ≤ j < S →
  0 ≤ j * N / S ∧ j * N / S + 1 ≤ (j + 1) * N / S ∧ (j + 1) * N / S ≤ N.
Proof.
  intros HS Hj. split; [|split].
  - apply Z.div_pos; nia.
  - replace ((j + 1) * N) with (j * N + (N - S) + 1 * S) by ring.
    rewrite Z.div_add by lia.
    assert (j * N / S ≤ (j * N + (N - S)) / S); [|lia].
    apply Z.div_le_mono; lia.
  - apply Z.div_le_upper_bound; nia.
Qed.

Lemma length_slice {A} (l : list A) (a n : Z) :
  0 ≤ a → 0 ≤ n → a + n ≤ Z.of_nat (length l) → length (slice l a n) = Z.to_nat n.
Proof. intros. unfold slice. rewrite length_take, length_drop. lia. Qed.

Lemma train_segment_spec (keys : list Z) (S i : Z) (segs : list SegmentModel) :
  let N := Z.of_nat (length keys) in
  0 < S ≤ N → N * S < 2 ^ 64 → 0 ≤ i < S →
  train_segment keys (seqZ 0 N) N S i segs = segs ++ [segment_at keys S i].
Proof.
  intros N HS Hwrap Hi.
  destruct (seg_bounds N S i HS Hi) as (Ha & Hn & Hb).
  unfold train_segment, segment_at. fold N.
  assert (u64 (i * N) = i * N) as ->.
  { unfold u64. apply Z.mod_small. nia. }
  assert ((if decide (i = S - 1) then N else u64 ((i + 1) * N) / S) = (i + 1) * N / S) as ->.
  { case_decide as Hlast.
    - subst i. replace (S - 1 + 1) with S by lia. rewrite Z.mul_comm, Z.div_mul; lia.
    - unfold u64. rewrite Z.mod_small; [done|nia]. }
  set (a := i * N / S) in *. set (b := (i + 1) * N / S) in *.
  assert (u64 (b - a) = b - a) as ->.
  { unfold u64. apply Z.mod_small. nia. }
  rewrite decide_False by lia.
  unfold train_linear_model.
  rewrite decide_False by (rewrite length_slice; lia).
  destruct (fit _ _) as [[s0 i0] e0].
  do 3 f_equal.
  apply list_lookup_total_correct.
  rewrite lookup_seqZ. split; lia.
Qed.

Lemma train_loop_spec (keys : list Z) (S : Z) (cnt : nat) (i : Z) (segs : list SegmentModel) :
  let N := Z.of_nat (length keys) in
  0 < S ≤ N → N * S < 2 ^ 64 → 0 ≤ i → i + Z.of_nat cnt = S →
  train_loop keys (seqZ 0 N) N S i cnt segs
  = segs ++ (segment_at keys S <$> seqZ i (Z.of_nat cnt)).
Proof.
  intros N HS Hwrap. revert i segs.
  induction cnt as [|cnt IH]; intros i segs Hi Hsum.
  - simpl. by rewrite app_nil_r.
  - cbn [train_loop]. fold N. rewrite train_segment_spec by (done || lia).
    fold N. rewrite IH by lia.
    rewrite <- app_assoc. f_equal.
    replace (Z.of_nat (Datatypes.S cnt)) with (Z.succ (Z.of_nat cnt)) by lia.
    rewrite (seqZ_cons i) by lia. simpl. do 3 f_equal; lia.
Qed.

(** The slices cut at [j*N/S] tile the key vector from left to right. *)
Lemma slices_tile (keys : list Z) (S : Z) (m : nat) :
  let N := Z.of_nat (length keys) in
  0 < S ≤ N → Z.of_nat m ≤ S →
  concat ((λ j, slice keys (j * N / S) ((j + 1) * N / S - j * N / S)) <$> seqZ 0 (Z.of_nat m))
  = take (Z.to_nat (Z.of_nat m * N / S)) keys.
Proof.
  intros N HS. induction m as [|m IH]; intros Hm.
  - simpl. rewrite Z.div_0_l by lia. done.
  - replace (Z.of_nat (Datatypes.S m)) with (Z.of_nat m + 1) by lia.
    rewrite seqZ_app by lia. rewrite fmap_app, concat_app, IH by lia.
    simpl. rewrite app_nil_r. rewrite !Z.add_0_l.
    destruct (seg_bounds N S (Z.of_nat m) HS ltac:(lia)) as (Ha & Hn & Hb).
    set (a := Z.of_nat m * N / S) in *. set (b := (Z.of_nat m + 1) * N / S) in *.
    unfold slice.
    rewrite <- (take_drop (Z.to_nat a) (take (Z.to_nat b) keys)).
    rewrite take_take, Nat.min_l by lia. f_equal.
    rewrite take_drop_commute. do 2 f_equal. lia.
Qed.

(** The number of segments the code uses: one below 512 keys, [⌈N/256⌉]
    from 512 keys on. *)
Definition segment_count (N : Z) : Z :=
  if decide (N < 512) then 1 else (N + 255) / 256.

Lemma segment_count_bounds N : 0 < N → 0 < segment_count N ≤ N.
Proof.
  intros HN. unfold segment_count. case_decide; [lia|].
  split.
  - apply Z.div_str_pos. lia.
  - apply Z.div_le_upper_bound; lia.
Qed.

Lemma num_segments_of_eq N : 0 < N < 2 ^ 36 → num_segments_of N = segment_count N.
Proof.
  intros HN. unfold num_segments_of, segment_count,
    LEARNED_INDEX_MIN_KEYS_FOR_MULTISEGMENT, LEARNED_INDEX_TARGET_KEYS_PER_SEGMENT.
  change (256 * 2) with 512.
  case_decide; [done|].
  unfold u64. rewrite Z.mod_small by lia.
  replace (N + 256 - 1) with (N + 255) by lia.
  apply Z.max_r. apply Z.div_le_lower_bound; lia.
Qed.

Lemma train_unfold (idx : LearnedIndex) (sorted_keys : list Z) :
  let N := Z.of_nat (length sorted_keys) in
  sorted_keys ≠ [] →
  segments_ (train idx sorted_keys)
  = train_loop sorted_keys (seqZ 0 N) N (num_segments_of N) 0
      (Z.to_nat (num_segments_of N)) []
  ∧ model_trained_ (train idx sorted_keys)
    = bool_decide (segments_ (train idx sorted_keys) ≠ []).
Proof. destruct sorted_keys; done. Qed.

(** C9 (amended). For a non-empty key vector of [N < 2^36] keys, [train]
    produces [S] segments where [S = 1] below 512 keys and [S = ⌈N/256⌉]
    from 512 keys on; segment [j] is fitted on the contiguous slice
    [j*N/S .. (j+1)*N/S) of the keys (with the matching global indices),
    records its first key, start index and length, and the slices tile the
    whole vector. *)
Theorem train_segmentation (idx : LearnedIndex) (sorted_keys : list Z) :
  let N := Z.of_nat (length sorted_keys) in
  let S := segment_count N in
  sorted_keys ≠ [] → N < 2 ^ 36 →
  segments_ (train idx sorted_keys) = (segment_at sorted_keys S <$> seqZ 0 S)
  ∧ Z.of_nat (length (segments_ (train idx sorted_keys))) = S
  ∧ model_trained_ (train idx sorted_keys) = true
  ∧ concat ((λ j, slice sorted_keys (j * N / S) ((j + 1) * N / S - j * N / S)) <$> seqZ 0 S)
    = sorted_keys.
Proof.
  intros N S Hne Hlt.
  assert (0 < N) as HN by (subst N; destruct sorted_keys; simpl; [done|lia]).
  pose proof (segment_count_bounds N HN) as HS. fold S in HS.
  assert (N * S < 2 ^ 64) as Hwrap.
  { assert (S ≤ 2 ^ 28); [|nia].
    subst S. unfold segment_count. case_decide; [lia|].
    assert ((N + 255) / 256 < 2 ^ 28 + 1); [|lia].
    apply Z.div_lt_upper_bound; lia. }
  destruct (train_unfold idx sorted_keys Hne) as [Hsegs Htr]. fold N in Hsegs.
  rewrite num_segments_of_eq in Hsegs by lia. fold S in Hsegs.
  rewrite train_loop_spec in Hsegs by (fold N; lia).
  rewrite Z2Nat.id in Hsegs by lia. simpl in Hsegs.
  split; [done|]. split; [|split].
  - rewrite Hsegs, length_fmap, length_seqZ. lia.
  - rewrite Htr. apply bool_decide_eq_true. intros Hnil.
    rewrite Hnil in Hsegs. symmetry in Hsegs. apply fmap_nil_inv in Hsegs.
    apply (f_equal length) in Hsegs. rewrite length_seqZ in Hsegs. simpl in Hsegs. lia.
  - pose proof (slices_tile sorted_keys S (Z.to_nat S)) as Ht.
    cbv zeta in Ht. fold N in Ht. rewrite Z2Nat.id in Ht by lia.
    rewrite Ht by lia.
    rewrite Z.mul_comm, Z.div_mul by lia.
    apply take_ge. lia.
Qed.

(** ** [predict_index_range]: choosing the segment *)

(** [static_cast<int>] of a [size_t]. *)
Definition to_int (x : Z) : Z := (x + 2 ^ 31) mod 2 ^ 32 - 2 ^ 31.

(** The last five statements of [predict_index_range] compute the two
    bounds in [double] from the chosen segment, the key and
    [total_keys_trained_on_]; here they are any function
    ([LearnedFloat.predict_bounds] is the one of the source). *)
Variable predict_bounds : SegmentModel → Z → Z → Z * Z.

(** [std::upper_bound] with the comparison [k_val < seg_model.first_key]:
    the position of the first segment whose [first_key] exceeds the key,
    specified for segments in ascending [first_key] order. *)
Fixpoint upper_bound (segs : list SegmentModel) (key : Z) : nat :=
  match segs with
  | [] => O
  | seg_model :: rest =>
      if decide (key < first_key seg_model) then O else S (upper_bound rest key)
  end.

(** The segment [predict_index_range] works with once the key is known
    to lie in the trained range. *)
Definition chosen_segment (segs : list SegmentModel) (key : Z) : option SegmentModel :=
  match upper_bound segs key with
  | O => head segs
  | S it => segs !! it
  end.

(** [predict_index_range]: the returned flag with
    [(effective_min_idx, effective_max_idx)]. *)
Definition predict_index_range (idx : LearnedIndex) (key : Z) : bool * (Z * Z) :=
  if decide (model_trained_ idx = false ∨ segments_ idx = [] ∨ total_keys_trained_on_ idx = 0)
  then
    (false,
     (0, to_int (if decide (total_keys_trained_on_ idx > 0)
                 then total_keys_trained_on_ idx - 1 else 0)))
  else if decide (key < min_overall_key_ idx ∨ key > max_overall_key_ idx) then
    (true, (1, 0))
  else
    match chosen_segment (segments_ idx) key with
    | Some seg => (true, predict_bounds seg key (total_keys_trained_on_ idx))
    | None => (true, (1, 0))
    end.

Lemma upper_bound_spec (segs : list SegmentModel) (key : Z) :
  (∀ j s, (j < upper_bound segs key)%nat → segs !! j = Some s → first_key s ≤ key)
  ∧ (∀ s, segs !! upper_bound segs key = Some s → key < first_key s).
Proof.
  induction segs as [|seg segs [IH1 IH2]]; cbn [upper_bound].
  { split; [lia|done]. }
  case_decide as Hk.
  - split; [lia|]. by intros s [= <-].
  - split; [|done]. intros [|j] s Hj; [intros [= <-]; lia|]. apply IH1. lia.
Qed.

Lemma segment_at_fields (keys : list Z) (S j : Z) :
  let N := Z.of_nat (length keys) in
  first_key (segment_at keys S j) = keys !!! Z.to_nat (j * N / S)
  ∧ start_index_global (segment_at keys S j) = j * N / S
  ∧ num_keys_in_segment (segment_at keys S j) = (j + 1) * N / S - j * N / S.
Proof. unfold segment_at. by destruct (fit _ _) as [[s i] e]. Qed.

Lemma train_segments (idx : LearnedIndex) (sorted_keys : list Z) :
  let N := Z.of_nat (length sorted_keys) in
  let S := segment_count N in
  sorted_keys ≠ [] → N < 2 ^ 36 →
  0 < S ≤ N
  ∧ segments_ (train idx sorted_keys) = (segment_at sorted_keys S <$> seqZ 0 S)
  ∧ model_trained_ (train idx sorted_keys) = true.
Proof.
  intros N S Hne Hlt.
  assert (0 < N) as HN by (subst N; destruct sorted_keys; simpl; [done|lia]).
  pose proof (segment_count_bounds N HN) as HS. fold S in HS.
  assert (N * S < 2 ^ 64) as Hwrap.
  { assert (S ≤ 2 ^ 28); [|nia].
    subst S. unfold segment_count. case_decide; [lia|].
    assert ((N + 255) / 256 < 2 ^ 28 + 1); [|lia].
    apply Z.div_lt_upper_bound; lia. }
  destruct (train_unfold idx sorted_keys Hne) as [Hsegs Htr]. fold N in Hsegs.
  rewrite num_segments_of_eq in Hsegs by lia. fold S in Hsegs.
  rewrite train_loop_spec in Hsegs by (fold N; lia).
  rewrite Z2Nat.id in Hsegs by lia. simpl in Hsegs.
  split; [done|]. split; [done|].
  rewrite Htr. apply bool_decide_eq_true. intros Hnil.
  rewrite Hnil in Hsegs. symmetry in Hsegs. apply fmap_nil_inv in Hsegs.
  apply (f_equal length) in Hsegs. rewrite length_seqZ in Hsegs. simpl in Hsegs. lia.
Qed.

Lemma train_fields (idx : LearnedIndex) (sorted_keys : list Z) :
  sorted_keys ≠ [] →
  head sorted_keys = Some (min_overall_key_ (train idx sorted_keys))
  ∧ last sorted_keys = Some (max_overall_key_ (train idx sorted_keys))
  ∧ total_keys_trained_on_ (train idx sorted_keys) = Z.of_nat (length sorted_keys).
Proof.
  intros Hne. destruct sorted_keys as [|front rest]; [done|].
  split; [done|]. split; [|done]. cbn [train max_overall_key_].
  rewrite last_lookup.
  replace (length (front :: rest) - 1)%nat with (Nat.pred (length (front :: rest)))
    by (simpl; lia).
  apply list_lookup_lookup_total_lt. simpl. lia.
Qed.

Lemma sorted_lookup_lt (keys : list Z) (a b : nat) (x y : Z) :
  StronglySorted Z.lt keys → keys !! a = Some x → keys !! b = Some y →
  (a < b)%nat → x < y.
Proof.
  intros Hs. revert a b. induction Hs as [|k keys Hs IH Hall]; intros a b Ha Hb Hab; [done|].
  destruct b as [|b]; [lia|]. simpl in Hb. destruct a as [|a].
  - injection Ha as <-. rewrite Forall_forall in Hall.
    apply Hall. by apply list_elem_of_lookup_2 in Hb.
  - simpl in Ha. apply (IH a b); [done..|lia].
Qed.

(** An index trained on no key makes no prediction and hands back the
    range [[0, 0]]; an index trained on keys answers a key below the
    first or above the last of them with the empty range [[1, 0]]. *)
Theorem predict_outside_training (idx : LearnedIndex) (sorted_keys : list Z)
    (lo hi key : Z) :
  head sorted_keys = Some lo → last sorted_keys = Some hi →
  Z.of_nat (length sorted_keys) < 2 ^ 36 →
  key < lo ∨ hi < key →
  predict_index_range (train idx []) key = (false, (0, 0))
  ∧ predict_index_range (train idx sorted_keys) key = (true, (1, 0)).
Proof.
  intros Hlo Hhi Hlt Hout. split.
  { unfold predict_index_range. cbn [train model_trained_]. by rewrite decide_True by auto. }
  assert (sorted_keys ≠ []) as Hne by (intros ->; done).
  destruct (train_segments idx sorted_keys Hne Hlt) as (HS & Hsegs & Htr).
  destruct (train_fields idx sorted_keys Hne) as (Hmin & Hmax & Htot).
  rewrite Hlo in Hmin. injection Hmin as Hmin. rewrite Hhi in Hmax. injection Hmax as Hmax.
  unfold predict_index_range. rewrite Htr, Hsegs, Htot.
  rewrite decide_False.
  - rewrite decide_True; [done|]. lia.
  - intros [?|[Hnil|?]]; [done| |lia].
    apply fmap_nil_inv in Hnil. apply (f_equal length) in Hnil.
    rewrite length_seqZ in Hnil. simpl in Hnil. lia.
Qed.

(** On strictly ascending keys the segment chosen for a trained key is
    the one that was trained on it: the position of the key lies within
    [start_index_global, start_index_global + num_keys_in_segment), and
    the bounds returned are computed from that segment. *)
Theorem chosen_segment_holds_key (idx : LearnedIndex) (sorted_keys : list Z)
    (i : nat) (key : Z) :
  StronglySorted Z.lt sorted_keys → Z.of_nat (length sorted_keys) < 2 ^ 36 →
  sorted_keys !! i = Some key →
  ∃ seg,
    chosen_segment (segments_ (train idx sorted_keys)) key = Some seg
    ∧ seg ∈ segments_ (train idx sorted_keys)
    ∧ first_key seg ≤ key
    ∧ start_index_global seg ≤ Z.of_nat i
      < start_index_global seg + num_keys_in_segment seg
    ∧ predict_index_range (train idx sorted_keys) key
      = (true, predict_bounds seg key (Z.of_nat (length sorted_keys))).
Proof.
  intros Hsorted Hlt Hi.
  assert (sorted_keys ≠ []) as Hne by (intros ->; done).
  destruct (train_segments idx sorted_keys Hne Hlt) as (HS & Hsegs & Htr).
  destruct (train_fields idx sorted_keys Hne) as (Hmin & Hmax & Htot).
  set (N := Z.of_nat (length sorted_keys)) in *. set (S := segment_count N) in *.
  set (segs := segments_ (train idx sorted_keys)) in *.
  pose proof (lookup_lt_Some _ _ _ Hi) as HiN.
  assert (∀ j, 0 ≤ j < S → segs !! Z.to_nat j = Some (segment_at sorted_keys S j)) as Hseg.
  { intros j Hj. rewrite Hsegs, list_lookup_fmap.
    rewrite (proj2 (lookup_seqZ 0 S (Z.to_nat j) j)); [done|lia]. }
  assert (length segs = Z.to_nat S) as Hlen.
  { by rewrite Hsegs, length_fmap, length_seqZ. }
  (* keys at the cut points *)
  assert (∀ j, 0 ≤ j < S →
            sorted_keys !! Z.to_nat (j * N / S)
            = Some (first_key (segment_at sorted_keys S j))) as Hfirst.
  { intros j Hj. destruct (seg_bounds N S j HS Hj) as (Ha & Hn & Hb).
    destruct (segment_at_fields sorted_keys S j) as (-> & _).
    apply list_lookup_lookup_total_lt. fold N. lia. }
  destruct (upper_bound_spec segs key) as [Hbelow Habove].
  destruct (upper_bound segs key) as [|it] eqn:Hub.
  { (* the first segment starts at the first key, which is not above [key] *)
    exfalso. pose proof (Hseg 0 ltac:(lia)) as H0. simpl in H0.
    apply Habove in H0. pose proof (Hfirst 0 ltac:(lia)) as Hf0.
    rewrite Z.mul_0_l, Z.div_0_l in Hf0 by lia. change (Z.to_nat 0) with O in Hf0.
    destruct i as [|i]; [rewrite Hi in Hf0; injection Hf0 as Hf0; lia|].
    pose proof (sorted_lookup_lt sorted_keys 0 (Datatypes.S i) _ _ Hsorted Hf0 Hi ltac:(lia)).
    lia. }
  assert (it < length segs)%nat as Hit.
  { destruct (decide (it < length segs)%nat) as [|Hge]; [done|]. exfalso.
    assert (∀ segs' key', (upper_bound segs' key' ≤ length segs')%nat) as Hle.
    { clear. intros segs' key'. induction segs' as [|s segs' IH]; cbn [upper_bound length];
        [lia|case_decide; lia]. }
    specialize (Hle segs key). lia. }
  set (j := Z.of_nat it).
  assert (0 ≤ j < S) as Hj by lia.
  pose proof (Hseg j Hj) as Hsj. unfold j in Hsj. rewrite Nat2Z.id in Hsj. fold j in Hsj.
  exists (segment_at sorted_keys S j).
  destruct (seg_bounds N S j HS Hj) as (Ha & Hn & Hb).
  destruct (segment_at_fields sorted_keys S j) as (Hfk & Hst & Hnum). fold N in Hfk, Hst, Hnum.
  assert (first_key (segment_at sorted_keys S j) ≤ key) as Hle.
  { apply (Hbelow it); [lia|done]. }
  assert (chosen_segment segs key = Some (segment_at sorted_keys S j)) as Hch.
  { unfold chosen_segment. by rewrite Hub. }
  split; [done|]. split; [by apply list_elem_of_lookup_2 in Hsj|]. split; [done|].
  assert (j * N / S ≤ Z.of_nat i < (j + 1) * N / S) as Hrange.
  { split.
    - destruct (decide (j * N / S ≤ Z.of_nat i)) as [|Hgt]; [done|]. exfalso.
      pose proof (sorted_lookup_lt sorted_keys i (Z.to_nat (j * N / S)) _ _ Hsorted Hi
                    (Hfirst j Hj) ltac:(lia)). lia.
    - destruct (decide (j + 1 < S)) as [Hnext|Hlast].
      + pose proof (Hseg (j + 1) ltac:(lia)) as Hs1.
        replace (Z.to_nat (j + 1)) with (Datatypes.S it) in Hs1 by lia.
        apply Habove in Hs1.
        destruct (decide (Z.of_nat i < (j + 1) * N / S)) as [|Hge]; [done|]. exfalso.
        pose proof (Hfirst (j + 1) ltac:(lia)) as Hf1.
        destruct (decide (Z.to_nat ((j + 1) * N / S) = i)) as [Heq|Hneq].
        * rewrite Heq, Hi in Hf1. injection Hf1 as Hf1. lia.
        * pose proof (sorted_lookup_lt sorted_keys (Z.to_nat ((j + 1) * N / S)) i _ _
                        Hsorted Hf1 Hi ltac:(lia)). lia.
      + replace (j + 1) with S by lia. rewrite Z.mul_comm, Z.div_mul by lia. lia. }
  split; [lia|].
  unfold predict_index_range. fold segs. rewrite Htr, Htot. fold N.
  rewrite decide_False.
  - rewrite decide_False; [by rewrite Hch|].
    intros [Hk|Hk].
    + rewrite head_lookup in Hmin.
      destruct i as [|i]; [rewrite Hi in Hmin; injection Hmin as Hmin; lia|].
      pose proof (sorted_lookup_lt sorted_keys 0 (Datatypes.S i) _ _ Hsorted
                    Hmin Hi ltac:(lia)). lia.
    + rewrite last_lookup in Hmax.
      destruct (decide (i = Nat.pred (length sorted_keys))) as [->|Hnl].
      * rewrite Hi in Hmax. injection Hmax as Hmax. lia.
      * pose proof (sorted_lookup_lt sorted_keys i (Nat.pred (length sorted_keys)) _ _
                      Hsorted Hi Hmax ltac:(lia)). lia.
  - intros [?|[Hnil|?]]; [done| |lia]. rewrite Hnil in Hlen. simpl in Hlen. lia.
Qed.

End WithDoubles.
End Learned.

(** * The learned index in floating point
    ([src/old_implementation/lsm/learned_index.cpp]) *)

Module LearnedFloat.

(** [global.h] *)
Definition LEARNED_INDEX_MIN_KEYS_PER_SEGMENT_TRAINING : Z := 5.

(** The [double] nearest to the literal [1e-12]. *)
Definition literal_1e_12 : IEEE.float := SpecFloat.S754_finite false 4951760157141521 (-92).

Section WithLongDouble.

(** The format of [long double]; [double] is [binary64].  Every
    operation is rounded once to the type the source gives it (no fused
    multiply-add, no excess precision for [double]). *)
Variable long_double : IEEE.format.

Definition double : IEEE.format := IEEE.binary64.

Definition SegmentModel : Type := Learned.SegmentModel IEEE.float.
Definition LearnedIndex : Type := Learned.LearnedIndex IEEE.float.

(** The second loop of a branch of [train_linear_model]: the maximal
    absolute residual of the line over the training pairs. *)
Definition max_abs_error_loop (out_slope out_intercept : IEEE.float)
    (pairs : list (Z * Z)) : IEEE.float :=
  foldl (λ out_max_abs_error '(key, global_index),
           let predicted_idx :=
             IEEE.add double (IEEE.mul double out_slope (IEEE.of_Z double key))
                      out_intercept in
           IEEE.max out_max_abs_error
             (IEEE.abs (IEEE.sub double predicted_idx (IEEE.of_Z double global_index))))
        IEEE.zero pairs.

(** [train_linear_model] on [num_keys >= 1] keys: slope, intercept and
    maximal absolute error. *)
Definition fit (keys global_indices : list Z) : IEEE.float * IEEE.float * IEEE.float :=
  let num_keys := Z.of_nat (length keys) in
  if decide (num_keys < LEARNED_INDEX_MIN_KEYS_PER_SEGMENT_TRAINING ∧ num_keys > 0
             ∧ num_keys = 1) then
    (IEEE.zero, IEEE.of_Z double (global_indices !!! 0%nat), IEEE.zero)
  else
    let first_key_val := keys !!! 0%nat in
    let last_key_val := keys !!! Z.to_nat (num_keys - 1) in
    if decide (num_keys = 1 ∨ first_key_val = last_key_val) then
      let sum_global_indices :=
        foldl (λ sum i, IEEE.add long_double sum (IEEE.of_Z long_double i))
              IEEE.zero global_indices in
      let out_intercept :=
        IEEE.convert double
          (IEEE.div long_double sum_global_indices (IEEE.of_Z long_double num_keys)) in
      (IEEE.zero, out_intercept,
       max_abs_error_loop IEEE.zero out_intercept (zip keys global_indices))
    else
      let '(sum_x, sum_y, sum_xy, sum_x_sq) :=
        foldl (λ '(sum_x, sum_y, sum_xy, sum_x_sq) '(key, global_index),
                 let x := IEEE.of_Z long_double key in
                 let y := IEEE.of_Z long_double global_index in
                 (IEEE.add long_double sum_x x,
                  IEEE.add long_double sum_y y,
                  IEEE.add long_double sum_xy (IEEE.mul long_double x y),
                  IEEE.add long_double sum_x_sq (IEEE.mul long_double x x)))
              (IEEE.zero, IEEE.zero, IEEE.zero, IEEE.zero) (zip keys global_indices) in
      let N_ld := IEEE.of_Z long_double num_keys in
      let slope_denominator :=
        IEEE.sub long_double (IEEE.mul long_double N_ld sum_x_sq)
                 (IEEE.mul long_double sum_x sum_x) in
      let '(out_slope, out_intercept) :=
        if IEEE.ltb (IEEE.abs slope_denominator) (IEEE.convert long_double literal_1e_12)
        then (IEEE.zero, IEEE.convert double (IEEE.div long_double sum_y N_ld))
        else
          let out_slope :=
            IEEE.convert double
              (IEEE.div long_double
                 (IEEE.sub long_double (IEEE.mul long_double N_ld sum_xy)
                           (IEEE.mul long_double sum_x sum_y))
                 slope_denominator) in
          (out_slope,
           IEEE.convert double
             (IEEE.div long_double
                (IEEE.sub long_double sum_y
                   (IEEE.mul long_double (IEEE.convert long_double out_slope) sum_x))
                N_ld)) in
      (out_slope, out_intercept,
       max_abs_error_loop out_slope out_intercept (zip keys global_indices)).

(** The last five statements of [predict_index_range].  A [double]
    outside the range of [int] makes the cast undefined; [to_int] wraps
    it. *)
Definition predict_bounds (chosen_segment : SegmentModel) (key total_keys_trained_on_ : Z) :
    Z * Z :=
  let predicted_idx_double :=
    IEEE.add double
      (IEEE.mul double (Learned.slope _ chosen_segment) (IEEE.of_Z double key))
      (Learned.intercept _ chosen_segment) in
  let error_bound := Learned.max_abs_error _ chosen_segment in
  let lower_bound_on_i := IEEE.sub double predicted_idx_double error_bound in
  let upper_bound_on_i := IEEE.add double predicted_idx_double error_bound in
  (Learned.to_int (IEEE.ceil (IEEE.max IEEE.zero lower_bound_on_i)),
   Learned.to_int
     (IEEE.floor (IEEE.min (IEEE.of_Z double (u64 (total_keys_trained_on_ - 1)))
                           upper_bound_on_i))).

(** [LearnedIndex::train] and [LearnedIndex::predict_index_range] with
    the arithmetic above. *)
Definition train (sorted_keys : list Z) : LearnedIndex :=
  Learned.train IEEE.float fit (Learned.empty_index IEEE.float) sorted_keys.

Definition predict_index_range (idx : LearnedIndex) (key : Z) : bool * (Z * Z) :=
  Learned.predict_index_range IEEE.float predict_bounds idx key.

End WithLongDouble.
End LearnedFloat.

(** Twelve sorted keys; 6 is at position 1. *)
Definition trained_keys : list Z := [2; 6; 54; 67; 84; 105; 107; 124; 134; 140; 155; 180].

(** C8 (the code at the failing input).  An index trained on
    [trained_keys] has one segment.  Key 6, at position 1, is the key of
    the largest residual: its prediction [p] is about [-0.2019] and the
    training loop stores [max_abs_error = 1 - p] rounded to [double],
    which rounds downwards.  [predict_index_range(6)] computes the same
    [p], and [p + max_abs_error] rounds to [1 - 2^-53]; its floor is 0,
    so the range returned is [[0, 0]] and position 1 is outside.  The
    result is the same for the three formats [long double] can have. *)
Theorem predict_misses_trained_key :
  trained_keys !! 1%nat = Some 6
  ∧ Learned.segments_ _ (LearnedFloat.train IEEE.x87_extended trained_keys)
    = [Learned.mkSegment _ 2
         (SpecFloat.S754_finite false 4539930530826803 (-56))
         (SpecFloat.S754_finite true 5223316127022855 (-53))
         (SpecFloat.S754_finite false 5412783741821872 (-52))
         0 12]
  ∧ (let p := IEEE.add IEEE.binary64
                (IEEE.mul IEEE.binary64 (SpecFloat.S754_finite false 4539930530826803 (-56))
                          (IEEE.of_Z IEEE.binary64 6))
                (SpecFloat.S754_finite true 5223316127022855 (-53)) in
     IEEE.add IEEE.binary64 p (SpecFloat.S754_finite false 5412783741821872 (-52))
     = SpecFloat.S754_finite false (2 ^ 53 - 1) (-53))
  ∧ LearnedFloat.predict_index_range
      (LearnedFloat.train IEEE.x87_extended trained_keys) 6 = (true, (0, 0))
  ∧ LearnedFloat.predict_index_range
      (LearnedFloat.train IEEE.binary64 trained_keys) 6 = (true, (0, 0))
  ∧ LearnedFloat.predict_index_range
      (LearnedFloat.train IEEE.binary128 trained_keys) 6 = (true, (0, 0)).
Proof. vm_compute. done. Qed.


(** A run on three keys, with the floating-point results erased to [unit]. *)
Lemma train_segmentation_witness :
  let keys := [5; 7; 9] in
  keys ≠ [] ∧ Z.of_nat (length keys) < 2 ^ 36
  ∧ Z.of_nat (length (Learned.segments_ unit
       (Learned.train unit (λ _ _, (tt, tt, tt)) (Learned.empty_index unit) keys)))
    = Learned.segment_count 3.
Proof.
  intros keys. split; [done|]. split; [simpl; lia|].
  apply (Learned.train_segmentation unit (λ _ _, (tt, tt, tt))
           (Learned.empty_index unit) keys); [done | simpl; lia].
Defined.

(** With 300 keys the code trains one segment, not [⌈300/256⌉ = 2]: below
    [LEARNED_INDEX_MIN_KEYS_FOR_MULTISEGMENT] the vector is never cut. *)
Lemma train_segmentation_counterexample :
  Z.of_nat (length (Learned.segments_ unit
     (Learned.train unit (λ _ _, (tt, tt, tt)) (Learned.empty_index unit) (seqZ 0 300))))
  ≠ (300 + 256 - 1) / 256.
Proof. vm_compute. discriminate. Qed.

(** * The SSTable of [src/lsm/SSTables.h] *)

Module LSMCurrent.

(** [src/lsm/global.h] *)
Definition TOMBSTONE_VALUE : string := "%%__TOMBSTONE__%%".
Definition UINT64_MAX : Z := 2 ^ 64 - 1.

Section WithEnv.

(** The order in which a [tbb::concurrent_hash_map] is iterated. *)
Variable iter : gmap Z string → list (Z * string).

Record SSTable := mkSSTable {
  id : Z;
  min_key : Z;
  max_key : Z;
  data : gmap Z string;
  entry_count : Z
}.

Definition SSTable_new (i min_k max_k : Z) (d : gmap Z string) : SSTable :=
  mkSSTable i min_k max_k d (Z.of_nat (size d)).

Definition find_key (s : SSTable) (key : Z) : option string :=
  match data s !! key with
  | Some v => if decide (v = TOMBSTONE_VALUE) then None else Some v
  | None => None
  end.

(** The body of the second loop, "Find min and max key". *)
Definition widen (st : Z * Z) (kv : Z * string) : Z * Z :=
  let '(min_k, max_k) := st in
  (if decide (kv.1 < min_k) then kv.1 else min_k,
   if decide (kv.1 > max_k) then kv.1 else max_k).

Definition create_from_memtable (memtable_data_to_copy : gmap Z string)
    (sstable_id : Z) : option SSTable :=
  if decide (memtable_data_to_copy = ∅) then None
  else
    let tbbmap :=
      foldl (λ m kv, <[kv.1 := kv.2]> m) ∅ (iter memtable_data_to_copy) in
    let '(min_k, max_k) := foldl widen (UINT64_MAX, 0) (iter tbbmap) in
    Some (SSTable_new sstable_id min_k max_k tbbmap).

End WithEnv.
End LSMCurrent.

(** * LSM tree ([src/old_implementation/lsm]) *)

Module LSM.

(** [global.h] *)
Definition TOMBSTONE_VALUE : string := "%%__TOMBSTONE__%%".
Definition UINT64_MAX : Z := 2 ^ 64 - 1.

Section WithEnv.

(** The environment the engine is compiled against:
    - [std_hash]: [std::hash<uint64_t>];
    - [iter]: the order in which a [tbb::concurrent_hash_map] hands out its
      entries to a range-for loop, some enumeration of the entries;
    - [scale_entries n]: [static_cast<size_t>(n * level_entry_multiplier_)],
      a product taken in [double]. *)
Variable std_hash : Z → Z.
Variable iter : gmap Z string → list (Z * string).
Variable scale_entries : Z → Z.
Hypothesis iter_perm : ∀ m, iter m ≡ₚ map_to_list m.

(** ** SSTables.h *)

Record SSTable := mkSSTable {
  id : Z;
  min_key : Z;
  max_key : Z;
  data : gmap Z string;
  entry_count : Z;
  bloom : Bloom.RegisterBlockedBloomFilter
}.

(** The constructor: [entry_count(data.size())], [bloom(512, 7)], then one
    [bloom.Insert] per entry.  [ENABLE_LEARNED_INDEX] is 0 in [global.h],
    so no learned index is built or consulted. *)
Definition SSTable_new (i min_k max_k : Z) (d : gmap Z string) : SSTable :=
  mkSSTable i min_k max_k d (Z.of_nat (size d))
    (foldl (Bloom.Insert std_hash) (Bloom.new 512 7) ((iter d).*1)).

Definition find_key (s : SSTable) (key : Z) : option string :=
  if decide (key < min_key s ∨ key > max_key s) then None
  else if negb (Bloom.Query std_hash (bloom s) key) then None
  else match data s !! key with
       | Some v => if decide (v = TOMBSTONE_VALUE) then None else Some v
       | None => None
       end.

(** The loop body of [create_from_memtable]; the state is
    [(tbbmap, min_k, max_k, first_key)]. *)
Definition copy_entry (st : gmap Z string * Z * Z * bool) (kv : Z * string) :
    gmap Z string * Z * Z * bool :=
  let '(tbbmap, min_k, max_k, first_key) := st in
  let tbbmap := <[kv.1 := kv.2]> tbbmap in
  if first_key then (tbbmap, kv.1, kv.1, false)
  else (tbbmap, Z.min min_k kv.1, Z.max max_k kv.1, false).

(** [nullptr] is [None]. *)
Definition create_from_memtable (memtable_data_to_copy : gmap Z string)
    (sstable_id : Z) : option SSTable :=
  if decide (memtable_data_to_copy = ∅) then None
  else
    let '(tbbmap, min_k, max_k, _) :=
      foldl copy_entry (∅, UINT64_MAX, 0, true) (iter memtable_data_to_copy) in
    if decide (tbbmap = ∅) then None
    else Some (SSTable_new sstable_id min_k max_k tbbmap).

(** ** lsm_tree.h *)

Record LSMTree := mkLSM {
  active_memtable_ : option (gmap Z string);
  immutable_memtables_ : list (gmap Z string);
  levels_ : list (list SSTable);
  next_sstable_id_ : Z;
  memtable_max_size_entries_ : Z;
  max_level0_sstables_ : Z;
  max_levels_ : Z;
  sstable_target_entry_count_ : Z
}.

Definition LSMTree_new (memtable_max_entries l0_max_sstables num_levels
    sstable_target_entries : Z) : LSMTree :=
  mkLSM (Some ∅) [] (replicate (Z.to_nat num_levels) []) 0
        memtable_max_entries l0_max_sstables num_levels sstable_target_entries.

Definition set_active (t : LSMTree) (a : option (gmap Z string)) : LSMTree :=
  mkLSM a (immutable_memtables_ t) (levels_ t) (next_sstable_id_ t)
        (memtable_max_size_entries_ t) (max_level0_sstables_ t) (max_levels_ t)
        (sstable_target_entry_count_ t).

Definition set_immutables (t : LSMTree) (q : list (gmap Z string)) : LSMTree :=
  mkLSM (active_memtable_ t) q (levels_ t) (next_sstable_id_ t)
        (memtable_max_size_entries_ t) (max_level0_sstables_ t) (max_levels_ t)
        (sstable_target_entry_count_ t).

Definition set_levels (t : LSMTree) (ls : list (list SSTable)) (next_id : Z) : LSMTree :=
  mkLSM (active_memtable_ t) (immutable_memtables_ t) ls next_id
        (memtable_max_size_entries_ t) (max_level0_sstables_ t) (max_levels_ t)
        (sstable_target_entry_count_ t).

(** What a memtable says about [key]: [None] when it has no entry,
    [Some None] for a tombstone ([return false]), [Some (Some v)] for a
    value ([return true]). *)
Definition memtable_find (mt : gmap Z string) (key : Z) : option (option string) :=
  match mt !! key with
  | Some v => Some (if decide (v = TOMBSTONE_VALUE) then None else Some v)
  | None => None
  end.

(** Step 2 of [get], over the queue already reversed (newest first). *)
Fixpoint scan_memtables (mts : list (gmap Z string)) (key : Z) : option (option string) :=
  match mts with
  | [] => None
  | mt :: rest =>
      match memtable_find mt key with
      | Some r => Some r
      | None => scan_memtables rest key
      end
  end.

(** The L0 loop of [get], over level 0 already reversed (newest first). *)
Fixpoint scan_level0 (ssts : list SSTable) (key : Z) : option string :=
  match ssts with
  | [] => None
  | sstable :: rest =>
      if decide (key >= min_key sstable ∧ key <= max_key sstable) then
        match find_key sstable key with
        | Some v => Some v
        | None => scan_level0 rest key
        end
      else scan_level0 rest key
  end.

(** The loop over one level [i >= 1]; [is_front] tells whether the
    SSTable at hand is [current_level_sstables.front()].  [None] is both
    "loop ran out" and [break]: either way [get] goes on to the next
    level. *)
Fixpoint scan_level (ssts : list SSTable) (is_front : bool) (key : Z) : option string :=
  match ssts with
  | [] => None
  | sstable :: rest =>
      if decide (key >= min_key sstable ∧ key <= max_key sstable) then
        match find_key sstable key with
        | Some v => Some v
        | None => scan_level rest false key
        end
      else if decide (min_key sstable > key) then
        if is_front then scan_level rest false key else None
      else scan_level rest false key
  end.

Fixpoint scan_levels (levels : list (list SSTable)) (key : Z) : option string :=
  match levels with
  | [] => None
  | current_level_sstables :: deeper =>
      match scan_level current_level_sstables true key with
      | Some v => Some v
      | None => scan_levels deeper key
      end
  end.

(** [LSMTree::get]: [Some v] for [return true] with [value = v], [None]
    for [return false]. *)
Definition get (t : LSMTree) (key : Z) : option string :=
  match active_memtable_ t ≫= (λ mt, memtable_find mt key) with
  | Some r => r
  | None =>
      match scan_memtables (reverse (immutable_memtables_ t)) key with
      | Some r => r
      | None =>
          match levels_ t with
          | [] => None
          | level0_sstables :: deeper =>
              match scan_level0 (reverse level0_sstables) key with
              | Some v => Some v
              | None => scan_levels deeper key
              end
          end
      end
  end.

Definition schedule_flush_active_memtable (t : LSMTree) : LSMTree :=
  match active_memtable_ t with
  | Some old_active =>
      if decide (Z.of_nat (size old_active) >= memtable_max_size_entries_ t) then
        set_immutables (set_active t (Some ∅)) (immutable_memtables_ t ++ [old_active])
      else t
  | None => t
  end.

Definition put (t : LSMTree) (key : Z) (value : string) : LSMTree :=
  let active := <[key := value]> (default ∅ (active_memtable_ t)) in
  let t := set_active t (Some active) in
  if decide (Z.of_nat (size active) >= memtable_max_size_entries_ t) then
    schedule_flush_active_memtable t
  else t.

Definition del (t : LSMTree) (key : Z) : LSMTree := put t key TOMBSTONE_VALUE.

(** [std::sort] of level 0 by [id], of a deeper level by [(min_key, id)]. *)
Definition by_id (a b : SSTable) : Prop := id a ≤ id b.
Definition by_min_key (a b : SSTable) : Prop :=
  min_key a < min_key b ∨ (min_key a = min_key b ∧ id a ≤ id b).

Global Instance by_id_dec a b : Decision (by_id a b).
Proof. unfold by_id. apply _. Defined.
Global Instance by_min_key_dec a b : Decision (by_min_key a b).
Proof. unfold by_min_key. apply _. Defined.

Definition flush_memtable_to_l0 (t : LSMTree) (memtable_data : gmap Z string) : LSMTree :=
  if decide (memtable_data = ∅) then t
  else
    let current_sstable_id := next_sstable_id_ t in
    let next_id := u64 (next_sstable_id_ t + 1) in
    match create_from_memtable memtable_data current_sstable_id with
    | Some new_sstable =>
        set_levels t
          (alter (λ l0, merge_sort by_id (l0 ++ [new_sstable])) 0%nat (levels_ t))
          next_id
    | None => set_levels t (levels_ t) next_id
    end.

(** One completed turn of [flush_worker_loop] that finds the queue
    non-empty: the net effect of [flush_worker_take] followed by
    [flush_memtable_to_l0] ([flush_worker_step_take]).  The two halves
    hold different locks, and a reader can run between them. *)
Definition flush_worker_step (t : LSMTree) : LSMTree :=
  match immutable_memtables_ t with
  | [] => t
  | memtable_to_flush :: rest =>
      flush_memtable_to_l0 (set_immutables t rest) memtable_to_flush
  end.

(** The first half of such a turn: under [immutable_memtables_mutex_]
    the front memtable is moved out of the queue and erased from it.
    From then until [flush_memtable_to_l0] has pushed the SSTable to
    level 0, the worker alone holds the memtable ([memtable_to_flush]);
    the tree is in the state returned here. *)
Definition flush_worker_take (t : LSMTree) : option (gmap Z string) * LSMTree :=
  match immutable_memtables_ t with
  | [] => (None, t)
  | memtable_to_flush :: rest => (Some memtable_to_flush, set_immutables t rest)
  end.

Definition level_total_entries (ssts : list SSTable) : Z :=
  foldl (λ total sst, u64 (total + entry_count sst)) 0 ssts.

Definition get_level_total_entries (t : LSMTree) (level_idx : Z) : Z :=
  if decide (level_idx < 0 ∨ level_idx >= Z.of_nat (length (levels_ t))) then 0
  else level_total_entries (levels_ t !!! Z.to_nat level_idx).

Definition get_max_entries_for_level (t : LSMTree) (level_idx : Z) : Z :=
  if decide (level_idx < 0) then 0
  else
    let max_l0_entries := u64 (max_level0_sstables_ t * sstable_target_entry_count_ t) in
    if decide (level_idx = 0) then max_l0_entries
    else Nat.iter (Z.to_nat level_idx) scale_entries max_l0_entries.

Definition find_overlapping_sstables_nolock (t : LSMTree)
    (source_ssts : list SSTable) (target_level_idx : Z) : list SSTable :=
  match source_ssts with
  | [] => []
  | front :: _ =>
      if decide (target_level_idx < 0 ∨ target_level_idx >= max_levels_ t) then []
      else
        let '(overall_min_key, overall_max_key) :=
          foldl (λ '(lo, hi) sst,
                   (if decide (min_key sst < lo) then min_key sst else lo,
                    if decide (max_key sst > hi) then max_key sst else hi))
                (min_key front, max_key front) source_ssts in
        filter (λ sst, min_key sst <= overall_max_key ∧ max_key sst >= overall_min_key)
               (levels_ t !!! Z.to_nat target_level_idx)
  end.

(** [load_map_from_sst_list]: later inserts overwrite earlier ones. *)
Definition load_map_from_sst_list (merged_data_map : gmap Z string)
    (sst_list_to_load : list SSTable) : gmap Z string :=
  foldl (λ m sst_ptr, foldl (λ m pair, <[pair.1 := pair.2]> m) m (iter (data sst_ptr)))
        merged_data_map sst_list_to_load.

Definition strip_tombstones (merged_data_map : gmap Z string) : gmap Z string :=
  let keys_to_erase :=
    (filter (λ kv, kv.2 = TOMBSTONE_VALUE) (iter merged_data_map)).*1 in
  foldl (λ m k, delete k m) merged_data_map keys_to_erase.

(** The partitioning loop; the state is
    [(current_sstable_build_data, new_ssts_for_target, next_sstable_id_)]. *)
Definition partition_entry (target_entry_count : Z)
    (st : gmap Z string * list SSTable * Z) (pair : Z * string) :
    gmap Z string * list SSTable * Z :=
  let '(current_sstable_build_data, new_ssts_for_target, next_id) := st in
  let current_sstable_build_data := <[pair.1 := pair.2]> current_sstable_build_data in
  if decide (Z.of_nat (size current_sstable_build_data) >= target_entry_count) then
    (∅,
     new_ssts_for_target
       ++ option_list (create_from_memtable current_sstable_build_data next_id),
     u64 (next_id + 1))
  else (current_sstable_build_data, new_ssts_for_target, next_id).

(** The SSTables a compaction builds for the target level, and the id
    counter afterwards. *)
Definition build_new_ssts (t : LSMTree)
    (ssts_from_source ssts_from_target_overlap : list SSTable) : list SSTable * Z :=
  let merged_data_map :=
    strip_tombstones
      (load_map_from_sst_list (load_map_from_sst_list ∅ ssts_from_target_overlap)
                              ssts_from_source) in
  if decide (merged_data_map = ∅) then ([], next_sstable_id_ t)
  else
    let '(current_sstable_build_data, new_ssts_for_target, next_id) :=
      foldl (partition_entry (sstable_target_entry_count_ t))
            (∅, [], next_sstable_id_ t) (iter merged_data_map) in
    if decide (current_sstable_build_data = ∅) then (new_ssts_for_target, next_id)
    else (new_ssts_for_target
            ++ option_list (create_from_memtable current_sstable_build_data next_id),
          u64 (next_id + 1)).

Definition remove_compacted_ssts (level_vec compacted_ssts : list SSTable) : list SSTable :=
  filter (λ sst_in_level, ¬ Exists (λ sst_to_remove, id sst_to_remove = id sst_in_level)
                                   compacted_ssts) level_vec.

Definition compact_sstables (t : LSMTree) (source_level_idx : Z)
    (ssts_from_source ssts_from_target_overlap : list SSTable) : LSMTree :=
  match ssts_from_source with
  | [] => t
  | _ =>
      let target_level_idx := source_level_idx + 1 in
      if decide (target_level_idx >= max_levels_ t) then t
      else
        let '(new_ssts_for_target, next_id) :=
          build_new_ssts t ssts_from_source ssts_from_target_overlap in
        let levels :=
          alter (λ level_vec, remove_compacted_ssts level_vec ssts_from_source)
                (Z.to_nat source_level_idx) (levels_ t) in
        let levels :=
          alter (λ level_vec,
                   merge_sort by_min_key
                     (remove_compacted_ssts level_vec ssts_from_target_overlap
                        ++ new_ssts_for_target))
                (Z.to_nat target_level_idx) levels in
        set_levels t levels next_id
  end.

(** The [for] loop of [perform_compaction_check], from level [i], for
    [cnt] more levels. *)
Fixpoint compaction_scan (t : LSMTree) (i : Z) (cnt : nat) : LSMTree :=
  match cnt with
  | O => t
  | S cnt' =>
      if decide (get_level_total_entries t i > get_max_entries_for_level t i) then
        let li_ssts := levels_ t !!! Z.to_nat i in
        compact_sstables t i li_ssts (find_overlapping_sstables_nolock t li_ssts (i + 1))
      else compaction_scan t (i + 1) cnt'
  end.

Definition perform_compaction_check (t : LSMTree) : LSMTree :=
  let l0_ssts := levels_ t !!! 0%nat in
  if decide (Z.of_nat (length l0_ssts) > max_level0_sstables_ t) then
    let l1_overlap_ssts :=
      if decide (max_levels_ t > 1) then find_overlapping_sstables_nolock t l0_ssts 1
      else [] in
    compact_sstables t 0 l0_ssts l1_overlap_ssts
  else compaction_scan t 0 (Z.to_nat (max_levels_ t - 1)).


(** ** Facts about the enumeration of a map *)

Lemma elem_of_iter (m : gmap Z string) (k : Z) (v : string) :
  (k, v) ∈ iter m ↔ m !! k = Some v.
Proof. rewrite iter_perm. apply elem_of_map_to_list. Qed.

Lemma NoDup_iter_keys (m : gmap Z string) : NoDup (iter m).*1.
Proof. rewrite iter_perm. apply NoDup_fst_map_to_list. Qed.

Lemma iter_nil (m : gmap Z string) : iter m = [] ↔ m = ∅.
Proof.
  split; intros H.
  - apply map_to_list_empty_iff. apply Permutation_nil_r. by rewrite <- iter_perm, H.
  - subst m. apply Permutation_nil_r. by rewrite iter_perm, map_to_list_empty.
Qed.

Definition insert_all (m : gmap Z string) (l : list (Z * string)) : gmap Z string :=
  foldl (λ m pair, <[pair.1 := pair.2]> m) m l.

Lemma insert_all_lookup (l : list (Z * string)) (m : gmap Z string) (k : Z) (v : string) :
  NoDup l.*1 →
  insert_all m l !! k = Some v ↔ (k, v) ∈ l ∨ ((k ∉ l.*1) ∧ m !! k = Some v).
Proof.
  revert m. induction l as [|[k' v'] l IH]; intros m Hnd; simpl.
  - split; [intros H; right; split; [apply not_elem_of_nil|done] | ].
    intros [H|[_ H]]; [by apply elem_of_nil in H | done].
  - apply NoDup_cons in Hnd as [Hk' Hnd]. rewrite (IH _ Hnd). clear IH.
    rewrite elem_of_cons, not_elem_of_cons. split.
    + intros [H|[Hnin H]]; [by left; right|].
      destruct (decide (k' = k)) as [->|Hne].
      * rewrite lookup_insert_eq in H. left; left. congruence.
      * rewrite lookup_insert_ne in H by done. right. split; [split|]; done.
    + intros [[H|H]|[[Hne Hnin] H]].
      * inversion H; subst. right. split; [done|]. apply lookup_insert_eq.
      * by left.
      * right. split; [done|]. by rewrite lookup_insert_ne.
Qed.

(** Copying a map entry by entry rebuilds the map. *)
Lemma insert_all_iter (m : gmap Z string) : insert_all ∅ (iter m) = m.
Proof.
  apply map_eq. intros k. apply option_eq. intros v.
  rewrite insert_all_lookup by apply NoDup_iter_keys.
  rewrite elem_of_iter, lookup_empty. split; [intros [H|[_ H]]; done | by left].
Qed.

(** ** [create_from_memtable] *)

Lemma copy_entries_spec (l : list (Z * string)) (m : gmap Z string) (lo hi : Z) (f : bool) :
  (f = false → ∀ k, is_Some (m !! k) → lo ≤ k ≤ hi) →
  (f = true → m = ∅) →
  ∃ lo' hi' f',
    foldl copy_entry (m, lo, hi, f) l = (insert_all m l, lo', hi', f')
    ∧ (f' = false → ∀ k, is_Some (insert_all m l !! k) → lo' ≤ k ≤ hi')
    ∧ (l ≠ [] → f' = false).
Proof.
  revert m lo hi f. induction l as [|[k v] l IH]; intros m lo hi f Hb He.
  - exists lo, hi, f. simpl. done.
  - simpl. destruct f.
    + edestruct (IH (<[k:=v]> m) k k false) as (lo' & hi' & f' & Heq & Hb' & Hf').
      * intros _ k0 Hk0. rewrite (He eq_refl) in Hk0.
        destruct (decide (k = k0)) as [->|Hne]; [lia|].
        rewrite lookup_insert_ne, lookup_empty in Hk0 by done. by destruct Hk0.
      * done.
      * exists lo', hi', f'. split; [done|]. split; [done|].
        intros _. destruct l; [simpl in Heq; congruence | by apply Hf'].
    + edestruct (IH (<[k:=v]> m) (Z.min lo k) (Z.max hi k) false)
        as (lo' & hi' & f' & Heq & Hb' & Hf').
      * intros _ k0 Hk0.
        destruct (decide (k = k0)) as [->|Hne]; [lia|].
        rewrite lookup_insert_ne in Hk0 by done.
        specialize (Hb eq_refl k0 Hk0). lia.
      * done.
      * exists lo', hi', f'. split; [done|]. split; [done|].
        intros _. destruct l; [simpl in Heq; congruence | by apply Hf'].
Qed.

Lemma create_from_memtable_spec (m : gmap Z string) (sstable_id : Z) :
  m ≠ ∅ →
  ∃ min_k max_k,
    create_from_memtable m sstable_id = Some (SSTable_new sstable_id min_k max_k m)
    ∧ ∀ k, is_Some (m !! k) → min_k ≤ k ≤ max_k.
Proof.
  intros Hne. unfold create_from_memtable. rewrite decide_False by done.
  destruct (copy_entries_spec (iter m) ∅ UINT64_MAX 0 true)
    as (lo & hi & f & Heq & Hb & Hf); [done..|].
  rewrite Heq, insert_all_iter in *. rewrite decide_False by done.
  exists lo, hi. split; [done|].
  apply Hb, Hf. by rewrite iter_nil.
Qed.

Lemma create_from_memtable_empty (sstable_id : Z) :
  create_from_memtable ∅ sstable_id = None.
Proof. unfold create_from_memtable. by rewrite decide_True. Qed.

Lemma create_from_memtable_Some (m : gmap Z string) (sstable_id : Z) (sst : SSTable) :
  create_from_memtable m sstable_id = Some sst →
  m ≠ ∅ ∧ id sst = sstable_id ∧ data sst = m
  ∧ ∀ k, is_Some (m !! k) → min_key sst ≤ k ≤ max_key sst.
Proof.
  intros H. destruct (decide (m = ∅)) as [->|Hne].
  - by rewrite create_from_memtable_empty in H.
  - destruct (create_from_memtable_spec m sstable_id Hne) as (lo & hi & Heq & Hb).
    rewrite Heq in H. injection H as <-. done.
Qed.


(** The min/max scan of [src/lsm/SSTables.h] over keys that are [uint64_t]. *)
Lemma widen_spec (l : list (Z * string)) (lo hi : Z) :
  ∃ lo' hi',
    foldl LSMCurrent.widen (lo, hi) l = (lo', hi')
    ∧ lo' ≤ lo ∧ hi ≤ hi'
    ∧ ∀ k, k ∈ l.*1 → lo' ≤ k ≤ hi'.
Proof.
  revert lo hi. induction l as [|[k v] l IH]; intros lo hi.
  - exists lo, hi. simpl. split; [done|]. split; [lia|]. split; [lia|].
    intros k Hk. by apply elem_of_nil in Hk.
  - simpl.
    destruct (IH (if decide (k < lo) then k else lo) (if decide (k > hi) then k else hi))
      as (lo' & hi' & Heq & Hlo & Hhi & Hb).
    exists lo', hi'. split; [done|].
    repeat case_decide; (split; [lia|]; split; [lia|]);
      intros k0 [->|Hk0]%elem_of_cons; try lia; by apply Hb.
Qed.

(** C10. An SSTable built by [create_from_memtable] from a non-empty map
    holds exactly the map's entries and every stored key lies in
    [[min_key, max_key]], so the range test that opens [find_key] rejects
    no stored key.  This holds for the constructor of
    [old_implementation/lsm/SSTables.h] and, over [uint64_t] keys, for the
    one of [src/lsm/SSTables.h]. *)
Theorem sstable_key_range (m : gmap Z string) (sstable_id : Z) :
  m ≠ ∅ →
  (∀ k, is_Some (m !! k) → 0 ≤ k ≤ UINT64_MAX) →
  (∃ sst, create_from_memtable m sstable_id = Some sst
     ∧ data sst = m
     ∧ (∀ k, is_Some (data sst !! k) → min_key sst ≤ k ≤ max_key sst)
     ∧ (∀ key, key < min_key sst ∨ key > max_key sst → data sst !! key = None))
  ∧ (∃ sst, LSMCurrent.create_from_memtable iter m sstable_id = Some sst
     ∧ LSMCurrent.data sst = m
     ∧ (∀ k, is_Some (LSMCurrent.data sst !! k) →
             LSMCurrent.min_key sst ≤ k ≤ LSMCurrent.max_key sst)).
Proof.
  intros Hne Hrange. split.
  - destruct (create_from_memtable_spec m sstable_id Hne) as (lo & hi & Heq & Hb).
    eexists. split; [done|]. simpl. split; [done|]. split; [done|].
    intros key Hout. destruct (m !! key) eqn:Hk; [|done].
    specialize (Hb key ltac:(by eexists)). lia.
  - unfold LSMCurrent.create_from_memtable. rewrite decide_False by done.
    change (foldl _ ∅ (iter m)) with (insert_all ∅ (iter m)).
    rewrite insert_all_iter.
    destruct (widen_spec (iter m) LSMCurrent.UINT64_MAX 0)
      as (lo & hi & Heq & Hlo & Hhi & Hb).
    rewrite Heq. eexists. split; [done|]. simpl. split; [done|].
    intros k [v Hk]. apply Hb. apply list_elem_of_fmap.
    exists (k, v). split; [done|]. by apply elem_of_iter.
Qed.


(** ** Compaction: what the new SSTables hold *)

Lemma erase_all_lookup (ks : list Z) (m : gmap Z string) (k : Z) :
  foldl (λ m k, delete k m) m ks !! k = if decide (k ∈ ks) then None else m !! k.
Proof.
  revert m. induction ks as [|k' ks IH]; intros m; cbn [foldl].
  - rewrite decide_False; [done|apply not_elem_of_nil].
  - rewrite IH. destruct (decide (k ∈ ks)) as [Hin|Hnin].
    + rewrite decide_True; [done|by right].
    + destruct (decide (k' = k)) as [->|Hne].
      * rewrite lookup_delete_eq. rewrite decide_True; [done|by left].
      * rewrite lookup_delete_ne by done.
        rewrite decide_False; [done|]. intros [?|?]%elem_of_cons; congruence.
Qed.

Lemma strip_tombstones_lookup (m : gmap Z string) (k : Z) (v : string) :
  strip_tombstones m !! k = Some v ↔ m !! k = Some v ∧ v ≠ TOMBSTONE_VALUE.
Proof.
  unfold strip_tombstones. rewrite erase_all_lookup.
  case_decide as Hin.
  - split; [done|]. intros [Hk Hv].
    apply list_elem_of_fmap in Hin as ([k' v'] & -> & Hin).
    apply list_elem_of_filter in Hin as [Ht Hin]. simpl in *.
    apply elem_of_iter in Hin. congruence.
  - split; [|by intros [? _]]. intros Hk. split; [done|]. intros ->.
    apply Hin. apply list_elem_of_fmap. exists (k, TOMBSTONE_VALUE). split; [done|].
    apply list_elem_of_filter. split; [done|]. by apply elem_of_iter.
Qed.

(** Every entry of an SSTable that the partitioning loop emits was in the
    build map or among the entries fed to the loop. *)
Lemma partition_entries_sound (T : Z) (l : list (Z * string))
    (cur : gmap Z string) (out : list SSTable) (nid : Z)
    (cur' : gmap Z string) (out' : list SSTable) (nid' : Z) :
  foldl (partition_entry T) (cur, out, nid) l = (cur', out', nid') →
  (∀ k v, cur' !! k = Some v → cur !! k = Some v ∨ (k, v) ∈ l)
  ∧ (∀ sst, sst ∈ out' → sst ∈ out
       ∨ ∀ k v, data sst !! k = Some v → cur !! k = Some v ∨ (k, v) ∈ l).
Proof.
  revert cur out nid. induction l as [|[k0 v0] l IH]; intros cur out nid Heq.
  - simpl in Heq. injection Heq as -> -> ->. split; [by left|by left].
  - simpl in Heq.
    assert (∀ k v, <[k0:=v0]> cur !! k = Some v → cur !! k = Some v ∨ (k, v) ∈ (k0, v0) :: l)
      as Hins.
    { intros k v Hk. destruct (decide (k0 = k)) as [->|Hne].
      - rewrite lookup_insert_eq in Hk. injection Hk as ->. right. by left.
      - rewrite lookup_insert_ne in Hk by done. by left. }
    case_decide as Hfull; apply IH in Heq as [Hcur Hout]; split.
    + intros k v Hk. destruct (Hcur k v Hk) as [H|H]; [done|]. right. by right.
    + intros sst Hsst. destruct (Hout sst Hsst) as [Hin|Hd].
      * apply elem_of_app in Hin as [Hin|Hin]; [by left|]. right.
        destruct (create_from_memtable _ _) as [sst0|] eqn:Hc; simpl in Hin;
          [|by apply elem_of_nil in Hin].
        apply list_elem_of_singleton in Hin as ->.
        apply create_from_memtable_Some in Hc as (_ & _ & -> & _). done.
      * right. intros k v Hk. destruct (Hd k v Hk) as [H|H]; [done|]. right. by right.
    + intros k v Hk. destruct (Hcur k v Hk) as [H|H]; [by apply Hins|]. right. by right.
    + intros sst Hsst. destruct (Hout sst Hsst) as [Hin|Hd]; [by left|]. right.
      intros k v Hk. destruct (Hd k v Hk) as [H|H]; [by apply Hins|]. right. by right.
Qed.

(** The map a compaction partitions. *)
Definition merged_map (ssts_from_source ssts_from_target_overlap : list SSTable) :
    gmap Z string :=
  strip_tombstones
    (load_map_from_sst_list (load_map_from_sst_list ∅ ssts_from_target_overlap)
                            ssts_from_source).

Lemma build_new_ssts_sound (t : LSMTree) (src tgt : list SSTable) (sst : SSTable)
    (k : Z) (v : string) :
  sst ∈ (build_new_ssts t src tgt).1 → data sst !! k = Some v →
  merged_map src tgt !! k = Some v.
Proof.
  unfold build_new_ssts. fold (merged_map src tgt).
  case_decide as Hempty; [intros H; by apply elem_of_nil in H|].
  destruct (foldl _ _ _) as [[cur out] nid] eqn:Hfold.
  apply partition_entries_sound in Hfold as [Hcur Hout].
  assert (∀ sst, sst ∈ out → ∀ k v, data sst !! k = Some v →
                 merged_map src tgt !! k = Some v) as Hout'.
  { intros s Hs k' v' Hk'. destruct (Hout s Hs) as [Hin|Hd];
      [by apply elem_of_nil in Hin|].
    destruct (Hd k' v' Hk') as [H|H]; [by rewrite lookup_empty in H|].
    by apply elem_of_iter in H. }
  case_decide as Hrest; simpl; [by eauto|].
  intros [Hin|Hin]%elem_of_app Hk; [by eauto|].
  destruct (create_from_memtable _ _) as [sst0|] eqn:Hc; simpl in Hin;
    [|by apply elem_of_nil in Hin].
  apply list_elem_of_singleton in Hin as ->.
  apply create_from_memtable_Some in Hc as (_ & _ & Hd & _). rewrite Hd in Hk.
  destruct (Hcur k v Hk) as [H|H]; [by rewrite lookup_empty in H|].
  by apply elem_of_iter in H.
Qed.

(** C2. A compaction of level [i] into level [i+1 < max_levels] installs
    into level [i+1] exactly the SSTables it has just built (next to the
    ones it leaves in place), and none of the newly built SSTables stores
    the tombstone sentinel: the merged map is stripped before it is
    partitioned, whether or not [i+1] is the bottom level. *)
Theorem compaction_strips_tombstones (t : LSMTree) (i : Z) (src tgt : list SSTable) :
  0 ≤ i → i + 1 < max_levels_ t →
  Z.of_nat (length (levels_ t)) = max_levels_ t →
  src ≠ [] →
  let new_ssts := (build_new_ssts t src tgt).1 in
  levels_ (compact_sstables t i src tgt) !!! Z.to_nat (i + 1)
    ≡ₚ remove_compacted_ssts (levels_ t !!! Z.to_nat (i + 1)) tgt ++ new_ssts
  ∧ ∀ sst k v, sst ∈ new_ssts → data sst !! k = Some v → v ≠ TOMBSTONE_VALUE.
Proof.
  intros Hi Hmax Hlen Hsrc new_ssts. split.
  - unfold compact_sstables. destruct src as [|s0 src']; [done|].
    rewrite decide_False by lia. subst new_ssts.
    destruct (build_new_ssts t (s0 :: src') tgt) as [new nid]. simpl.
    rewrite list_lookup_total_alter_eq by (rewrite length_alter; lia).
    rewrite merge_sort_Permutation.
    rewrite list_lookup_total_alter_ne by lia. done.
  - intros sst k v Hin Hk.
    pose proof (build_new_ssts_sound t src tgt sst k v Hin Hk) as Hm.
    unfold merged_map in Hm. by apply strip_tombstones_lookup in Hm as [_ ?].
Qed.

Lemma flush_worker_step_take (t : LSMTree) :
  flush_worker_step t
  = match flush_worker_take t with
    | (Some memtable_to_flush, t') => flush_memtable_to_l0 t' memtable_to_flush
    | (None, t') => t'
    end.
Proof. unfold flush_worker_step, flush_worker_take. by destruct (immutable_memtables_ t). Qed.

(** ** Runs of the engine *)

(** The calls of the client thread, and one completed turn of each
    background worker as a single step: a run is what the client sees
    when no worker is in the middle of a turn. *)
Inductive Op :=
| Put (key : Z) (value : string)
| Del (key : Z)
| FlushTurn
| CompactionTurn.

Definition writes (o : Op) (k : Z) : Prop :=
  match o with
  | Put key _ | Del key => key = k
  | FlushTurn | CompactionTurn => False
  end.

Definition apply_op (t : LSMTree) (o : Op) : LSMTree :=
  match o with
  | Put key value => put t key value
  | Del key => del t key
  | FlushTurn => flush_worker_step t
  | CompactionTurn => perform_compaction_check t
  end.

Definition run (t : LSMTree) (ops : list Op) : LSMTree := foldl apply_op t ops.

(** ** The read path *)

(** What a stored string means to a reader. *)
Definition live (v : string) : option string :=
  if decide (v = TOMBSTONE_VALUE) then None else Some v.

(** The entry of [k] in the first map of [ms] that has one. *)
Fixpoint first_map (ms : list (gmap Z string)) (k : Z) : option string :=
  match ms with
  | [] => None
  | m :: rest =>
      match m !! k with
      | Some v => Some v
      | None => first_map rest k
      end
  end.

(** The maps [get] looks into before it reaches level 1, in the order it
    looks into them. *)
Definition mem_maps (t : LSMTree) : list (gmap Z string) :=
  default ∅ (active_memtable_ t) :: reverse (immutable_memtables_ t).
Definition l0_maps (t : LSMTree) : list (gmap Z string) :=
  data <$> reverse (levels_ t !!! 0%nat).

(** A level holds [k] with the value [v] and with no other value; a level
    holds no entry of [k]. *)
Definition level_has (level : list SSTable) (k : Z) (v : string) : Prop :=
  (∃ s, s ∈ level ∧ data s !! k = Some v)
  ∧ ∀ s v', s ∈ level → data s !! k = Some v' → v' = v.
Definition level_free (level : list SSTable) (k : Z) : Prop :=
  ∀ s, s ∈ level → data s !! k = None.

(** The first level from level 1 down that holds [k] holds it with [v]. *)
Definition levels_have (levels : list (list SSTable)) (k : Z) (v : string) : Prop :=
  ∃ j level,
    (1 ≤ j)%nat ∧ levels !! j = Some level ∧ level_has level k v
    ∧ ∀ j' level', (1 ≤ j' < j)%nat → levels !! j' = Some level' → level_free level' k.

(** [newest t k v]: the first place on the read path that has an entry
    for [k] has the value [v]. *)
Definition newest (t : LSMTree) (k : Z) (v : string) : Prop :=
  match first_map (mem_maps t ++ l0_maps t) k with
  | Some v' => v' = v
  | None => levels_have (levels_ t) k v
  end.

(** ** What every reachable state satisfies *)

(** The range and the filter of an SSTable reject none of its keys. *)
Definition sst_ok (s : SSTable) : Prop :=
  (∀ k, is_Some (data s !! k) → min_key s ≤ k ≤ max_key s)
  ∧ (∀ k, is_Some (data s !! k) → Bloom.Query std_hash (bloom s) k = true).

Definition id_lt (a b : SSTable) : Prop := id a < id b.
Definition min_key_le (a b : SSTable) : Prop := min_key a ≤ min_key b.

Record lsm_inv (t : LSMTree) : Prop := mk_lsm_inv {
  inv_levels : Z.of_nat (length (levels_ t)) = max_levels_ t;
  inv_some_level : 1 ≤ max_levels_ t;
  inv_ok : ∀ j level s,
    levels_ t !! j = Some level → s ∈ level → sst_ok s ∧ id s < next_sstable_id_ t;
  inv_l0 : StronglySorted id_lt (levels_ t !!! 0%nat);
  inv_deep : ∀ j level,
    (1 ≤ j)%nat → levels_ t !! j = Some level →
    StronglySorted min_key_le level ∧ NoDup (id <$> level)
}.

Lemma first_map_app (ms1 ms2 : list (gmap Z string)) (k : Z) :
  first_map (ms1 ++ ms2) k
  = match first_map ms1 k with Some v => Some v | None => first_map ms2 k end.
Proof. induction ms1 as [|m ms1 IH]; simpl; [done|]. by destruct (m !! k). Qed.

Lemma first_map_Some (l : list SSTable) (k : Z) (v : string) :
  first_map (data <$> l) k = Some v → ∃ s, s ∈ l ∧ data s !! k = Some v.
Proof.
  induction l as [|s l IH]; simpl; [done|].
  destruct (data s !! k) as [v'|] eqn:Hk.
  - intros [= ->]. exists s. split; [by left|done].
  - intros (s' & Hs' & Hk')%IH. exists s'. split; [by right|done].
Qed.

Lemma first_map_None (l : list SSTable) (k : Z) :
  first_map (data <$> l) k = None ↔ level_free l k.
Proof.
  unfold level_free. induction l as [|s l IH]; simpl.
  - split; [|done]. by intros _ s ?%elem_of_nil.
  - destruct (data s !! k) as [v'|] eqn:Hk.
    + split; [done|]. intros H. specialize (H s ltac:(by left)). congruence.
    + rewrite IH. split.
      * intros H s' [->|Hs']%elem_of_cons; [done|by apply H].
      * intros H s' Hs'. apply H. by right.
Qed.

Lemma level_has_first_map (l : list SSTable) (k : Z) (v : string) :
  level_has l k v → first_map (data <$> l) k = Some v.
Proof.
  intros [(s & Hs & Hk) Hall].
  destruct (first_map (data <$> l) k) as [v'|] eqn:Hf.
  - apply first_map_Some in Hf as (s' & Hs' & Hk'). f_equal. by eapply Hall.
  - apply first_map_None in Hf. specialize (Hf s Hs). congruence.
Qed.

Lemma level_free_reverse (l : list SSTable) (k : Z) :
  level_free (reverse l) k ↔ level_free l k.
Proof. unfold level_free. by setoid_rewrite elem_of_reverse. Qed.

(** ** [find_key] and the scans of [get] *)

Lemma Query_after_inserts (keys : list Z) (f : Bloom.RegisterBlockedBloomFilter) (k : Z) :
  Bloom.wf f → k ∈ keys → Bloom.Query std_hash (foldl (Bloom.Insert std_hash) f keys) k = true.
Proof.
  revert f. induction keys as [|k' keys IH]; intros f Hwf Hin.
  - by apply elem_of_nil in Hin.
  - simpl. apply elem_of_cons in Hin as [->|Hin].
    + apply Bloom.Query_fold_mono. by apply Bloom.Query_Insert_same.
    + apply IH; [by apply Bloom.wf_Insert | done].
Qed.

Lemma create_from_memtable_ok (m : gmap Z string) (sstable_id : Z) (sst : SSTable) :
  create_from_memtable m sstable_id = Some sst → sst_ok sst.
Proof.
  intros H. pose proof (create_from_memtable_Some _ _ _ H) as (Hne & _ & Hd & Hrange).
  destruct (create_from_memtable_spec m sstable_id Hne) as (lo & hi & Heq & _).
  rewrite Heq in H. injection H as <-. split; [done|].
  simpl. intros k [v Hk]. apply Query_after_inserts; [apply Bloom.wf_new; lia|].
  apply list_elem_of_fmap. exists (k, v). split; [done|]. by apply elem_of_iter.
Qed.

Lemma find_key_ok (s : SSTable) (k : Z) :
  sst_ok s → find_key s k = data s !! k ≫= live.
Proof.
  intros [Hrange Hbloom]. unfold find_key.
  destruct (data s !! k) as [v|] eqn:Hk.
  - specialize (Hrange k ltac:(by rewrite Hk)). specialize (Hbloom k ltac:(by rewrite Hk)).
    rewrite decide_False by lia. by rewrite Hbloom.
  - simpl. case_decide; [done|]. by destruct (negb _).
Qed.

Lemma scan_memtables_spec (mts : list (gmap Z string)) (k : Z) :
  scan_memtables mts k = live <$> first_map mts k.
Proof.
  induction mts as [|m mts IH]; simpl; [done|].
  unfold memtable_find. by destruct (m !! k).
Qed.

Lemma scan_level0_found (ssts : list SSTable) (k : Z) (v : string) :
  Forall sst_ok ssts → first_map (data <$> ssts) k = Some v → v ≠ TOMBSTONE_VALUE →
  scan_level0 ssts k = Some v.
Proof.
  intros Hok Hf Hv. induction Hok as [|s ssts Hs Hok IH]; simpl in *; [done|].
  rewrite (find_key_ok s k Hs).
  destruct (data s !! k) as [v'|] eqn:Hk.
  - injection Hf as ->. destruct Hs as [Hrange _].
    specialize (Hrange k ltac:(by rewrite Hk)).
    rewrite decide_True by lia. simpl. unfold live. by rewrite decide_False.
  - simpl. rewrite IH by done. by case_decide.
Qed.

Lemma scan_level0_free (ssts : list SSTable) (k : Z) :
  Forall sst_ok ssts → first_map (data <$> ssts) k = None → scan_level0 ssts k = None.
Proof.
  intros Hok Hf. induction Hok as [|s ssts Hs Hok IH]; simpl in *; [done|].
  rewrite (find_key_ok s k Hs).
  destruct (data s !! k) as [v'|] eqn:Hk; [done|].
  simpl. rewrite IH by done. by case_decide.
Qed.

Lemma scan_level_found (ssts : list SSTable) (is_front : bool) (k : Z) (v : string) :
  Forall sst_ok ssts → StronglySorted min_key_le ssts →
  level_has ssts k v → v ≠ TOMBSTONE_VALUE →
  scan_level ssts is_front k = Some v.
Proof.
  intros Hok Hsorted [(s0 & Hs0 & Hk0) Hall] Hv. revert is_front.
  induction Hok as [|s ssts Hs Hok IH]; intros is_front; [by apply elem_of_nil in Hs0|].
  apply StronglySorted_inv in Hsorted as [Hsorted Hle].
  cbn [scan_level]. rewrite (find_key_ok s k Hs).
  assert (data s !! k = None → scan_level ssts false k = Some v) as Hrest.
  { intros Hk. apply IH; [done| |].
    - apply elem_of_cons in Hs0 as [->|Hs0]; [congruence|done].
    - intros s' v' Hs' Hk'. eapply Hall; [by right|done]. }
  destruct (data s !! k) as [v'|] eqn:Hk.
  - assert (v' = v) as -> by (eapply Hall; [by left|done]).
    destruct Hs as [Hrange _]. specialize (Hrange k ltac:(by rewrite Hk)).
    rewrite decide_True by lia. simpl. unfold live. by rewrite decide_False.
  - simpl. specialize (Hrest eq_refl).
    case_decide; [done|]. case_decide as Hmin; [|done].
    apply elem_of_cons in Hs0 as [->|Hs0]; [congruence|].
    rewrite Forall_forall in Hle, Hok. specialize (Hle s0 Hs0).
    destruct (Hok s0 Hs0) as [Hrange _]. specialize (Hrange k ltac:(by rewrite Hk0)).
    unfold min_key_le in Hle. lia.
Qed.

Lemma scan_level_free (ssts : list SSTable) (is_front : bool) (k : Z) :
  Forall sst_ok ssts → level_free ssts k → scan_level ssts is_front k = None.
Proof.
  intros Hok Hfree. revert is_front.
  induction Hok as [|s ssts Hs Hok IH]; intros is_front; [done|].
  cbn [scan_level]. rewrite (find_key_ok s k Hs).
  rewrite (Hfree s ltac:(by left)). simpl.
  assert (∀ b, scan_level ssts b k = None) as Hrest.
  { apply IH. intros s' Hs'. apply Hfree. by right. }
  rewrite !Hrest. repeat case_decide; by destruct is_front.
Qed.

Lemma scan_levels_found (deep : list (list SSTable)) (k : Z) (v : string) :
  (∀ level, level ∈ deep → Forall sst_ok level ∧ StronglySorted min_key_le level) →
  (∃ j level,
     deep !! j = Some level ∧ level_has level k v
     ∧ ∀ j' level', (j' < j)%nat → deep !! j' = Some level' → level_free level' k) →
  v ≠ TOMBSTONE_VALUE →
  scan_levels deep k = Some v.
Proof.
  intros Hdeep (j & level & Hj & Hhas & Hfree) Hv. revert j Hj Hfree.
  induction deep as [|l deep IH]; intros j Hj Hfree; [done|].
  destruct (Hdeep l ltac:(by left)) as [Hok Hsorted]. cbn [scan_levels].
  destruct j as [|j].
  - injection Hj as ->. by rewrite (scan_level_found level true k v).
  - rewrite (scan_level_free l true k Hok); [|by apply (Hfree 0%nat); [lia|]].
    apply (IH ltac:(intros ? ?; apply Hdeep; by right) j Hj).
    intros j' level' Hj' Hl'. apply (Hfree (S j')); [lia|done].
Qed.

Lemma inv_level_ok (t : LSMTree) (j : nat) (level : list SSTable) :
  lsm_inv t → levels_ t !! j = Some level → Forall sst_ok level.
Proof.
  intros Hinv Hj. apply Forall_forall. intros s Hs.
  by destruct (inv_ok t Hinv j level s Hj Hs).
Qed.

Lemma inv_level0 (t : LSMTree) :
  lsm_inv t → ∃ deeper, levels_ t = (levels_ t !!! 0%nat) :: deeper.
Proof.
  intros Hinv. pose proof (inv_levels t Hinv). pose proof (inv_some_level t Hinv).
  destruct (levels_ t) as [|l0 deeper]; [simpl in *; lia|]. by exists deeper.
Qed.

(** [get] returns the newest version when it is not the sentinel. *)
Lemma get_newest (t : LSMTree) (k : Z) (v : string) :
  lsm_inv t → newest t k v → v ≠ TOMBSTONE_VALUE → get t k = Some v.
Proof.
  intros Hinv Hnew Hv. unfold newest, mem_maps, l0_maps in Hnew. unfold get.
  cbn [app first_map] in Hnew.
  assert (live v = Some v) as Hlive by (unfold live; by rewrite decide_False).
  destruct (default ∅ (active_memtable_ t) !! k) as [v'|] eqn:Ha.
  { subst v'. destruct (active_memtable_ t) as [a|]; simpl in *; [|by rewrite lookup_empty in Ha].
    unfold memtable_find. rewrite Ha. fold (live v). by rewrite Hlive. }
  assert (active_memtable_ t ≫= (λ mt, memtable_find mt k) = None) as ->.
  { destruct (active_memtable_ t) as [a|]; simpl in *; [|done].
    unfold memtable_find. by rewrite Ha. }
  rewrite first_map_app in Hnew. rewrite scan_memtables_spec.
  destruct (first_map (reverse (immutable_memtables_ t)) k) as [v'|]; simpl.
  { subst v'. by rewrite Hlive. }
  destruct (inv_level0 t Hinv) as [deeper Hlv].
  set (l0 := levels_ t !!! 0%nat) in *.
  assert (Forall sst_ok (reverse l0)) as Hok0.
  { rewrite Forall_reverse. apply (inv_level_ok t 0 l0 Hinv). by rewrite Hlv. }
  rewrite Hlv.
  destruct (first_map (data <$> reverse l0) k) as [v'|] eqn:Hf0.
  { subst v'. by rewrite (scan_level0_found _ k v Hok0 Hf0 Hv). }
  rewrite (scan_level0_free _ k Hok0 Hf0).
  destruct Hnew as (j & level & Hj1 & Hj & Hhas & Hfree).
  rewrite (scan_levels_found deeper k v); [done| | |done].
  - intros lv [i Hi]%list_elem_of_lookup.
    assert (levels_ t !! S i = Some lv) as Hi' by (by rewrite Hlv).
    split; [by apply (inv_level_ok t (S i))|].
    by destruct (inv_deep t Hinv (S i) lv ltac:(lia) Hi').
  - destruct j as [|j]; [lia|]. exists j, level. rewrite Hlv in Hj. split; [done|].
    split; [done|]. intros j' level' Hj' Hl'.
    apply (Hfree (S j')); [lia|]. by rewrite Hlv.
Qed.

(** ** Steps that touch the memtables *)

Global Instance by_id_trans : Transitive by_id.
Proof. unfold by_id. intros x y z. lia. Qed.
Global Instance by_id_total : Total by_id.
Proof. unfold by_id. intros x y. lia. Qed.
Global Instance by_min_key_trans : Transitive by_min_key.
Proof. unfold by_min_key. intros x y z. lia. Qed.
Global Instance by_min_key_total : Total by_min_key.
Proof. unfold by_min_key. intros x y. lia. Qed.

Lemma lsm_inv_frame (t t' : LSMTree) :
  levels_ t' = levels_ t → next_sstable_id_ t' = next_sstable_id_ t →
  max_levels_ t' = max_levels_ t → lsm_inv t → lsm_inv t'.
Proof. intros Hl Hn Hm [H1 H2 H3 H4 H5]. split; rewrite ?Hl, ?Hn, ?Hm; done. Qed.

Lemma put_unfold (t : LSMTree) (k : Z) (v : string) :
  put t k v
  = let a := <[k:=v]> (default ∅ (active_memtable_ t)) in
    if decide (Z.of_nat (size a) >= memtable_max_size_entries_ t) then
      set_immutables (set_active t (Some ∅)) (immutable_memtables_ t ++ [a])
    else set_active t (Some a).
Proof.
  unfold put, schedule_flush_active_memtable, set_immutables, set_active. simpl.
  repeat case_decide; done.
Qed.

Lemma put_levels (t : LSMTree) (k : Z) (v : string) :
  levels_ (put t k v) = levels_ t
  ∧ next_sstable_id_ (put t k v) = next_sstable_id_ t
  ∧ max_levels_ (put t k v) = max_levels_ t.
Proof. rewrite put_unfold. cbn zeta. by case_decide. Qed.

Lemma put_mem_maps (t : LSMTree) (k : Z) (v : string) (rest : list (gmap Z string))
    (k' : Z) :
  first_map (mem_maps (put t k v) ++ rest) k'
  = first_map ((<[k:=v]> (default ∅ (active_memtable_ t))
                  :: reverse (immutable_memtables_ t)) ++ rest) k'.
Proof.
  rewrite put_unfold. cbn zeta. unfold mem_maps. case_decide; [|done].
  cbn [set_immutables set_active active_memtable_ immutable_memtables_ default].
  rewrite reverse_app. simpl. by rewrite lookup_empty.
Qed.

Lemma put_inv (t : LSMTree) (k : Z) (v : string) : lsm_inv t → lsm_inv (put t k v).
Proof. destruct (put_levels t k v) as (? & ? & ?). by apply lsm_inv_frame. Qed.

Lemma put_newest (t : LSMTree) (k : Z) (v : string) : newest (put t k v) k v.
Proof.
  unfold newest. rewrite put_mem_maps. simpl. by rewrite lookup_insert_eq.
Qed.

Lemma put_other_newest (t : LSMTree) (k' : Z) (v' : string) (k : Z) (v : string) :
  k' ≠ k → newest t k v → newest (put t k' v') k v.
Proof.
  intros Hne. unfold newest. rewrite put_mem_maps.
  destruct (put_levels t k' v') as (Hl & _). unfold l0_maps at 2. rewrite Hl.
  unfold mem_maps, l0_maps. simpl. by rewrite lookup_insert_ne.
Qed.

(** Sorting a list that is already in strictly increasing id order. *)
Lemma StronglySorted_weaken {A} (R1 R2 : relation A) (l : list A) :
  (∀ x y, R1 x y → R2 x y) → StronglySorted R1 l → StronglySorted R2 l.
Proof.
  intros HR. induction 1 as [|x l Hl IH Hx]; constructor; [done|].
  eapply Forall_impl; [done|]. intros y. apply HR.
Qed.

Lemma id_lt_NoDup (l : list SSTable) : StronglySorted id_lt l → NoDup (id <$> l).
Proof.
  induction 1 as [|x l Hl IH Hx]; simpl; constructor; [|done].
  intros (y & Hid & Hy)%list_elem_of_fmap.
  rewrite Forall_forall in Hx. specialize (Hx y Hy). unfold id_lt in Hx. lia.
Qed.

Lemma NoDup_fmap_eq {A B} (f : A → B) (l : list A) (x y : A) :
  NoDup (f <$> l) → x ∈ l → y ∈ l → f x = f y → x = y.
Proof.
  induction l as [|a l IH]; simpl; [by intros _ ?%elem_of_nil|].
  intros [Ha Hnd]%NoDup_cons [->|Hx]%elem_of_cons [->|Hy]%elem_of_cons Heq; [done| | |by apply IH].
  - exfalso. apply Ha. rewrite Heq. by apply list_elem_of_fmap_2.
  - exfalso. apply Ha. rewrite <- Heq. by apply list_elem_of_fmap_2.
Qed.

Lemma merge_sort_by_id (l : list SSTable) :
  StronglySorted id_lt l → merge_sort by_id l = l.
Proof.
  intros Hl. apply (StronglySorted_unique_strong by_id).
  - intros x1 x2 Hx1 Hx2 H12 H21. rewrite merge_sort_Permutation in Hx1.
    apply (NoDup_fmap_eq id l); [by apply id_lt_NoDup|done..|].
    unfold by_id in *. lia.
  - apply StronglySorted_merge_sort; apply _.
  - eapply StronglySorted_weaken; [|done]. unfold id_lt, by_id. intros x y. lia.
  - apply merge_sort_Permutation.
Qed.

Lemma l0_snoc_sorted (l0 : list SSTable) (s : SSTable) :
  StronglySorted id_lt l0 → (∀ s', s' ∈ l0 → id s' < id s) →
  StronglySorted id_lt (l0 ++ [s]).
Proof.
  intros Hl Hlt. apply StronglySorted_app. split; [|split; [done|repeat constructor]].
  intros x1 x2 Hx1 ->%list_elem_of_singleton. by apply Hlt.
Qed.

Lemma u64_small (x : Z) : 0 ≤ x ≤ UINT64_MAX → u64 x = x.
Proof. unfold UINT64_MAX, u64. intros H. apply Z.mod_small. lia. Qed.

(** A flush turn with room for one more id. *)
Lemma flush_unfold (t : LSMTree) (m : gmap Z string) (rest : list (gmap Z string)) :
  lsm_inv t → immutable_memtables_ t = m :: rest → m ≠ ∅ →
  0 ≤ next_sstable_id_ t < UINT64_MAX →
  ∃ s,
    create_from_memtable m (next_sstable_id_ t) = Some s
    ∧ flush_worker_step t
      = set_levels (set_immutables t rest)
          (<[0%nat := (levels_ t !!! 0%nat) ++ [s]]> (levels_ t))
          (next_sstable_id_ t + 1).
Proof.
  intros Hinv Himm Hne Hid. unfold flush_worker_step, flush_memtable_to_l0. rewrite Himm.
  rewrite decide_False by done. cbn [set_immutables next_sstable_id_ levels_].
  destruct (create_from_memtable_spec m (next_sstable_id_ t) Hne) as (lo & hi & Hc & _).
  rewrite Hc. eexists. split; [done|].
  destruct (inv_level0 t Hinv) as [deeper Hlv].
  rewrite u64_small by lia.
  f_equal. rewrite Hlv at 1 3. simpl. f_equal.
  apply merge_sort_by_id, l0_snoc_sorted; [by apply inv_l0|].
  intros s' Hs'. simpl.
  apply (inv_ok t Hinv 0%nat (levels_ t !!! 0%nat) s'); [by rewrite Hlv at 1|done].
Qed.

Lemma levels_have_frame (levels levels' : list (list SSTable)) (k : Z) (v : string) :
  (∀ j, (1 ≤ j)%nat → levels' !! j = levels !! j) →
  levels_have levels k v → levels_have levels' k v.
Proof.
  intros Heq (j & level & Hj1 & Hj & Hhas & Hfree). exists j, level.
  split; [done|]. split; [by rewrite Heq|]. split; [done|].
  intros j' level' Hj' Hl'. apply (Hfree j'); [done|]. rewrite <- Heq; [done|lia].
Qed.

Lemma newest_frame (t t' : LSMTree) (k : Z) (v : string) :
  first_map (mem_maps t' ++ l0_maps t') k = first_map (mem_maps t ++ l0_maps t) k →
  (∀ j, (1 ≤ j)%nat → levels_ t' !! j = levels_ t !! j) →
  newest t k v → newest t' k v.
Proof.
  intros Hf Hl. unfold newest. rewrite Hf. clear Hf.
  destruct (first_map _ k); [done|]. by apply levels_have_frame.
Qed.

Lemma flush_inv (t : LSMTree) :
  lsm_inv t → 0 ≤ next_sstable_id_ t < UINT64_MAX → lsm_inv (flush_worker_step t).
Proof.
  intros Hinv Hid. destruct (immutable_memtables_ t) as [|m rest] eqn:Himm.
  { unfold flush_worker_step. by rewrite Himm. }
  destruct (decide (m = ∅)) as [->|Hne].
  { unfold flush_worker_step, flush_memtable_to_l0. rewrite Himm.
    rewrite decide_True by done. by apply (lsm_inv_frame t). }
  destruct (flush_unfold t m rest Hinv Himm Hne Hid) as (s & Hc & ->).
  destruct (inv_level0 t Hinv) as [deeper Hlv].
  set (l0 := levels_ t !!! 0%nat) in *.
  assert (∀ s', s' ∈ l0 → sst_ok s' ∧ id s' < next_sstable_id_ t) as Hl0.
  { intros s' Hs'. apply (inv_ok t Hinv 0%nat l0 s'); [by rewrite Hlv|done]. }
  apply create_from_memtable_Some in Hc as Hs. destruct Hs as (_ & Hids & _).
  split; cbn [set_levels set_immutables levels_ next_sstable_id_ max_levels_].
  - rewrite length_insert. apply (inv_levels t Hinv).
  - apply (inv_some_level t Hinv).
  - intros j level s' Hj Hs'. destruct j as [|j].
    + rewrite Hlv in Hj. simpl in Hj. injection Hj as <-.
      apply elem_of_app in Hs' as [Hs'|Hs'%list_elem_of_singleton].
      * destruct (Hl0 s' Hs'). split; [done|lia].
      * subst s'. split; [by eapply create_from_memtable_ok|lia].
    + rewrite list_lookup_insert_ne in Hj by done.
      destruct (inv_ok t Hinv (S j) level s' Hj Hs'). split; [done|lia].
  - rewrite Hlv. simpl. apply l0_snoc_sorted; [by apply (inv_l0 t Hinv)|].
    intros s' Hs'. destruct (Hl0 s' Hs'). lia.
  - intros j level Hj1 Hj. rewrite list_lookup_insert_ne in Hj by lia.
    by apply (inv_deep t Hinv j).
Qed.

Lemma first_map_skip_empty (ms1 ms2 : list (gmap Z string)) (k : Z) :
  first_map (ms1 ++ ∅ :: ms2) k = first_map (ms1 ++ ms2) k.
Proof. rewrite !first_map_app. simpl. by rewrite lookup_empty. Qed.

Lemma flush_newest (t : LSMTree) (k : Z) (v : string) :
  lsm_inv t → 0 ≤ next_sstable_id_ t < UINT64_MAX →
  newest t k v → newest (flush_worker_step t) k v.
Proof.
  intros Hinv Hid. destruct (immutable_memtables_ t) as [|m rest] eqn:Himm.
  { unfold flush_worker_step. by rewrite Himm. }
  destruct (decide (m = ∅)) as [->|Hne].
  { unfold flush_worker_step, flush_memtable_to_l0. rewrite Himm.
    rewrite decide_True by done. apply newest_frame; [|done].
    unfold mem_maps, l0_maps. cbn [set_immutables active_memtable_ immutable_memtables_ levels_].
    rewrite Himm, reverse_cons.
    rewrite (app_comm_cons _ [∅]), <- (app_assoc _ [∅]). simpl.
    by rewrite first_map_skip_empty. }
  destruct (flush_unfold t m rest Hinv Himm Hne Hid) as (s & Hc & ->).
  destruct (inv_level0 t Hinv) as [deeper Hlv].
  apply create_from_memtable_Some in Hc as (_ & _ & Hd & _).
  apply newest_frame.
  - unfold mem_maps, l0_maps.
    cbn [set_levels set_immutables active_memtable_ immutable_memtables_ levels_].
    rewrite Himm. rewrite list_lookup_total_insert_eq
      by (rewrite Hlv; simpl; lia).
    rewrite reverse_cons, reverse_app, fmap_app. simpl. rewrite Hd.
    by rewrite <- !app_assoc.
  - intros j Hj. cbn [set_levels levels_]. by rewrite list_lookup_insert_ne by lia.
Qed.

(** ** The keys a state can hold *)

Definition keys_in (K : gset Z) (t : LSMTree) : Prop :=
  (∀ k, is_Some (default ∅ (active_memtable_ t) !! k) → k ∈ K)
  ∧ (∀ m k, m ∈ immutable_memtables_ t → is_Some (m !! k) → k ∈ K)
  ∧ (∀ j level s k, levels_ t !! j = Some level → s ∈ level → is_Some (data s !! k) → k ∈ K).

Lemma put_keys_in (K : gset Z) (t : LSMTree) (k : Z) (v : string) :
  keys_in K t → keys_in ({[k]} ∪ K) (put t k v).
Proof.
  intros (Ha & Hi & Hl). rewrite put_unfold. cbn zeta.
  assert (∀ k', is_Some (<[k:=v]> (default ∅ (active_memtable_ t)) !! k') → k' ∈ {[k]} ∪ K)
    as Hnew.
  { intros k' Hk'. destruct (decide (k = k')) as [->|Hne]; [set_solver|].
    rewrite lookup_insert_ne in Hk' by done. specialize (Ha k' Hk'). set_solver. }
  case_decide; (split; [|split]); simpl.
  - intros k' Hk'. rewrite lookup_empty in Hk'. by destruct Hk'.
  - intros m k' [Hm|Hm%list_elem_of_singleton]%elem_of_app Hk'; [|subst m; by apply Hnew].
    specialize (Hi m k' Hm Hk'). set_solver.
  - intros j level s k' Hj Hs Hk'. specialize (Hl j level s k' Hj Hs Hk'). set_solver.
  - done.
  - intros m k' Hm Hk'. specialize (Hi m k' Hm Hk'). set_solver.
  - intros j level s k' Hj Hs Hk'. specialize (Hl j level s k' Hj Hs Hk'). set_solver.
Qed.

Lemma flush_keys_in (K : gset Z) (t : LSMTree) :
  lsm_inv t → 0 ≤ next_sstable_id_ t < UINT64_MAX →
  keys_in K t → keys_in K (flush_worker_step t).
Proof.
  intros Hinv Hid HK. destruct (immutable_memtables_ t) as [|m rest] eqn:Himm.
  { unfold flush_worker_step. by rewrite Himm. }
  destruct HK as (Ha & Hi & Hl). rewrite Himm in Hi.
  assert (∀ m' k, m' ∈ rest → is_Some (m' !! k) → k ∈ K) as Hrest.
  { intros m' k Hm'. apply Hi. by right. }
  destruct (decide (m = ∅)) as [->|Hne].
  { unfold flush_worker_step, flush_memtable_to_l0. rewrite Himm.
    by rewrite decide_True by done. }
  destruct (flush_unfold t m rest Hinv Himm Hne Hid) as (s & Hc & ->).
  destruct (inv_level0 t Hinv) as [deeper Hlv].
  apply create_from_memtable_Some in Hc as (_ & _ & Hd & _).
  split; [done|]. split; [done|].
  cbn [set_levels levels_]. intros j level s' k Hj Hs' Hk. destruct j as [|j].
  - rewrite Hlv in Hj. simpl in Hj. injection Hj as <-.
    apply elem_of_app in Hs' as [Hs'|Hs'%list_elem_of_singleton].
    + apply (Hl 0%nat (levels_ t !!! 0%nat) s' k); [by rewrite Hlv at 1|done..].
    + subst s'. rewrite Hd in Hk. apply (Hi m k); [by left|done].
  - rewrite list_lookup_insert_ne in Hj by done. by apply (Hl (S j) level s' k).
Qed.

(** ** Compaction: the merged map *)

Lemma insert_all_iter_lookup (m d : gmap Z string) (k : Z) :
  insert_all m (iter d) !! k = match d !! k with Some v => Some v | None => m !! k end.
Proof.
  apply option_eq. intros v. rewrite insert_all_lookup by apply NoDup_iter_keys.
  rewrite elem_of_iter. destruct (d !! k) as [v'|] eqn:Hd.
  - split; [intros [H|[Hn _]]; [done|]|by left].
    exfalso. apply Hn. apply list_elem_of_fmap. exists (k, v'). split; [done|].
    by apply elem_of_iter.
  - split; [by intros [H|[_ H]]|]. intros H. right. split; [|done].
    intros ([k' v'] & -> & Hin)%list_elem_of_fmap. apply elem_of_iter in Hin.
    simpl in Hd. congruence.
Qed.

Lemma load_map_lookup (ssts : list SSTable) (m : gmap Z string) (k : Z) :
  load_map_from_sst_list m ssts !! k
  = match first_map (data <$> reverse ssts) k with Some v => Some v | None => m !! k end.
Proof.
  revert m. induction ssts as [|s ssts IH]; intros m; [done|].
  unfold load_map_from_sst_list in *. cbn [foldl].
  rewrite IH. rewrite reverse_cons, fmap_app, first_map_app.
  destruct (first_map (data <$> reverse ssts) k); [done|].
  change (foldl _ m (iter (data s))) with (insert_all m (iter (data s))).
  rewrite insert_all_iter_lookup. simpl. by destruct (data s !! k).
Qed.

(** The merged map holds, for each key, the entry of the last source
    SSTable that has one, else of the last target SSTable that has one,
    unless that entry is a tombstone. *)
Lemma merged_map_lookup (src tgt : list SSTable) (k : Z) (v : string) :
  merged_map src tgt !! k = Some v
  ↔ first_map ((data <$> reverse src) ++ (data <$> reverse tgt)) k = Some v
    ∧ v ≠ TOMBSTONE_VALUE.
Proof.
  unfold merged_map. rewrite strip_tombstones_lookup, !load_map_lookup, first_map_app.
  rewrite lookup_empty.
  destruct (first_map (data <$> reverse src) k); [done|].
  by destruct (first_map (data <$> reverse tgt) k).
Qed.

(** ** Compaction: the partitioning loop *)

Lemma size_insert_le (m : gmap Z string) (k : Z) (v : string) :
  (size (<[k:=v]> m) ≤ S (size m))%nat.
Proof.
  destruct (m !! k) eqn:Hk.
  - rewrite map_size_insert_Some by done. lia.
  - rewrite map_size_insert_None by done. lia.
Qed.

Lemma length_iter (m : gmap Z string) : length (iter m) = size m.
Proof. rewrite iter_perm. apply length_map_to_list. Qed.

Lemma partition_spec (T : Z) (l : list (Z * string)) :
  NoDup l.*1 →
  ∀ cur out nid,
  0 ≤ nid → nid + Z.of_nat (length l) ≤ UINT64_MAX →
  ∃ cur' new nid',
    foldl (partition_entry T) (cur, out, nid) l = (cur', out ++ new, nid')
    ∧ nid ≤ nid'
    ∧ nid' + Z.of_nat (size cur') ≤ nid + Z.of_nat (size cur) + Z.of_nat (length l)
    ∧ (∀ s, s ∈ new → sst_ok s ∧ nid ≤ id s < nid')
    ∧ NoDup (id <$> new)
    ∧ (∀ k v, (cur !! k = Some v ∧ k ∉ l.*1) ∨ (k, v) ∈ l →
              cur' !! k = Some v ∨ ∃ s, s ∈ new ∧ data s !! k = Some v).
Proof.
  induction l as [|[k0 v0] l IH]; intros Hnd cur out nid Hpos Hfit.
  { exists cur, [], nid. rewrite app_nil_r. simpl. split; [done|]. split; [lia|].
    split; [lia|]. split; [by intros s ?%elem_of_nil|]. split; [constructor|].
    intros k v [[H _]|H%elem_of_nil]; [by left|done]. }
  simpl in Hnd. apply NoDup_cons in Hnd as [Hk0 Hnd].
  cbn [foldl partition_entry fst snd length] in *.
  rewrite Nat2Z.inj_succ in Hfit.
  case_decide as Hfull.
  - destruct (create_from_memtable_spec (<[k0:=v0]> cur) nid (insert_non_empty _ _ _))
      as (lo & hi & Hc & _).
    pose proof (create_from_memtable_ok _ _ _ Hc) as Hok0.
    destruct (IH Hnd ∅ (out ++ [SSTable_new nid lo hi (<[k0:=v0]> cur)]) (nid + 1)
                ltac:(lia) ltac:(lia))
      as (cur' & new & nid' & Hfold & Hle & Hcnt & Hnew & Hndn & Hcomp).
    exists cur', (SSTable_new nid lo hi (<[k0:=v0]> cur) :: new), nid'.
    rewrite Hc. unfold option_list. cbn [option_rect]. rewrite u64_small by lia.
    rewrite Hfold, <- app_assoc. split; [done|]. split; [lia|].
    rewrite map_size_empty in Hcnt. split; [lia|]. split; [|split].
    + intros s [->|Hs]%elem_of_cons; [split; [done|simpl; lia]|].
      destruct (Hnew s Hs). split; [done|lia].
    + simpl. apply NoDup_cons. split; [|done].
      intros (s & Hid & Hs)%list_elem_of_fmap. destruct (Hnew s Hs) as [_ ?]. lia.
    + intros k v Hkv.
      assert ((<[k0:=v0]> cur !! k = Some v) ∨ (k, v) ∈ l) as [Hin|Hin].
      { destruct Hkv as [[Hc' Hn]|[[= -> ->]|Hin]%elem_of_cons].
        - left. apply not_elem_of_cons in Hn as [Hne _]. by rewrite lookup_insert_ne.
        - left. apply lookup_insert_eq.
        - by right. }
      * right. exists (SSTable_new nid lo hi (<[k0:=v0]> cur)). split; [by left|done].
      * destruct (Hcomp k v (or_intror Hin)) as [H|(s & Hs & H)]; [by left|].
        right. exists s. split; [by right|done].
  - destruct (IH Hnd (<[k0:=v0]> cur) out nid ltac:(lia) ltac:(lia))
      as (cur' & new & nid' & Hfold & Hle & Hcnt & Hnew & Hndn & Hcomp).
    exists cur', new, nid'. split; [done|]. split; [done|].
    pose proof (size_insert_le cur k0 v0). split; [lia|]. split; [done|]. split; [done|].
    intros k v Hkv. apply Hcomp.
    destruct Hkv as [[Hc' Hn]|[[= -> ->]|Hin]%elem_of_cons].
    + left. apply not_elem_of_cons in Hn as [Hne Hn]. by rewrite lookup_insert_ne.
    + left. by rewrite lookup_insert_eq.
    + by right.
Qed.

(** The SSTables a compaction builds: fresh consecutive ids, sound ranges
    and filters, and every entry of the merged map in one of them. *)
Lemma build_new_ssts_spec (t : LSMTree) (src tgt : list SSTable) :
  0 ≤ next_sstable_id_ t →
  next_sstable_id_ t + Z.of_nat (size (merged_map src tgt)) ≤ UINT64_MAX →
  next_sstable_id_ t ≤ (build_new_ssts t src tgt).2
    ≤ next_sstable_id_ t + Z.of_nat (size (merged_map src tgt))
  ∧ (∀ s, s ∈ (build_new_ssts t src tgt).1 →
          sst_ok s ∧ next_sstable_id_ t ≤ id s < (build_new_ssts t src tgt).2)
  ∧ NoDup (id <$> (build_new_ssts t src tgt).1)
  ∧ (∀ k v, merged_map src tgt !! k = Some v →
            ∃ s, s ∈ (build_new_ssts t src tgt).1 ∧ data s !! k = Some v).
Proof.
  intros Hpos Hfit. unfold build_new_ssts. fold (merged_map src tgt).
  set (merged := merged_map src tgt) in *.
  case_decide as Hempty.
  { simpl. split; [lia|]. split; [by intros s ?%elem_of_nil|]. split; [constructor|].
    intros k v Hk. rewrite Hempty, lookup_empty in Hk. done. }
  destruct (partition_spec (sstable_target_entry_count_ t) (iter merged)
              (NoDup_iter_keys merged) ∅ [] (next_sstable_id_ t) Hpos
              ltac:(rewrite length_iter; lia))
    as (cur' & new & nid' & Hfold & Hle & Hcnt & Hnew & Hndn & Hcomp).
  rewrite Hfold. rewrite length_iter, map_size_empty in Hcnt. simpl in Hcnt.
  assert (∀ k v, merged !! k = Some v →
                 cur' !! k = Some v ∨ ∃ s, s ∈ new ∧ data s !! k = Some v) as Hcomp'.
  { intros k v Hk. apply Hcomp. right. by apply elem_of_iter. }
  cbn [app]. case_decide as Hrest.
  { simpl. split; [lia|]. split; [done|]. split; [done|].
    intros k v Hk. destruct (Hcomp' k v Hk) as [H|H]; [|done].
    by rewrite Hrest, lookup_empty in H. }
  destruct (create_from_memtable_spec cur' nid' Hrest) as (lo & hi & Hc & _).
  pose proof (create_from_memtable_ok _ _ _ Hc) as Hok1.
  apply map_size_non_empty_iff in Hrest.
  rewrite Hc. unfold option_list. cbn [option_rect fst snd]. rewrite u64_small by lia.
  split; [lia|]. split; [|split].
  - intros s [Hs|Hs%list_elem_of_singleton]%elem_of_app.
    + destruct (Hnew s Hs). split; [done|lia].
    + subst s. split; [done|simpl; lia].
  - rewrite fmap_app. apply NoDup_app. split; [done|]. split; [|repeat constructor].
    + intros i (s & -> & Hs)%list_elem_of_fmap Hi. simpl in Hi.
      apply list_elem_of_singleton in Hi. destruct (Hnew s Hs) as [_ ?]. lia.
    + by intros ?%elem_of_nil.
  - intros k v Hk. destruct (Hcomp' k v Hk) as [H|(s & Hs & H)].
    + eexists. split; [apply elem_of_app; right; by left|done].
    + exists s. split; [apply elem_of_app; by left|done].
Qed.

(** ** Compaction: which SSTables are merged and which stay *)

Definition overlapping (lo hi : Z) (tgt : list SSTable) : list SSTable :=
  filter (λ sst, min_key sst <= hi ∧ max_key sst >= lo) tgt.

Lemma overall_range_spec (src : list SSTable) (lo0 hi0 : Z) :
  ∃ lo hi,
    foldl (λ '(lo, hi) sst,
             (if decide (min_key sst < lo) then min_key sst else lo,
              if decide (max_key sst > hi) then max_key sst else hi))
          (lo0, hi0) src = (lo, hi)
    ∧ lo ≤ lo0 ∧ hi0 ≤ hi
    ∧ ∀ s, s ∈ src → lo ≤ min_key s ∧ max_key s ≤ hi.
Proof.
  revert lo0 hi0. induction src as [|s src IH]; intros lo0 hi0.
  { exists lo0, hi0. simpl. split; [done|]. split; [lia|]. split; [lia|].
    by intros s ?%elem_of_nil. }
  cbn [foldl].
  destruct (IH (if decide (min_key s < lo0) then min_key s else lo0)
               (if decide (max_key s > hi0) then max_key s else hi0))
    as (lo & hi & Heq & Hlo & Hhi & Hall).
  exists lo, hi. split; [done|].
  repeat case_decide; (split; [lia|]; split; [lia|]);
    intros s' [->|Hs']%elem_of_cons; try lia; by apply Hall.
Qed.

Lemma find_overlapping_spec (t : LSMTree) (src : list SSTable) (i : Z) :
  src ≠ [] → 0 ≤ i < max_levels_ t →
  ∃ lo hi,
    (∀ s, s ∈ src → lo ≤ min_key s ∧ max_key s ≤ hi)
    ∧ find_overlapping_sstables_nolock t src i
      = overlapping lo hi (levels_ t !!! Z.to_nat i).
Proof.
  intros Hne Hi. unfold find_overlapping_sstables_nolock.
  destruct src as [|front src']; [done|]. rewrite decide_False by lia.
  destruct (overall_range_spec (front :: src') (min_key front) (max_key front))
    as (lo & hi & Heq & _ & _ & Hall).
  rewrite Heq. by exists lo, hi.
Qed.

Lemma elem_of_remove_compacted (s : SSTable) (level sel : list SSTable) :
  s ∈ remove_compacted_ssts level sel ↔ s ∈ level ∧ ∀ r, r ∈ sel → id r ≠ id s.
Proof.
  unfold remove_compacted_ssts. rewrite list_elem_of_filter, Exists_exists. split.
  - intros [Hn Hs]. split; [done|]. intros r Hr Heq. apply Hn. by exists r.
  - intros [Hs Hn]. split; [|done]. intros (r & Hr & Heq). by apply (Hn r).
Qed.

Lemma remove_compacted_self (l : list SSTable) : remove_compacted_ssts l l = [].
Proof.
  destruct (remove_compacted_ssts l l) as [|s rest] eqn:Heq; [done|].
  assert (s ∈ remove_compacted_ssts l l) as Hs by (rewrite Heq; by left).
  apply elem_of_remove_compacted in Hs as [Hs Hn]. by destruct (Hn s Hs).
Qed.

Lemma NoDup_fmap_filter {A B} (f : A → B) (P : A → Prop) `{∀ x, Decision (P x)}
    (l : list A) :
  NoDup (f <$> l) → NoDup (f <$> filter P l).
Proof.
  induction l as [|x l IH]; [done|]. simpl. intros [Hx Hnd]%NoDup_cons.
  destruct (decide (P x)) as [HP|HP].
  - rewrite filter_cons_True by done. simpl. apply NoDup_cons. split; [|by apply IH].
    intros (y & Hy & Hin)%list_elem_of_fmap. apply list_elem_of_filter in Hin as [_ Hin].
    apply Hx. rewrite Hy. by apply list_elem_of_fmap_2.
  - rewrite filter_cons_False by done. by apply IH.
Qed.

Lemma alter_as_insert {A} `{Inhabited A} (f : A → A) (i : nat) (l : list A) :
  (i < length l)%nat → alter f i l = <[i := f (l !!! i)]> l.
Proof.
  intros Hi. apply list_eq. intros j. destruct (decide (i = j)) as [->|Hne].
  - rewrite list_lookup_alter_eq, list_lookup_insert_eq by done.
    by rewrite (list_lookup_lookup_total_lt l j Hi).
  - by rewrite list_lookup_alter_ne, list_lookup_insert_ne by done.
Qed.

(** The state a compaction of level [n] into level [n+1] leaves, when
    the source SSTables span [[lo, hi]]. *)
Definition compacted (t : LSMTree) (n : nat) (lo hi : Z) : LSMTree :=
  let src := levels_ t !!! n in
  let tgt := levels_ t !!! S n in
  let sel := overlapping lo hi tgt in
  let built := build_new_ssts t src sel in
  set_levels t
    (<[S n := merge_sort by_min_key (remove_compacted_ssts tgt sel ++ built.1)]>
       (<[n := []]> (levels_ t)))
    built.2.

Lemma compact_unfold (t : LSMTree) (i : Z) :
  lsm_inv t → 0 ≤ i → i + 1 < max_levels_ t → levels_ t !!! Z.to_nat i ≠ [] →
  ∃ lo hi,
    (∀ s, s ∈ levels_ t !!! Z.to_nat i → lo ≤ min_key s ∧ max_key s ≤ hi)
    ∧ compact_sstables t i (levels_ t !!! Z.to_nat i)
        (find_overlapping_sstables_nolock t (levels_ t !!! Z.to_nat i) (i + 1))
      = compacted t (Z.to_nat i) lo hi.
Proof.
  intros Hinv Hi Hmax Hne. pose proof (inv_levels t Hinv) as Hlen.
  destruct (find_overlapping_spec t (levels_ t !!! Z.to_nat i) (i + 1) Hne ltac:(lia))
    as (lo & hi & Hrange & ->).
  exists lo, hi. split; [done|].
  replace (Z.to_nat (i + 1)) with (S (Z.to_nat i)) by lia.
  unfold compact_sstables, compacted. set (src := levels_ t !!! Z.to_nat i) in *.
  destruct src as [|s0 src'] eqn:Hsrc; [done|]. rewrite <- Hsrc.
  rewrite decide_False by lia.
  replace (Z.to_nat (i + 1)) with (S (Z.to_nat i)) by lia.
  destruct (build_new_ssts t src _) as [new nid]. cbn [fst snd].
  f_equal.
  rewrite (alter_as_insert _ (Z.to_nat i)) by lia.
  rewrite (alter_as_insert _ (S (Z.to_nat i))) by (rewrite length_insert; lia).
  rewrite list_lookup_total_insert_ne by lia.
  fold src. by rewrite remove_compacted_self.
Qed.

(** ** One compaction *)

Section compaction_step.

Variable t : LSMTree.
Variable n : nat.
Variables lo hi : Z.
Hypothesis Hinv : lsm_inv t.
Hypothesis Hn : (S n < length (levels_ t))%nat.
Hypothesis Hrange : ∀ s, s ∈ levels_ t !!! n → lo ≤ min_key s ∧ max_key s ≤ hi.
Hypothesis Hpos : 0 ≤ next_sstable_id_ t.
Hypothesis Hfit :
  next_sstable_id_ t
  + Z.of_nat (size (merged_map (levels_ t !!! n) (overlapping lo hi (levels_ t !!! S n))))
  ≤ UINT64_MAX.

Local Abbreviation src := (levels_ t !!! n).
Local Abbreviation tgt := (levels_ t !!! S n).
Local Abbreviation sel := (overlapping lo hi (levels_ t !!! S n)).
Local Abbreviation new := (fst (build_new_ssts t (levels_ t !!! n)
                              (overlapping lo hi (levels_ t !!! S n)))).
Local Abbreviation tgt' :=
  (merge_sort by_min_key
     (remove_compacted_ssts (levels_ t !!! S n) (overlapping lo hi (levels_ t !!! S n))
        ++ fst (build_new_ssts t (levels_ t !!! n)
                  (overlapping lo hi (levels_ t !!! S n))))).

Lemma src_lookup : levels_ t !! n = Some src.
Proof. apply list_lookup_lookup_total_lt. lia. Qed.

Lemma tgt_lookup : levels_ t !! S n = Some tgt.
Proof. by apply list_lookup_lookup_total_lt. Qed.

Lemma compacted_lookup_src : levels_ (compacted t n lo hi) !! n = Some [].
Proof.
  unfold compacted. cbn [set_levels levels_].
  rewrite list_lookup_insert_ne by lia. apply list_lookup_insert_eq. lia.
Qed.

Lemma compacted_lookup_tgt : levels_ (compacted t n lo hi) !! S n = Some tgt'.
Proof.
  unfold compacted. cbn [set_levels levels_].
  apply list_lookup_insert_eq. by rewrite length_insert.
Qed.

Lemma compacted_lookup_other (j : nat) :
  j ≠ n → j ≠ S n → levels_ (compacted t n lo hi) !! j = levels_ t !! j.
Proof.
  intros H1 H2. unfold compacted. cbn [set_levels levels_].
  by rewrite !list_lookup_insert_ne by done.
Qed.

Lemma elem_of_sel (s : SSTable) :
  s ∈ sel ↔ (min_key s ≤ hi ∧ max_key s >= lo) ∧ s ∈ tgt.
Proof. unfold overlapping. by rewrite list_elem_of_filter. Qed.

Lemma elem_of_tgt' (s : SSTable) :
  s ∈ tgt' ↔ (s ∈ tgt ∧ ∀ r, r ∈ sel → id r ≠ id s) ∨ s ∈ new.
Proof. by rewrite merge_sort_Permutation, elem_of_app, elem_of_remove_compacted. Qed.

Lemma new_sound (s : SSTable) (k : Z) (v : string) :
  s ∈ new → data s !! k = Some v →
  first_map ((data <$> reverse src) ++ (data <$> reverse sel)) k = Some v
  ∧ v ≠ TOMBSTONE_VALUE.
Proof.
  intros Hs Hk. apply merged_map_lookup. by eapply build_new_ssts_sound.
Qed.

Lemma new_complete (k : Z) (v : string) :
  first_map ((data <$> reverse src) ++ (data <$> reverse sel)) k = Some v →
  v ≠ TOMBSTONE_VALUE →
  ∃ s, s ∈ new ∧ data s !! k = Some v.
Proof.
  intros Hf Hv.
  destruct (build_new_ssts_spec t src sel Hpos Hfit) as (_ & _ & _ & Hcomp).
  apply Hcomp. by apply merged_map_lookup.
Qed.

Lemma sel_first (k : Z) (v : string) :
  first_map (data <$> reverse sel) k = Some v →
  ∃ s, s ∈ tgt ∧ (min_key s ≤ hi ∧ max_key s >= lo) ∧ data s !! k = Some v.
Proof.
  intros (s & Hs & Hk)%first_map_Some. rewrite elem_of_reverse in Hs.
  apply elem_of_sel in Hs as [Hov Hs]. by exists s.
Qed.

Lemma src_ok (s : SSTable) : s ∈ src → sst_ok s.
Proof. intros Hs. by destruct (inv_ok t Hinv n src s src_lookup Hs). Qed.

Lemma tgt_ok (s : SSTable) : s ∈ tgt → sst_ok s ∧ id s < next_sstable_id_ t.
Proof. intros Hs. by destruct (inv_ok t Hinv (S n) tgt s tgt_lookup Hs). Qed.

Lemma tgt_NoDup : NoDup (id <$> tgt).
Proof. by destruct (inv_deep t Hinv (S n) tgt ltac:(lia) tgt_lookup). Qed.

(** The source holds [k]: the target level ends up holding the source's
    newest value and nothing else for [k]. *)
Lemma tgt'_from_src (k : Z) (v : string) :
  first_map (data <$> reverse src) k = Some v → v ≠ TOMBSTONE_VALUE →
  level_has tgt' k v.
Proof.
  intros Hf Hv.
  assert (first_map ((data <$> reverse src) ++ (data <$> reverse sel)) k = Some v) as Hm.
  { by rewrite first_map_app, Hf. }
  split.
  - destruct (new_complete k v Hm Hv) as (s & Hs & Hk). exists s.
    split; [|done]. apply elem_of_tgt'. by right.
  - intros s v' [[Hs Hrem]|Hs]%elem_of_tgt' Hk.
    + exfalso. apply first_map_Some in Hf as (s0 & Hs0 & Hk0).
      rewrite elem_of_reverse in Hs0.
      destruct (src_ok s0 Hs0) as [Hr0 _]. specialize (Hr0 k ltac:(by rewrite Hk0)).
      destruct (tgt_ok s Hs) as [[Hr _] _]. specialize (Hr k ltac:(by rewrite Hk)).
      destruct (Hrange s0 Hs0).
      apply (Hrem s); [|done]. apply elem_of_sel. split; [lia|done].
    + destruct (new_sound s k v' Hs Hk) as [Hm' _]. congruence.
Qed.

(** The source has no entry of [k]: the target level keeps what it holds
    for [k]. *)
Lemma tgt'_from_tgt (k : Z) (v : string) :
  first_map (data <$> reverse src) k = None → level_has tgt k v → v ≠ TOMBSTONE_VALUE →
  level_has tgt' k v.
Proof.
  intros Hf [(s0 & Hs0 & Hk0) Hall] Hv.
  assert (∀ v', first_map ((data <$> reverse src) ++ (data <$> reverse sel)) k = Some v' →
                v' = v) as Hm.
  { intros v'. rewrite first_map_app, Hf. intros (s & Hs & _ & Hk)%sel_first.
    by apply (Hall s). }
  split.
  - destruct (decide (min_key s0 ≤ hi ∧ max_key s0 >= lo)) as [Hov|Hov].
    + assert (s0 ∈ reverse sel) as Hsel.
      { rewrite elem_of_reverse. by apply elem_of_sel. }
      destruct (first_map (data <$> reverse sel) k) as [v'|] eqn:Hf'.
      * assert (v' = v) as -> by (apply Hm; by rewrite first_map_app, Hf).
        destruct (new_complete k v) as (s & Hs & Hk); [by rewrite first_map_app, Hf|done|].
        exists s. split; [|done]. apply elem_of_tgt'. by right.
      * apply first_map_None in Hf'. specialize (Hf' s0 Hsel). congruence.
    + exists s0. split; [|done]. apply elem_of_tgt'. left. split; [done|].
      intros r [Hovr Hr]%elem_of_sel Hid.
      assert (r = s0) as -> by (by apply (NoDup_fmap_eq id tgt); [apply tgt_NoDup|..]).
      done.
  - intros s v' [[Hs _]|Hs]%elem_of_tgt' Hk; [by apply (Hall s)|].
    destruct (new_sound s k v' Hs Hk) as [Hm' _]. by apply Hm.
Qed.

Lemma tgt'_free (k : Z) :
  first_map (data <$> reverse src) k = None → level_free tgt k → level_free tgt' k.
Proof.
  intros Hf Hfree s [[Hs _]|Hs]%elem_of_tgt'; [by apply Hfree|].
  destruct (data s !! k) as [v|] eqn:Hk; [|done]. exfalso.
  destruct (new_sound s k v Hs Hk) as [Hm _]. rewrite first_map_app, Hf in Hm.
  apply sel_first in Hm as (s' & Hs' & _ & Hk'). specialize (Hfree s' Hs'). congruence.
Qed.

Lemma compacted_next :
  next_sstable_id_ t ≤ next_sstable_id_ (compacted t n lo hi)
  ≤ next_sstable_id_ t + Z.of_nat (size (merged_map src sel)).
Proof. by destruct (build_new_ssts_spec t src sel Hpos Hfit) as (? & _). Qed.

Lemma compacted_inv : lsm_inv (compacted t n lo hi).
Proof.
  destruct (build_new_ssts_spec t src sel Hpos Hfit) as (Hnid & Hnew & Hndn & _).
  pose proof compacted_next as Hnext.
  split.
  - unfold compacted. cbn [set_levels levels_ max_levels_].
    rewrite !length_insert. apply (inv_levels t Hinv).
  - apply (inv_some_level t Hinv).
  - intros j level s Hj Hs.
    destruct (decide (j = S n)) as [->|Hj1]; [|destruct (decide (j = n)) as [->|Hj2]].
    + rewrite compacted_lookup_tgt in Hj. injection Hj as <-.
      apply elem_of_tgt' in Hs as [[Hs _]|Hs].
      * destruct (tgt_ok s Hs). split; [done|lia].
      * destruct (Hnew s Hs). split; [done|]. unfold compacted. simpl. lia.
    + rewrite compacted_lookup_src in Hj. injection Hj as <-. by apply elem_of_nil in Hs.
    + rewrite compacted_lookup_other in Hj by done.
      destruct (inv_ok t Hinv j level s Hj Hs). split; [done|lia].
  - destruct (decide (n = 0%nat)) as [Hn0|Hn0].
    + rewrite <- Hn0.
      rewrite (list_lookup_total_correct _ _ _ compacted_lookup_src). constructor.
    + pose proof (compacted_lookup_other 0%nat ltac:(lia) ltac:(lia)) as H0.
      destruct (inv_level0 t Hinv) as [deeper Hlv].
      assert (levels_ t !! 0%nat = Some (levels_ t !!! 0%nat)) as Hl0 by (by rewrite Hlv at 1).
      rewrite Hl0 in H0.
      rewrite (list_lookup_total_correct _ _ _ H0). apply (inv_l0 t Hinv).
  - intros j level Hj1 Hj.
    destruct (decide (j = S n)) as [->|Hjt]; [|destruct (decide (j = n)) as [->|Hjs]].
    + rewrite compacted_lookup_tgt in Hj. injection Hj as <-. split.
      * eapply StronglySorted_weaken; [|apply (StronglySorted_merge_sort by_min_key)].
        unfold by_min_key, min_key_le. intros x y. lia.
      * rewrite merge_sort_Permutation, fmap_app. apply NoDup_app.
        split; [apply NoDup_fmap_filter, tgt_NoDup|]. split; [|done].
        intros i (s & -> & Hs)%list_elem_of_fmap (s' & Heq & Hs')%list_elem_of_fmap.
        apply elem_of_remove_compacted in Hs as [Hs _].
        destruct (tgt_ok s Hs) as [_ ?]. destruct (Hnew s' Hs') as [_ ?]. lia.
    + rewrite compacted_lookup_src in Hj. injection Hj as <-. split; constructor.
    + rewrite compacted_lookup_other in Hj by done. by apply (inv_deep t Hinv j).
Qed.

Lemma compacted_keys_in (K : gset Z) : keys_in K t → keys_in K (compacted t n lo hi).
Proof.
  intros (Ha & Hi & Hl). split; [done|]. split; [done|].
  intros j level s k Hj Hs [v Hk].
  destruct (decide (j = S n)) as [->|Hjt]; [|destruct (decide (j = n)) as [->|Hjs]].
  - rewrite compacted_lookup_tgt in Hj. injection Hj as <-.
    apply elem_of_tgt' in Hs as [[Hs _]|Hs].
    + apply (Hl (S n) tgt s k tgt_lookup Hs). by rewrite Hk.
    + destruct (new_sound s k v Hs Hk) as [Hm _]. rewrite first_map_app in Hm.
      destruct (first_map (data <$> reverse src) k) as [v'|] eqn:Hf.
      * apply first_map_Some in Hf as (s0 & Hs0 & Hk0). rewrite elem_of_reverse in Hs0.
        apply (Hl n src s0 k src_lookup Hs0). by rewrite Hk0.
      * apply sel_first in Hm as (s0 & Hs0 & _ & Hk0).
        apply (Hl (S n) tgt s0 k tgt_lookup Hs0). by rewrite Hk0.
  - rewrite compacted_lookup_src in Hj. injection Hj as <-. by apply elem_of_nil in Hs.
  - rewrite compacted_lookup_other in Hj by done. apply (Hl j level s k Hj Hs). by rewrite Hk.
Qed.

Lemma merged_size (K : gset Z) :
  keys_in K t → (size (merged_map src sel) ≤ size K)%nat.
Proof.
  intros (_ & _ & Hl). rewrite <- (size_dom (D := gset Z)). apply subseteq_size.
  intros k [v Hk]%elem_of_dom. apply merged_map_lookup in Hk as [Hm _].
  rewrite first_map_app in Hm.
  destruct (first_map (data <$> reverse src) k) as [v'|] eqn:Hf.
  - apply first_map_Some in Hf as (s0 & Hs0 & Hk0). rewrite elem_of_reverse in Hs0.
    apply (Hl n src s0 k src_lookup Hs0). by rewrite Hk0.
  - apply sel_first in Hm as (s0 & Hs0 & _ & Hk0).
    apply (Hl (S n) tgt s0 k tgt_lookup Hs0). by rewrite Hk0.
Qed.

Lemma compacted_l0_src :
  n = 0%nat → l0_maps (compacted t n lo hi) = [] ∧ l0_maps t = data <$> reverse src.
Proof.
  intros Hn0. unfold l0_maps. rewrite <- Hn0.
  by rewrite (list_lookup_total_correct _ _ _ compacted_lookup_src).
Qed.

Lemma compacted_l0_other : n ≠ 0%nat → l0_maps (compacted t n lo hi) = l0_maps t.
Proof.
  intros Hn0. unfold l0_maps.
  pose proof (compacted_lookup_other 0%nat ltac:(lia) ltac:(lia)) as H0.
  destruct (inv_level0 t Hinv) as [deeper Hlv].
  assert (levels_ t !! 0%nat = Some (levels_ t !!! 0%nat)) as Hl0 by (by rewrite Hlv at 1).
  rewrite Hl0 in H0. by rewrite (list_lookup_total_correct _ _ _ H0).
Qed.

Lemma src_first_map_free (k : Z) :
  level_free src k → first_map (data <$> reverse src) k = None.
Proof. intros Hfree. by apply first_map_None, level_free_reverse. Qed.

Lemma src_first_map_has (k : Z) (v : string) :
  level_has src k v → first_map (data <$> reverse src) k = Some v.
Proof.
  intros [(s & Hs & Hk) Hall]. apply level_has_first_map. split.
  - exists s. by rewrite elem_of_reverse.
  - intros s' v' Hs'. rewrite elem_of_reverse in Hs'. by apply Hall.
Qed.

(** What the levels below level 0 hold for [k] after the compaction of a
    level [n >= 1]. *)
Lemma compacted_levels_have (k : Z) (v : string) :
  n ≠ 0%nat → v ≠ TOMBSTONE_VALUE →
  levels_have (levels_ t) k v → levels_have (levels_ (compacted t n lo hi)) k v.
Proof.
  intros Hn0 Hv (j & level & Hj1 & Hj & Hhas & Hfree).
  assert (∀ j' level', (1 ≤ j' < j)%nat → j' ≠ n → j' ≠ S n →
            levels_ (compacted t n lo hi) !! j' = Some level' → level_free level' k)
    as Hother.
  { intros j' level' Hj' H1 H2 Hl'. rewrite compacted_lookup_other in Hl' by done.
    by apply (Hfree j'). }
  assert (∀ level', levels_ (compacted t n lo hi) !! n = Some level' → level_free level' k)
    as Hsrc'.
  { intros level' Hl'. rewrite compacted_lookup_src in Hl'. injection Hl' as <-.
    by intros s ?%elem_of_nil. }
  destruct (decide (j = n)) as [Hjn|Hjn]; [|destruct (decide (j = S n)) as [Hjt|Hjt]].
  - rewrite Hjn, src_lookup in Hj. injection Hj as <-.
    exists (S n), tgt'. split; [lia|]. split; [apply compacted_lookup_tgt|].
    split; [by apply tgt'_from_src; [apply src_first_map_has|]|].
    intros j' level' Hj' Hl'. destruct (decide (j' = n)) as [->|Hne]; [by apply Hsrc'|].
    apply (Hother j'); [lia|done|lia|done].
  - rewrite Hjt, tgt_lookup in Hj. injection Hj as <-.
    exists (S n), tgt'. split; [lia|]. split; [apply compacted_lookup_tgt|].
    assert (level_free src k) as Hsf by (apply (Hfree n); [lia|apply src_lookup]).
    split; [by apply tgt'_from_tgt; [apply src_first_map_free|..]|].
    intros j' level' Hj' Hl'. destruct (decide (j' = n)) as [->|Hne]; [by apply Hsrc'|].
    apply (Hother j'); [lia|done|lia|done].
  - exists j, level. split; [done|]. split; [by rewrite compacted_lookup_other|].
    split; [done|]. intros j' level' Hj' Hl'.
    destruct (decide (j' = n)) as [->|Hne]; [by apply Hsrc'|].
    destruct (decide (j' = S n)) as [->|Hne']; [|by apply (Hother j')].
    rewrite compacted_lookup_tgt in Hl'. injection Hl' as <-.
    apply tgt'_free.
    + apply src_first_map_free. apply (Hfree n); [lia|apply src_lookup].
    + apply (Hfree (S n)); [lia|apply tgt_lookup].
Qed.

(** A compaction keeps the newest version of a key on top, unless that
    version is a tombstone. *)
Lemma compacted_newest (k : Z) (v : string) :
  v ≠ TOMBSTONE_VALUE → newest t k v → newest (compacted t n lo hi) k v.
Proof.
  intros Hv. unfold newest.
  change (mem_maps (compacted t n lo hi)) with (mem_maps t).
  rewrite !first_map_app.
  destruct (first_map (mem_maps t) k) as [v'|] eqn:Hmem; [done|].
  destruct (decide (n = 0%nat)) as [Hn0|Hn0].
  - destruct (compacted_l0_src Hn0) as [-> ->]. cbn [first_map].
    destruct (first_map (data <$> reverse src) k) as [v'|] eqn:Hf.
    + intros ->. exists (S n), tgt'. split; [lia|]. split; [apply compacted_lookup_tgt|].
      split; [by apply tgt'_from_src|]. intros j' level' Hj'. lia.
    + intros (j & level & Hj1 & Hj & Hhas & Hfree).
      destruct (decide (j = S n)) as [Hjt|Hjt].
      * rewrite Hjt, tgt_lookup in Hj. injection Hj as <-.
        exists (S n), tgt'. split; [lia|]. split; [apply compacted_lookup_tgt|].
        split; [by apply tgt'_from_tgt|]. intros j' level' Hj'. lia.
      * exists j, level. split; [done|].
        split; [rewrite compacted_lookup_other; [done|lia|done]|].
        split; [done|]. intros j' level' Hj' Hl'.
        destruct (decide (j' = S n)) as [->|Hne'].
        -- rewrite compacted_lookup_tgt in Hl'. injection Hl' as <-.
           apply tgt'_free; [done|]. apply (Hfree (S n)); [lia|apply tgt_lookup].
        -- rewrite compacted_lookup_other in Hl' by lia. by apply (Hfree j').
  - rewrite (compacted_l0_other Hn0).
    destruct (first_map (l0_maps t) k); [done|]. by apply compacted_levels_have.
Qed.

End compaction_step.

(** ** One turn of the compaction worker *)

Lemma compaction_scan_cases (t : LSMTree) (cnt : nat) (i : Z) :
  0 ≤ i → i + Z.of_nat cnt ≤ max_levels_ t - 1 →
  compaction_scan t i cnt = t
  ∨ ∃ i', 0 ≤ i' ∧ i' + 1 < max_levels_ t ∧ levels_ t !!! Z.to_nat i' ≠ []
      ∧ compaction_scan t i cnt
        = compact_sstables t i' (levels_ t !!! Z.to_nat i')
            (find_overlapping_sstables_nolock t (levels_ t !!! Z.to_nat i') (i' + 1)).
Proof.
  revert i. induction cnt as [|cnt IH]; intros i Hi Hmax; [by left|].
  cbn [compaction_scan]. case_decide as Hbig; [|apply IH; lia].
  destruct (levels_ t !!! Z.to_nat i) as [|s0 src'] eqn:Hsrc; [by left|].
  right. exists i. rewrite Hsrc. split; [done|]. split; [lia|]. done.
Qed.

Lemma compaction_cases (t : LSMTree) :
  1 ≤ max_levels_ t →
  perform_compaction_check t = t
  ∨ ∃ i, 0 ≤ i ∧ i + 1 < max_levels_ t ∧ levels_ t !!! Z.to_nat i ≠ []
      ∧ perform_compaction_check t
        = compact_sstables t i (levels_ t !!! Z.to_nat i)
            (find_overlapping_sstables_nolock t (levels_ t !!! Z.to_nat i) (i + 1)).
Proof.
  intros Hmax. unfold perform_compaction_check.
  case_decide as Hl0; [|apply compaction_scan_cases; lia].
  destruct (levels_ t !!! 0%nat) as [|s0 src'] eqn:Hsrc; [by left|].
  case_decide as Hdeep.
  - right. exists 0. change (Z.to_nat 0) with 0%nat. rewrite Hsrc.
    split; [done|]. split; [lia|]. done.
  - left. unfold compact_sstables. by rewrite decide_True by lia.
Qed.

(** ** Reachable states *)

(** [good B n t]: the invariant, together with what bounds the id
    counter after [n] steps of a run of at most [B] steps: no step hands
    out more ids than there are keys, and there are at most [n] keys. *)
Definition good (B : Z) (n : nat) (t : LSMTree) : Prop :=
  lsm_inv t
  ∧ 0 ≤ next_sstable_id_ t ≤ Z.of_nat n * B
  ∧ ∃ K : gset Z, keys_in K t ∧ (size K ≤ n)%nat.

Lemma good_new (B : Z) (memtable_max_entries l0_max_sstables num_levels
    sstable_target_entries : Z) :
  1 ≤ num_levels →
  good B 0 (LSMTree_new memtable_max_entries l0_max_sstables num_levels
              sstable_target_entries).
Proof.
  intros Hlv. unfold LSMTree_new. split; [split|]; cbn [levels_ max_levels_ next_sstable_id_].
  - rewrite length_replicate. lia.
  - done.
  - intros j level s [-> _]%lookup_replicate Hs. by apply elem_of_nil in Hs.
  - rewrite lookup_total_replicate_2 by lia. constructor.
  - intros j level _ [-> _]%lookup_replicate. split; constructor.
  - split; [lia|]. exists ∅. split; [|by rewrite size_empty].
    split; [|split]; simpl.
    + intros k Hk. rewrite lookup_empty in Hk. by destruct Hk.
    + by intros m k ?%elem_of_nil.
    + intros j level s k [-> _]%lookup_replicate Hs. by apply elem_of_nil in Hs.
Qed.

Lemma flush_next (t : LSMTree) :
  lsm_inv t → 0 ≤ next_sstable_id_ t < UINT64_MAX →
  next_sstable_id_ t ≤ next_sstable_id_ (flush_worker_step t) ≤ next_sstable_id_ t + 1.
Proof.
  intros Hinv Hid. destruct (immutable_memtables_ t) as [|m rest] eqn:Himm.
  { unfold flush_worker_step. rewrite Himm. lia. }
  destruct (decide (m = ∅)) as [->|Hne].
  { unfold flush_worker_step, flush_memtable_to_l0. rewrite Himm.
    rewrite decide_True by done. simpl. lia. }
  destruct (flush_unfold t m rest Hinv Himm Hne Hid) as (s & Hc & ->). simpl. lia.
Qed.

Lemma size_add_key (K : gset Z) (k : Z) : (size ({[k]} ∪ K) ≤ S (size K))%nat.
Proof.
  rewrite size_union_alt, size_singleton.
  assert (size (K ∖ {[k]}) ≤ size K)%nat as Hle; [|lia].
  apply subseteq_size. intros x Hx. by apply elem_of_difference in Hx as [Hx _].
Qed.

(** Every step of a run of at most [B] steps, [B * B] within the range
    of the id counter, keeps the invariant. *)
Lemma step_good (B : Z) (n : nat) (t : LSMTree) (o : Op) :
  good B n t → Z.of_nat n < B → B * B ≤ UINT64_MAX →
  good B (S n) (apply_op t o).
Proof.
  intros (Hinv & Hid & K & HK & Hsize) Hn HB.
  assert (0 ≤ next_sstable_id_ t < UINT64_MAX) as Hid' by nia.
  assert (∀ k v, good B (S n) (put t k v)) as Hput.
  { intros k v. destruct (put_levels t k v) as (_ & Hnext & _).
    split; [by apply put_inv|]. rewrite Hnext. split; [nia|].
    exists ({[k]} ∪ K). split; [by apply put_keys_in|].
    pose proof (size_add_key K k). lia. }
  destruct o as [k v|k| |]; cbn [apply_op]; [apply Hput|apply Hput| |].
  - pose proof (flush_next t Hinv Hid'). split; [by apply flush_inv|]. split; [nia|].
    exists K. split; [by apply flush_keys_in|lia].
  - destruct (compaction_cases t (inv_some_level t Hinv)) as [->|(i & Hi & Hmax & Hne & ->)].
    { split; [done|]. split; [nia|]. exists K. split; [done|lia]. }
    destruct (compact_unfold t i Hinv Hi Hmax Hne) as (lo & hi & Hrange & ->).
    pose proof (inv_levels t Hinv) as Hlen.
    assert (S (Z.to_nat i) < length (levels_ t))%nat as Hlt by lia.
    pose proof (merged_size t (Z.to_nat i) lo hi Hlt K HK) as Hms.
    assert (next_sstable_id_ t
            + Z.of_nat (size (merged_map (levels_ t !!! Z.to_nat i)
                                (overlapping lo hi (levels_ t !!! S (Z.to_nat i)))))
            ≤ UINT64_MAX) as Hfit by nia.
    pose proof (compacted_next t (Z.to_nat i) lo hi ltac:(lia) Hfit) as Hnext.
    split; [by apply compacted_inv; [..|lia|]|]. split; [nia|].
    exists K. split; [by apply compacted_keys_in; [..|lia|]|lia].
Qed.

(** A step that does not write [k] keeps the newest version of [k] on
    top of the read path, unless that version is a tombstone. *)
Lemma step_newest (B : Z) (n : nat) (t : LSMTree) (o : Op) (k : Z) (v : string) :
  good B n t → Z.of_nat n < B → B * B ≤ UINT64_MAX →
  v ≠ TOMBSTONE_VALUE → ¬ writes o k →
  newest t k v → newest (apply_op t o) k v.
Proof.
  intros (Hinv & Hid & K & HK & Hsize) Hn HB Hv Hw Hnew.
  assert (0 ≤ next_sstable_id_ t < UINT64_MAX) as Hid' by nia.
  destruct o as [k' v'|k'| |]; cbn [apply_op writes] in *.
  - by apply put_other_newest.
  - by apply put_other_newest.
  - by apply flush_newest.
  - destruct (compaction_cases t (inv_some_level t Hinv)) as [->|(i & Hi & Hmax & Hne & ->)];
      [done|].
    destruct (compact_unfold t i Hinv Hi Hmax Hne) as (lo & hi & Hrange & ->).
    pose proof (inv_levels t Hinv) as Hlen.
    assert (S (Z.to_nat i) < length (levels_ t))%nat as Hlt by lia.
    pose proof (merged_size t (Z.to_nat i) lo hi Hlt K HK) as Hms.
    apply compacted_newest; [done..|lia| |done|done]. nia.
Qed.

Lemma run_good (B : Z) (ops : list Op) (n : nat) (t : LSMTree) :
  good B n t → Z.of_nat (n + length ops) ≤ B → B * B ≤ UINT64_MAX →
  good B (n + length ops) (run t ops).
Proof.
  revert n t. induction ops as [|o ops IH]; intros n t Hgood Hlen HB.
  { simpl. by rewrite Nat.add_0_r. }
  cbn [run foldl length] in *. replace (n + S (length ops))%nat with (S n + length ops)%nat by lia.
  apply IH; [|lia|done]. apply step_good; [done|lia|done].
Qed.

Lemma run_newest (B : Z) (ops : list Op) (n : nat) (t : LSMTree) (k : Z) (v : string) :
  good B n t → Z.of_nat (n + length ops) ≤ B → B * B ≤ UINT64_MAX →
  v ≠ TOMBSTONE_VALUE → Forall (λ o, ¬ writes o k) ops →
  newest t k v → newest (run t ops) k v.
Proof.
  revert n t. induction ops as [|o ops IH]; intros n t Hgood Hlen HB Hv Hall Hnew; [done|].
  apply Forall_cons in Hall as [Ho Hall].
  cbn [run foldl length] in *. apply (IH (S n)); [|lia|done..|].
  - apply step_good; [done|lia|done].
  - apply (step_newest B n); [done|lia|done..].
Qed.

(** Last-writer-wins for the LSM tree: in a run of fewer than [2^32]
    steps from the empty tree, once [put(k, v)] has run with [v] not the
    tombstone sentinel, [get(k)] returns [v] whatever steps that do not
    write [k] have run since. *)
Lemma lsm_last_writer_wins (memtable_max_entries l0_max_sstables num_levels
    sstable_target_entries : Z) (before after : list Op) (k : Z) (v : string) :
  1 ≤ num_levels → v ≠ TOMBSTONE_VALUE →
  Forall (λ o, ¬ writes o k) after →
  Z.of_nat (length (before ++ Put k v :: after)) < 2 ^ 32 →
  get (run (LSMTree_new memtable_max_entries l0_max_sstables num_levels
              sstable_target_entries)
           (before ++ Put k v :: after)) k
  = Some v.
Proof.
  intros Hlv Hv Hafter Hlen. rewrite length_app in Hlen. cbn [length] in Hlen.
  set (B := 2 ^ 32 - 1).
  assert (B * B ≤ UINT64_MAX) as HB by (unfold B, UINT64_MAX; lia).
  pose proof (good_new B memtable_max_entries l0_max_sstables num_levels
                sstable_target_entries Hlv) as H0.
  unfold run. rewrite foldl_app. cbn [foldl]. fold (run (LSMTree_new memtable_max_entries
    l0_max_sstables num_levels sstable_target_entries) before).
  apply (run_good B before) in H0; [|unfold B; lia|done]. simpl in H0.
  set (t1 := run _ before) in *.
  assert (good B (S (length before)) (apply_op t1 (Put k v))) as H1.
  { apply step_good; [done|unfold B; lia|done]. }
  fold (run (apply_op t1 (Put k v)) after).
  apply get_newest; [|apply (run_newest B after (S (length before)))|done];
    try done; try (unfold B; lia).
  - by destruct (run_good B after _ _ H1 ltac:(unfold B; lia) HB) as (? & _).
  - apply put_newest.
Qed.

(** ** Reads and writes on the memtables *)

Lemma get_unfold (t : LSMTree) (k : Z) :
  get t k
  = match first_map (mem_maps t) k with
    | Some v => live v
    | None =>
        match levels_ t with
        | [] => None
        | level0_sstables :: deeper =>
            match scan_level0 (reverse level0_sstables) k with
            | Some v => Some v
            | None => scan_levels deeper k
            end
        end
    end.
Proof.
  unfold get, mem_maps. cbn [first_map].
  assert (active_memtable_ t ≫= (λ mt, memtable_find mt k)
          = live <$> default ∅ (active_memtable_ t) !! k) as ->.
  { destruct (active_memtable_ t) as [a|]; simpl; [|by rewrite lookup_empty].
    unfold memtable_find. by destruct (a !! k). }
  destruct (default ∅ (active_memtable_ t) !! k) as [v|]; [done|]. simpl.
  rewrite scan_memtables_spec.
  by destruct (first_map (reverse (immutable_memtables_ t)) k).
Qed.

(** [put] is a point update of what [get] returns: right after
    [put(k, v)] a [get(k)] finds [v], or nothing when [v] is the tombstone
    string, so nothing after [del(k)]; every other key reads as before. *)
Theorem put_then_get (t : LSMTree) (k : Z) (v : string) (k' : Z) :
  get (put t k v) k' = (if decide (k' = k) then live v else get t k')
  ∧ get (del t k) k = None.
Proof.
  assert (∀ v k', get (put t k v) k' = if decide (k' = k) then live v else get t k') as Hput.
  { clear v k'. intros v k'. rewrite !get_unfold.
    destruct (put_levels t k v) as (-> & _ & _).
    rewrite <- (app_nil_r (mem_maps (put t k v))), put_mem_maps, app_nil_r.
    unfold mem_maps. cbn [first_map].
    case_decide as Hk; [subst k'; by rewrite lookup_insert_eq|].
    by rewrite lookup_insert_ne by done. }
  split; [apply Hput|].
  unfold del. rewrite Hput, decide_True by done. unfold live. by rewrite decide_True.
Qed.

(** ** Keys that were never written *)














Lemma find_overlapping_subset (t : LSMTree) (src : list SSTable) (i : Z) (s : SSTable) :
  s ∈ find_overlapping_sstables_nolock t src i → s ∈ levels_ t !!! Z.to_nat i.
Proof.
  unfold find_overlapping_sstables_nolock. destruct src as [|front src]; [by intros ?%elem_of_nil|].
  case_decide; [by intros ?%elem_of_nil|].
  destruct (foldl _ _ _) as [lo hi]. by intros [_ Hs]%list_elem_of_filter.
Qed.






(** ** The structure of reachable trees *)

Lemma run_max_levels (ops : list Op) (t : LSMTree) :
  max_levels_ (run t ops) = max_levels_ t.
Proof.
  revert t. induction ops as [|o ops IH]; intros t; [done|].
  unfold run. cbn [foldl]. fold (run (apply_op t o) ops). rewrite IH.
  destruct o as [k v|k| |]; cbn [apply_op].
  - by destruct (put_levels t k v) as (_ & _ & ->).
  - unfold del. by destruct (put_levels t k TOMBSTONE_VALUE) as (_ & _ & ->).
  - unfold flush_worker_step, flush_memtable_to_l0. by repeat case_match.
  - unfold perform_compaction_check.
    assert (∀ i src tgt, max_levels_ (compact_sstables t i src tgt) = max_levels_ t) as Hc.
    { intros i src tgt. unfold compact_sstables. by repeat case_match. }
    case_decide; [apply Hc|]. generalize 0 at 1.
    induction (Z.to_nat (max_levels_ t - 1)) as [|cnt IHc]; intros i; [done|].
    cbn [compaction_scan]. case_decide; [apply Hc|apply IHc].
Qed.

(** The structure the read path relies on holds in every tree reached
    by fewer than 2^32 operations and worker turns: there is one level
    per configured level; every SSTable holds its keys within
    [min_key, max_key], its Bloom filter accepts each of them and its id
    is below the id counter; level 0 is in strictly ascending id order;
    every deeper level is in ascending [min_key] order and has no id
    twice. *)
Theorem reachable_tree_structure (memtable_max_entries l0_max_sstables num_levels
    sstable_target_entries : Z) (ops : list Op) :
  1 ≤ num_levels → Z.of_nat (length ops) < 2 ^ 32 →
  let t := run (LSMTree_new memtable_max_entries l0_max_sstables num_levels
                  sstable_target_entries) ops in
  Z.of_nat (length (levels_ t)) = num_levels
  ∧ (∀ j level s, levels_ t !! j = Some level → s ∈ level →
       (∀ k, is_Some (data s !! k) →
             min_key s ≤ k ≤ max_key s ∧ Bloom.Query std_hash (bloom s) k = true)
       ∧ id s < next_sstable_id_ t)
  ∧ StronglySorted (λ a b, id a < id b) (levels_ t !!! 0%nat)
  ∧ (∀ j level, (1 ≤ j)%nat → levels_ t !! j = Some level →
       StronglySorted (λ a b, min_key a ≤ min_key b) level ∧ NoDup (id <$> level)).
Proof.
  intros Hlv Hlen t. set (B := 2 ^ 32 - 1).
  assert (B * B ≤ UINT64_MAX) as HB by (unfold B, UINT64_MAX; lia).
  pose proof (good_new B memtable_max_entries l0_max_sstables num_levels
                sstable_target_entries Hlv) as H0.
  apply (run_good B ops) in H0; [|unfold B; simpl; lia|done].
  destruct H0 as (Hinv & _). fold t in Hinv.
  assert (max_levels_ t = num_levels) as Hmax by (subst t; by rewrite run_max_levels).
  split; [by rewrite (inv_levels t Hinv)|].
  split; [|split; [apply (inv_l0 t Hinv)|apply (inv_deep t Hinv)]].
  intros j level s Hj Hs. destruct (inv_ok t Hinv j level s Hj Hs) as [[Hr Hb] Hid].
  split; [|done]. intros k Hk. split; [by apply Hr|by apply Hb].
Qed.

(** ** What compaction selects and builds *)

(** [find_overlapping_sstables_nolock] returns SSTables of the target
    level only, and it leaves out none whose key range meets the range of
    a source SSTable: a target SSTable that could hold a key of a source
    SSTable is always part of the merge. *)
Theorem find_overlapping_complete (t : LSMTree) (src : list SSTable) (i : Z) :
  0 ≤ i < max_levels_ t →
  (∀ s', s' ∈ find_overlapping_sstables_nolock t src i → s' ∈ levels_ t !!! Z.to_nat i)
  ∧ ∀ s s' k,
      s ∈ src → s' ∈ levels_ t !!! Z.to_nat i →
      min_key s ≤ k ≤ max_key s → min_key s' ≤ k ≤ max_key s' →
      s' ∈ find_overlapping_sstables_nolock t src i.
Proof.
  intros Hi. split; [intros s'; apply find_overlapping_subset|].
  intros s s' k Hs Hs' Hk Hk'.
  assert (src ≠ []) as Hne by (intros ->; by apply elem_of_nil in Hs).
  destruct (find_overlapping_spec t src i Hne Hi) as (lo & hi & Hrange & ->).
  destruct (Hrange s Hs). unfold overlapping. apply list_elem_of_filter. split; [lia|done].
Qed.

Definition sized (T : Z) (out : list SSTable) : Prop :=
  ∀ s, s ∈ out →
    1 ≤ Z.of_nat (size (data s)) ≤ Z.max 1 T ∧ entry_count s = Z.of_nat (size (data s)).

Lemma create_from_memtable_sized (T : Z) (m : gmap Z string) (nid : Z) :
  Z.of_nat (size m) ≤ Z.max 1 T → sized T (option_list (create_from_memtable m nid)).
Proof.
  intros Hm s Hs. destruct (decide (m = ∅)) as [->|Hne].
  { rewrite create_from_memtable_empty in Hs. by apply elem_of_nil in Hs. }
  destruct (create_from_memtable_spec m nid Hne) as (lo & hi & Hc & _).
  rewrite Hc in Hs. unfold option_list in Hs. cbn [option_rect] in Hs.
  apply list_elem_of_singleton in Hs as ->. cbn [SSTable_new data entry_count].
  split; [|done]. split; [|done].
  destruct (size m) eqn:Hsz; [by apply map_size_empty_iff in Hsz|lia].
Qed.

Lemma sized_app (T : Z) (out1 out2 : list SSTable) :
  sized T out1 → sized T out2 → sized T (out1 ++ out2).
Proof. intros H1 H2 s [Hs|Hs]%elem_of_app; [by apply H1|by apply H2]. Qed.

Lemma partition_sized (T : Z) (l : list (Z * string)) :
  ∀ cur out nid cur' out' nid',
  foldl (partition_entry T) (cur, out, nid) l = (cur', out', nid') →
  Z.of_nat (size cur) < Z.max 1 T → sized T out →
  Z.of_nat (size cur') < Z.max 1 T ∧ sized T out'.
Proof.
  induction l as [|[k v] l IH]; intros cur out nid cur' out' nid' Hrun Hcur Hout.
  { simpl in Hrun. by injection Hrun as <- <- <-. }
  cbn [foldl] in Hrun. unfold partition_entry at 2 in Hrun. cbn [fst snd] in Hrun.
  pose proof (size_insert_le cur k v) as Hsz.
  case_decide as Hfull; apply IH in Hrun; try done.
  - rewrite map_size_empty. lia.
  - apply sized_app; [done|]. apply create_from_memtable_sized. lia.
  - lia.
Qed.

(** Compaction never builds an empty SSTable nor one with more entries
    than [sstable_target_entry_count_] (one entry when that count is
    zero), and [entry_count] is the number of entries of [data]. *)
Theorem compaction_output_sizes (t : LSMTree) (src tgt : list SSTable) (s : SSTable) :
  s ∈ (build_new_ssts t src tgt).1 →
  1 ≤ Z.of_nat (size (data s)) ≤ Z.max 1 (sstable_target_entry_count_ t)
  ∧ entry_count s = Z.of_nat (size (data s)).
Proof.
  unfold build_new_ssts. fold (merged_map src tgt). case_decide; [by intros ?%elem_of_nil|].
  destruct (foldl _ _ _) as [[cur out] nid] eqn:Hrun.
  apply partition_sized in Hrun as [Hcur Hout];
    [|rewrite map_size_empty; lia|by intros ? ?%elem_of_nil].
  case_decide; cbn [fst]; [apply Hout|].
  apply sized_app; [done|]. apply create_from_memtable_sized. lia.
Qed.

(** ** An SSTable is a frozen copy of its memtable *)

(** [create_from_memtable] returns [nullptr] exactly for an empty
    memtable; otherwise the SSTable carries the id it was given and
    [find_key] answers every key as the memtable would, a tombstone
    counting as absent. *)
Theorem sstable_round_trip (m : gmap Z string) (sstable_id : Z) :
  (create_from_memtable m sstable_id = None ↔ m = ∅)
  ∧ ∀ sst, create_from_memtable m sstable_id = Some sst →
      id sst = sstable_id
      ∧ entry_count sst = Z.of_nat (size m)
      ∧ ∀ k, find_key sst k = m !! k ≫= live.
Proof.
  split.
  - split; [|intros ->; apply create_from_memtable_empty].
    intros Hc. destruct (decide (m = ∅)) as [|Hne]; [done|].
    destruct (create_from_memtable_spec m sstable_id Hne) as (lo & hi & Hc' & _). congruence.
  - intros sst Hc. pose proof (create_from_memtable_ok m sstable_id sst Hc) as Hok.
    pose proof (create_from_memtable_Some m sstable_id sst Hc) as (Hne & Hid & Hd & _).
    split; [done|]. split.
    + destruct (create_from_memtable_spec m sstable_id Hne) as (lo & hi & Hc' & _).
      rewrite Hc in Hc'. by injection Hc' as ->.
    + intros k. by rewrite (find_key_ok sst k Hok), Hd.
Qed.

(** ** Level 0 after a compaction turn *)



(** ** More on SSTables *)

(** The SSTable of [src/lsm/SSTables.h] (no Bloom filter, no range
    check): [create_from_memtable] returns [nullptr] exactly for an empty
    memtable; otherwise [find_key] answers every key as the memtable
    would, a tombstone counting as absent. *)
Theorem current_sstable_round_trip (m : gmap Z string) (sstable_id : Z) :
  (LSMCurrent.create_from_memtable iter m sstable_id = None ↔ m = ∅)
  ∧ ∀ sst, LSMCurrent.create_from_memtable iter m sstable_id = Some sst →
      LSMCurrent.id sst = sstable_id
      ∧ LSMCurrent.entry_count sst = Z.of_nat (size m)
      ∧ ∀ k, LSMCurrent.find_key sst k = m !! k ≫= live.
Proof.
  unfold LSMCurrent.create_from_memtable.
  change (foldl _ ∅ (iter m)) with (insert_all ∅ (iter m)). rewrite insert_all_iter.
  destruct (foldl LSMCurrent.widen _ _) as [lo hi].
  case_decide as Hm; (split; [split; [done|by intros ?]|]); [done|].
  intros sst [= <-]. cbn [LSMCurrent.SSTable_new LSMCurrent.id LSMCurrent.entry_count].
  split; [done|]. split; [done|]. intros k. unfold LSMCurrent.find_key.
  change (LSMCurrent.data (LSMCurrent.SSTable_new sstable_id lo hi m)) with m.
  destruct (m !! k) as [v|]; [|done].
  cbn [mbind option_bind]. unfold live. reflexivity.
Qed.

Lemma copy_entries_flag (l : list (Z * string)) :
  ∀ m lo hi m' lo' hi' f',
  foldl copy_entry (m, lo, hi, false) l = (m', lo', hi', f') → f' = false.
Proof.
  induction l as [|[k v] l IH]; intros m lo hi m' lo' hi' f' Hrun.
  { simpl in Hrun. by injection Hrun as <- <- <- <-. }
  cbn [foldl] in Hrun. by apply IH in Hrun.
Qed.

Lemma copy_entries_tight (l : list (Z * string)) :
  ∀ m lo hi f m' lo' hi' f',
  (f = false → is_Some (m !! lo) ∧ is_Some (m !! hi)) →
  foldl copy_entry (m, lo, hi, f) l = (m', lo', hi', f') →
  (f' = false → is_Some (m' !! lo') ∧ is_Some (m' !! hi'))
  ∧ (l ≠ [] → f' = false).
Proof.
  induction l as [|[k v] l IH]; intros m lo hi f m' lo' hi' f' Hin Hrun.
  { simpl in Hrun. injection Hrun as <- <- <- <-. done. }
  cbn [foldl] in Hrun.
  assert (∃ lo1 hi1,
            copy_entry (m, lo, hi, f) (k, v) = (<[k:=v]> m, lo1, hi1, false)
            ∧ is_Some (<[k:=v]> m !! lo1) ∧ is_Some (<[k:=v]> m !! hi1))
    as (lo1 & hi1 & Hstep & Hlo1 & Hhi1).
  { unfold copy_entry. cbn [fst snd]. destruct f.
    - exists k, k. by rewrite lookup_insert_eq.
    - destruct (Hin eq_refl) as [Hlo Hhi].
      exists (Z.min lo k), (Z.max hi k). split; [done|].
      rewrite !lookup_insert_is_Some.
      destruct (Z.min_spec lo k) as [[_ ->]|[_ ->]], (Z.max_spec hi k) as [[_ ->]|[_ ->]];
        split; try (by left);
        match goal with
        | |- k = ?x ∨ _ => destruct (decide (k = x)); [by left|by right]
        end. }
  rewrite Hstep in Hrun. pose proof (copy_entries_flag _ _ _ _ _ _ _ _ Hrun) as ->.
  apply IH in Hrun as [Hout _]; done.
Qed.

Lemma widen_tight (l : list (Z * string)) :
  ∀ lo hi lo' hi',
  foldl LSMCurrent.widen (lo, hi) l = (lo', hi') →
  (lo' = lo ∨ lo' ∈ l.*1) ∧ (hi' = hi ∨ hi' ∈ l.*1).
Proof.
  induction l as [|[k v] l IH]; intros lo hi lo' hi' Hrun.
  { simpl in Hrun. injection Hrun as <- <-. by split; left. }
  cbn [foldl] in Hrun. unfold LSMCurrent.widen at 2 in Hrun. cbn [fst] in Hrun.
  apply IH in Hrun as [Hlo Hhi]. rewrite fmap_cons. cbn [fst]. split.
  - destruct Hlo as [Hlo|Hlo]; [|right; by right].
    rewrite Hlo. destruct (decide (k < lo)); [right; by left|by left].
  - destruct Hhi as [Hhi|Hhi]; [|right; by right].
    rewrite Hhi. destruct (decide (k > hi)); [right; by left|by left].
Qed.

(** [min_key] and [max_key] of an SSTable are keys of its data, in the
    SSTable of either directory: the recorded range is the smallest one
    that holds the keys. *)
Theorem sstable_range_is_tight (m : gmap Z string) (sstable_id : Z) :
  (∀ k, is_Some (m !! k) → 0 ≤ k ≤ UINT64_MAX) →
  (∀ sst, create_from_memtable m sstable_id = Some sst →
     is_Some (data sst !! min_key sst) ∧ is_Some (data sst !! max_key sst))
  ∧ (∀ sst, LSMCurrent.create_from_memtable iter m sstable_id = Some sst →
       is_Some (LSMCurrent.data sst !! LSMCurrent.min_key sst)
       ∧ is_Some (LSMCurrent.data sst !! LSMCurrent.max_key sst)).
Proof.
  intros Hrange. split.
  - intros sst Hc. unfold create_from_memtable in Hc.
    case_decide as Hne; [done|].
    destruct (foldl copy_entry _ _) as [[[m' lo] hi] f] eqn:Hrun.
    pose proof (copy_entries_spec (iter m) ∅ UINT64_MAX 0 true ltac:(done) ltac:(done))
      as (lo1 & hi1 & f1 & Heq & _).
    rewrite Hrun, insert_all_iter in Heq. injection Heq as -> <- <- <-.
    apply copy_entries_tight in Hrun as [Htight Hf]; [|done].
    case_decide; [done|]. injection Hc as <-. cbn [SSTable_new data min_key max_key].
    apply Htight, Hf. by rewrite iter_nil.
  - intros sst Hc. unfold LSMCurrent.create_from_memtable in Hc.
    case_decide as Hne; [done|].
    change (foldl _ ∅ (iter m)) with (insert_all ∅ (iter m)) in Hc.
    rewrite insert_all_iter in Hc.
    destruct (foldl LSMCurrent.widen _ _) as [lo hi] eqn:Hrun.
    injection Hc as <-.
    cbn [LSMCurrent.SSTable_new LSMCurrent.data LSMCurrent.min_key LSMCurrent.max_key].
    destruct (widen_spec (iter m) LSMCurrent.UINT64_MAX 0) as (lo1 & hi1 & Heq & _ & _ & Hb).
    rewrite Hrun in Heq. injection Heq as <- <-.
    apply widen_tight in Hrun as [Hlo Hhi].
    assert (∀ k, k ∈ (iter m).*1 → is_Some (m !! k)) as Hin.
    { intros k [[k' v] [-> Hkv]]%list_elem_of_fmap. apply elem_of_iter in Hkv. by exists v. }
    assert (∃ k0, k0 ∈ (iter m).*1) as [k0 Hk0].
    { destruct (iter m) as [|[k0 v0] l] eqn:Hl; [by apply iter_nil in Hl|].
      exists k0. rewrite fmap_cons. by left. }
    pose proof (Hrange k0 (Hin k0 Hk0)) as Hr0. pose proof (Hb k0 Hk0) as Hb0.
    change LSMCurrent.UINT64_MAX with UINT64_MAX in *.
    split.
    + destruct Hlo as [->|Hlo]; [|by apply Hin].
      replace UINT64_MAX with k0 by lia. by apply Hin.
    + destruct Hhi as [->|Hhi]; [|by apply Hin].
      replace 0 with k0 by lia. by apply Hin.
Qed.

(** ** One turn of the flush worker *)

Lemma put_immutables_nonempty (t : LSMTree) (k : Z) (v : string) :
  Forall (λ m, m ≠ ∅) (immutable_memtables_ t) →
  Forall (λ m, m ≠ ∅) (immutable_memtables_ (put t k v)).
Proof.
  intros Hall. rewrite put_unfold. cbn zeta. case_decide; [|done].
  cbn [set_immutables immutable_memtables_ set_active].
  apply Forall_app. split; [done|]. constructor; [|done]. apply insert_non_empty.
Qed.

Lemma run_immutables_nonempty (ops : list Op) (t : LSMTree) :
  Forall (λ m, m ≠ ∅) (immutable_memtables_ t) →
  Forall (λ m, m ≠ ∅) (immutable_memtables_ (run t ops)).
Proof.
  revert t. induction ops as [|o ops IH]; intros t Hall; [done|].
  unfold run. cbn [foldl]. fold (run (apply_op t o) ops). apply IH.
  destruct o as [k v|k| |]; cbn [apply_op].
  - by apply put_immutables_nonempty.
  - by apply put_immutables_nonempty.
  - unfold flush_worker_step. destruct (immutable_memtables_ t) as [|m rest] eqn:Himm;
      [by rewrite Himm|].
    apply Forall_cons in Hall as [_ Hall].
    unfold flush_memtable_to_l0. by repeat case_match.
  - unfold perform_compaction_check.
    assert (∀ i src tgt,
              immutable_memtables_ (compact_sstables t i src tgt) = immutable_memtables_ t)
      as Hc.
    { intros i src tgt. unfold compact_sstables. by repeat case_match. }
    case_decide; [by rewrite Hc|]. generalize 0 at 1.
    induction (Z.to_nat (max_levels_ t - 1)) as [|cnt IHc]; intros i; [done|].
    cbn [compaction_scan]. case_decide; [by rewrite Hc|apply IHc].
Qed.

(** In a tree reached by fewer than 2^32 operations and worker turns, a
    turn of the flush worker that finds the queue of immutable memtables
    non-empty takes the oldest one off the queue and appends to level 0
    one SSTable with the entries of that memtable and the next free id;
    the deeper levels and the active memtable stay as they are. *)
Theorem flush_moves_oldest_memtable (memtable_max_entries l0_max_sstables num_levels
    sstable_target_entries : Z) (ops : list Op) (m : gmap Z string)
    (rest : list (gmap Z string)) :
  1 ≤ num_levels → Z.of_nat (length ops) < 2 ^ 32 →
  let t := run (LSMTree_new memtable_max_entries l0_max_sstables num_levels
                  sstable_target_entries) ops in
  immutable_memtables_ t = m :: rest →
  ∃ s,
    levels_ (flush_worker_step t) !!! 0%nat = levels_ t !!! 0%nat ++ [s]
    ∧ data s = m ∧ id s = next_sstable_id_ t
    ∧ (∀ j, (1 ≤ j)%nat → levels_ (flush_worker_step t) !! j = levels_ t !! j)
    ∧ immutable_memtables_ (flush_worker_step t) = rest
    ∧ active_memtable_ (flush_worker_step t) = active_memtable_ t
    ∧ next_sstable_id_ (flush_worker_step t) = next_sstable_id_ t + 1.
Proof.
  intros Hlv Hlen t Himm. set (B := 2 ^ 32 - 1).
  assert (B * B ≤ UINT64_MAX) as HB by (unfold B, UINT64_MAX; lia).
  pose proof (good_new B memtable_max_entries l0_max_sstables num_levels
                sstable_target_entries Hlv) as H0.
  apply (run_good B ops) in H0; [|unfold B; simpl; lia|done].
  destruct H0 as (Hinv & Hid & _). fold t in Hinv, Hid. simpl in Hid.
  assert (m ≠ ∅) as Hne.
  { pose proof (run_immutables_nonempty ops (LSMTree_new memtable_max_entries
                  l0_max_sstables num_levels sstable_target_entries)
                  ltac:(constructor)) as Hall.
    fold t in Hall. rewrite Himm in Hall. by apply Forall_cons in Hall as [? _]. }
  assert (0 ≤ next_sstable_id_ t < UINT64_MAX) as Hid'.
  { assert (Z.of_nat (length ops) * B ≤ B * B) by (unfold B; nia).
    unfold B, UINT64_MAX in *. lia. }
  destruct (flush_unfold t m rest Hinv Himm Hne Hid') as (s & Hc & ->).
  apply create_from_memtable_Some in Hc as (_ & Hids & Hd & _).
  destruct (inv_level0 t Hinv) as [deeper Hl0].
  exists s. cbn [set_levels set_immutables levels_ immutable_memtables_ active_memtable_
                  next_sstable_id_].
  split; [rewrite list_lookup_total_insert_eq; [done|rewrite Hl0; simpl; lia]|].
  split; [done|]. split; [done|]. split; [|done].
  intros j Hj. apply list_lookup_insert_ne. lia.
Qed.

End WithEnv.
End LSM.

(** ** The engine on concrete inputs

    The runs below fix the environment to the identity hash of libstdc++,
    the key order of [map_to_list] and the default level multiplier
    [10.0]. *)

Definition hash_id (x : Z) : Z := x.
Definition iter_sorted (m : gmap Z string) : list (Z * string) := map_to_list m.
(** [static_cast<size_t>(max_entries * level_entry_multiplier_)] with the
    default ratio [10.0]: the count is converted to [double], the product
    is rounded to [double] and truncated.  (The cast of a product of
    [2^64] or more is undefined; [u64] stands in.) *)
Definition scale_by_10 (n : Z) : Z :=
  u64 (IEEE.trunc (IEEE.mul IEEE.binary64 (IEEE.of_Z IEEE.binary64 n)
                            (IEEE.of_Z IEEE.binary64 10))).

Lemma iter_sorted_perm (m : gmap Z string) : iter_sorted m ≡ₚ map_to_list m.
Proof. reflexivity. Defined.

(** A tree with [memtable_max_entries = 1], so that every [put] rotates the
    active memtable, after [put(7,"x")], a flush, [delete(7)] and a second
    flush. *)
Definition tree_put_flush_del_flush : LSM.LSMTree :=
  let t := LSM.LSMTree_new 1 4 4 256 in
  let t := LSM.flush_worker_step hash_id iter_sorted (LSM.put t 7 "x") in
  LSM.flush_worker_step hash_id iter_sorted (LSM.del t 7).

(** C1 (the code at the failing input). After [put(7,"x")], flush,
    [delete(7)], flush, level 0 holds an older SSTable with [(7,"x")] and a
    newer one with the tombstone for 7, both memtables are empty, and
    [get(7)] returns [true] with the value ["x"]: [find_key] reports the
    tombstone as a plain miss and the L0 loop moves on to the older
    SSTable. *)
Theorem get_after_flushed_delete :
  ((λ s, (LSM.id s, map_to_list (LSM.data s)))
     <$> LSM.levels_ tree_put_flush_del_flush !!! 0%nat)
  = [(0, [(7, "x")]); (1, [(7, LSM.TOMBSTONE_VALUE)])]
  ∧ LSM.active_memtable_ tree_put_flush_del_flush = Some ∅
  ∧ LSM.immutable_memtables_ tree_put_flush_del_flush = []
  ∧ LSM.get hash_id tree_put_flush_del_flush 7 = Some "x".
Proof. vm_compute. done. Qed.

(** C3 (the code at the failing input).  A tree with
    [memtable_max_entries = 1]: [put(7,"a")] is flushed to level 0, then
    [put(7,"b")] rotates the active memtable into the queue, where
    [get(7)] finds ["b"].  The flush worker takes that memtable out of
    the queue; until it has pushed the SSTable to level 0 the newest
    value of 7 is in no place [get] looks at, and [get(7)] returns the
    older ["a"].  Once the SSTable is in level 0, [get(7)] returns ["b"]
    again. *)
Theorem get_during_flush_returns_older_value :
  let t0 := LSM.flush_worker_step hash_id iter_sorted
              (LSM.put (LSM.LSMTree_new 1 4 4 256) 7 "a") in
  let t1 := LSM.put t0 7 "b" in
  let t2 := (LSM.flush_worker_take t1).2 in
  LSM.get hash_id t1 7 = Some "b"
  ∧ (LSM.flush_worker_take t1).1 = Some {[ 7 := "b" ]}
  ∧ LSM.active_memtable_ t2 = Some ∅
  ∧ LSM.immutable_memtables_ t2 = []
  ∧ LSM.get hash_id t2 7 = Some "a"
  ∧ LSM.flush_memtable_to_l0 hash_id iter_sorted t2 {[ 7 := "b" ]}
    = LSM.flush_worker_step hash_id iter_sorted t1
  ∧ LSM.get hash_id (LSM.flush_worker_step hash_id iter_sorted t1) 7 = Some "b".
Proof. vm_compute. done. Qed.

Lemma sstable_key_range_witness :
  let m : gmap Z string := {[ 3 := "c"; 1 := "a" ]} in
  m ≠ ∅
  ∧ (∀ k, is_Some (m !! k) → 0 ≤ k ≤ LSM.UINT64_MAX)
  ∧ ∃ sst, LSM.create_from_memtable hash_id iter_sorted m 0 = Some sst
      ∧ LSM.data sst = m
      ∧ (∀ k, is_Some (LSM.data sst !! k) → LSM.min_key sst ≤ k ≤ LSM.max_key sst)
      ∧ (∀ key, key < LSM.min_key sst ∨ key > LSM.max_key sst →
                LSM.data sst !! key = None).
Proof.
  intros m.
  assert (m ≠ ∅) as Hne by (vm_compute; discriminate).
  assert (∀ k, is_Some (m !! k) → 0 ≤ k ≤ LSM.UINT64_MAX) as Hrange.
  { intros k [v Hk]. unfold m in Hk.
    apply lookup_insert_Some in Hk as [[<- _]|[_ Hk]]; [unfold LSM.UINT64_MAX; lia|].
    apply lookup_singleton_Some in Hk as [<- _]. unfold LSM.UINT64_MAX; lia. }
  split; [done|]. split; [done|].
  apply (LSM.sstable_key_range hash_id iter_sorted iter_sorted_perm m 0 Hne Hrange).
Defined.

(** Level 0 after [put(7,"x")], [put(8,"y")] and [delete(7)], each flushed
    on its own: three SSTables, the newest of which holds the tombstone
    for 7.  Compacted into the empty level 1, they give one new SSTable
    with [(8,"y")] alone. *)
Definition tree_flushed_tombstone : LSM.LSMTree :=
  let t := LSM.LSMTree_new 1 4 4 256 in
  let t := LSM.flush_worker_step hash_id iter_sorted (LSM.put t 7 "x") in
  let t := LSM.flush_worker_step hash_id iter_sorted (LSM.put t 8 "y") in
  LSM.flush_worker_step hash_id iter_sorted (LSM.del t 7).

Lemma compaction_strips_tombstones_witness :
  let t := tree_flushed_tombstone in
  let src := LSM.levels_ t !!! 0%nat in
  let new_ssts := (LSM.build_new_ssts hash_id iter_sorted t src []).1 in
  ((λ s, (LSM.id s, map_to_list (LSM.data s))) <$> src)
  = [(0, [(7, "x")]); (1, [(8, "y")]); (2, [(7, LSM.TOMBSTONE_VALUE)])]
  ∧ ((λ s, (LSM.id s, map_to_list (LSM.data s))) <$> new_ssts) = [(3, [(8, "y")])]
  ∧ LSM.levels_ (LSM.compact_sstables hash_id iter_sorted t 0 src []) !!! Z.to_nat (0 + 1)
    ≡ₚ LSM.remove_compacted_ssts (LSM.levels_ t !!! Z.to_nat (0 + 1)) [] ++ new_ssts
  ∧ ∀ sst k v, sst ∈ new_ssts → LSM.data sst !! k = Some v → v ≠ LSM.TOMBSTONE_VALUE.
Proof.
  intros t src new_ssts.
  split; [vm_compute; reflexivity|]. split; [vm_compute; reflexivity|].
  apply (LSM.compaction_strips_tombstones hash_id iter_sorted iter_sorted_perm t 0 src []).
  - lia.
  - vm_compute. reflexivity.
  - vm_compute. reflexivity.
  - vm_compute. discriminate.
Defined.

(** * B+ tree ([src/btree/btree.h]) *)

Module BTree.

Definition MAX_RANGE_RESULTS : nat := 1000.
Definition MAX_KEYS_INTERNAL : nat := 120.
Definition MAX_KEYS_LEAF : nat := 30.

(** ** Nodes, the arena and the tree *)

Record InsertResult := mkInsertResult {
  splitted : bool;
  newChildOffset : nat;
  promotedKey : Z
}.

(** [InsertResult res{}; res.splitted = false;] *)
Definition no_split : InsertResult := mkInsertResult false 0 0.

Record InternalNode := mkInternalNode {
  int_numKeys : nat;
  int_keys : list Z;
  int_childIndices : list (option nat)
}.

Record LeafNode := mkLeafNode {
  leaf_numKeys : nat;
  leaf_keys : list Z;
  leaf_values : list string;
  leaf_nextLeaf : option nat
}.

(** [InternalNode()] and [LeafNode()]: vectors of the full size, no key. *)
Definition InternalNode_new : InternalNode :=
  mkInternalNode 0 (replicate MAX_KEYS_INTERNAL 0) (replicate (MAX_KEYS_INTERNAL + 1) None).
Definition LeafNode_new : LeafNode :=
  mkLeafNode 0 (replicate MAX_KEYS_LEAF 0) (replicate MAX_KEYS_LEAF EmptyString) None.

(** [struct Node]: the tag decides which of the two pointers is set. *)
Inductive Node :=
| Internal (internal : InternalNode)
| Leaf (leaf : LeafNode).

Record BPlusTree := mkTree {
  rootIndex_ : option nat;
  nodes_ : list Node
}.

(** [BPlusTree()]: the root is a fresh leaf. *)
Definition BPlusTree_new : BPlusTree := mkTree (Some 0%nat) [Leaf LeafNode_new].

(** A write through the pointer [nodes_[off]->leaf] or [->internal]. *)
Definition set_node (t : BPlusTree) (off : nat) (n : Node) : BPlusTree :=
  mkTree (rootIndex_ t) (<[off := n]> (nodes_ t)).

Definition allocateNode (t : BPlusTree) : nat * BPlusTree :=
  (length (nodes_ t), mkTree (rootIndex_ t) (nodes_ t ++ [Internal InternalNode_new])).

Definition allocateLeaf (t : BPlusTree) : nat * BPlusTree :=
  (length (nodes_ t), mkTree (rootIndex_ t) (nodes_ t ++ [Leaf LeafNode_new])).

(** ** Loops over one node *)

(** [for (i = 0; i < numKeys; i++) if (keys[i] == key) ...]: the first
    matching index among [i, i+cnt). *)
Fixpoint scan_eq (keys : list Z) (key : Z) (i cnt : nat) : option nat :=
  match cnt with
  | O => None
  | S cnt' => if decide (keys !!! i = key) then Some i else scan_eq keys key (S i) cnt'
  end.

(** [while (i < numKeys && key >= keys[i]) i++;] with [cnt = numKeys - i]. *)
Fixpoint child_slot (keys : list Z) (key : Z) (i cnt : nat) : nat :=
  match cnt with
  | O => i
  | S cnt' => if decide (key >= keys !!! i) then child_slot keys key (S i) cnt' else i
  end.

(** [while (pos > 0 && keys[pos-1] > key) { keys[pos] = keys[pos-1];
    values[pos] = values[pos-1]; pos--; }] *)
Fixpoint shift_records (keys : list Z) (values : list string) (key : Z) (pos : nat) :
    list Z * list string * nat :=
  match pos with
  | O => (keys, values, O)
  | S p =>
      if decide (keys !!! p > key) then
        shift_records (<[S p := keys !!! p]> keys) (<[S p := values !!! p]> values) key p
      else (keys, values, pos)
  end.

(** [for (i = 0; i < tmpKeys.size(); ++i) if (key < tmpKeys[i]) { pos = i;
    break; }], with [pos] preset to [tmpKeys.size()]. *)
Fixpoint first_greater (tmpKeys : list Z) (key : Z) (i cnt : nat) : nat :=
  match cnt with
  | O => i
  | S cnt' => if decide (key < tmpKeys !!! i) then i else first_greater tmpKeys key (S i) cnt'
  end.

(** [v.insert(v.begin() + pos, x)] *)
Definition vector_insert {A} (v : list A) (pos : nat) (x : A) : list A :=
  take pos v ++ x :: drop pos v.

(** [for (i = 0; i < n; i++) dst[d + i] = src[s + i];] *)
Fixpoint copy_range {A} `{Inhabited A} (dst src : list A) (d s n : nat) : list A :=
  match n with
  | O => dst
  | S n' => copy_range (<[d := src !!! s]> dst) src (S d) (S s) n'
  end.

(** [for (j = numKeys; j > i; j--) { keys[j] = keys[j-1];
    childIndices[j+1] = childIndices[j]; }], with [cnt = j - i]. *)
Fixpoint shift_children (keys : list Z) (children : list (option nat)) (j cnt : nat) :
    list Z * list (option nat) :=
  match cnt with
  | O => (keys, children)
  | S cnt' =>
      shift_children (<[j := keys !!! (j - 1)%nat]> keys)
                     (<[S j := children !!! j]> children) (j - 1)%nat cnt'
  end.

(** ** Search *)

Fixpoint searchKey (fuel : nat) (nodes : list Node) (nodeOffset : option nat) (key : Z) :
    option (option string) :=
  match fuel with
  | O => None
  | S fuel' =>
      match nodeOffset with
      | None => Some None
      | Some off =>
          node ← nodes !! off;
          match node with
          | Leaf leaf =>
              Some ((λ i, leaf_values leaf !!! i)
                      <$> scan_eq (leaf_keys leaf) key 0 (leaf_numKeys leaf))
          | Internal internal =>
              let i := child_slot (int_keys internal) key 0 (int_numKeys internal) in
              searchKey fuel' nodes (int_childIndices internal !!! i) key
          end
      end
  end.

Fixpoint findLeafForKey (fuel : nat) (nodes : list Node) (nodeOffset : option nat) (key : Z) :
    option (option nat) :=
  match fuel with
  | O => None
  | S fuel' =>
      match nodeOffset with
      | None => Some None
      | Some off =>
          node ← nodes !! off;
          match node with
          | Leaf _ => Some (Some off)
          | Internal internal =>
              let i := child_slot (int_keys internal) key 0 (int_numKeys internal) in
              findLeafForKey fuel' nodes (int_childIndices internal !!! i) key
          end
      end
  end.

(** The recursion of [searchKey], [findLeafForKey] and [insertInternal]
    follows child indices through the arena; the model bounds its depth by
    the number of nodes, which no path of a tree exceeds.  A result [None]
    stands for a run the source does not define (an index outside the
    arena, a leaf dereferenced as an internal node) or for a path longer
    than the arena. *)
Definition fuel_of (t : BPlusTree) : nat := S (length (nodes_ t)).

(** [BPlusTree::get]: [Some (Some v)] is [true] with [outValue = v],
    [Some None] is [false]. *)
Definition get (t : BPlusTree) (key : Z) : option (option string) :=
  match rootIndex_ t with
  | None => Some None
  | Some root => searchKey (fuel_of t) (nodes_ t) (Some root) key
  end.

(** The [for] loop of [rangeQuery] over one leaf; the flag is [true] when
    the loop ends in [return out]. *)
Fixpoint range_leaf (leaf : LeafNode) (low high : Z) (max_results : nat) (i cnt : nat)
    (out : list (Z * string)) : list (Z * string) * bool :=
  match cnt with
  | O => (out, false)
  | S cnt' =>
      if decide (length out < max_results)%nat then
        let k := leaf_keys leaf !!! i in
        if decide (k < low) then range_leaf leaf low high max_results (S i) cnt' out
        else if decide (k > high) then (out, true)
        else range_leaf leaf low high max_results (S i) cnt'
               (out ++ [(k, leaf_values leaf !!! i)])
      else (out, false)
  end.

(** The [while] loop of [rangeQuery] along the [nextLeaf] links. *)
Fixpoint range_walk (fuel : nat) (nodes : list Node) (leafOff : option nat)
    (low high : Z) (max_results : nat) (out : list (Z * string)) :
    option (list (Z * string)) :=
  match fuel with
  | O => None
  | S fuel' =>
      match leafOff with
      | None => Some out
      | Some off =>
          if decide (length out < max_results)%nat then
            node ← nodes !! off;
            match node with
            | Leaf leaf =>
                let '(out, finished) :=
                  range_leaf leaf low high max_results 0 (leaf_numKeys leaf) out in
                if finished then Some out
                else range_walk fuel' nodes (leaf_nextLeaf leaf) low high max_results out
            | Internal _ => None
            end
          else Some out
      end
  end.

Definition rangeQuery (t : BPlusTree) (low high : Z) (max_results : nat) :
    option (list (Z * string)) :=
  match rootIndex_ t with
  | None => Some []
  | Some root =>
      if decide (low > high) then Some []
      else
        leafOff ← findLeafForKey (fuel_of t) (nodes_ t) (Some root) low;
        range_walk (fuel_of t) (nodes_ t) leafOff low high max_results []
  end.

(** ** Insertion *)

Definition splitLeaf (t : BPlusTree) (leafOffset : nat) (leaf : LeafNode)
    (key : Z) (val : string) : BPlusTree * InsertResult :=
  let tmpKeys := take (leaf_numKeys leaf) (leaf_keys leaf) in
  let tmpValues := take (leaf_numKeys leaf) (leaf_values leaf) in
  let pos := first_greater tmpKeys key 0 (length tmpKeys) in
  let tmpKeys := vector_insert tmpKeys pos key in
  let tmpValues := vector_insert tmpValues pos val in
  let '(newLeafOffset, t) := allocateLeaf t in
  let newLeaf := LeafNode_new in
  let split := (length tmpKeys / 2)%nat in
  let new_numKeys := (length tmpKeys - split)%nat in
  let newLeaf :=
    mkLeafNode new_numKeys
      (copy_range (leaf_keys newLeaf) tmpKeys 0 split new_numKeys)
      (copy_range (leaf_values newLeaf) tmpValues 0 split new_numKeys)
      (leaf_nextLeaf leaf) in
  let leaf :=
    mkLeafNode split
      (copy_range (leaf_keys leaf) tmpKeys 0 0 split)
      (copy_range (leaf_values leaf) tmpValues 0 0 split)
      (Some newLeafOffset) in
  let t := set_node (set_node t leafOffset (Leaf leaf)) newLeafOffset (Leaf newLeaf) in
  (t, mkInsertResult true newLeafOffset (leaf_keys newLeaf !!! 0%nat)).

Definition insertLeaf (t : BPlusTree) (leafOffset : nat) (leaf : LeafNode)
    (key : Z) (val : string) : BPlusTree * InsertResult :=
  match scan_eq (leaf_keys leaf) key 0 (leaf_numKeys leaf) with
  | Some i =>
      (set_node t leafOffset
         (Leaf (mkLeafNode (leaf_numKeys leaf) (leaf_keys leaf)
                           (<[i := val]> (leaf_values leaf)) (leaf_nextLeaf leaf))),
       no_split)
  | None =>
      if decide (leaf_numKeys leaf < MAX_KEYS_LEAF)%nat then
        let '(keys, values, pos) :=
          shift_records (leaf_keys leaf) (leaf_values leaf) key (leaf_numKeys leaf) in
        (set_node t leafOffset
           (Leaf (mkLeafNode (S (leaf_numKeys leaf)) (<[pos := key]> keys)
                             (<[pos := val]> values) (leaf_nextLeaf leaf))),
         no_split)
      else splitLeaf t leafOffset leaf key val
  end.

Definition splitInternal (t : BPlusTree) (nodeOffset : nat) (node : InternalNode)
    (childIndex : nat) (cRes : InsertResult) : BPlusTree * InsertResult :=
  let tmpKeys := take (int_numKeys node) (int_keys node) in
  let tmpChildIndices := take (int_numKeys node + 1) (int_childIndices node) in
  let tmpKeys := vector_insert tmpKeys childIndex (promotedKey cRes) in
  let tmpChildIndices :=
    vector_insert tmpChildIndices (childIndex + 1) (Some (newChildOffset cRes)) in
  let totalKeys := length tmpKeys in
  let midIndex := (totalKeys / 2)%nat in
  let promotedKey := tmpKeys !!! midIndex in
  let leftCount := midIndex in
  let rightCount := (totalKeys - (leftCount + 1))%nat in
  let node :=
    mkInternalNode leftCount
      (copy_range (int_keys node) tmpKeys 0 0 leftCount)
      (<[leftCount := tmpChildIndices !!! leftCount]>
         (copy_range (int_childIndices node) tmpChildIndices 0 0 leftCount)) in
  let '(newOffset, t) := allocateNode (set_node t nodeOffset (Internal node)) in
  let newNode := InternalNode_new in
  let newNode :=
    mkInternalNode rightCount
      (copy_range (int_keys newNode) tmpKeys 0 (midIndex + 1) rightCount)
      (<[rightCount := tmpChildIndices !!! (midIndex + 1 + rightCount)%nat]>
         (copy_range (int_childIndices newNode) tmpChildIndices 0 (midIndex + 1) rightCount)) in
  (set_node t newOffset (Internal newNode), mkInsertResult true newOffset promotedKey).

(** [insertIntoInternal], with the recursive call to [insertInternal] passed
    in as [rec].  [internal] is a pointer into the arena: after the call
    the node is read again at [nodeOffset]; the slot [i] was chosen
    before. *)
Definition insertIntoInternal
    (rec : BPlusTree → option nat → Z → string → option (BPlusTree * InsertResult))
    (t : BPlusTree) (nodeOffset : nat) (internal : InternalNode)
    (key : Z) (val : string) : option (BPlusTree * InsertResult) :=
  let i := child_slot (int_keys internal) key 0 (int_numKeys internal) in
  '(t, cRes) ← rec t (int_childIndices internal !!! i) key val;
  if negb (splitted cRes) then Some (t, no_split)
  else
    node ← nodes_ t !! nodeOffset;
    match node with
    | Leaf _ => None
    | Internal internal =>
        if decide (int_numKeys internal < MAX_KEYS_INTERNAL)%nat then
          let '(keys, children) :=
            shift_children (int_keys internal) (int_childIndices internal)
                           (int_numKeys internal) (int_numKeys internal - i) in
          Some (set_node t nodeOffset
                  (Internal (mkInternalNode (S (int_numKeys internal))
                               (<[i := promotedKey cRes]> keys)
                               (<[S i := Some (newChildOffset cRes)]> children))),
                no_split)
        else Some (splitInternal t nodeOffset internal i cRes)
    end.

Fixpoint insertInternal (fuel : nat) (t : BPlusTree) (nodeOffset : option nat)
    (key : Z) (val : string) : option (BPlusTree * InsertResult) :=
  match fuel with
  | O => None
  | S fuel' =>
      match nodeOffset with
      | None =>
          let '(root, t) := allocateLeaf t in
          let leaf := LeafNode_new in
          let leaf :=
            mkLeafNode 1 (<[0%nat := key]> (leaf_keys leaf))
                       (<[0%nat := val]> (leaf_values leaf)) (leaf_nextLeaf leaf) in
          Some (set_node (mkTree (Some root) (nodes_ t)) root (Leaf leaf), mkInsertResult false 0 0)
      | Some off =>
          node ← nodes_ t !! off;
          match node with
          | Leaf leaf => Some (insertLeaf t off leaf key val)
          | Internal internal =>
              insertIntoInternal (insertInternal fuel') t off internal key val
          end
      end
  end.

(** [BPlusTree::put] *)
Definition put (t : BPlusTree) (key : Z) (val : string) : option BPlusTree :=
  match rootIndex_ t with
  | None =>
      let '(root, t) := allocateLeaf t in
      let leaf := LeafNode_new in
      let leaf :=
        mkLeafNode 1 (<[0%nat := key]> (leaf_keys leaf))
                   (<[0%nat := val]> (leaf_values leaf)) (leaf_nextLeaf leaf) in
      Some (set_node (mkTree (Some root) (nodes_ t)) root (Leaf leaf))
  | Some _ =>
      '(t, result) ← insertInternal (fuel_of t) t (rootIndex_ t) key val;
      if splitted result then
        let '(newRoot, t) := allocateNode t in
        let internal := InternalNode_new in
        let internal :=
          mkInternalNode 1
            (<[0%nat := promotedKey result]> (int_keys internal))
            (<[1%nat := Some (newChildOffset result)]>
               (<[0%nat := rootIndex_ t]> (int_childIndices internal))) in
        Some (mkTree (Some newRoot) (nodes_ (set_node t newRoot (Internal internal))))
      else Some t
  end.

(** A sequence of [put]s, left to right. *)
Fixpoint put_all (t : BPlusTree) (ops : list (Z * string)) : option BPlusTree :=
  match ops with
  | [] => Some t
  | (key, val) :: ops => t' ← put t key val; put_all t' ops
  end.

Local Open Scope nat_scope.

(** ** The loops, as functions of the valid prefix *)

(** First index holding [key]. *)
Fixpoint index_of (ks : list Z) (key : Z) : option nat :=
  match ks with
  | [] => None
  | k :: ks' => if decide (k = key) then Some 0 else S <$> index_of ks' key
  end.

(** First index whose key is greater than [key], the length if none. *)
Fixpoint lpos (ks : list Z) (key : Z) : nat :=
  match ks with
  | [] => 0
  | k :: ks' => if decide (key < k)%Z then 0 else S (lpos ks' key)
  end.

(** Number of leading keys greater than [key]. *)
Fixpoint count_greater (ks : list Z) (key : Z) : nat :=
  match ks with
  | [] => 0
  | k :: ks' => if decide (k > key)%Z then S (count_greater ks' key) else 0
  end.

(** Where the right-to-left shifting loop of [insertLeaf] stops. *)
Definition rpos (ks : list Z) (key : Z) : nat :=
  length ks - count_greater (reverse ks) key.

Lemma drop_lookup_total {A} `{Inhabited A} (l : list A) (i : nat) :
  i < length l → drop i l = (l !!! i) :: drop (S i) l.
Proof.
  intros Hi. apply drop_S. by apply list_lookup_lookup_total_lt.
Qed.

Lemma scan_eq_spec (keys : list Z) (key : Z) (cnt i : nat) :
  i + cnt ≤ length keys →
  scan_eq keys key i cnt = (λ j, i + j) <$> index_of (take cnt (drop i keys)) key.
Proof.
  revert i. induction cnt as [|cnt IH]; intros i Hlen; [done|].
  rewrite (drop_lookup_total keys i) by lia. cbn [scan_eq take index_of].
  case_decide; simpl; [f_equal; lia|].
  rewrite IH by lia. destruct (index_of _ _); simpl; [f_equal; lia|done].
Qed.

Lemma child_slot_spec (keys : list Z) (key : Z) (cnt i : nat) :
  i + cnt ≤ length keys →
  child_slot keys key i cnt = i + lpos (take cnt (drop i keys)) key.
Proof.
  revert i. induction cnt as [|cnt IH]; intros i Hlen; [simpl; lia|].
  rewrite (drop_lookup_total keys i) by lia. cbn [child_slot take lpos].
  repeat case_decide; try lia. rewrite IH by lia. lia.
Qed.

Lemma first_greater_spec (keys : list Z) (key : Z) (cnt i : nat) :
  i + cnt ≤ length keys →
  first_greater keys key i cnt = i + lpos (take cnt (drop i keys)) key.
Proof.
  revert i. induction cnt as [|cnt IH]; intros i Hlen; [simpl; lia|].
  rewrite (drop_lookup_total keys i) by lia. cbn [first_greater take lpos].
  repeat case_decide; try lia. rewrite IH by lia. lia.
Qed.

Lemma copy_range_spec {A} `{Inhabited A} (n : nat) (dst src : list A) (d s : nat) :
  d + n ≤ length dst → s + n ≤ length src →
  copy_range dst src d s n = take d dst ++ take n (drop s src) ++ drop (d + n) dst.
Proof.
  revert dst d s. induction n as [|n IH]; intros dst d s Hd Hs.
  - simpl. rewrite Nat.add_0_r. by rewrite take_drop.
  - cbn [copy_range]. rewrite IH by (rewrite ?length_insert; lia).
    rewrite (drop_lookup_total src s) by lia. cbn [take].
    rewrite take_insert_lt by lia. rewrite drop_insert_lt by lia.
    rewrite (take_S_r dst d (dst !!! d)) by (apply list_lookup_lookup_total_lt; lia).
    rewrite insert_app_r_alt by (rewrite length_take; lia).
    rewrite length_take, Nat.min_l, Nat.sub_diag by lia. simpl.
    rewrite <- app_assoc. simpl. repeat f_equal. lia.
Qed.

Lemma copy_range_length {A} `{Inhabited A} (n : nat) (dst src : list A) (d s : nat) :
  length (copy_range dst src d s n) = length dst.
Proof.
  revert dst d s. induction n as [|n IH]; intros dst d s; [done|].
  cbn [copy_range]. by rewrite IH, length_insert.
Qed.

Lemma copy_range_take {A} `{Inhabited A} (n : nat) (dst src : list A) (s : nat) :
  n ≤ length dst → s + n ≤ length src →
  take n (copy_range dst src 0 s n) = take n (drop s src).
Proof.
  intros Hd Hs. rewrite copy_range_spec by lia. simpl.
  rewrite take_app_le by (rewrite length_take, length_drop; lia).
  rewrite take_take. f_equal. lia.
Qed.

(** The list after the elements at [p .. pos-1] have moved one place to
    the right (the element at [p] is still in place). *)
Definition shifted {A} (l : list A) (p pos : nat) : list A :=
  take (S p) l ++ take (pos - p) (drop p l) ++ drop (S pos) l.

Lemma shifted_length {A} (l : list A) (p pos : nat) :
  p ≤ pos → pos < length l → length (shifted l p pos) = length l.
Proof.
  intros. unfold shifted. rewrite !length_app, !length_take, !length_drop. lia.
Qed.

Lemma shifted_refl {A} (l : list A) (p : nat) : shifted l p p = l.
Proof. unfold shifted. rewrite Nat.sub_diag. simpl. apply take_drop. Qed.

Lemma shifted_step {A} `{Inhabited A} (l : list A) (p q : nat) :
  p ≤ q → S q < length l →
  shifted (<[S q := l !!! q]> l) p q = shifted l p (S q).
Proof.
  intros Hp Hq. unfold shifted.
  rewrite take_insert_ge by lia.
  rewrite drop_insert_ge by lia. rewrite take_insert_ge by lia.
  rewrite drop_insert_ge by lia. rewrite Nat.sub_diag.
  rewrite (drop_lookup_total l (S q)) by lia. simpl.
  replace (S q - p) with (S (q - p)) by lia.
  rewrite (take_S_r (drop p l) (q - p) (l !!! q)).
  2:{ rewrite lookup_drop. replace (p + (q - p)) with q by lia.
      apply list_lookup_lookup_total_lt. lia. }
  by rewrite <- !app_assoc.
Qed.

Lemma shifted_insert {A} (l : list A) (p pos : nat) (x : A) :
  p ≤ pos → pos < length l →
  take (S pos) (<[p := x]> (shifted l p pos)) = vector_insert (take pos l) p x.
Proof.
  intros Hp Hpos. unfold shifted, vector_insert.
  rewrite insert_app_l by (rewrite length_take; lia).
  rewrite take_app_ge by (rewrite length_insert, length_take; lia).
  rewrite length_insert, length_take, Nat.min_l by lia.
  rewrite take_app_le by (rewrite length_take, length_drop; lia).
  rewrite take_take, Nat.min_r by lia.
  rewrite take_take, Nat.min_l by lia.
  rewrite (take_drop_commute l (pos - p) p). replace (p + (pos - p)) with pos by lia.
  rewrite (take_S_r l p (default x (l !! p))).
  2:{ destruct (lookup_lt_is_Some_2 l p ltac:(lia)) as [y Hy]. by rewrite Hy. }
  rewrite insert_app_r_alt by (rewrite length_take; lia).
  rewrite length_take, Nat.min_l, Nat.sub_diag by lia. simpl.
  rewrite <- app_assoc. done.
Qed.

Lemma rpos_snoc_greater (ks : list Z) (k key : Z) :
  (k > key)%Z → rpos (ks ++ [k]) key = rpos ks key.
Proof.
  intros Hk. unfold rpos. rewrite reverse_snoc, length_app. simpl.
  rewrite decide_True by done. lia.
Qed.

Lemma rpos_snoc_le (ks : list Z) (k key : Z) :
  ¬ (k > key)%Z → rpos (ks ++ [k]) key = S (length ks).
Proof.
  intros Hk. unfold rpos. rewrite reverse_snoc, length_app. simpl.
  rewrite decide_False by done. lia.
Qed.

Lemma count_greater_le (ks : list Z) (key : Z) : count_greater ks key ≤ length ks.
Proof. induction ks; simpl; [lia|]. case_decide; lia. Qed.

Lemma rpos_le (ks : list Z) (key : Z) : rpos ks key ≤ length ks.
Proof. unfold rpos. lia. Qed.

Lemma shift_records_spec (pos : nat) (keys : list Z) (values : list string) (key : Z) :
  pos < length keys → pos < length values →
  let p := rpos (take pos keys) key in
  shift_records keys values key pos = (shifted keys p pos, shifted values p pos, p).
Proof.
  revert keys values. induction pos as [|q IH]; intros keys values Hk Hv.
  - simpl. unfold rpos. simpl. by rewrite !shifted_refl.
  - cbn [shift_records].
    rewrite (take_S_r keys q (keys !!! q)) by (apply list_lookup_lookup_total_lt; lia).
    case_decide as Hgt.
    + rewrite rpos_snoc_greater by done.
      rewrite IH by (rewrite length_insert; lia).
      rewrite take_insert_ge by lia.
      pose proof (rpos_le (take q keys) key) as Hle.
      rewrite length_take in Hle.
      rewrite !shifted_step by lia. done.
    + rewrite rpos_snoc_le by done. rewrite length_take, Nat.min_l by lia.
      by rewrite !shifted_refl.
Qed.

Lemma shift_children_spec (cnt : nat) (keys : list Z) (children : list (option nat)) (j : nat) :
  cnt ≤ j → j < length keys → S j < length children →
  shift_children keys children j cnt
  = (shifted keys (j - cnt) j, shifted children (S (j - cnt)) (S j)).
Proof.
  revert keys children j. induction cnt as [|cnt IH]; intros keys children j Hc Hk Hch.
  - simpl. rewrite Nat.sub_0_r. by rewrite !shifted_refl.
  - cbn [shift_children]. destruct j as [|q]; [lia|].
    replace (S q - 1) with q by lia.
    rewrite IH by (rewrite ?length_insert; lia).
    replace (S q - S cnt) with (q - cnt) by lia.
    rewrite shifted_step by lia.
    rewrite (shifted_step children) by lia. done.
Qed.

(** ** The tree an arena represents *)

(** A node of the arena together with the valid prefix of its vectors:
    a leaf with its records, an internal node with its separator keys and
    its subtrees. *)
Local Unset Elimination Schemes.
Inductive tree :=
| TLeaf (idx : nat) (kvs : list (Z * string))
| TNode (idx : nat) (ks : list Z) (cs : list tree).
Local Set Elimination Schemes.

Definition tidx (t : tree) : nat :=
  match t with TLeaf idx _ | TNode idx _ _ => idx end.

Fixpoint first_leaf (t : tree) : nat :=
  match t with
  | TLeaf idx _ => idx
  | TNode idx _ cs => match cs with c :: _ => first_leaf c | [] => idx end
  end.

(** Arena indices of the nodes of a tree. *)
Fixpoint idxs (t : tree) : list nat :=
  match t with
  | TLeaf idx _ => [idx]
  | TNode idx _ cs => idx :: concat (map idxs cs)
  end.

(** The records of a tree, leaf by leaf from left to right. *)
Fixpoint contents (t : tree) : list (Z * string) :=
  match t with
  | TLeaf _ kvs => kvs
  | TNode _ _ cs => concat (map contents cs)
  end.

Fixpoint leaves (t : tree) : list (nat * list (Z * string)) :=
  match t with
  | TLeaf idx kvs => [(idx, kvs)]
  | TNode _ _ cs => concat (map leaves cs)
  end.

Definition leaf_rep (leaf : LeafNode) (kvs : list (Z * string)) (nxt : option nat) : Prop :=
  leaf_numKeys leaf = length kvs
  ∧ take (length kvs) (leaf_keys leaf) = kvs.*1
  ∧ take (length kvs) (leaf_values leaf) = kvs.*2
  ∧ length (leaf_keys leaf) = MAX_KEYS_LEAF
  ∧ length (leaf_values leaf) = MAX_KEYS_LEAF
  ∧ leaf_nextLeaf leaf = nxt.

Definition internal_rep (n : InternalNode) (ks : list Z) (cidx : list nat) : Prop :=
  int_numKeys n = length ks
  ∧ take (length ks) (int_keys n) = ks
  ∧ take (length ks + 1) (int_childIndices n) = Some <$> cidx
  ∧ length (int_keys n) = MAX_KEYS_INTERNAL
  ∧ length (int_childIndices n) = MAX_KEYS_INTERNAL + 1.

(** The [nextLeaf] link that leaves the subtree at position [j] of [cs]:
    the first leaf of the right neighbour, or the link [nxt] that leaves
    the parent. *)
Definition link_after (cs : list tree) (j : nat) (nxt : option nat) : option nat :=
  match cs !! S j with
  | Some c => Some (first_leaf c)
  | None => nxt
  end.

(** [repr h nodes t nxt]: the arena holds the tree [t], of height [h],
    whose last leaf links to [nxt]. *)
Fixpoint repr (h : nat) (nodes : list Node) (t : tree) (nxt : option nat) : Prop :=
  match h, t with
  | O, TLeaf idx kvs =>
      ∃ leaf, nodes !! idx = Some (Leaf leaf) ∧ leaf_rep leaf kvs nxt
  | S h', TNode idx ks cs =>
      (∃ n, nodes !! idx = Some (Internal n) ∧ internal_rep n ks (tidx <$> cs))
      ∧ ∀ j c, cs !! j = Some c → repr h' nodes c (link_after cs j nxt)
  | _, _ => False
  end.

(** ** Insertion on trees *)

Definition result_of (sp : option (Z * tree)) : InsertResult :=
  match sp with
  | None => no_split
  | Some (pk, r) => mkInsertResult true (tidx r) pk
  end.

(** [insertLeaf] and [splitLeaf] on the records of a leaf; [next] is the
    arena index the next allocation returns. *)
Definition leaf_insert (next idx : nat) (kvs : list (Z * string)) (key : Z) (val : string) :
    tree * option (Z * tree) * nat :=
  match index_of kvs.*1 key with
  | Some i => (TLeaf idx (<[i := (key, val)]> kvs), None, next)
  | None =>
      if decide (length kvs < MAX_KEYS_LEAF) then
        (TLeaf idx (vector_insert kvs (rpos kvs.*1 key) (key, val)), None, next)
      else
        let tmp := vector_insert kvs (lpos kvs.*1 key) (key, val) in
        let split := length tmp / 2 in
        (TLeaf idx (take split tmp),
         Some ((drop split tmp).*1 !!! 0, TLeaf next (drop split tmp)),
         S next)
  end.

(** [insertIntoInternal] and [splitInternal] once the child at slot [i]
    has split into [c'] and [r] around [pk]. *)
Definition internal_insert (next idx : nat) (ks : list Z) (cs : list tree)
    (i : nat) (pk : Z) (r : tree) : tree * option (Z * tree) * nat :=
  let ks' := vector_insert ks i pk in
  let cs' := vector_insert cs (i + 1) r in
  if decide (length ks < MAX_KEYS_INTERNAL) then (TNode idx ks' cs', None, next)
  else
    let mid := length ks' / 2 in
    (TNode idx (take mid ks') (take (mid + 1) cs'),
     Some (ks' !!! mid, TNode next (drop (mid + 1) ks') (drop (mid + 1) cs')),
     S next).

Fixpoint t_insert (h : nat) (next : nat) (t : tree) (key : Z) (val : string) :
    tree * option (Z * tree) * nat :=
  match t with
  | TLeaf idx kvs => leaf_insert next idx kvs key val
  | TNode idx ks cs =>
      match h with
      | O => (t, None, next)
      | S h' =>
          let i := lpos ks key in
          match cs !! i with
          | None => (t, None, next)
          | Some c =>
              let '(c', sp, next) := t_insert h' next c key val in
              match sp with
              | None => (TNode idx ks (<[i := c']> cs), None, next)
              | Some (pk, r) => internal_insert next idx ks (<[i := c']> cs) i pk r
              end
          end
      end
  end.

(** ** Lists of pairs *)

Lemma fmap_vector_insert {A B} (f : A → B) (l : list A) (p : nat) (x : A) :
  f <$> vector_insert l p x = vector_insert (f <$> l) p (f x).
Proof. unfold vector_insert. by rewrite fmap_app, fmap_cons, fmap_take, fmap_drop. Qed.

Lemma vector_insert_length {A} (l : list A) (p : nat) (x : A) :
  p ≤ length l → length (vector_insert l p x) = S (length l).
Proof.
  intros. unfold vector_insert. rewrite length_app, length_take. simpl.
  rewrite length_drop. lia.
Qed.

Lemma lpos_le (ks : list Z) (key : Z) : lpos ks key ≤ length ks.
Proof. induction ks; simpl; [lia|]. case_decide; lia. Qed.

Lemma index_of_lt (ks : list Z) (key : Z) (i : nat) :
  index_of ks key = Some i → ks !! i = Some key.
Proof.
  revert i. induction ks as [|k ks IH]; intros i; simpl; [done|].
  case_decide as Hk; [intros [= <-]; by subst|].
  destruct (index_of ks key) as [j|]; simpl; [|done].
  intros [= <-]. by apply IH.
Qed.

Lemma leaf_rep_length (leaf : LeafNode) (kvs : list (Z * string)) (nxt : option nat) :
  leaf_rep leaf kvs nxt → length kvs ≤ MAX_KEYS_LEAF.
Proof.
  intros (_ & Hk & _ & Hlen & _). apply (f_equal length) in Hk.
  rewrite length_take, length_fmap in Hk. lia.
Qed.

Lemma internal_rep_length (n : InternalNode) (ks : list Z) (cidx : list nat) :
  internal_rep n ks cidx → length ks ≤ MAX_KEYS_INTERNAL ∧ length cidx = length ks + 1.
Proof.
  intros (_ & Hk & Hc & Hlk & Hlc). apply (f_equal length) in Hk, Hc.
  rewrite length_take in Hk. rewrite length_take, length_fmap in Hc. lia.
Qed.

(** ** [insertLeaf] computes [leaf_insert] *)

Lemma LeafNode_new_length :
  length (leaf_keys LeafNode_new) = MAX_KEYS_LEAF
  ∧ length (leaf_values LeafNode_new) = MAX_KEYS_LEAF.
Proof. done. Qed.

Lemma lookup_set_node_eq (nodes : list Node) (off : nat) (n : Node) :
  off < length nodes → <[off := n]> nodes !! off = Some n.
Proof. apply list_lookup_insert_eq. Qed.

Lemma insertLeaf_refines (nodes : list Node) (root : option nat) (idx : nat)
    (leaf : LeafNode) (kvs : list (Z * string)) (nxt : option nat) (key : Z) (val : string) :
  nodes !! idx = Some (Leaf leaf) → leaf_rep leaf kvs nxt →
  ∃ nodes',
    insertLeaf (mkTree root nodes) idx leaf key val
    = (mkTree root nodes', result_of (leaf_insert (length nodes) idx kvs key val).1.2)
    ∧ length nodes' = (leaf_insert (length nodes) idx kvs key val).2
    ∧ (∀ j, j ≠ idx → j < length nodes → nodes' !! j = nodes !! j)
    ∧ match (leaf_insert (length nodes) idx kvs key val).1 with
      | (t', None) => repr 0 nodes' t' nxt
      | (t', Some (_, r)) => repr 0 nodes' t' (Some (first_leaf r)) ∧ repr 0 nodes' r nxt
      end.
Proof.
  intros Hidx Hrep.
  pose proof (leaf_rep_length _ _ _ Hrep) as Hmax.
  destruct Hrep as (Hn & Hk & Hv & Hlk & Hlv & Hnx).
  pose proof (lookup_lt_Some _ _ _ Hidx) as Hlt.
  unfold insertLeaf, leaf_insert.
  rewrite scan_eq_spec by lia. rewrite drop_0, Hn, Hk.
  destruct (index_of kvs.*1 key) as [i|] eqn:Hi; cbn [fst snd result_of repr first_leaf].
  - (* overwrite in place *)
    apply index_of_lt in Hi.
    pose proof (lookup_lt_Some _ _ _ Hi) as Hil. rewrite length_fmap in Hil.
    eexists. split; [done|]. split; [by rewrite length_insert|].
    split; [intros j Hj _; by rewrite list_lookup_insert_ne|].
    eexists. split; [by apply lookup_set_node_eq|].
    unfold leaf_rep. simpl. rewrite !length_insert.
    split; [done|]. split; [|split; [|done]].
    + rewrite Hk. rewrite list_fmap_insert. simpl.
      symmetry. by apply list_insert_id.
    + rewrite take_insert_lt by lia. rewrite Hv. by rewrite list_fmap_insert.
  - case_decide as Hroom.
    + (* room: shift and insert *)
      rewrite shift_records_spec by lia. rewrite Hk.
      set (p := rpos kvs.*1 key).
      assert (p ≤ length kvs) as Hp.
      { subst p. pose proof (rpos_le kvs.*1 key) as H. by rewrite length_fmap in H. }
      eexists. split; [done|]. split; [by rewrite length_insert|].
      split; [intros j Hj _; by rewrite list_lookup_insert_ne|].
      eexists. split; [by apply lookup_set_node_eq|].
      unfold leaf_rep. simpl.
      rewrite !length_insert, !shifted_length by lia.
      rewrite !vector_insert_length by lia.
      rewrite !shifted_insert by lia.
      rewrite !fmap_vector_insert, Hk, Hv. done.
    + (* full: split *)
      assert (length kvs = MAX_KEYS_LEAF) as Hfull by lia.
      unfold splitLeaf. cbn [allocateLeaf nodes_ rootIndex_ fst snd].
      rewrite ?Hn, Hk, Hv.
      rewrite first_greater_spec by lia. rewrite drop_0, take_ge by lia. rewrite Nat.add_0_l.
      set (pos := lpos kvs.*1 key).
      assert (pos ≤ length kvs) as Hpos.
      { subst pos. pose proof (lpos_le kvs.*1 key) as H. by rewrite length_fmap in H. }
      rewrite <- !fmap_vector_insert with (x := (key, val)).
      set (tmp := vector_insert kvs pos (key, val)).
      assert (length tmp = S MAX_KEYS_LEAF) as Htmp.
      { subst tmp. rewrite vector_insert_length by lia. lia. }
      assert (length tmp / 2 = 15) as Hsplit by (rewrite Htmp; reflexivity).
      destruct LeafNode_new_length as [Hnlk Hnlv].
      rewrite !length_fmap, !Hsplit. rewrite Htmp.
      change (S MAX_KEYS_LEAF - 15) with 16.
      assert (take 16 (copy_range (leaf_keys LeafNode_new) tmp.*1 0 15 16) = (drop 15 tmp).*1
              ∧ take 16 (copy_range (leaf_values LeafNode_new) tmp.*2 0 15 16) = (drop 15 tmp).*2)
        as [Hnk Hnv].
      { rewrite !copy_range_take
          by (rewrite ?length_fmap, ?Htmp, ?Hnlk, ?Hnlv; unfold MAX_KEYS_LEAF; lia).
        rewrite !fmap_drop.
        rewrite !take_ge by (rewrite length_drop, length_fmap, Htmp; unfold MAX_KEYS_LEAF; lia).
        done. }
      unfold set_node. cbn [nodes_ rootIndex_ leaf_keys].
      eexists. split.
      { f_equal. f_equal.
        rewrite <- (lookup_total_take_lt _ 16 0) by lia. by rewrite Hnk. }
      split; [by rewrite !length_insert, length_app; simpl; lia|].
      split.
      { intros j Hj Hjl. rewrite !list_lookup_insert_ne by lia.
        by rewrite lookup_app_l by lia. }
      cbn [fst snd repr first_leaf]. split.
      * eexists. split.
        { rewrite list_lookup_insert_ne by lia.
          apply list_lookup_insert_eq. rewrite length_app. lia. }
        unfold leaf_rep. cbn [leaf_numKeys leaf_keys leaf_values leaf_nextLeaf].
        rewrite !copy_range_length.
        rewrite length_take, Htmp. change (15 `min` S MAX_KEYS_LEAF) with 15.
        rewrite !copy_range_take
          by (rewrite ?length_fmap, ?Htmp; unfold MAX_KEYS_LEAF in *; lia).
        rewrite !drop_0, !fmap_take. done.
      * eexists. split.
        { apply list_lookup_insert_eq. rewrite length_insert, length_app. simpl. lia. }
        unfold leaf_rep. cbn [leaf_numKeys leaf_keys leaf_values leaf_nextLeaf].
        rewrite !copy_range_length.
        rewrite length_drop, Htmp. change (S MAX_KEYS_LEAF - 15) with 16.
        rewrite Hnk, Hnv, Hnlk, Hnlv. done.
Qed.

(** ** [insertIntoInternal] and [splitInternal] on one node *)

Lemma take_S_insert {A} (l : list A) (n : nat) (x : A) :
  n < length l → take (S n) (<[n := x]> l) = take n l ++ [x].
Proof.
  intros Hn. rewrite (take_S_r _ n x) by (by apply list_lookup_insert_eq).
  by rewrite take_insert_ge by lia.
Qed.

Lemma InternalNode_new_length :
  length (int_keys InternalNode_new) = MAX_KEYS_INTERNAL
  ∧ length (int_childIndices InternalNode_new) = MAX_KEYS_INTERNAL + 1.
Proof. done. Qed.

Lemma internal_room (n : InternalNode) (ks : list Z) (cidx : list nat)
    (i : nat) (pk : Z) (rc : nat) :
  internal_rep n ks cidx → i ≤ length ks → length ks < MAX_KEYS_INTERNAL →
  ∃ keys children,
    shift_children (int_keys n) (int_childIndices n) (int_numKeys n) (int_numKeys n - i)
    = (keys, children)
    ∧ internal_rep
        (mkInternalNode (S (int_numKeys n)) (<[i := pk]> keys) (<[S i := Some rc]> children))
        (vector_insert ks i pk) (vector_insert cidx (i + 1) rc).
Proof.
  intros Hrep Hi Hroom.
  destruct (internal_rep_length _ _ _ Hrep) as [_ Hcl].
  destruct Hrep as (Hn & Hk & Hc & Hlk & Hlc).
  rewrite shift_children_spec by lia. rewrite Hn.
  replace (length ks - (length ks - i)) with i by lia.
  eexists _, _. split; [done|].
  unfold internal_rep. cbn [int_numKeys int_keys int_childIndices].
  rewrite !length_insert, !shifted_length by lia.
  rewrite !vector_insert_length by lia.
  split; [done|]. split; [|split; [|done]].
  - by rewrite shifted_insert, Hk by lia.
  - replace (S (length ks) + 1) with (S (S (length ks))) by lia.
    rewrite shifted_insert by lia.
    replace (S (length ks)) with (length ks + 1) by lia.
    rewrite Hc, fmap_vector_insert. do 2 f_equal. lia.
Qed.

Lemma splitInternal_spec (nodes : list Node) (root : option nat) (idx : nat)
    (n : InternalNode) (ks : list Z) (cidx : list nat) (i : nat) (pk : Z) (rc : nat) :
  idx < length nodes →
  internal_rep n ks cidx → i ≤ length ks → ¬ length ks < MAX_KEYS_INTERNAL →
  let ks' := vector_insert ks i pk in
  let cidx' := vector_insert cidx (i + 1) rc in
  let mid := length ks' / 2 in
  ∃ nl nr,
    splitInternal (mkTree root nodes) idx n i (mkInsertResult true rc pk)
    = (mkTree root (<[length nodes := Internal nr]>
                      (<[idx := Internal nl]> nodes ++ [Internal InternalNode_new])),
       mkInsertResult true (length nodes) (ks' !!! mid))
    ∧ internal_rep nl (take mid ks') (take (mid + 1) cidx')
    ∧ internal_rep nr (drop (mid + 1) ks') (drop (mid + 1) cidx').
Proof.
  intros Hidx Hrep Hi Hfull ks' cidx' mid.
  destruct (internal_rep_length _ _ _ Hrep) as [Hmax Hcl].
  destruct Hrep as (Hn & Hk & Hc & Hlk & Hlc).
  assert (length ks = MAX_KEYS_INTERNAL) as Hks by lia.
  assert (length ks' = 121) as Hks'.
  { subst ks'. rewrite vector_insert_length by lia. rewrite Hks. done. }
  assert (length cidx' = 122) as Hcidx'.
  { subst cidx'. rewrite vector_insert_length by lia. rewrite Hcl, Hks. done. }
  assert (mid = 60) as Hmid by (subst mid; rewrite Hks'; reflexivity).
  destruct InternalNode_new_length as [Hnlk Hnlc].
  unfold splitInternal. cbn [promotedKey newChildOffset].
  rewrite Hn, Hk, Hc. rewrite <- (fmap_vector_insert Some cidx (i + 1) rc).
  fold ks' cidx'. rewrite Hks'. change (121 / 2) with 60.
  change (121 - (60 + 1)) with 60. change (60 + 1 + 60) with 121. change (60 + 1) with 61.
  unfold allocateNode, set_node. cbn [nodes_ rootIndex_].
  rewrite length_insert. rewrite Hmid.
  eexists _, _. split; [reflexivity|].
  unfold internal_rep. cbn [int_numKeys int_keys int_childIndices].
  rewrite !length_insert, !copy_range_length.
  change (60 + 1) with 61.
  rewrite !length_take, !length_drop, Hks'.
  change (60 `min` 121) with 60. change (121 - 61) with 60. change (60 + 1) with 61.
  split; split; [done| |done|].
  - split; [by rewrite copy_range_take, drop_0 by (rewrite ?Hks'; unfold MAX_KEYS_INTERNAL in *; lia)|].
    split; [|done].
    rewrite take_S_insert by (rewrite copy_range_length; unfold MAX_KEYS_INTERNAL in *; lia).
    rewrite copy_range_take, drop_0
      by (rewrite ?length_fmap, ?Hcidx'; unfold MAX_KEYS_INTERNAL in *; lia).
    rewrite !fmap_take. symmetry. apply take_S_r.
    apply list_lookup_lookup_total_lt. rewrite length_fmap. lia.
  - split.
    { rewrite copy_range_take by (rewrite ?Hks', ?Hnlk; unfold MAX_KEYS_INTERNAL in *; lia).
      apply take_ge. rewrite length_drop. lia. }
    split; [|by rewrite Hnlk, Hnlc].
    rewrite take_S_insert by (rewrite copy_range_length, Hnlc; unfold MAX_KEYS_INTERNAL; lia).
    rewrite copy_range_take
      by (rewrite ?length_fmap, ?Hcidx', ?Hnlc; unfold MAX_KEYS_INTERNAL in *; lia).
    rewrite fmap_drop.
    rewrite <- (take_drop 60 (drop 61 (Some <$> cidx'))) at 2.
    f_equal. rewrite drop_drop.
    rewrite (drop_lookup_total _ (61 + 60)) by (rewrite length_fmap; lia).
    rewrite drop_ge by (rewrite length_fmap; lia). done.
Qed.

(** ** Shape of a tree of height [h] *)

Fixpoint shape (h : nat) (t : tree) : Prop :=
  match h, t with
  | O, TLeaf _ _ => True
  | S h', TNode _ ks cs => length cs = length ks + 1 ∧ ∀ c, c ∈ cs → shape h' c
  | _, _ => False
  end.

Lemma repr_shape (h : nat) (nodes : list Node) (t : tree) (nxt : option nat) :
  repr h nodes t nxt → shape h t.
Proof.
  revert t nxt. induction h as [|h IH]; intros [idx kvs|idx ks cs] nxt; simpl; try done.
  intros [(n & _ & Hn) Hcs]. split.
  - destruct (internal_rep_length _ _ _ Hn) as [_ Hl]. by rewrite length_fmap in Hl.
  - intros c [j Hj]%list_elem_of_lookup. eapply IH, Hcs, Hj.
Qed.

Lemma elem_of_concat_map {A B} (f : A → list B) (l : list A) (y : B) :
  y ∈ concat (map f l) ↔ ∃ x, x ∈ l ∧ y ∈ f x.
Proof.
  induction l as [|x l IH]; simpl.
  - split; [by intros ?%elem_of_nil|by intros (? & ?%elem_of_nil & _)].
  - rewrite elem_of_app, IH. split.
    + intros [H|(x' & Hx' & H)]; [exists x; split; [by left|done]|].
      exists x'. split; [by right|done].
    + intros (x' & [->|Hx']%elem_of_cons & H); [by left|]. right. by exists x'.
Qed.

Lemma idxs_child (idx : nat) (ks : list Z) (cs : list tree) (c : tree) (j : nat) :
  c ∈ cs → j ∈ idxs c → j ∈ idxs (TNode idx ks cs).
Proof.
  intros Hc Hj. simpl. right. apply elem_of_concat_map. by exists c.
Qed.

Lemma tidx_in_idxs (t : tree) : tidx t ∈ idxs t.
Proof. destruct t; simpl; by left. Qed.

(** [repr] only reads the nodes of the tree. *)
Lemma repr_frame (h : nat) (nodes nodes' : list Node) (t : tree) (nxt : option nat) :
  (∀ j, j ∈ idxs t → nodes' !! j = nodes !! j) →
  repr h nodes t nxt → repr h nodes' t nxt.
Proof.
  revert t nxt. induction h as [|h IH]; intros [idx kvs|idx ks cs] nxt Hsame; simpl; try done.
  - intros (leaf & Hl & Hrep). exists leaf. split; [|done].
    rewrite Hsame; [done|by left].
  - intros [(n & Hn & Hrep) Hcs]. split.
    + exists n. split; [|done]. rewrite Hsame; [done|by left].
    + intros j c Hj. apply IH; [|by apply Hcs].
      intros j' Hj'. apply Hsame. eapply idxs_child; [|done].
      by eapply list_elem_of_lookup_2.
Qed.

Lemma repr_idxs_lt (h : nat) (nodes : list Node) (t : tree) (nxt : option nat) (j : nat) :
  repr h nodes t nxt → j ∈ idxs t → j < length nodes.
Proof.
  revert t nxt. induction h as [|h IH]; intros [idx kvs|idx ks cs] nxt; simpl; try done.
  - intros (leaf & Hl & _) ->%list_elem_of_singleton. by eapply lookup_lt_Some.
  - intros [(n & Hn & _) Hcs] [->|Hj]%elem_of_cons; [by eapply lookup_lt_Some|].
    apply elem_of_concat_map in Hj as (c & Hc & Hj).
    apply list_elem_of_lookup in Hc as [i Hi].
    eapply IH; [by eapply Hcs|done].
Qed.

(** ** What [t_insert] does to indices *)

Lemma vector_insert_update {A} (l : list A) (i : nat) (x y z : A) :
  l !! i = Some z →
  vector_insert (<[i := x]> l) (i + 1) y = take i l ++ x :: y :: drop (S i) l.
Proof.
  intros Hz. pose proof (lookup_lt_Some _ _ _ Hz) as Hi.
  unfold vector_insert. rewrite insert_take_drop by done.
  rewrite take_app_ge, drop_app_ge by (rewrite length_take; lia).
  rewrite length_take, Nat.min_l by lia.
  replace (i + 1 - i) with 1 by lia. simpl. rewrite drop_0.
  by rewrite <- app_assoc.
Qed.

Lemma concat_idxs_update (cs : list tree) (i : nat) (c : tree) (l : list nat) :
  cs !! i = Some c →
  take i cs ++ c :: drop (S i) cs = cs
  ∧ concat (map idxs cs)
    = concat (map idxs (take i cs)) ++ idxs c ++ concat (map idxs (drop (S i) cs)).
Proof.
  intros Hc. pose proof (take_drop_middle _ _ _ Hc) as Hmid. split; [done|].
  rewrite <- Hmid at 1. rewrite map_app, concat_app. simpl. done.
Qed.

(** The indices of the trees [t_insert] returns: those of the old tree and
    the freshly allocated ones. *)
Definition out_idxs (res : tree * option (Z * tree)) : list nat :=
  idxs res.1 ++ match res.2 with Some (_, r) => idxs r | None => [] end.

Lemma leaf_insert_facts (next idx : nat) (kvs : list (Z * string)) (key : Z) (val : string) :
  let res := leaf_insert next idx kvs key val in
  tidx res.1.1 = idx ∧ first_leaf res.1.1 = idx ∧ shape 0 res.1.1
  ∧ next ≤ res.2
  ∧ out_idxs res.1 ≡ₚ idx :: seq next (res.2 - next)
  ∧ match res.1.2 with Some (_, r) => shape 0 r | None => True end.
Proof.
  unfold leaf_insert, out_idxs. destruct (index_of _ _); [|case_decide];
    cbn [fst snd tidx first_leaf shape idxs app];
    rewrite ?Nat.sub_diag; try done.
  replace (S next - next) with 1 by lia. repeat split; try done. lia.
Qed.

Lemma internal_insert_facts (h : nat) (next idx : nat) (ks : list Z) (cs : list tree)
    (i : nat) (pk : Z) (r : tree) :
  length cs = length ks + 1 → i ≤ length ks →
  (∀ c, c ∈ cs → shape h c) → shape h r →
  let res := internal_insert next idx ks cs i pk r in
  tidx res.1.1 = idx
  ∧ first_leaf res.1.1 = first_leaf (TNode idx ks cs)
  ∧ shape (S h) res.1.1
  ∧ next ≤ res.2
  ∧ out_idxs res.1 ≡ₚ idx :: concat (map idxs cs) ++ idxs r ++ seq next (res.2 - next)
  ∧ match res.1.2 with Some (_, r') => shape (S h) r' | None => True end.
Proof.
  intros Hlen Hi Hcs Hr res. subst res. unfold internal_insert, out_idxs.
  assert (∀ c, c ∈ vector_insert cs (i + 1) r → shape h c) as Hcs'.
  { intros c. unfold vector_insert.
    intros [Hc|[->|Hc]%elem_of_cons]%elem_of_app; [|done|].
    - apply Hcs. by eapply subseteq_take.
    - apply Hcs. by eapply subseteq_drop. }
  assert (concat (map idxs (vector_insert cs (i + 1) r))
          ≡ₚ concat (map idxs cs) ++ idxs r) as Hperm.
  { unfold vector_insert. rewrite map_app, concat_app. simpl.
    rewrite <- (take_drop (i + 1) cs) at 3. rewrite map_app, concat_app.
    rewrite <- !app_assoc. f_equiv. apply Permutation_app_comm. }
  assert (length (vector_insert ks i pk) = S (length ks)) as Hks'
    by (by apply vector_insert_length).
  assert (length (vector_insert cs (i + 1) r) = S (length cs)) as Hcs2
    by (apply vector_insert_length; lia).
  assert (first_leaf (TNode idx (vector_insert ks i pk) (vector_insert cs (i + 1) r))
          = first_leaf (TNode idx ks cs)) as Hfl.
  { simpl. unfold vector_insert. destruct cs as [|c0 cs0]; [simpl in Hlen; lia|].
    replace (i + 1) with (S i) by lia. done. }
  case_decide as Hroom; cbn [fst snd tidx shape idxs].
  - rewrite Nat.sub_diag. simpl. rewrite app_nil_r.
    split; [done|]. split; [done|]. split; [|split; [done|split; [|done]]].
    + split; [lia|done].
    + by rewrite Hperm, app_nil_r.
  - set (mid := length (vector_insert ks i pk) / 2).
    assert (mid < length (vector_insert ks i pk)) as Hmid.
    { subst mid. apply Nat.div_lt; lia. }
    split; [done|]. split; [|split; [|split; [lia|split]]].
    + rewrite <- Hfl. simpl. destruct (vector_insert cs (i + 1) r) eqn:Heq; [simpl in Hcs2; lia|].
      replace (mid + 1) with (S mid) by lia. done.
    + split; [rewrite !length_take; lia|].
      intros c Hc. apply Hcs'. by eapply subseteq_take.
    + replace (S next - next) with 1 by lia. simpl.
      rewrite (app_assoc _ (idxs r)), <- Hperm.
      rewrite <- (take_drop (mid + 1) (vector_insert cs (i + 1) r)) at 3.
      rewrite map_app, concat_app.
      apply Permutation_skip. rewrite <- app_assoc. f_equiv.
      apply Permutation_cons_append.
    + split; [rewrite !length_drop; lia|].
      intros c Hc. apply Hcs'. by eapply subseteq_drop.
Qed.

Lemma concat_idxs_split (cs : list tree) (i : nat) (c c' : tree) :
  cs !! i = Some c →
  ∃ rest,
    concat (map idxs cs) ≡ₚ idxs c ++ rest
    ∧ concat (map idxs (<[i := c']> cs)) ≡ₚ idxs c' ++ rest.
Proof.
  intros Hc. pose proof (lookup_lt_Some _ _ _ Hc) as Hi.
  exists (concat (map idxs (take i cs)) ++ concat (map idxs (drop (S i) cs))). split.
  - rewrite <- (take_drop_middle _ _ _ Hc) at 1. rewrite map_app, concat_app. simpl.
    by rewrite Permutation_app_swap_app.
  - rewrite insert_take_drop by done. rewrite map_app, concat_app. simpl.
    by rewrite Permutation_app_swap_app.
Qed.

Lemma first_leaf_update (idx : nat) (ks : list Z) (cs : list tree) (i : nat) (c c' : tree) :
  cs !! i = Some c → first_leaf c' = first_leaf c →
  first_leaf (TNode idx ks (<[i := c']> cs)) = first_leaf (TNode idx ks cs).
Proof.
  intros Hc Hfl. simpl. destruct cs as [|c0 cs0]; [done|].
  destruct i as [|i]; simpl in *; [congruence|done].
Qed.

Lemma seq_app_sub (a b c : nat) :
  a ≤ b → b ≤ c → seq a (b - a) ++ seq b (c - b) = seq a (c - a).
Proof.
  intros. replace (c - a) with ((b - a) + (c - b)) by lia.
  rewrite seq_app. do 2 f_equal. lia.
Qed.

Lemma t_insert_facts (h : nat) (next : nat) (t : tree) (key : Z) (val : string) :
  shape h t →
  let res := t_insert h next t key val in
  tidx res.1.1 = tidx t
  ∧ first_leaf res.1.1 = first_leaf t
  ∧ shape h res.1.1
  ∧ next ≤ res.2
  ∧ out_idxs res.1 ≡ₚ idxs t ++ seq next (res.2 - next)
  ∧ match res.1.2 with Some (_, r) => shape h r | None => True end.
Proof.
  revert next t. induction h as [|h IH]; intros next [idx kvs|idx ks cs]; simpl; try done.
  - intros _. apply leaf_insert_facts.
  - intros [Hlen Hcs].
    pose proof (lpos_le ks key) as Hi.
    destruct (lookup_lt_is_Some_2 cs (lpos ks key) ltac:(lia)) as [c Hc].
    rewrite Hc.
    specialize (IH next c (Hcs c (list_elem_of_lookup_2 _ _ _ Hc))).
    destruct (t_insert h next c key val) as [[c' sp] next1]. simpl in IH.
    destruct IH as (Hti & Hfl & Hsh & Hle & Hperm & Hr).
    destruct (concat_idxs_split cs (lpos ks key) c c' Hc) as (rest & Hp1 & Hp2).
    assert (∀ c0, c0 ∈ <[lpos ks key := c']> cs → shape h c0) as Hcs'.
    { intros c0 [j Hj]%list_elem_of_lookup.
      apply list_lookup_insert_Some in Hj as [(_ & <- & _)|[_ Hj]]; [done|].
      apply Hcs. by eapply list_elem_of_lookup_2. }
    destruct sp as [[pk r]|].
    + pose proof (internal_insert_facts h next1 idx ks (<[lpos ks key := c']> cs)
                    (lpos ks key) pk r) as Hint.
      rewrite length_insert in Hint. specialize (Hint Hlen Hi Hcs' Hr).
      destruct (internal_insert _ _ _ _ _ _ _) as [[t' sp'] next2]. simpl in *.
      destruct Hint as (Hti' & Hfl' & Hsh' & Hle' & Hperm' & Hr').
      split; [done|]. split; [rewrite Hfl'; exact (first_leaf_update idx ks cs _ c c' Hc Hfl)|].
      split; [done|]. split; [lia|]. split; [|done].
      rewrite Hperm', Hp1, Hp2. unfold out_idxs in Hperm. simpl in Hperm.
      rewrite <- (seq_app_sub next next1 next2) by lia.
      apply Permutation_skip. rewrite <- !app_assoc.
      rewrite (app_assoc rest (idxs r)), (Permutation_app_comm rest (idxs r)), <- app_assoc.
      rewrite (app_assoc (idxs c')), Hperm, <- app_assoc. f_equiv.
      by rewrite app_assoc, (Permutation_app_comm _ rest), <- app_assoc.
    + simpl. split; [done|]. split; [exact (first_leaf_update idx ks cs _ c c' Hc Hfl)|].
      split; [by rewrite length_insert|]. split; [done|]. split; [|done].
      unfold out_idxs in *. simpl in *. rewrite app_nil_r in *.
      apply Permutation_skip. rewrite Hp1, Hp2, Hperm.
      rewrite <- !app_assoc. f_equiv. apply Permutation_app_comm.
Qed.

(** ** Subtrees of a node *)

Lemma NoDup_concat_idxs (cs : list tree) (i : nat) (c : tree) :
  NoDup (concat (map idxs cs)) → cs !! i = Some c →
  NoDup (idxs c)
  ∧ ∀ j c0 x, cs !! j = Some c0 → j ≠ i → x ∈ idxs c0 → x ∉ idxs c.
Proof.
  intros Hnd Hc.
  rewrite <- (take_drop_middle _ _ _ Hc) in Hnd.
  rewrite map_app, concat_app in Hnd. simpl in Hnd.
  apply NoDup_app in Hnd as (_ & Hl & Hnd).
  apply NoDup_app in Hnd as (Hndc & Hr & _).
  split; [done|]. intros j c0 x Hj Hne Hx Hxc.
  pose proof (lookup_lt_Some _ _ _ Hc) as Hi.
  destruct (decide (j < i)) as [Hlt|Hge].
  - apply (Hl x); [|by apply elem_of_app; left]. apply elem_of_concat_map.
    exists c0. split; [|done]. apply (list_elem_of_lookup_2 _ j).
    by rewrite lookup_take_lt.
  - apply (Hr x Hxc). apply elem_of_concat_map.
    exists c0. split; [|done]. apply (list_elem_of_lookup_2 _ (j - S i)).
    rewrite lookup_drop. rewrite <- Hj. f_equal. lia.
Qed.

Lemma link_after_update (cs : list tree) (i j : nat) (c c' : tree) (nxt : option nat) :
  cs !! i = Some c → first_leaf c' = first_leaf c →
  link_after (<[i := c']> cs) j nxt = link_after cs j nxt.
Proof.
  intros Hc Hfl. unfold link_after.
  destruct (decide (i = S j)) as [->|Hne].
  - rewrite list_lookup_insert_eq by (by eapply lookup_lt_Some). rewrite Hc. by rewrite Hfl.
  - by rewrite list_lookup_insert_ne.
Qed.

Lemma lookup_middle2 {A} (l1 l2 : list A) (x y : A) (j : nat) :
  (l1 ++ x :: y :: l2) !! j
  = if decide (j < length l1) then l1 !! j
    else if decide (j = length l1) then Some x
    else if decide (j = S (length l1)) then Some y
    else l2 !! (j - length l1 - 2).
Proof.
  repeat case_decide.
  - by rewrite lookup_app_l.
  - rewrite lookup_app_r by lia. subst. by rewrite Nat.sub_diag.
  - rewrite lookup_app_r by lia. subst.
    replace (S (length l1) - length l1) with 1 by lia. done.
  - rewrite lookup_app_r by lia.
    destruct (j - length l1) as [|[|k]] eqn:E; [lia..|]. simpl. f_equal. lia.
Qed.

Lemma lookup_middle1 {A} (l1 l2 : list A) (x : A) (j : nat) :
  (l1 ++ x :: l2) !! j
  = if decide (j < length l1) then l1 !! j
    else if decide (j = length l1) then Some x
    else l2 !! (j - length l1 - 1).
Proof.
  repeat case_decide.
  - by rewrite lookup_app_l.
  - rewrite lookup_app_r by lia. subst. by rewrite Nat.sub_diag.
  - rewrite lookup_app_r by lia.
    destruct (j - length l1) as [|k] eqn:E; [lia|]. simpl. f_equal. lia.
Qed.

(** The links between the subtrees of a node after the subtree at slot [i]
    has split into [c'] and [r]. *)
Lemma children_split (R : tree → option nat → Prop) (cs : list tree) (i : nat)
    (c c' r : tree) (nxt : option nat) :
  cs !! i = Some c → first_leaf c' = first_leaf c →
  (∀ j c0, cs !! j = Some c0 → j ≠ i → R c0 (link_after cs j nxt)) →
  R c' (Some (first_leaf r)) → R r (link_after cs i nxt) →
  ∀ j c0, vector_insert (<[i := c']> cs) (i + 1) r !! j = Some c0 →
          R c0 (link_after (vector_insert (<[i := c']> cs) (i + 1) r) j nxt).
Proof.
  intros Hc Hfl Hcs Hc' Hr j c0.
  pose proof (lookup_lt_Some _ _ _ Hc) as Hi.
  rewrite (vector_insert_update _ _ _ _ _ Hc).
  unfold link_after. rewrite !lookup_middle2. rewrite length_take, Nat.min_l by lia.
  rewrite !lookup_drop.
  pose proof (λ m c1 (H : m < i), Hcs m c1) as Hlo.
  pose proof (λ m c1 (H : i < m), Hcs m c1) as Hhi.
  unfold link_after in Hlo, Hhi, Hr.
  repeat case_decide; try lia; intros Hlk; simplify_eq.
  - rewrite !lookup_take_lt in * by lia. apply Hlo; [lia|done|lia].
  - rewrite !lookup_take_lt in * by lia. rewrite Hfl.
    specialize (Hlo j c0 ltac:(lia) Hlk ltac:(lia)).
    by rewrite Hc in Hlo.
  - done.
  - replace (S i + (S (S i) - i - 2)) with (S i) by lia. done.
  - replace (S i + (S j - i - 2)) with (S (j - 1)) by lia.
    apply Hhi; [lia| |lia]. rewrite <- Hlk. f_equal. lia.
Qed.

Lemma children_take (R : tree → option nat → Prop) (cs : list tree) (m : nat)
    (cm : tree) (nxt : option nat) :
  cs !! m = Some cm →
  (∀ j c0, cs !! j = Some c0 → R c0 (link_after cs j nxt)) →
  ∀ j c0, take m cs !! j = Some c0 →
          R c0 (link_after (take m cs) j (Some (first_leaf cm))).
Proof.
  intros Hm Hcs j c0 Hj. apply lookup_take_Some in Hj as [Hj Hlt].
  specialize (Hcs j c0 Hj). unfold link_after in *.
  destruct (decide (S j < m)).
  - rewrite lookup_take_lt by lia.
    pose proof (lookup_lt_Some _ _ _ Hm) as Hml.
    destruct (lookup_lt_is_Some_2 cs (S j) ltac:(lia)) as [c1 Hc1].
    by rewrite Hc1 in *.
  - rewrite lookup_take_ge by lia. replace (S j) with m in Hcs by lia. by rewrite Hm in Hcs.
Qed.

Lemma children_drop (R : tree → option nat → Prop) (cs : list tree) (m : nat)
    (nxt : option nat) :
  (∀ j c0, cs !! j = Some c0 → R c0 (link_after cs j nxt)) →
  ∀ j c0, drop m cs !! j = Some c0 → R c0 (link_after (drop m cs) j nxt).
Proof.
  intros Hcs j c0 Hj. rewrite lookup_drop in Hj.
  specialize (Hcs _ c0 Hj). unfold link_after in *.
  rewrite lookup_drop. by replace (m + S j) with (S (m + j)) by lia.
Qed.

(** ** [insertInternal] computes [t_insert] *)

Lemma insertInternal_refines (h : nat) :
  ∀ (fuel : nat) (nodes : list Node) (root : option nat) (t : tree) (nxt : option nat)
    (key : Z) (val : string),
  repr h nodes t nxt → NoDup (idxs t) → h < fuel →
  ∃ nodes',
    insertInternal fuel (mkTree root nodes) (Some (tidx t)) key val
    = Some (mkTree root nodes', result_of (t_insert h (length nodes) t key val).1.2)
    ∧ length nodes' = (t_insert h (length nodes) t key val).2
    ∧ (∀ j, j ∉ idxs t → j < length nodes → nodes' !! j = nodes !! j)
    ∧ match (t_insert h (length nodes) t key val).1 with
      | (t', None) => repr h nodes' t' nxt
      | (t', Some (_, r)) => repr h nodes' t' (Some (first_leaf r)) ∧ repr h nodes' r nxt
      end.
Proof.
  induction h as [|h IH];
    intros fuel nodes root [idx kvs|idx ks cs] nxt key val Hrepr Hnd Hfuel; try done.
  - destruct fuel as [|fuel]; [lia|].
    destruct Hrepr as (leaf & Hl & Hrep).
    cbn [insertInternal tidx nodes_ t_insert]. rewrite Hl. cbn [mbind option_bind].
    destruct (insertLeaf_refines nodes root idx leaf kvs nxt key val Hl Hrep)
      as (nodes' & Heq & Hlen & Hframe & Hpost).
    exists nodes'. rewrite Heq. split; [done|]. split; [done|]. split; [|done].
    intros j Hj Hjl. apply Hframe; [|done]. intros ->. apply Hj. by left.
  - destruct fuel as [|fuel]; [lia|].
    destruct Hrepr as [(n & Hn & Hrep) Hcs].
    pose proof (internal_rep_length _ _ _ Hrep) as [Hmax Hcl]. rewrite length_fmap in Hcl.
    pose proof Hrep as (HnN & Hk & Hc & Hlk & Hlc).
    pose proof (lookup_lt_Some _ _ _ Hn) as Hidxlt.
    pose proof (lpos_le ks key) as Hi.
    destruct (lookup_lt_is_Some_2 cs (lpos ks key) ltac:(lia)) as [c Hci].
    simpl in Hnd. apply NoDup_cons in Hnd as [Hidx Hndc].
    destruct (NoDup_concat_idxs cs _ c Hndc Hci) as [Hndc' Hdisj].
    pose proof (Hcs _ c Hci) as Hrc.
    assert (∀ x, x ∈ idxs c → x ∈ concat (map idxs cs)) as Hsub.
    { intros x Hx. apply elem_of_concat_map. exists c.
      split; [by eapply list_elem_of_lookup_2|done]. }
    destruct (IH fuel nodes root c _ key val Hrc Hndc' ltac:(lia))
      as (nodes1 & Hrun & Hlen1 & Hframe1 & Hpost1).
    pose proof (t_insert_facts h (length nodes) c key val (repr_shape _ _ _ _ Hrc)) as Hfacts.
    cbn [t_insert]. rewrite Hci.
    destruct (t_insert h (length nodes) c key val) as [[c' sp] next1]. cbn [fst snd] in *.
    destruct Hfacts as (Hti & Hfl & Hsh & Hle & Hperm & Hshr).
    assert (child_slot (int_keys n) key 0 (int_numKeys n) = lpos ks key) as Hslot.
    { rewrite child_slot_spec by lia. by rewrite drop_0, HnN, Hk. }
    assert (int_childIndices n !!! lpos ks key = Some (tidx c)) as Hchild.
    { apply list_lookup_total_correct.
      rewrite <- (lookup_take_lt _ (length ks + 1)) by lia.
      by rewrite Hc, !list_lookup_fmap, Hci. }
    assert (nodes1 !! idx = Some (Internal n)) as Hidx1.
    { rewrite Hframe1; [done| |done]. intros Hin. by apply Hidx, Hsub. }
    cbn [insertInternal tidx nodes_]. rewrite Hn. cbn [mbind option_bind].
    unfold insertIntoInternal. rewrite Hslot, Hchild, Hrun. cbn [mbind option_bind].
    assert (∀ j c0, cs !! j = Some c0 → j ≠ lpos ks key →
                    repr h nodes1 c0 (link_after cs j nxt)) as Hsib.
    { intros j c0 Hj Hne. eapply repr_frame; [|by apply Hcs].
      intros x Hx. apply Hframe1; [by eapply Hdisj|].
      eapply repr_idxs_lt; [by apply (Hcs j c0)|done]. }
    assert (∀ j, j ∉ idx :: concat (map idxs cs) → j < length nodes →
                 nodes1 !! j = nodes !! j) as Hframe1'.
    { intros j Hj Hjl. apply Hframe1; [|done]. intros Hin. apply Hj. right. by apply Hsub. }
    destruct sp as [[pk r]|]; cbn [result_of splitted negb].
    + (* the child has split *)
      destruct Hpost1 as [Hrc' Hrr]. cbn [nodes_]. rewrite Hidx1.
      cbn [mbind option_bind newChildOffset promotedKey].
      pose proof (children_split (repr h nodes1) cs _ c c' r nxt Hci Hfl Hsib Hrc' Hrr) as Hcs2.
      set (cs2 := vector_insert (<[lpos ks key := c']> cs) (lpos ks key + 1) r) in *.
      assert (tidx <$> cs2 = vector_insert (tidx <$> cs) (lpos ks key + 1) (tidx r)) as Htidx.
      { subst cs2. rewrite fmap_vector_insert, list_fmap_insert, Hti. f_equal.
        apply list_insert_id. by rewrite list_lookup_fmap, Hci. }
      assert (length cs2 = length ks + 2) as Hlcs2.
      { subst cs2. rewrite vector_insert_length by (rewrite length_insert; lia).
        rewrite length_insert. lia. }
      assert (∀ j c0 x, cs2 !! j = Some c0 → x ∈ idxs c0 → x ≠ idx ∧ x < length nodes1)
        as Hfresh.
      { intros j c0 x Hj Hx. split; [|by eapply repr_idxs_lt; [eapply Hcs2|]].
        intros ->. subst cs2. rewrite (vector_insert_update _ _ _ _ _ Hci) in Hj.
        assert (idx ∈ idxs c' ++ idxs r → False) as Hnew.
        { unfold out_idxs in Hperm. simpl in Hperm. rewrite Hperm.
          intros [Hin|Hin]%elem_of_app; [by apply Hidx, Hsub|].
          apply elem_of_seq in Hin. lia. }
        apply list_elem_of_lookup_2 in Hj.
        apply elem_of_app in Hj as [Hj|[->|[->|Hj]%elem_of_cons]%elem_of_cons].
        - apply Hidx, elem_of_concat_map. exists c0. split; [by eapply subseteq_take|done].
        - apply Hnew, elem_of_app. by left.
        - apply Hnew, elem_of_app. by right.
        - apply Hidx, elem_of_concat_map. exists c0. split; [by eapply subseteq_drop|done]. }
      unfold internal_insert. rewrite HnN. fold cs2.
      case_decide as Hroom.
      * (* room in this node *)
        destruct (internal_room n ks (tidx <$> cs) _ pk (tidx r) Hrep Hi Hroom)
          as (keys & children & Hshift & Hrep2).
        rewrite HnN in Hshift. rewrite Hshift. cbn [fst snd newChildOffset promotedKey].
        unfold set_node. cbn [nodes_ rootIndex_].
        eexists. split; [reflexivity|]. split; [by rewrite length_insert|]. split.
        { intros j Hj Hjl. rewrite list_lookup_insert_ne; [by apply Hframe1'|].
          intros ->. apply Hj. by left. }
        cbn [repr]. split.
        -- eexists. split; [by apply list_lookup_insert_eq; eapply lookup_lt_Some|].
           rewrite Htidx. by rewrite HnN in Hrep2.
        -- intros j c0 Hj. eapply repr_frame; [|by apply Hcs2].
           intros x Hx. destruct (Hfresh j c0 x Hj Hx). by rewrite list_lookup_insert_ne.
      * (* this node splits as well *)
        pose proof (lookup_lt_Some _ _ _ Hidx1) as Hidx1lt.
        destruct (splitInternal_spec nodes1 root idx n ks (tidx <$> cs) _ pk (tidx r)
                    Hidx1lt Hrep Hi Hroom) as (nl & nr & Hsplit & Hrepl & Hrepr).
        rewrite Hsplit. clear Hsplit. rewrite <- Htidx in Hrepl, Hrepr.
        rewrite <- !fmap_take in Hrepl. rewrite <- !fmap_drop in Hrepr.
        set (ks' := vector_insert ks (lpos ks key) pk) in *.
        assert (length ks' = S (length ks)) as Hlks'
          by (subst ks'; by apply vector_insert_length).
        set (mid := length ks' / 2) in *.
        assert (mid + 1 < length cs2) as Hmid.
        { assert (length ks = MAX_KEYS_INTERNAL) as Hfull by lia.
          assert (mid = 60) as -> by (subst mid; rewrite Hlks', Hfull; reflexivity).
          rewrite Hlcs2, Hfull. unfold MAX_KEYS_INTERNAL. lia. }
        destruct (lookup_lt_is_Some_2 cs2 (mid + 1) Hmid) as [cm Hcm].
        set (nodes2 := <[length nodes1 := Internal nr]>
                         (<[idx := Internal nl]> nodes1 ++ [Internal InternalNode_new])).
        assert (∀ j c0, cs2 !! j = Some c0 → repr h nodes2 c0 (link_after cs2 j nxt)) as Hcs2'.
        { intros j c0 Hj. eapply repr_frame; [|by apply Hcs2].
          intros x Hx. destruct (Hfresh j c0 x Hj Hx). subst nodes2.
          rewrite list_lookup_insert_ne by lia.
          rewrite lookup_app_l by (rewrite length_insert; lia).
          by rewrite list_lookup_insert_ne. }
        cbn [fst snd]. subst next1.
        exists nodes2. split; [reflexivity|]. split.
        { subst nodes2. rewrite length_insert, length_app, length_insert. simpl. lia. }
        split.
        { intros j Hj Hjl. subst nodes2.
          rewrite list_lookup_insert_ne by lia.
          rewrite lookup_app_l by (rewrite length_insert; lia).
          rewrite list_lookup_insert_ne; [by apply Hframe1'|].
          intros ->. apply Hj. by left. }
        cbn [repr first_leaf]. rewrite (drop_S _ _ _ Hcm). split; split.
        -- exists nl. split; [|done]. subst nodes2.
           rewrite list_lookup_insert_ne by lia.
           rewrite lookup_app_l by (rewrite length_insert; lia).
           by apply list_lookup_insert_eq.
        -- by apply (children_take _ _ _ _ nxt).
        -- exists nr. split; [|by rewrite (drop_S _ _ _ Hcm) in Hrepr]. subst nodes2.
           apply list_lookup_insert_eq. rewrite length_app, length_insert. simpl. lia.
        -- rewrite <- (drop_S _ _ _ Hcm). by apply children_drop.
    + (* the child has absorbed the key *)
      exists nodes1. split; [done|]. split; [done|]. split; [done|].
      cbn [repr]. split.
      * exists n. split; [done|].
        rewrite list_fmap_insert, Hti.
        rewrite list_insert_id; [done|]. by rewrite list_lookup_fmap, Hci.
      * intros j c0 Hj. rewrite (link_after_update _ _ _ c c') by done.
        apply list_lookup_insert_Some in Hj as [(<- & <- & _)|[Hne Hj]]; [done|].
        by apply Hsib.
Qed.

(** ** Sorted records *)

(** Insertion into a list of records sorted by key: a record with the
    same key is replaced. *)
Fixpoint kv_insert (key : Z) (val : string) (kvs : list (Z * string)) : list (Z * string) :=
  match kvs with
  | [] => [(key, val)]
  | (k, v) :: rest =>
      if decide (key < k)%Z then (key, val) :: kvs
      else if decide (key = k) then (key, val) :: rest
      else (k, v) :: kv_insert key val rest
  end.

(** The value of the first record with key [key]. *)
Fixpoint assoc (key : Z) (kvs : list (Z * string)) : option string :=
  match kvs with
  | [] => None
  | (k, v) :: rest => if decide (k = key) then Some v else assoc key rest
  end.

Lemma assoc_index_of (key : Z) (kvs : list (Z * string)) :
  assoc key kvs = (λ i, kvs.*2 !!! i) <$> index_of kvs.*1 key.
Proof.
  induction kvs as [|[k v] kvs IH]; simpl; [done|].
  case_decide; [done|]. rewrite IH. by destruct (index_of _ _).
Qed.

Lemma assoc_kv_insert_eq (key : Z) (val : string) (kvs : list (Z * string)) :
  assoc key (kv_insert key val kvs) = Some val.
Proof.
  induction kvs as [|[k v] kvs IH]; simpl.
  - by rewrite decide_True.
  - repeat case_decide; simpl; rewrite ?decide_True by done; try done.
    by rewrite decide_False by done.
Qed.

Lemma assoc_kv_insert_ne (key key' : Z) (val : string) (kvs : list (Z * string)) :
  key' ≠ key → assoc key' (kv_insert key val kvs) = assoc key' kvs.
Proof.
  intros Hne. induction kvs as [|[k v] kvs IH]; simpl.
  - by rewrite decide_False.
  - repeat case_decide; simpl; repeat case_decide; subst; try done.
Qed.

Lemma assoc_None (key : Z) (kvs : list (Z * string)) :
  key ∉ kvs.*1 → assoc key kvs = None.
Proof.
  induction kvs as [|[k v] kvs IH]; simpl; [done|].
  intros Hnin. rewrite decide_False; [|intros ->; apply Hnin; by left].
  apply IH. intros Hin. apply Hnin. by right.
Qed.

Lemma assoc_app_l (key : Z) (l1 l2 : list (Z * string)) :
  key ∉ l1.*1 → assoc key (l1 ++ l2) = assoc key l2.
Proof.
  induction l1 as [|[k v] l1 IH]; simpl; [done|].
  intros Hnin. rewrite decide_False; [|intros ->; apply Hnin; by left].
  apply IH. intros Hin. apply Hnin. by right.
Qed.

Lemma assoc_app_r (key : Z) (l1 l2 : list (Z * string)) :
  key ∉ l2.*1 → assoc key (l1 ++ l2) = assoc key l1.
Proof.
  intros Hnin. induction l1 as [|[k v] l1 IH]; simpl; [by apply assoc_None|].
  by case_decide.
Qed.

Lemma assoc_Some_elem (key : Z) (v : string) (kvs : list (Z * string)) :
  assoc key kvs = Some v → (key, v) ∈ kvs.
Proof.
  induction kvs as [|[k v'] kvs IH]; simpl; [done|].
  case_decide; [intros [= ->]; subst; by left|]. intros H'. right. by apply IH.
Qed.

Lemma kv_insert_app_l (key : Z) (val : string) (l1 l2 : list (Z * string)) :
  Forall (λ kv, kv.1 < key)%Z l1 →
  kv_insert key val (l1 ++ l2) = l1 ++ kv_insert key val l2.
Proof.
  induction 1 as [|[k v] l1 Hk _ IH]; simpl; [done|]. simpl in Hk.
  rewrite !decide_False by lia. by rewrite IH.
Qed.

Lemma kv_insert_app_r (key : Z) (val : string) (l1 l2 : list (Z * string)) :
  Forall (λ kv, key < kv.1)%Z l2 →
  kv_insert key val (l1 ++ l2) = kv_insert key val l1 ++ l2.
Proof.
  intros Hl2. induction l1 as [|[k v] l1 IH]; simpl.
  - destruct Hl2 as [|[k v] l2 Hk _]; simpl; [done|]. simpl in Hk.
    by rewrite decide_True.
  - repeat case_decide; try done. by rewrite IH.
Qed.

Lemma kv_insert_at (kvs : list (Z * string)) (p : nat) (key : Z) (val : string) :
  Forall (λ kv, kv.1 < key)%Z (take p kvs) →
  Forall (λ kv, key < kv.1)%Z (drop p kvs) →
  kv_insert key val kvs = vector_insert kvs p (key, val).
Proof.
  intros Hlo Hhi. rewrite <- (take_drop p kvs) at 1.
  rewrite kv_insert_app_l by done. unfold vector_insert. f_equal.
  rewrite <- (app_nil_l (drop p kvs)) at 1. by rewrite kv_insert_app_r.
Qed.

Lemma kv_insert_length (key : Z) (val : string) (kvs : list (Z * string)) :
  length kvs ≤ length (kv_insert key val kvs) ≤ S (length kvs).
Proof.
  induction kvs as [|[k v] kvs IH]; simpl; [lia|]. repeat case_decide; simpl; lia.
Qed.

Lemma kv_insert_elem (key : Z) (val : string) (kvs : list (Z * string)) (kv : Z * string) :
  kv ∈ kv_insert key val kvs → kv = (key, val) ∨ kv ∈ kvs.
Proof.
  induction kvs as [|[k v] kvs IH]; simpl.
  - intros ->%list_elem_of_singleton. by left.
  - repeat case_decide.
    + intros [->|H']%elem_of_cons; [by left|by right].
    + intros [->|H']%elem_of_cons; [by left|right; by right].
    + intros [->|H']%elem_of_cons; [right; by left|].
      destruct (IH H') as [->|?]; [by left|right; by right].
Qed.

(** Keys strictly increasing. *)
Definition keys_sorted (ks : list Z) : Prop := StronglySorted Z.lt ks.

Lemma kv_insert_sorted (key : Z) (val : string) (kvs : list (Z * string)) :
  keys_sorted kvs.*1 → keys_sorted (kv_insert key val kvs).*1.
Proof.
  unfold keys_sorted. induction kvs as [|[k v] kvs IH]; simpl.
  - intros _. repeat constructor.
  - intros Hs. apply StronglySorted_inv in Hs as [Hs Hk].
    repeat case_decide; simpl.
    + constructor; [by constructor|]. constructor; [done|].
      eapply Forall_impl; [done|]. simpl. lia.
    + subst. by constructor.
    + constructor; [by apply IH|].
      apply Forall_forall. intros k' Hk'.
      apply list_elem_of_fmap in Hk' as ([k'' v''] & -> & Hin). simpl.
      apply kv_insert_elem in Hin as [[= -> ->]|Hin]; [lia|].
      rewrite Forall_forall in Hk. apply Hk. apply list_elem_of_fmap.
      by exists (k'', v'').
Qed.

(** *** Where the loops of [insertLeaf] and [splitLeaf] put a new key *)

Lemma lpos_take (ks : list Z) (key : Z) :
  Forall (λ k, ¬ key < k)%Z (take (lpos ks key) ks).
Proof.
  induction ks as [|k ks IH]; simpl; [done|].
  case_decide; simpl; [done|]. by constructor.
Qed.

Lemma lpos_drop (ks : list Z) (key : Z) :
  keys_sorted ks → Forall (λ k, key < k)%Z (drop (lpos ks key) ks).
Proof.
  unfold keys_sorted. induction ks as [|k ks IH]; simpl; [done|].
  intros Hs. apply StronglySorted_inv in Hs as [Hs Hk].
  case_decide; simpl; [|by apply IH].
  constructor; [done|]. eapply Forall_impl; [done|]. simpl. lia.
Qed.

Lemma count_greater_spec (ks : list Z) (key : Z) :
  Forall (λ k, k > key)%Z (take (count_greater ks key) ks)
  ∧ match ks !! count_greater ks key with
    | Some k => ¬ (k > key)%Z
    | None => True
    end.
Proof.
  induction ks as [|k ks [IH1 IH2]]; simpl; [done|].
  case_decide; simpl; [|done]. split; [by constructor|done].
Qed.

Lemma rpos_drop (ks : list Z) (key : Z) :
  Forall (λ k, key < k)%Z (drop (rpos ks key) ks).
Proof.
  unfold rpos. destruct (count_greater_spec (reverse ks) key) as [Hgt _].
  pose proof (count_greater_le (reverse ks) key) as Hle. rewrite length_reverse in Hle.
  rewrite take_reverse, Forall_reverse in Hgt.
  eapply Forall_impl; [done|]. simpl. lia.
Qed.

Lemma rpos_take (ks : list Z) (key : Z) :
  keys_sorted ks → Forall (λ k, ¬ key < k)%Z (take (rpos ks key) ks).
Proof.
  unfold keys_sorted, rpos. intros Hs.
  destruct (count_greater_spec (reverse ks) key) as [_ Hstop].
  pose proof (count_greater_le (reverse ks) key) as Hle. rewrite length_reverse in Hle.
  set (c := count_greater (reverse ks) key) in *.
  apply Forall_forall. intros k Hk.
  apply elem_of_take in Hk as (j & Hj & Hlt).
  destruct (reverse ks !! c) as [kc|] eqn:Hc.
  2:{ apply lookup_ge_None in Hc. rewrite length_reverse in Hc. lia. }
  rewrite reverse_lookup in Hc by lia.
  assert (k ≤ kc)%Z; [|lia].
  destruct (decide (j = length ks - S c)) as [->|Hne]; [by simplify_eq|].
  rewrite <- (take_drop_middle _ _ _ Hc) in Hs.
  rewrite <- (lookup_take_lt _ (length ks - S c)) in Hj by lia.
  apply (StronglySorted_app_1_elem_of _ _ _ k kc) in Hs;
    [lia|by eapply list_elem_of_lookup_2|by left].
Qed.

Lemma Forall_not_lt_ne (ks : list Z) (key : Z) :
  key ∉ ks → Forall (λ k, ¬ key < k)%Z ks → Forall (λ k, k < key)%Z ks.
Proof.
  intros Hnin Hle. apply Forall_forall. intros k Hk.
  rewrite Forall_forall in Hle. specialize (Hle k Hk).
  assert (k ≠ key) by (intros ->; done). lia.
Qed.

Lemma index_of_None (ks : list Z) (key : Z) : index_of ks key = None → key ∉ ks.
Proof.
  induction ks as [|k ks IH]; simpl; [intros _; apply not_elem_of_nil|].
  case_decide; [done|]. destruct (index_of ks key) eqn:E; [done|].
  intros _ [->|Hin]%elem_of_cons; [done|]. by apply IH.
Qed.

Lemma Forall_fst {P : Z → Prop} (kvs : list (Z * string)) :
  Forall P kvs.*1 ↔ Forall (λ kv, P kv.1) kvs.
Proof. by rewrite Forall_fmap. Qed.

(** On a sorted leaf the three write paths of [insertLeaf] all compute
    [kv_insert]. *)
Lemma leaf_overwrite_sorted (kvs : list (Z * string)) (key : Z) (val : string) (i : nat) :
  keys_sorted kvs.*1 → index_of kvs.*1 key = Some i →
  <[i := (key, val)]> kvs = kv_insert key val kvs.
Proof.
  unfold keys_sorted. revert i. induction kvs as [|[k v] kvs IH]; intros i; simpl; [done|].
  intros Hs. apply StronglySorted_inv in Hs as [Hs Hk].
  case_decide as Hkk.
  - intros [= <-]. subst. rewrite decide_False by lia. by rewrite decide_True.
  - destruct (index_of _ key) as [j|] eqn:Hj; simpl; [|done].
    intros [= <-]. simpl.
    apply index_of_lt in Hj as Hin. apply list_elem_of_lookup_2 in Hin.
    rewrite Forall_forall in Hk. specialize (Hk key Hin).
    rewrite !decide_False by lia. f_equal. by apply IH.
Qed.

Lemma leaf_room_sorted (kvs : list (Z * string)) (key : Z) (val : string) :
  keys_sorted kvs.*1 → index_of kvs.*1 key = None →
  vector_insert kvs (rpos kvs.*1 key) (key, val) = kv_insert key val kvs
  ∧ vector_insert kvs (lpos kvs.*1 key) (key, val) = kv_insert key val kvs.
Proof.
  intros Hs Hnone%index_of_None.
  assert (∀ p, key ∉ take p kvs.*1) as Hnin.
  { intros p Hin. apply Hnone. by eapply subseteq_take. }
  split; symmetry; apply kv_insert_at.
  - apply (Forall_fst (P := λ k, (k < key)%Z)). rewrite fmap_take.
    apply Forall_not_lt_ne; [done|]. by apply rpos_take.
  - apply (Forall_fst (P := λ k, (key < k)%Z)). rewrite fmap_drop. apply rpos_drop.
  - apply (Forall_fst (P := λ k, (k < key)%Z)). rewrite fmap_take.
    apply Forall_not_lt_ne; [done|]. apply lpos_take.
  - apply (Forall_fst (P := λ k, (key < k)%Z)). rewrite fmap_drop. by apply lpos_drop.
Qed.

(** ** The ordering invariant *)

(** Key bounds: [None] is no bound. *)
Definition above (lo : option Z) (k : Z) : Prop :=
  match lo with Some l => (l ≤ k)%Z | None => True end.
Definition above_strict (lo : option Z) (k : Z) : Prop :=
  match lo with Some l => (l < k)%Z | None => True end.
Definition below (hi : option Z) (k : Z) : Prop :=
  match hi with Some u => (k < u)%Z | None => True end.

(** Bounds of the subtree at slot [j] of a node with separators [ks]:
    [keys[j-1] <= k < keys[j]]. *)
Definition lower (lo : option Z) (ks : list Z) (j : nat) : option Z :=
  match j with O => lo | S j' => Some (ks !!! j') end.
Definition upper (hi : option Z) (ks : list Z) (j : nat) : option Z :=
  match ks !! j with Some k => Some k | None => hi end.

(** [sorted h lo hi t]: keys increase strictly inside every node, every
    key lies in [[lo, hi)], and the separators of an internal node bound
    its subtrees. *)
Fixpoint sorted (h : nat) (lo hi : option Z) (t : tree) : Prop :=
  match h, t with
  | O, TLeaf _ kvs =>
      keys_sorted kvs.*1 ∧ Forall (λ k, above lo k ∧ below hi k) kvs.*1
  | S h', TNode _ ks cs =>
      keys_sorted ks ∧ Forall (λ k, above lo k ∧ below hi k) ks
      ∧ length cs = length ks + 1
      ∧ ∀ j c, cs !! j = Some c → sorted h' (lower lo ks j) (upper hi ks j) c
  | _, _ => False
  end.

Lemma keys_sorted_lookup (ks : list Z) (i j : nat) (a b : Z) :
  keys_sorted ks → ks !! i = Some a → ks !! j = Some b → i < j → (a < b)%Z.
Proof.
  intros Hs Ha Hb Hij.
  rewrite <- (take_drop j ks) in Hs.
  apply (StronglySorted_app_1_elem_of _ _ _ a b) in Hs; [done| |].
  - apply (list_elem_of_lookup_2 _ i). by rewrite lookup_take_lt.
  - apply (list_elem_of_lookup_2 _ 0). rewrite lookup_drop. by rewrite Nat.add_0_r.
Qed.

Lemma lower_above (lo : option Z) (ks : list Z) (j : nat) (k : Z) :
  Forall (λ k, above lo k) ks → j ≤ length ks →
  above (lower lo ks j) k → above lo k.
Proof.
  intros Hks Hj. destruct j as [|j]; simpl; [done|].
  intros Hk. rewrite Forall_forall in Hks.
  assert (above lo (ks !!! j)) as Ha.
  { apply Hks. apply list_elem_of_lookup_total_2. lia. }
  destruct lo; simpl in *; [lia|done].
Qed.

Lemma upper_below (hi : option Z) (ks : list Z) (j : nat) (k : Z) :
  Forall (λ k, below hi k) ks → below (upper hi ks j) k → below hi k.
Proof.
  intros Hks. unfold upper. destruct (ks !! j) as [kj|] eqn:Hj; simpl; [|done].
  intros Hk. rewrite Forall_forall in Hks.
  specialize (Hks kj (list_elem_of_lookup_2 _ _ _ Hj)).
  destruct hi; simpl in *; [lia|done].
Qed.

(** Every record of a subtree lies within the subtree's bounds. *)
Lemma sorted_contents_bounds (h : nat) (lo hi : option Z) (t : tree) :
  sorted h lo hi t → Forall (λ kv, above lo kv.1 ∧ below hi kv.1) (contents t).
Proof.
  revert lo hi t. induction h as [|h IH]; intros lo hi [idx kvs|idx ks cs]; simpl; try done.
  - intros [_ Hb]. by apply Forall_fmap in Hb.
  - intros (Hs & Hb & Hlen & Hcs). apply Forall_forall. intros kv Hkv.
    apply elem_of_concat_map in Hkv as (c & Hc & Hkv).
    apply list_elem_of_lookup in Hc as [j Hj].
    pose proof (IH _ _ _ (Hcs j c Hj)) as Hc. rewrite Forall_forall in Hc.
    destruct (Hc kv Hkv) as [Ha Hbl].
    pose proof (lookup_lt_Some _ _ _ Hj) as Hjl. split.
    + apply (lower_above lo ks j); [|lia|done]. eapply Forall_impl; [done|]. by intros ? [? _].
    + apply (upper_below hi ks j); [|done]. eapply Forall_impl; [done|]. by intros ? [_ ?].
Qed.

Lemma lpos_lower (lo : option Z) (ks : list Z) (key : Z) :
  above lo key → above (lower lo ks (lpos ks key)) key.
Proof.
  intros Hlo. pose proof (lpos_take ks key) as Ht. pose proof (lpos_le ks key) as Hle.
  destruct (lpos ks key) as [|i] eqn:Hi; simpl; [done|].
  rewrite Forall_forall in Ht.
  assert (¬ (key < ks !!! i)%Z); [|lia]. apply Ht.
  apply (list_elem_of_lookup_2 _ i). rewrite lookup_take_lt by lia.
  apply list_lookup_lookup_total_lt. lia.
Qed.

Lemma lpos_upper (hi : option Z) (ks : list Z) (key : Z) :
  keys_sorted ks → below hi key → below (upper hi ks (lpos ks key)) key.
Proof.
  intros Hs Hhi. pose proof (lpos_drop ks key Hs) as Hd. unfold upper.
  destruct (ks !! lpos ks key) as [k|] eqn:Hk; simpl; [|done].
  rewrite Forall_forall in Hd. apply Hd.
  apply (list_elem_of_lookup_2 _ 0). rewrite lookup_drop. by rewrite Nat.add_0_r.
Qed.

(** *** Separators after a child split *)

Lemma vector_insert_lookup {A} (l : list A) (i j : nat) (x : A) :
  i ≤ length l →
  vector_insert l i x !! j
  = if decide (j < i) then l !! j else if decide (j = i) then Some x else l !! (j - 1).
Proof.
  intros Hi. unfold vector_insert. rewrite lookup_middle1, length_take, Nat.min_l by lia.
  repeat case_decide; try done.
  - by rewrite lookup_take_lt.
  - rewrite lookup_drop. f_equal. lia.
Qed.

Lemma vector_insert_lookup_total {A} `{Inhabited A} (l : list A) (i j : nat) (x : A) :
  i ≤ length l →
  vector_insert l i x !!! j
  = if decide (j < i) then l !!! j else if decide (j = i) then x else l !!! (j - 1).
Proof.
  intros Hi. rewrite !list_lookup_total_alt, vector_insert_lookup by done.
  by repeat case_decide.
Qed.

Lemma lower_vector_insert (lo : option Z) (ks : list Z) (i j : nat) (pk : Z) :
  i ≤ length ks →
  lower lo (vector_insert ks i pk) j
  = if decide (j ≤ i) then lower lo ks j
    else if decide (j = S i) then Some pk
    else lower lo ks (j - 1).
Proof.
  intros Hi. destruct j as [|j]; [by rewrite decide_True by lia|]. cbn [lower].
  rewrite vector_insert_lookup_total by done.
  repeat case_decide; try lia; try done.
  destruct j; [lia|]. simpl. by rewrite Nat.sub_0_r.
Qed.

Lemma upper_vector_insert (hi : option Z) (ks : list Z) (i j : nat) (pk : Z) :
  i ≤ length ks →
  upper hi (vector_insert ks i pk) j
  = if decide (j < i) then upper hi ks j
    else if decide (j = i) then Some pk
    else upper hi ks (j - 1).
Proof.
  intros Hi. unfold upper. rewrite vector_insert_lookup by done.
  by repeat case_decide.
Qed.

Lemma take_below_lower (lo : option Z) (ks : list Z) (i : nat) (pk k : Z) :
  keys_sorted ks → i ≤ length ks → above (lower lo ks i) pk →
  k ∈ take i ks → (k ≤ pk)%Z.
Proof.
  intros Hs Hi Hlo Hk. apply elem_of_take in Hk as (j & Hj & Hjl).
  destruct i as [|i]; [lia|]. simpl in Hlo.
  destruct (decide (j = i)) as [->|Hne].
  - apply list_lookup_total_correct in Hj. by rewrite <- Hj.
  - assert (k < ks !!! i)%Z; [|lia].
    eapply (keys_sorted_lookup ks j i); try done; [|lia].
    apply list_lookup_lookup_total_lt. lia.
Qed.

Lemma drop_above_upper (hi : option Z) (ks : list Z) (i : nat) (pk k : Z) :
  keys_sorted ks → below (upper hi ks i) pk → k ∈ drop i ks → (pk < k)%Z.
Proof.
  intros Hs Hhi Hk. apply list_elem_of_lookup in Hk as [j Hj]. rewrite lookup_drop in Hj.
  destruct (lookup_lt_is_Some_2 ks i) as [ki Hki]; [apply lookup_lt_Some in Hj; lia|].
  unfold upper in Hhi. rewrite Hki in Hhi. simpl in Hhi.
  destruct j as [|j]; [rewrite Nat.add_0_r in Hj; by simplify_eq|].
  assert (ki < k)%Z; [|lia].
  eapply (keys_sorted_lookup ks i (i + S j)); try done; lia.
Qed.

Lemma keys_sorted_vector_insert (ks : list Z) (i : nat) (pk : Z) :
  keys_sorted ks →
  (∀ k, k ∈ take i ks → k < pk)%Z → (∀ k, k ∈ drop i ks → pk < k)%Z →
  keys_sorted (vector_insert ks i pk).
Proof.
  unfold keys_sorted. intros Hs Hlo Hhi. unfold vector_insert.
  rewrite <- (take_drop i ks) in Hs.
  apply StronglySorted_app in Hs as (Hlr & Hsl & Hsr).
  apply StronglySorted_app. split; [|split; [done|]].
  - intros k1 k2 Hk1 [->|Hk2]%elem_of_cons; [by apply Hlo|by apply Hlr].
  - constructor; [done|]. apply Forall_forall. intros k Hk. by apply Hhi.
Qed.

Lemma take_lt_lower (lo : option Z) (ks : list Z) (i : nat) (pk k : Z) :
  keys_sorted ks → i ≤ length ks → above_strict (lower lo ks i) pk →
  k ∈ take i ks → (k < pk)%Z.
Proof.
  intros Hs Hi Hlo Hk.
  destruct i as [|i]; [by apply elem_of_nil in Hk|]. simpl in Hlo.
  assert (k ≤ ks !!! i)%Z; [|lia].
  apply (take_below_lower lo ks (S i)); try done. simpl. lia.
Qed.

Lemma above_strict_above (lo : option Z) (k : Z) : above_strict lo k → above lo k.
Proof. destruct lo; simpl; [lia|done]. Qed.

Lemma div2_bounds (n : nat) : 2 ≤ n → 1 ≤ n / 2 ∧ n / 2 < n.
Proof.
  intros Hn. pose proof (Nat.div_mod_eq n 2). pose proof (Nat.mod_upper_bound n 2). lia.
Qed.

(** *** Leaves *)

Lemma leaf_insert_sorted (next idx : nat) (kvs : list (Z * string)) (lo hi : option Z)
    (key : Z) (val : string) :
  sorted 0 lo hi (TLeaf idx kvs) → above lo key → below hi key →
  match (leaf_insert next idx kvs key val).1 with
  | (t', None) => sorted 0 lo hi t' ∧ contents t' = kv_insert key val kvs
  | (t', Some (pk, r)) =>
      sorted 0 lo (Some pk) t' ∧ sorted 0 (Some pk) hi r
      ∧ above_strict lo pk ∧ below hi pk
      ∧ contents t' ++ contents r = kv_insert key val kvs
  end.
Proof.
  intros [Hs Hb] Hlo Hhi.
  pose proof (kv_insert_sorted key val kvs Hs) as Hs'.
  assert (Forall (λ k, above lo k ∧ below hi k) (kv_insert key val kvs).*1) as Hb'.
  { apply Forall_forall. intros k Hk.
    apply list_elem_of_fmap in Hk as ([k' v'] & -> & Hin). simpl.
    apply kv_insert_elem in Hin as [[= -> ->]|Hin]; [done|].
    rewrite Forall_forall in Hb. apply Hb. apply list_elem_of_fmap. by exists (k', v'). }
  unfold leaf_insert. destruct (index_of kvs.*1 key) as [i|] eqn:Hi.
  - rewrite (leaf_overwrite_sorted _ _ _ _ Hs Hi). done.
  - destruct (leaf_room_sorted kvs key val Hs Hi) as [-> ->].
    case_decide as Hroom; [done|]. cbn [fst snd contents sorted].
    set (kvs' := kv_insert key val kvs) in *.
    assert (2 ≤ length kvs') as Hlen.
    { pose proof (kv_insert_length key val kvs). fold kvs' in H.
      unfold MAX_KEYS_LEAF in Hroom. lia. }
    destruct (div2_bounds _ Hlen) as [Hsp1 Hsp2].
    set (split := length kvs' / 2) in *.
    rewrite take_drop.
    destruct (lookup_lt_is_Some_2 kvs'.*1 split) as [pk Hpk]; [by rewrite length_fmap|].
    rewrite fmap_drop. rewrite lookup_total_drop, Nat.add_0_r.
    rewrite (list_lookup_total_correct _ _ _ Hpk).
    destruct (lookup_lt_is_Some_2 kvs'.*1 0) as [k0 Hk0]; [rewrite length_fmap; lia|].
    pose proof (keys_sorted_lookup _ _ _ _ _ Hs' Hk0 Hpk ltac:(lia)) as Hk0pk.
    rewrite Forall_forall in Hb'.
    destruct (Hb' k0 (list_elem_of_lookup_2 _ _ _ Hk0)) as [Hlok0 _].
    destruct (Hb' pk (list_elem_of_lookup_2 _ _ _ Hpk)) as [_ Hhipk].
    rewrite !fmap_take.
    unfold keys_sorted in *. rewrite <- (take_drop split kvs'.*1) in Hs'.
    apply StronglySorted_app in Hs' as (Hlr & Hsl & Hsr).
    assert (pk ∈ drop split kvs'.*1) as Hpkin.
    { apply (list_elem_of_lookup_2 _ 0). by rewrite lookup_drop, Nat.add_0_r. }
    split; [|split; [|split; [|done]]].
    + split; [done|]. apply Forall_forall. intros k Hk. split.
      * apply Hb'. by eapply subseteq_take.
      * simpl. by apply Hlr.
    + split; [done|]. apply Forall_forall. intros k Hk. split.
      * simpl. apply list_elem_of_lookup in Hk as [j Hj].
        destruct j as [|j].
        -- rewrite lookup_drop, Nat.add_0_r in Hj. simplify_eq. lia.
        -- rewrite (drop_S _ pk split) in Hsr, Hj by done.
           apply StronglySorted_inv in Hsr as [_ Hall].
           rewrite Forall_forall in Hall. simpl in Hj.
           specialize (Hall k (list_elem_of_lookup_2 _ _ _ Hj)). lia.
      * apply Hb'. by eapply subseteq_drop.
    + destruct lo; simpl in *; [lia|done].
Qed.

(** *** Internal nodes *)

Lemma lower_take (lo : option Z) (ks : list Z) (m j : nat) :
  j ≤ m → lower lo (take m ks) j = lower lo ks j.
Proof.
  intros Hj. destruct j as [|j]; simpl; [done|].
  by rewrite lookup_total_take_lt by lia.
Qed.

Lemma upper_take (hi : option Z) (ks : list Z) (m j : nat) (km : Z) :
  ks !! m = Some km → j ≤ m → upper (Some km) (take m ks) j = upper hi ks j.
Proof.
  intros Hm Hj. unfold upper. destruct (decide (j = m)) as [->|Hne].
  - by rewrite lookup_take_ge, Hm by lia.
  - rewrite lookup_take_lt by lia.
    destruct (lookup_lt_is_Some_2 ks j) as [k Hk]; [apply lookup_lt_Some in Hm; lia|].
    by rewrite Hk.
Qed.

Lemma lower_drop (lo : option Z) (ks : list Z) (m j : nat) (km : Z) :
  ks !! m = Some km → lower (Some km) (drop (S m) ks) j = lower lo ks (S m + j).
Proof.
  intros Hm. destruct j as [|j]; simpl.
  - rewrite Nat.add_0_r. by rewrite (list_lookup_total_correct _ _ _ Hm).
  - rewrite lookup_total_drop. do 2 f_equal. lia.
Qed.

Lemma upper_drop (hi : option Z) (ks : list Z) (m j : nat) :
  upper hi (drop m ks) j = upper hi ks (m + j).
Proof. unfold upper. by rewrite lookup_drop. Qed.

Lemma internal_insert_sorted (h : nat) (next idx : nat) (ks : list Z) (cs : list tree)
    (lo hi : option Z) (i : nat) (c c' r : tree) (pk : Z) :
  keys_sorted ks → Forall (λ k, above lo k ∧ below hi k) ks →
  length cs = length ks + 1 → i ≤ length ks → cs !! i = Some c →
  (∀ j c0, cs !! j = Some c0 → j ≠ i → sorted h (lower lo ks j) (upper hi ks j) c0) →
  sorted h (lower lo ks i) (Some pk) c' → sorted h (Some pk) (upper hi ks i) r →
  above_strict (lower lo ks i) pk → below (upper hi ks i) pk →
  match (internal_insert next idx ks (<[i := c']> cs) i pk r).1 with
  | (t', None) => sorted (S h) lo hi t'
  | (t', Some (pk', r')) =>
      sorted (S h) lo (Some pk') t' ∧ sorted (S h) (Some pk') hi r'
      ∧ above_strict lo pk' ∧ below hi pk'
  end.
Proof.
  intros Hs Hb Hlen Hi Hci Hcs Hc' Hr Hlo Hhi.
  set (ks' := vector_insert ks i pk).
  set (cs2 := vector_insert (<[i := c']> cs) (i + 1) r).
  assert (keys_sorted ks') as Hs'.
  { apply keys_sorted_vector_insert; [done| |].
    - intros k Hk. by eapply take_lt_lower.
    - intros k Hk. by eapply drop_above_upper. }
  assert (above lo pk ∧ below hi pk) as [Hlopk Hhipk].
  { split.
    - apply (lower_above lo ks i); [|done|by apply above_strict_above].
      eapply Forall_impl; [done|]. by intros ? [? _].
    - apply (upper_below hi ks i); [|done].
      eapply Forall_impl; [done|]. by intros ? [_ ?]. }
  assert (Forall (λ k, above lo k ∧ below hi k) ks') as Hb'.
  { subst ks'. unfold vector_insert. apply Forall_app. split; [by apply Forall_take|].
    constructor; [done|by apply Forall_drop]. }
  assert (length ks' = S (length ks)) as Hlks' by (by apply vector_insert_length).
  assert (length cs2 = length ks' + 1) as Hlcs2.
  { subst cs2. rewrite vector_insert_length by (rewrite length_insert; lia).
    rewrite length_insert. lia. }
  assert (∀ j c0, cs2 !! j = Some c0 → sorted h (lower lo ks' j) (upper hi ks' j) c0) as Hcs2.
  { intros j c0. subst cs2 ks'.
    rewrite vector_insert_lookup by (rewrite length_insert; lia).
    rewrite lower_vector_insert, upper_vector_insert by done.
    repeat case_decide; try lia.
    - rewrite list_lookup_insert_ne by lia. intros Hj. apply Hcs; [done|lia].
    - subst j. rewrite list_lookup_insert_eq by lia. by intros [= <-].
    - intros [= <-]. by replace (j - 1) with i by lia.
    - rewrite list_lookup_insert_ne by lia. intros Hj. apply Hcs; [done|lia]. }
  unfold internal_insert. fold ks' cs2.
  case_decide as Hroom; cbn [fst snd sorted]; [done|].
  assert (2 ≤ length ks') as H2 by (unfold MAX_KEYS_INTERNAL in Hroom; lia).
  destruct (div2_bounds _ H2) as [Hm1 Hm2].
  set (mid := length ks' / 2) in *.
  destruct (lookup_lt_is_Some_2 ks' mid Hm2) as [pk' Hpk'].
  rewrite (list_lookup_total_correct _ _ _ Hpk').
  destruct (lookup_lt_is_Some_2 ks' 0) as [k0 Hk0]; [lia|].
  pose proof (keys_sorted_lookup _ _ _ _ _ Hs' Hk0 Hpk' ltac:(lia)) as Hk0pk.
  rewrite Forall_forall in Hb'.
  destruct (Hb' k0 (list_elem_of_lookup_2 _ _ _ Hk0)) as [Hlok0 _].
  destruct (Hb' pk' (list_elem_of_lookup_2 _ _ _ Hpk')) as [_ Hhipk'].
  pose proof Hs' as Hs''. unfold keys_sorted in Hs''.
  rewrite <- (take_drop_middle _ _ _ Hpk') in Hs''.
  apply StronglySorted_app in Hs'' as (Hlr & Hsl & Hsr).
  apply StronglySorted_inv in Hsr as [Hsr Hall]. rewrite Forall_forall in Hall.
  replace (mid + 1) with (S mid) by lia.
  split; [|split; [|split; [|done]]].
  - split; [done|]. split; [|split].
    + apply Forall_forall. intros k Hk. split.
      * apply Hb'. by eapply subseteq_take.
      * simpl. apply Hlr; [done|by left].
    + rewrite !length_take. lia.
    + intros j c0 Hj. apply lookup_take_Some in Hj as [Hj Hjl].
      rewrite lower_take by lia. rewrite (upper_take hi) by (done || lia).
      by apply Hcs2.
  - split; [done|]. split; [|split].
    + apply Forall_forall. intros k Hk. split.
      * simpl. specialize (Hall k Hk). lia.
      * apply Hb'. by eapply subseteq_drop.
    + rewrite !length_drop. lia.
    + intros j c0 Hj. rewrite lookup_drop in Hj.
      rewrite (lower_drop lo) by done. rewrite upper_drop.
      by apply Hcs2.
  - destruct lo; simpl in *; [lia|done].
Qed.

Lemma internal_insert_contents (next idx : nat) (ks : list Z) (cs : list tree)
    (i : nat) (pk : Z) (r : tree) :
  let res := (internal_insert next idx ks cs i pk r).1 in
  contents res.1 ++ match res.2 with Some (_, r') => contents r' | None => [] end
  = concat (map contents (vector_insert cs (i + 1) r)).
Proof.
  unfold internal_insert. case_decide; cbn [fst snd contents].
  - by rewrite app_nil_r.
  - rewrite <- concat_app, <- map_app. by rewrite take_drop.
Qed.

(** The records of a node around the slot that [key] selects. *)
Lemma contents_slot (h : nat) (lo hi : option Z) (idx : nat) (ks : list Z) (cs : list tree)
    (key : Z) (c : tree) :
  sorted (S h) lo hi (TNode idx ks cs) → cs !! lpos ks key = Some c →
  ∃ A B,
    concat (map contents cs) = A ++ contents c ++ B
    ∧ (∀ c', concat (map contents (<[lpos ks key := c']> cs)) = A ++ contents c' ++ B)
    ∧ (∀ c' r, concat (map contents (vector_insert (<[lpos ks key := c']> cs)
                                                   (lpos ks key + 1) r))
               = A ++ contents c' ++ contents r ++ B)
    ∧ Forall (λ kv, kv.1 < key)%Z A ∧ Forall (λ kv, key < kv.1)%Z B.
Proof.
  intros (Hs & Hb & Hlen & Hcs) Hc.
  pose proof (lookup_lt_Some _ _ _ Hc) as Hi. pose proof (lpos_le ks key) as Hle.
  set (i := lpos ks key) in *.
  exists (concat (map contents (take i cs))), (concat (map contents (drop (S i) cs))).
  split; [|split; [|split; [|split]]].
  - rewrite <- (take_drop_middle _ _ _ Hc) at 1. by rewrite map_app, concat_app.
  - intros c'. rewrite insert_take_drop by done. by rewrite map_app, concat_app.
  - intros c' r. rewrite (vector_insert_update _ _ _ _ _ Hc).
    rewrite map_app, concat_app. done.
  - apply Forall_forall. intros kv Hkv.
    apply elem_of_concat_map in Hkv as (c0 & Hc0 & Hkv).
    apply elem_of_take in Hc0 as (j & Hj & Hjl).
    pose proof (sorted_contents_bounds _ _ _ _ (Hcs j c0 Hj)) as Hbd.
    rewrite Forall_forall in Hbd. destruct (Hbd kv Hkv) as [_ Hup].
    destruct (lookup_lt_is_Some_2 ks j ltac:(lia)) as [kj Hkj].
    unfold upper in Hup. rewrite Hkj in Hup. simpl in Hup.
    pose proof (lpos_take ks key) as Ht. rewrite Forall_forall in Ht.
    assert (¬ (key < kj)%Z); [|lia]. apply Ht. fold i.
    apply (list_elem_of_lookup_2 _ j). by rewrite lookup_take_lt.
  - apply Forall_forall. intros kv Hkv.
    apply elem_of_concat_map in Hkv as (c0 & Hc0 & Hkv).
    apply list_elem_of_lookup in Hc0 as [j Hj]. rewrite lookup_drop in Hj.
    pose proof (sorted_contents_bounds _ _ _ _ (Hcs _ c0 Hj)) as Hbd.
    rewrite Forall_forall in Hbd. destruct (Hbd kv Hkv) as [Hlow _].
    simpl in Hlow.
    pose proof (lpos_drop ks key Hs) as Hd. rewrite Forall_forall in Hd.
    assert (key < ks !!! (i + j)%nat)%Z; [|lia]. apply Hd. fold i.
    apply (list_elem_of_lookup_2 _ j). rewrite lookup_drop.
    apply list_lookup_lookup_total_lt. apply lookup_lt_Some in Hj. lia.
Qed.

(** [t_insert] keeps the ordering invariant and inserts into the records. *)
Lemma t_insert_sorted (h : nat) :
  ∀ (next : nat) (t : tree) (lo hi : option Z) (key : Z) (val : string),
  sorted h lo hi t → above lo key → below hi key →
  match (t_insert h next t key val).1 with
  | (t', None) => sorted h lo hi t' ∧ contents t' = kv_insert key val (contents t)
  | (t', Some (pk, r)) =>
      sorted h lo (Some pk) t' ∧ sorted h (Some pk) hi r
      ∧ above_strict lo pk ∧ below hi pk
      ∧ contents t' ++ contents r = kv_insert key val (contents t)
  end.
Proof.
  induction h as [|h IH]; intros next [idx kvs|idx ks cs] lo hi key val Hsorted Hlo Hhi;
    try done.
  - by apply leaf_insert_sorted.
  - pose proof Hsorted as (Hs & Hb & Hlen & Hcs).
    pose proof (lpos_le ks key) as Hi.
    destruct (lookup_lt_is_Some_2 cs (lpos ks key) ltac:(lia)) as [c Hc].
    destruct (contents_slot _ _ _ _ _ _ _ _ Hsorted Hc) as (A & B & HA & HA1 & HA2 & HAlt & HBgt).
    cbn [t_insert]. rewrite Hc.
    specialize (IH next c _ _ key val (Hcs _ c Hc)
                  (lpos_lower lo ks key Hlo) (lpos_upper hi ks key Hs Hhi)).
    destruct (t_insert h next c key val) as [[c' sp] next1]. cbn [fst snd] in IH.
    assert (kv_insert key val (A ++ contents c ++ B)
            = A ++ kv_insert key val (contents c) ++ B) as Hins
      by (by rewrite kv_insert_app_l, kv_insert_app_r).
    destruct sp as [[pk r]|].
    + destruct IH as (Hc' & Hr & Hlopk & Hhipk & Hcont).
      pose proof (internal_insert_sorted h next1 idx ks cs lo hi _ c c' r pk
                    Hs Hb Hlen Hi Hc (λ j c0 Hj _, Hcs j c0 Hj) Hc' Hr Hlopk Hhipk) as Hsort.
      pose proof (internal_insert_contents next1 idx ks (<[lpos ks key := c']> cs)
                    (lpos ks key) pk r) as Hcont'.
      cbn zeta in Hcont'. rewrite HA2 in Hcont'.
      destruct (internal_insert _ _ _ _ _ _ _) as [[t' sp'] next2]. cbn [fst snd] in *.
      cbn [contents]. rewrite HA, Hins, <- Hcont.
      rewrite (app_assoc (contents c') (contents r) B) in Hcont'.
      destruct sp' as [[pk' r']|].
      * destruct Hsort as (? & ? & ? & ?). done.
      * rewrite app_nil_r in Hcont'. done.
    + destruct IH as [Hc' Hcont]. cbn [fst snd sorted contents]. split.
      * split; [done|]. split; [done|]. split; [by rewrite length_insert|].
        intros j c0 Hj.
        apply list_lookup_insert_Some in Hj as [(<- & <- & _)|[Hne Hj]]; [done|].
        by apply Hcs.
      * by rewrite HA, HA1, Hcont, Hins.
Qed.

(** ** [put] on a whole tree *)

(** [put] on trees: a split of the root grows the tree by one level. *)
Definition t_put (h next : nat) (t : tree) (key : Z) (val : string) : tree * nat :=
  let '(t', sp, next') := t_insert h next t key val in
  match sp with
  | None => (t', h)
  | Some (pk, r) => (TNode next' [pk] [t'; r], S h)
  end.

(** The invariant of a [BPlusTree]: the arena holds, from [rootIndex_], a
    tree of some height whose leaves are chained up to the null link, whose
    keys are ordered, and which uses every node of the arena exactly
    once. *)
Definition tree_inv (T : BPlusTree) (h : nat) (t : tree) : Prop :=
  rootIndex_ T = Some (tidx t)
  ∧ repr h (nodes_ T) t None
  ∧ sorted h None None t
  ∧ idxs t ≡ₚ seq 0 (length (nodes_ T)).

Lemma tree_inv_new : tree_inv BPlusTree_new 0 (TLeaf 0 []).
Proof.
  split; [done|]. split; [|split; [|done]].
  - exists LeafNode_new. split; [done|]. by repeat split.
  - split; simpl; constructor.
Qed.

Lemma height_lt_idxs (h : nat) (t : tree) : shape h t → h < length (idxs t).
Proof.
  revert t. induction h as [|h IH]; intros [idx kvs|idx ks cs]; simpl; try done; [lia|].
  intros [Hlen Hcs]. destruct cs as [|c cs]; [simpl in Hlen; lia|].
  specialize (IH c (Hcs c ltac:(by left))). simpl. rewrite length_app. lia.
Qed.

Lemma seq_0_app (a b : nat) : a ≤ b → seq 0 a ++ seq a (b - a) = seq 0 b.
Proof.
  intros. replace b with (a + (b - a)) at 2 by lia. by rewrite seq_app.
Qed.

Lemma put_refines (T : BPlusTree) (h : nat) (t : tree) (key : Z) (val : string) :
  tree_inv T h t →
  ∃ T',
    put T key val = Some T'
    ∧ tree_inv T' (t_put h (length (nodes_ T)) t key val).2
                  (t_put h (length (nodes_ T)) t key val).1
    ∧ contents (t_put h (length (nodes_ T)) t key val).1 = kv_insert key val (contents t).
Proof.
  destruct T as [root nodes]. intros (Hroot & Hrepr & Hsorted & Hperm).
  cbn [rootIndex_ nodes_] in *. subst root.
  assert (NoDup (idxs t)) as Hnd by (rewrite Hperm; apply NoDup_seq).
  pose proof (repr_shape _ _ _ _ Hrepr) as Hshape.
  assert (h < fuel_of (mkTree (Some (tidx t)) nodes)) as Hfuel.
  { pose proof (height_lt_idxs h t Hshape) as Hh.
    rewrite Hperm, length_seq in Hh. unfold fuel_of. simpl. lia. }
  destruct (insertInternal_refines h _ nodes (Some (tidx t)) t None key val Hrepr Hnd Hfuel)
    as (nodes1 & Hrun & Hlen1 & Hframe & Hpost).
  pose proof (t_insert_facts h (length nodes) t key val Hshape) as Hfacts.
  pose proof (t_insert_sorted h (length nodes) t None None key val Hsorted I I) as Hsort.
  unfold put, t_put. cbn [rootIndex_ nodes_]. rewrite Hrun.
  cbn [mbind option_bind].
  destruct (t_insert h (length nodes) t key val) as [[t' sp] next']. cbn [fst snd] in *.
  destruct Hfacts as (Hti & Hfl & Hsh & Hle & Hperm' & Hshr).
  unfold out_idxs in Hperm'. cbn [fst snd] in Hperm'.
  rewrite Hperm, seq_0_app in Hperm' by lia.
  destruct sp as [[pk r]|]; cbn [result_of splitted].
  - (* the root has split *)
    destruct Hpost as [Hrt' Hrr]. destruct Hsort as (Hst' & Hsr & _ & _ & Hcont).
    unfold allocateNode, set_node. cbn [rootIndex_ nodes_ fst snd contents].
    eexists. split; [reflexivity|]. cbn [rootIndex_ nodes_ tidx].
    assert (∀ x, x ∈ idxs t' ++ idxs r → x < length nodes1) as Hlt.
    { intros x Hx. rewrite Hperm' in Hx. apply elem_of_seq in Hx. lia. }
    assert (∀ c x, c = t' ∨ c = r → x ∈ idxs c →
              <[length nodes1 := Internal
                  (mkInternalNode 1
                     (<[0 := pk]> (int_keys InternalNode_new))
                     (<[1 := Some (tidx r)]>
                        (<[0 := Some (tidx t)]> (int_childIndices InternalNode_new))))]>
                (nodes1 ++ [Internal InternalNode_new]) !! x = nodes1 !! x) as Hsame.
    { intros c x Hc Hx.
      assert (x < length nodes1) by (apply Hlt, elem_of_app; destruct Hc; subst; auto).
      rewrite list_lookup_insert_ne by lia. by rewrite lookup_app_l. }
    cbn [promotedKey newChildOffset].
    split; [|by simpl; rewrite app_nil_r].
    split; [by cbn; rewrite Hlen1|]. cbn [nodes_]. split; [|split].
    + cbn [repr]. split.
      * eexists. split.
        { rewrite <- Hlen1. apply list_lookup_insert_eq. rewrite length_app. simpl. lia. }
        rewrite <- Hti. by repeat split.
      * intros j c Hj. destruct j as [|[|j]]; simpl in Hj; simplify_eq.
        -- eapply repr_frame; [|exact Hrt']. intros x Hx. by apply (Hsame c); [left|].
        -- eapply repr_frame; [|exact Hrr]. intros x Hx. by apply (Hsame c); [right|].
    + cbn [sorted]. split; [repeat constructor|]. split; [by repeat constructor|].
      split; [done|]. intros j c Hj. destruct j as [|[|j]]; simpl in Hj; by simplify_eq.
    + cbn [idxs map concat]. rewrite app_nil_r, Hperm'.
      rewrite length_insert, length_app. simpl.
      replace (length nodes1 + 1) with (S next') by lia.
      rewrite seq_S. simpl. by rewrite Permutation_cons_append.
  - destruct Hsort as [Hst' Hcont]. rewrite app_nil_r in Hperm'.
    eexists. split; [reflexivity|]. split; [|done].
    split; [by cbn; rewrite Hti|]. split; [done|]. split; [done|].
    cbn [nodes_]. by rewrite Hlen1.
Qed.

Definition put_records (kvs : list (Z * string)) (ops : list (Z * string)) :
    list (Z * string) :=
  foldl (λ l op, kv_insert op.1 op.2 l) kvs ops.

Lemma put_all_refines (ops : list (Z * string)) (T : BPlusTree) (h : nat) (t : tree) :
  tree_inv T h t →
  ∃ T' h' t',
    put_all T ops = Some T' ∧ tree_inv T' h' t'
    ∧ contents t' = put_records (contents t) ops.
Proof.
  revert T h t. induction ops as [|[key val] ops IH]; intros T h t Hinv.
  - exists T, h, t. done.
  - destruct (put_refines T h t key val Hinv) as (T1 & Hput & Hinv1 & Hcont1).
    destruct (IH _ _ _ Hinv1) as (T' & h' & t' & Hall & Hinv' & Hcont').
    exists T', h', t'. simpl. rewrite Hput. simpl.
    split; [done|]. split; [done|]. by rewrite Hcont', Hcont1.
Qed.

(** ** [searchKey] returns the record of the key *)

Lemma leaf_rep_value (leaf : LeafNode) (kvs : list (Z * string)) (nxt : option nat) (i : nat) :
  leaf_rep leaf kvs nxt → i < length kvs → leaf_values leaf !!! i = kvs.*2 !!! i.
Proof.
  intros (_ & _ & Hv & _) Hi. rewrite <- Hv. by rewrite lookup_total_take_lt.
Qed.

Lemma leaf_rep_key (leaf : LeafNode) (kvs : list (Z * string)) (nxt : option nat) (i : nat) :
  leaf_rep leaf kvs nxt → i < length kvs → leaf_keys leaf !!! i = kvs.*1 !!! i.
Proof.
  intros (_ & Hk & _) Hi. rewrite <- Hk. by rewrite lookup_total_take_lt.
Qed.

Lemma searchKey_refines (h : nat) :
  ∀ (fuel : nat) (nodes : list Node) (t : tree) (nxt : option nat) (lo hi : option Z)
    (key : Z),
  repr h nodes t nxt → sorted h lo hi t → h < fuel →
  searchKey fuel nodes (Some (tidx t)) key = Some (assoc key (contents t)).
Proof.
  induction h as [|h IH];
    intros fuel nodes [idx kvs|idx ks cs] nxt lo hi key Hrepr Hsorted Hfuel; try done.
  - destruct fuel as [|fuel]; [lia|]. destruct Hrepr as (leaf & Hl & Hrep).
    cbn [searchKey tidx contents]. rewrite Hl. cbn [mbind option_bind]. f_equal.
    pose proof Hrep as (Hn & Hk & _ & Hlk & _).
    pose proof (leaf_rep_length _ _ _ Hrep) as Hmax.
    rewrite scan_eq_spec by lia. rewrite drop_0, Hn, Hk, assoc_index_of.
    destruct (index_of kvs.*1 key) as [i|] eqn:Hi; [|done]. simpl. f_equal.
    apply index_of_lt, lookup_lt_Some in Hi. rewrite length_fmap in Hi.
    by eapply leaf_rep_value.
  - destruct fuel as [|fuel]; [lia|]. destruct Hrepr as [(n & Hn & Hrep) Hcs].
    pose proof (internal_rep_length _ _ _ Hrep) as [Hmax Hcl]. rewrite length_fmap in Hcl.
    pose proof Hrep as (HnN & Hk & Hc & Hlk & Hlc).
    pose proof (lpos_le ks key) as Hi.
    destruct (lookup_lt_is_Some_2 cs (lpos ks key) ltac:(lia)) as [c Hci].
    destruct (contents_slot _ _ _ _ _ _ _ _ Hsorted Hci) as (A & B & HA & _ & _ & HAlt & HBgt).
    destruct Hsorted as (Hs & Hb & Hlen & Hcss).
    cbn [searchKey tidx contents]. rewrite Hn. cbn [mbind option_bind].
    rewrite child_slot_spec by lia. rewrite drop_0, HnN, Hk. rewrite Nat.add_0_l.
    assert (int_childIndices n !!! lpos ks key = Some (tidx c)) as ->.
    { apply list_lookup_total_correct.
      rewrite <- (lookup_take_lt _ (length ks + 1)) by lia.
      by rewrite Hc, !list_lookup_fmap, Hci. }
    rewrite (IH fuel nodes c _ _ _ key (Hcs _ c Hci) (Hcss _ c Hci)) by lia.
    f_equal. rewrite HA. rewrite assoc_app_l, assoc_app_r; [done| |].
    + intros Hin. apply list_elem_of_fmap in Hin as (kv & -> & Hkv).
      rewrite Forall_forall in HBgt. specialize (HBgt kv Hkv). lia.
    + intros Hin. apply list_elem_of_fmap in Hin as (kv & -> & Hkv).
      rewrite Forall_forall in HAlt. specialize (HAlt kv Hkv). lia.
Qed.

Lemma tree_inv_fuel (T : BPlusTree) (h : nat) (t : tree) : tree_inv T h t → h < fuel_of T.
Proof.
  intros (_ & Hrepr & _ & Hperm).
  pose proof (height_lt_idxs h t (repr_shape _ _ _ _ Hrepr)) as Hh.
  rewrite Hperm, length_seq in Hh. unfold fuel_of. lia.
Qed.

Lemma get_refines (T : BPlusTree) (h : nat) (t : tree) (key : Z) :
  tree_inv T h t → get T key = Some (assoc key (contents t)).
Proof.
  intros Hinv. pose proof (tree_inv_fuel _ _ _ Hinv) as Hfuel.
  destruct Hinv as (Hroot & Hrepr & Hsorted & _).
  unfold get. rewrite Hroot. by eapply searchKey_refines.
Qed.

(** ** Fan-out *)

Definition within_fanout (node : Node) : Prop :=
  match node with
  | Leaf leaf => leaf_numKeys leaf ≤ MAX_KEYS_LEAF
  | Internal internal => int_numKeys internal ≤ MAX_KEYS_INTERNAL
  end.

Lemma repr_fanout (h : nat) (nodes : list Node) (t : tree) (nxt : option nat)
    (j : nat) (node : Node) :
  repr h nodes t nxt → j ∈ idxs t → nodes !! j = Some node → within_fanout node.
Proof.
  revert t nxt. induction h as [|h IH]; intros [idx kvs|idx ks cs] nxt; simpl; try done.
  - intros (leaf & Hl & Hrep) ->%list_elem_of_singleton Hnode. simplify_eq. simpl.
    pose proof (leaf_rep_length _ _ _ Hrep). destruct Hrep as [-> _]. done.
  - intros [(n & Hn & Hrep) Hcs] [->|Hj]%elem_of_cons Hnode.
    + simplify_eq. simpl. destruct (internal_rep_length _ _ _ Hrep) as [? _].
      destruct Hrep as [-> _]. done.
    + apply elem_of_concat_map in Hj as (c & Hc & Hj).
      apply list_elem_of_lookup in Hc as [i Hi]. by eapply IH; [eapply Hcs| |].
Qed.

Lemma tree_inv_fanout (T : BPlusTree) (h : nat) (t : tree) :
  tree_inv T h t → Forall within_fanout (nodes_ T).
Proof.
  intros (_ & Hrepr & _ & Hperm). apply Forall_forall. intros node Hnode.
  apply list_elem_of_lookup in Hnode as [j Hj].
  eapply repr_fanout; [done| |done].
  rewrite Hperm. apply elem_of_seq. apply lookup_lt_Some in Hj. lia.
Qed.

(** C5. Starting from the empty tree, every sequence of [put]s runs to
    completion and leaves an arena in which every leaf holds at most 30
    keys and every internal node at most 120. *)
Theorem fanout_invariant (ops : list (Z * string)) :
  ∃ T, put_all BPlusTree_new ops = Some T
       ∧ ∀ node, node ∈ nodes_ T →
           match node with
           | Leaf leaf => leaf_numKeys leaf ≤ 30
           | Internal internal => int_numKeys internal ≤ 120
           end.
Proof.
  destruct (put_all_refines ops _ _ _ tree_inv_new) as (T & h & t & Hall & Hinv & _).
  exists T. split; [done|]. intros node Hnode.
  pose proof (tree_inv_fanout _ _ _ Hinv) as Hall'. rewrite Forall_forall in Hall'.
  specialize (Hall' node Hnode). by destruct node.
Qed.

(** ** Last writer wins *)

Lemma put_records_app (kvs : list (Z * string)) (ops1 ops2 : list (Z * string)) :
  put_records kvs (ops1 ++ ops2) = put_records (put_records kvs ops1) ops2.
Proof. apply foldl_app. Qed.

Lemma assoc_put_records_other (key : Z) (ops kvs : list (Z * string)) :
  key ∉ ops.*1 → assoc key (put_records kvs ops) = assoc key kvs.
Proof.
  revert kvs. induction ops as [|[k v] ops IH]; intros kvs Hnin; [done|].
  simpl. rewrite IH; [|intros Hin; apply Hnin; by right].
  apply assoc_kv_insert_ne. intros ->. apply Hnin. by left.
Qed.

Lemma assoc_put_records_last (key : Z) (val : string) (ops1 ops2 kvs : list (Z * string)) :
  key ∉ ops2.*1 →
  assoc key (put_records kvs (ops1 ++ (key, val) :: ops2)) = Some val.
Proof.
  intros Hnin. rewrite put_records_app. simpl.
  rewrite assoc_put_records_other by done. apply assoc_kv_insert_eq.
Qed.

(** ** The leaf split *)

(** The records a leaf holds: its first [numKeys] keys with their values. *)
Definition records (leaf : LeafNode) : list (Z * string) :=
  zip (take (leaf_numKeys leaf) (leaf_keys leaf))
      (take (leaf_numKeys leaf) (leaf_values leaf)).

Lemma leaf_rep_records (leaf : LeafNode) :
  length (leaf_keys leaf) = MAX_KEYS_LEAF → length (leaf_values leaf) = MAX_KEYS_LEAF →
  leaf_numKeys leaf ≤ MAX_KEYS_LEAF →
  leaf_rep leaf (records leaf) (leaf_nextLeaf leaf).
Proof.
  intros Hk Hv Hn. unfold leaf_rep, records.
  assert (length (zip (take (leaf_numKeys leaf) (leaf_keys leaf))
                      (take (leaf_numKeys leaf) (leaf_values leaf))) = leaf_numKeys leaf) as Hlen.
  { rewrite length_zip_with, !length_take. lia. }
  rewrite Hlen. split; [done|].
  rewrite fst_zip, snd_zip by (rewrite !length_take; lia). done.
Qed.

Lemma leaf_rep_is_records (leaf : LeafNode) (kvs : list (Z * string)) (nxt : option nat) :
  leaf_rep leaf kvs nxt → records leaf = kvs.
Proof.
  intros (Hn & Hk & Hv & _). unfold records. rewrite Hn, Hk, Hv. apply zip_fst_snd.
Qed.

(** C4. [insertLeaf] of a new key into a full, sorted leaf: the 31
    records are merged in key order; the leaf keeps the lower 15, a leaf
    allocated at the end of the arena takes the upper 16 and inherits the
    old [nextLeaf], the old leaf links to the new one, and the promoted key
    is the first key of the new leaf. *)
Theorem leaf_split_postcondition (T : BPlusTree) (leafOffset : nat) (leaf : LeafNode)
    (key : Z) (val : string) :
  nodes_ T !! leafOffset = Some (Leaf leaf) →
  leaf_numKeys leaf = MAX_KEYS_LEAF →
  length (leaf_keys leaf) = MAX_KEYS_LEAF → length (leaf_values leaf) = MAX_KEYS_LEAF →
  keys_sorted (leaf_keys leaf) → key ∉ leaf_keys leaf →
  let union := kv_insert key val (records leaf) in
  let T' := (insertLeaf T leafOffset leaf key val).1 in
  let res := (insertLeaf T leafOffset leaf key val).2 in
  keys_sorted union.*1 ∧ union ≡ₚ (key, val) :: records leaf ∧ length union = 31
  ∧ ∃ old new,
      nodes_ T' !! leafOffset = Some (Leaf old)
      ∧ nodes_ T' !! length (nodes_ T) = Some (Leaf new)
      ∧ length (nodes_ T') = S (length (nodes_ T))
      ∧ leaf_numKeys old = 15 ∧ records old = take 15 union
      ∧ leaf_numKeys new = 16 ∧ records new = drop 15 union
      ∧ leaf_nextLeaf new = leaf_nextLeaf leaf
      ∧ leaf_nextLeaf old = Some (length (nodes_ T))
      ∧ res = mkInsertResult true (length (nodes_ T)) (leaf_keys new !!! 0)
      ∧ head (records new).*1 = Some (promotedKey res).
Proof.
  intros Hl Hn Hlk Hlv Hs Hnin union T' res.
  destruct T as [root nodes]. cbn [nodes_] in *.
  pose proof (leaf_rep_records leaf Hlk Hlv ltac:(lia)) as Hrep.
  set (kvs := records leaf) in *.
  assert (kvs.*1 = leaf_keys leaf) as Hkeys.
  { destruct Hrep as (Hn' & Hk & _). rewrite <- Hk, <- Hn', Hn. apply take_ge. lia. }
  assert (length kvs = MAX_KEYS_LEAF) as Hlen.
  { destruct Hrep as (Hn' & _). lia. }
  assert (index_of kvs.*1 key = None) as Hidx.
  { destruct (index_of kvs.*1 key) as [i|] eqn:Hi; [|done].
    apply index_of_lt, list_elem_of_lookup_2 in Hi. by rewrite Hkeys in Hi. }
  rewrite <- Hkeys in Hs.
  destruct (leaf_room_sorted kvs key val Hs Hidx) as [_ Hunion]. fold union in Hunion.
  assert (length union = 31) as Hlu.
  { rewrite <- Hunion. rewrite vector_insert_length; [by rewrite Hlen|].
    pose proof (lpos_le kvs.*1 key) as H. by rewrite length_fmap in H. }
  destruct (insertLeaf_refines nodes root leafOffset leaf kvs _ key val Hl Hrep)
    as (nodes' & Hrun & Hlen' & Hframe & Hpost).
  subst T' res. rewrite Hrun. cbn [fst snd nodes_].
  unfold leaf_insert in *. rewrite Hidx in *.
  rewrite decide_False in * by lia. rewrite Hunion, Hlu in *.
  change (31 / 2) with 15 in *. cbn [fst snd result_of tidx repr first_leaf] in *.
  destruct Hpost as [(old & Hold & Hrold) (new & Hnew & Hrnew)].
  split; [by apply kv_insert_sorted|]. split.
  { rewrite <- Hunion. unfold vector_insert.
    rewrite <- Permutation_middle. by rewrite take_drop. }
  split; [done|]. exists old, new.
  pose proof (leaf_rep_is_records _ _ _ Hrold) as Hro.
  pose proof (leaf_rep_is_records _ _ _ Hrnew) as Hrn.
  assert ((drop 15 union).*1 !!! 0 = leaf_keys new !!! 0) as Hpk.
  { symmetry. apply (leaf_rep_key new _ _ 0 Hrnew). rewrite length_drop, Hlu. lia. }
  destruct Hrold as (Hno & _ & _ & _ & _ & Hnxo).
  destruct Hrnew as (Hnn & _ & _ & _ & _ & Hnxn).
  rewrite length_take, Hlu in Hno. rewrite length_drop, Hlu in Hnn.
  repeat split; try done.
  - by rewrite Hpk.
  - rewrite Hrn. cbn [promotedKey].
    destruct (drop 15 union).*1 as [|k0 rest] eqn:Hd; [|done].
    apply (f_equal length) in Hd. rewrite length_fmap, length_drop, Hlu in Hd. done.
Qed.

(** ** Range queries *)

(** The records a range query has to report. *)
Definition in_range (low high : Z) (kv : Z * string) : Prop :=
  (low ≤ kv.1 ∧ kv.1 ≤ high)%Z.

#[global] Instance in_range_dec (low high : Z) (kv : Z * string) :
  Decision (in_range low high kv).
Proof. unfold in_range. apply _. Defined.

(** The records of a run of leaves. *)
Definition flat (ls : list (nat * list (Z * string))) : list (Z * string) :=
  concat ls.*2.

(** The offset a [nextLeaf] link holds when the leaves [ls] follow. *)
Definition chain_head (ls : list (nat * list (Z * string))) (nxt : option nat) : option nat :=
  match ls with
  | [] => nxt
  | l :: _ => Some l.1
  end.

(** The arena links the leaves [ls] one to the next, the last one to
    [nxt]. *)
Fixpoint leaf_chain (nodes : list Node) (ls : list (nat * list (Z * string)))
    (nxt : option nat) : Prop :=
  match ls with
  | [] => True
  | l :: rest =>
      (∃ leaf, nodes !! l.1 = Some (Leaf leaf) ∧ leaf_rep leaf l.2 (chain_head rest nxt))
      ∧ leaf_chain nodes rest nxt
  end.

Lemma flat_app (l1 l2 : list (nat * list (Z * string))) :
  flat (l1 ++ l2) = flat l1 ++ flat l2.
Proof. unfold flat. by rewrite fmap_app, concat_app. Qed.

Lemma chain_head_app (l1 l2 : list (nat * list (Z * string))) (nxt : option nat) :
  chain_head (l1 ++ l2) nxt = chain_head l1 (chain_head l2 nxt).
Proof. by destruct l1. Qed.

Lemma leaf_chain_app (nodes : list Node) (l1 l2 : list (nat * list (Z * string)))
    (nxt : option nat) :
  leaf_chain nodes l1 (chain_head l2 nxt) → leaf_chain nodes l2 nxt →
  leaf_chain nodes (l1 ++ l2) nxt.
Proof.
  intros H1 H2. induction l1 as [|l l1 IH]; [done|].
  destruct H1 as [(leaf & Hl & Hrep) H1]. simpl. split; [|by apply IH].
  exists leaf. split; [done|]. by rewrite chain_head_app.
Qed.

Lemma leaf_chain_app_r (nodes : list Node) (l1 l2 : list (nat * list (Z * string)))
    (nxt : option nat) :
  leaf_chain nodes (l1 ++ l2) nxt → leaf_chain nodes l2 nxt.
Proof. induction l1 as [|l l1 IH]; [done|]. intros [_ H]. by apply IH. Qed.

Lemma leaves_head (h : nat) (t : tree) (nxt : option nat) :
  shape h t → chain_head (leaves t) nxt = Some (first_leaf t).
Proof.
  revert t nxt. induction h as [|h IH]; intros [idx kvs|idx ks cs] nxt; simpl; try done.
  intros [Hlen Hcs]. destruct cs as [|c cs]; [simpl in Hlen; lia|].
  simpl. rewrite chain_head_app. apply IH, Hcs. by left.
Qed.

Lemma children_chain (nodes : list Node) (h : nat) :
  (∀ t nxt, repr h nodes t nxt → leaf_chain nodes (leaves t) nxt) →
  ∀ cs nxt,
  (∀ j c, cs !! j = Some c → repr h nodes c (link_after cs j nxt)) →
  leaf_chain nodes (concat (map leaves cs)) nxt.
Proof.
  intros IH cs nxt. induction cs as [|c cs IHcs]; intros Hcs; [done|].
  simpl. apply leaf_chain_app.
  - pose proof (Hcs 0 c eq_refl) as H0. apply IH.
    unfold link_after in H0. destruct cs as [|c1 cs]; [done|].
    simpl in *. rewrite chain_head_app.
    rewrite (leaves_head h c1); [done|].
    eapply repr_shape, (Hcs 1 c1 eq_refl).
  - apply IHcs. intros j c' Hj. apply (Hcs (S j) c' Hj).
Qed.

Lemma repr_chain (h : nat) (nodes : list Node) (t : tree) (nxt : option nat) :
  repr h nodes t nxt → leaf_chain nodes (leaves t) nxt.
Proof.
  revert t nxt. induction h as [|h IH]; intros [idx kvs|idx ks cs] nxt; simpl; try done.
  intros [_ Hcs]. by apply (children_chain nodes h).
Qed.

Lemma flat_leaves_children (h : nat) (cs : list tree) :
  (∀ t, shape h t → contents t = flat (leaves t)) →
  (∀ c, c ∈ cs → shape h c) →
  flat (concat (map leaves cs)) = concat (map contents cs).
Proof.
  intros IH Hcs. induction cs as [|c cs IHcs]; [done|].
  simpl. rewrite flat_app, IHcs.
  - rewrite <- IH; [done|]. apply Hcs. by left.
  - intros c' Hc'. apply Hcs. by right.
Qed.

Lemma contents_leaves (h : nat) (t : tree) : shape h t → contents t = flat (leaves t).
Proof.
  revert t. induction h as [|h IH]; intros [idx kvs|idx ks cs]; simpl; try done.
  - intros _. unfold flat. simpl. by rewrite app_nil_r.
  - intros [_ Hcs]. symmetry. by apply (flat_leaves_children h).
Qed.

Lemma concat_length_le {A B C} (f : A → list B) (g : A → list C) (cs : list A) :
  (∀ c, c ∈ cs → length (f c) ≤ length (g c)) →
  length (concat (map f cs)) ≤ length (concat (map g cs)).
Proof.
  induction cs as [|c cs IH]; intros Hcs; [done|].
  simpl. rewrite !length_app.
  pose proof (Hcs c ltac:(by left)).
  assert (length (concat (map f cs)) ≤ length (concat (map g cs))); [|lia].
  apply IH. intros c' Hc'. apply Hcs. by right.
Qed.

Lemma leaves_length (h : nat) (t : tree) : shape h t → length (leaves t) ≤ length (idxs t).
Proof.
  revert t. induction h as [|h IH]; intros [idx kvs|idx ks cs]; simpl; try done.
  intros [_ Hcs]. apply Nat.le_le_succ_r, concat_length_le.
  intros c Hc. by apply IH, Hcs.
Qed.

(** The records left of the slot that [child_slot] picks are smaller than
    the key. *)
Lemma slot_before (h : nat) (lo hi : option Z) (idx : nat) (ks : list Z) (cs : list tree)
    (key : Z) :
  sorted (S h) lo hi (TNode idx ks cs) →
  Forall (λ kv, kv.1 < key)%Z (concat (map contents (take (lpos ks key) cs))).
Proof.
  intros (Hs & Hb & Hlen & Hcs). pose proof (lpos_le ks key) as Hle.
  apply Forall_forall. intros kv Hkv.
  apply elem_of_concat_map in Hkv as (c0 & Hc0 & Hkv).
  apply elem_of_take in Hc0 as (j & Hj & Hjl).
  pose proof (sorted_contents_bounds _ _ _ _ (Hcs j c0 Hj)) as Hbd.
  rewrite Forall_forall in Hbd. destruct (Hbd kv Hkv) as [_ Hup].
  destruct (lookup_lt_is_Some_2 ks j ltac:(lia)) as [kj Hkj].
  unfold upper in Hup. rewrite Hkj in Hup. simpl in Hup.
  pose proof (lpos_take ks key) as Ht. rewrite Forall_forall in Ht.
  assert (¬ (key < kj)%Z); [|lia]. apply Ht.
  apply (list_elem_of_lookup_2 _ j). by rewrite lookup_take_lt.
Qed.

(** [findLeafForKey] returns a leaf of the tree, and every record of the
    leaves left of it has a smaller key. *)
Lemma findLeafForKey_refines (h : nat) :
  ∀ (fuel : nat) (nodes : list Node) (t : tree) (nxt : option nat) (lo hi : option Z)
    (key : Z),
  repr h nodes t nxt → sorted h lo hi t → h < fuel →
  ∃ L1 l L2,
    findLeafForKey fuel nodes (Some (tidx t)) key = Some (Some l.1)
    ∧ leaves t = L1 ++ l :: L2
    ∧ Forall (λ kv, kv.1 < key)%Z (flat L1).
Proof.
  induction h as [|h IH];
    intros fuel nodes [idx kvs|idx ks cs] nxt lo hi key Hrepr Hsorted Hfuel; try done.
  - destruct fuel as [|fuel]; [lia|]. destruct Hrepr as (leaf & Hl & Hrep).
    exists [], (idx, kvs), []. cbn [findLeafForKey tidx leaves]. rewrite Hl.
    split; [done|]. split; [done|]. constructor.
  - destruct fuel as [|fuel]; [lia|].
    pose proof (repr_shape _ _ _ _ Hrepr) as [_ Hshape].
    destruct Hrepr as [(n & Hn & Hrep) Hcs].
    pose proof (internal_rep_length _ _ _ Hrep) as [Hmax Hcl]. rewrite length_fmap in Hcl.
    pose proof Hrep as (HnN & Hk & Hc & Hlk & Hlc).
    pose proof (lpos_le ks key) as Hi.
    destruct (lookup_lt_is_Some_2 cs (lpos ks key) ltac:(lia)) as [c Hci].
    pose proof (slot_before _ _ _ _ _ _ key Hsorted) as Hbefore.
    destruct Hsorted as (Hs & Hb & Hlen & Hcss).
    destruct (IH fuel nodes c _ _ _ key (Hcs _ c Hci) (Hcss _ c Hci) ltac:(lia))
      as (L1 & l & L2 & Hfind & Hleaves & Hlt).
    exists (concat (map leaves (take (lpos ks key) cs)) ++ L1), l,
           (L2 ++ concat (map leaves (drop (S (lpos ks key)) cs))).
    cbn [findLeafForKey tidx leaves]. rewrite Hn. cbn [mbind option_bind].
    rewrite child_slot_spec by lia. rewrite drop_0, HnN, Hk. rewrite Nat.add_0_l.
    assert (int_childIndices n !!! lpos ks key = Some (tidx c)) as ->.
    { apply list_lookup_total_correct.
      rewrite <- (lookup_take_lt _ (length ks + 1)) by lia.
      by rewrite Hc, !list_lookup_fmap, Hci. }
    split; [done|]. split.
    + rewrite <- (take_drop_middle _ _ _ Hci) at 1.
      rewrite map_app, concat_app. simpl. rewrite Hleaves.
      by rewrite <- !app_assoc.
    + rewrite flat_app. apply Forall_app. split; [|done].
      rewrite (flat_leaves_children h).
      * done.
      * intros t. apply contents_leaves.
      * intros c' Hc'. apply Hshape. by eapply subseteq_take.
Qed.

Lemma filter_none {A} (P : A → Prop) `{∀ x, Decision (P x)} (l : list A) :
  Forall (λ x, ¬ P x) l → filter P l = [].
Proof.
  induction 1 as [|x l Hx Hl IH]; [done|]. by rewrite filter_cons_False.
Qed.

(** The loop over one leaf reports the records of the leaf that lie in
    the range, in order, up to the limit; it ends the query only at a key
    beyond [high]. *)
Lemma range_leaf_spec (leaf : LeafNode) (kvs : list (Z * string)) (nxt : option nat)
    (low high : Z) (max_results : nat) :
  leaf_rep leaf kvs nxt → keys_sorted kvs.*1 →
  ∀ cnt i out, i + cnt = length kvs →
  (range_leaf leaf low high max_results i cnt out).1
  = out ++ take (max_results - length out) (filter (in_range low high) (drop i kvs))
  ∧ ((range_leaf leaf low high max_results i cnt out).2 = true →
     ∃ kv, kv ∈ kvs ∧ (high < kv.1)%Z).
Proof.
  intros Hrep Hsorted. induction cnt as [|cnt IH]; intros i out Hlen.
  - rewrite drop_ge by lia. simpl. by rewrite filter_nil, take_nil, app_nil_r.
  - destruct (lookup_lt_is_Some_2 kvs i ltac:(lia)) as [[k v] Hkv].
    assert (leaf_keys leaf !!! i = k) as Hk.
    { rewrite (leaf_rep_key _ _ _ _ Hrep) by lia.
      apply list_lookup_total_correct. by rewrite list_lookup_fmap, Hkv. }
    assert (leaf_values leaf !!! i = v) as Hv.
    { rewrite (leaf_rep_value _ _ _ _ Hrep) by lia.
      apply list_lookup_total_correct. by rewrite list_lookup_fmap, Hkv. }
    cbn [range_leaf]. rewrite Hk, Hv.
    rewrite (drop_S _ _ _ Hkv).
    case_decide as Hout.
    + case_decide as Hlow; [|case_decide as Hhigh].
      * rewrite filter_cons_False by (unfold in_range; simpl; lia).
        apply IH. lia.
      * cbn [fst snd]. split; [|intros _; exists (k, v); split;
                                  [by eapply list_elem_of_lookup_2|simpl; lia]].
        rewrite filter_none; [by rewrite take_nil, app_nil_r|].
        apply Forall_forall. intros [k' v'] Hin. unfold in_range. simpl.
        assert (k ≤ k')%Z; [|lia].
        apply elem_of_cons in Hin as [[= -> ->]|Hin]; [lia|].
        apply list_elem_of_lookup in Hin as [j Hj]. rewrite lookup_drop in Hj.
        assert (k < k')%Z; [|lia].
        apply (keys_sorted_lookup kvs.*1 i (S i + j) k k' Hsorted); [| |lia].
        -- by rewrite list_lookup_fmap, Hkv.
        -- by rewrite list_lookup_fmap, Hj.
      * rewrite filter_cons_True by (unfold in_range; simpl; lia).
        destruct (IH (S i) (out ++ [(k, v)]) ltac:(lia)) as [-> Hfin].
        split; [|done]. rewrite length_app. simpl.
        replace (max_results - length out) with (S (max_results - (length out + 1))) by lia.
        simpl. by rewrite <- app_assoc.
    + cbn [fst snd]. split; [|done].
      replace (max_results - length out) with 0 by lia. simpl. by rewrite app_nil_r.
Qed.

(** The walk along the [nextLeaf] links reports the records in range of
    the leaves it starts from, in order, up to the limit. *)
Lemma range_walk_spec (nodes : list Node) (low high : Z) (max_results : nat) :
  ∀ ls fuel out,
  leaf_chain nodes ls None → keys_sorted (flat ls).*1 → length ls < fuel →
  range_walk fuel nodes (chain_head ls None) low high max_results out
  = Some (out ++ take (max_results - length out) (filter (in_range low high) (flat ls))).
Proof.
  induction ls as [|[idx kvs] ls IH]; intros fuel out Hchain Hsorted Hfuel.
  - destruct fuel as [|fuel]; [simpl in Hfuel; lia|]. simpl.
    unfold flat; simpl; by rewrite filter_nil, take_nil, app_nil_r.
  - destruct fuel as [|fuel]; [simpl in Hfuel; lia|].
    destruct Hchain as [(leaf & Hl & Hrep) Hchain]. simpl in Hl, Hrep.
    change (flat ((idx, kvs) :: ls)) with (kvs ++ flat ls) in *.
    rewrite fmap_app in Hsorted.
    apply StronglySorted_app in Hsorted as (Hcross & Hs1 & Hs2).
    cbn [range_walk chain_head fst].
    case_decide as Hout.
    + rewrite Hl. cbn [mbind option_bind].
      pose proof Hrep as (Hn & _ & _ & _ & _ & Hnext).
      destruct (range_leaf_spec leaf kvs _ low high max_results Hrep Hs1
                  (length kvs) 0 out eq_refl) as [Hres Hfin].
      rewrite Hn. rewrite drop_0 in Hres.
      destruct (range_leaf leaf low high max_results 0 (length kvs) out)
        as [out1 fin] eqn:Hrun.
      simpl in Hres, Hfin. subst out1. rewrite filter_app, take_app.
      destruct fin.
      * destruct (Hfin eq_refl) as ([k v] & Hin & Hhigh). simpl in Hhigh.
        rewrite (filter_none _ (flat ls)); [by rewrite take_nil, app_nil_r|].
        apply Forall_forall. intros [k' v'] Hin'. unfold in_range. simpl.
        assert (k < k')%Z; [|lia].
        apply Hcross; apply list_elem_of_fmap.
        -- by exists (k, v).
        -- by exists (k', v').
      * rewrite Hnext. rewrite IH by (simpl in Hfuel; done || lia).
        rewrite <- app_assoc. do 3 f_equal.
        rewrite length_app, length_take. f_equal. lia.
    + replace (max_results - length out) with 0 by lia. simpl. by rewrite app_nil_r.
Qed.

(** [rangeQuery] on a tree with strictly increasing records. *)
Lemma rangeQuery_refines (T : BPlusTree) (h : nat) (t : tree) (low high : Z)
    (max_results : nat) :
  tree_inv T h t → keys_sorted (contents t).*1 →
  rangeQuery T low high max_results
  = Some (take max_results (filter (in_range low high) (contents t))).
Proof.
  intros Hinv Hsorted. pose proof (tree_inv_fuel _ _ _ Hinv) as Hfuel.
  destruct Hinv as (Hroot & Hrepr & Hord & Hperm).
  unfold rangeQuery. rewrite Hroot. case_decide as Hlh.
  - rewrite filter_none; [by rewrite take_nil|].
    apply Forall_forall. intros kv _. unfold in_range. lia.
  - destruct (findLeafForKey_refines h _ _ _ _ _ _ low Hrepr Hord Hfuel)
      as (L1 & l & L2 & -> & Hleaves & Hlt).
    cbn [mbind option_bind].
    pose proof (repr_shape _ _ _ _ Hrepr) as Hshape.
    pose proof (repr_chain _ _ _ _ Hrepr) as Hchain.
    pose proof (leaves_length _ _ Hshape) as Hlen.
    rewrite Hperm, length_seq, Hleaves, length_app in Hlen. simpl in Hlen.
    rewrite (contents_leaves _ _ Hshape), Hleaves, flat_app in Hsorted |- *.
    rewrite Hleaves in Hchain. apply leaf_chain_app_r in Hchain.
    rewrite fmap_app in Hsorted.
    apply StronglySorted_app in Hsorted as (_ & _ & Hs2).
    change (Some l.1) with (chain_head (l :: L2) None).
    rewrite (range_walk_spec _ _ _ _ (l :: L2)); [| done | done |].
    + simpl. rewrite Nat.sub_0_r, filter_app.
      rewrite (filter_none _ (flat L1)); [done|].
      eapply Forall_impl; [exact Hlt|]. intros kv Hkv. unfold in_range. simpl in Hkv. lia.
    + unfold fuel_of. simpl. lia.
Qed.

Lemma put_records_sorted (ops kvs : list (Z * string)) :
  keys_sorted kvs.*1 → keys_sorted (put_records kvs ops).*1.
Proof.
  revert kvs. induction ops as [|[k v] ops IH]; intros kvs Hs; [done|].
  apply IH. by apply kv_insert_sorted.
Qed.

Lemma elem_assoc (key : Z) (v : string) (kvs : list (Z * string)) :
  keys_sorted kvs.*1 → (key, v) ∈ kvs → assoc key kvs = Some v.
Proof.
  induction kvs as [|[k v'] kvs IH]; simpl; [by intros _ ?%elem_of_nil|].
  intros Hs Hin. apply StronglySorted_inv in Hs as [Hs Hall].
  apply elem_of_cons in Hin as [[= -> ->]|Hin]; [by rewrite decide_True|].
  rewrite decide_False; [by apply IH|]. intros ->.
  rewrite Forall_forall in Hall.
  assert (key < key)%Z; [|lia]. apply Hall, list_elem_of_fmap. by exists (key, v).
Qed.

(** C6 (range completeness).  For every tree built by a sequence of puts
    and every [low], [high] and [max_results], [rangeQuery] returns the
    pairs stored in the tree whose key lies in [[low, high]], in strictly
    increasing key order, cut after the first [max_results] of them.  The
    stored pairs are those [get] finds; an inverted range has no pair and
    the query returns the empty list. *)
Theorem range_query_complete (ops : list (Z * string)) (low high : Z) (max_results : nat) :
  ∃ T stored,
    put_all BPlusTree_new ops = Some T
    ∧ keys_sorted stored.*1
    ∧ (∀ k v, (k, v) ∈ stored ↔ get T k = Some (Some v))
    ∧ rangeQuery T low high max_results
      = Some (take max_results (filter (in_range low high) stored)).
Proof.
  destruct (put_all_refines ops _ _ _ tree_inv_new) as (T & h & t & Hall & Hinv & Hcont).
  simpl in Hcont.
  assert (keys_sorted (put_records [] ops).*1) as Hsorted.
  { apply put_records_sorted. constructor. }
  exists T, (put_records [] ops). split; [done|]. split; [done|]. split.
  - intros k v. rewrite (get_refines _ _ _ _ Hinv), Hcont. split.
    + intros Hin. f_equal. by apply elem_assoc.
    + intros [= Ha]. by apply assoc_Some_elem.
  - rewrite <- Hcont in Hsorted |- *. by eapply rangeQuery_refines.
Qed.

(** ** Overwriting a stored key *)

(** [put] of a key the tree holds splits no node and allocates none. *)
Lemma t_insert_present (h : nat) :
  ∀ (next : nat) (t : tree) (lo hi : option Z) (key : Z) (val : string),
  sorted h lo hi t → is_Some (assoc key (contents t)) →
  (t_insert h next t key val).1.2 = None ∧ (t_insert h next t key val).2 = next.
Proof.
  induction h as [|h IH]; intros next [idx kvs|idx ks cs] lo hi key val Hsorted Hin;
    try done.
  - cbn [t_insert contents] in *. unfold leaf_insert.
    rewrite assoc_index_of in Hin.
    destruct (index_of kvs.*1 key) as [i|]; [done|]. by destruct Hin.
  - pose proof (lpos_le ks key) as Hi.
    pose proof Hsorted as (Hs & Hb & Hlen & Hcs).
    destruct (lookup_lt_is_Some_2 cs (lpos ks key) ltac:(lia)) as [c Hc].
    destruct (contents_slot _ _ _ _ _ _ _ _ Hsorted Hc) as (A & B & HA & _ & _ & HAlt & HBgt).
    cbn [contents] in Hin. rewrite HA in Hin.
    rewrite assoc_app_l, assoc_app_r in Hin.
    + cbn [t_insert]. rewrite Hc.
      destruct (IH next c _ _ key val (Hcs _ c Hc) Hin) as [Hsp Hnext].
      destruct (t_insert h next c key val) as [[c' sp] next']. cbn [fst snd] in *.
      by subst sp next'.
    + intros Hk. apply list_elem_of_fmap in Hk as (kv & -> & Hkv).
      rewrite Forall_forall in HBgt. specialize (HBgt kv Hkv). lia.
    + intros Hk. apply list_elem_of_fmap in Hk as (kv & -> & Hkv).
      rewrite Forall_forall in HAlt. specialize (HAlt kv Hkv). lia.
Qed.

Lemma put_present (T : BPlusTree) (h : nat) (t : tree) (key : Z) (val : string) :
  tree_inv T h t → is_Some (assoc key (contents t)) →
  ∃ T' t',
    put T key val = Some T'
    ∧ length (nodes_ T') = length (nodes_ T)
    ∧ tree_inv T' h t'
    ∧ contents t' = kv_insert key val (contents t).
Proof.
  intros Hinv Hin.
  destruct (put_refines T h t key val Hinv) as (T' & Hput & Hinv' & Hcont).
  pose proof Hinv as (_ & Hrepr & Hsorted & Hperm).
  pose proof (t_insert_facts h (length (nodes_ T)) t key val (repr_shape _ _ _ _ Hrepr))
    as (_ & _ & _ & _ & Hidx & _).
  destruct (t_insert_present h (length (nodes_ T)) t None None key val Hsorted Hin)
    as [Hsp Hnext].
  unfold t_put in *.
  destruct (t_insert h (length (nodes_ T)) t key val) as [[t' sp] next'].
  cbn [fst snd] in *. subst sp next'. cbn [fst snd] in *.
  exists T', t'. split; [done|]. split; [|done].
  destruct Hinv' as (_ & _ & _ & Hperm').
  unfold out_idxs in Hidx. cbn [fst snd] in Hidx.
  rewrite Nat.sub_diag, !app_nil_r in Hidx.
  apply Permutation_length in Hperm, Hperm', Hidx. rewrite length_seq in *. lia.
Qed.

Lemma assoc_put_records_Some (key : Z) (ops kvs : list (Z * string)) :
  is_Some (assoc key kvs) → is_Some (assoc key (put_records kvs ops)).
Proof.
  revert kvs. induction ops as [|[k v] ops IH]; intros kvs Hin; [done|].
  simpl. apply IH. destruct (decide (k = key)) as [->|Hne].
  - by rewrite assoc_kv_insert_eq.
  - by rewrite assoc_kv_insert_ne.
Qed.

(** Last-writer-wins for the B+ tree: after any puts, [put(k, v1)] and
    any further puts, [put(k, v2)] overwrites in place (the arena keeps
    its size), and after puts to other keys [get(k)] returns [v2]. *)
Lemma btree_overwrite_wins (ops1 ops2 ops3 : list (Z * string)) (k : Z) (v1 v2 : string) :
  k ∉ ops3.*1 →
  ∃ T1 T2 T3,
    put_all BPlusTree_new (ops1 ++ (k, v1) :: ops2) = Some T1
    ∧ put T1 k v2 = Some T2
    ∧ length (nodes_ T2) = length (nodes_ T1)
    ∧ put_all T2 ops3 = Some T3
    ∧ get T3 k = Some (Some v2).
Proof.
  intros Hnin.
  destruct (put_all_refines (ops1 ++ (k, v1) :: ops2) _ _ _ tree_inv_new)
    as (T1 & h1 & t1 & Hall1 & Hinv1 & Hcont1).
  assert (is_Some (assoc k (contents t1))) as Hin.
  { rewrite Hcont1, put_records_app.
    apply (assoc_put_records_Some k ops2 (kv_insert k v1 (put_records [] ops1))).
    by rewrite assoc_kv_insert_eq. }
  destruct (put_present T1 h1 t1 k v2 Hinv1 Hin) as (T2 & t2 & Hput & Hlen & Hinv2 & Hcont2).
  destruct (put_all_refines ops3 _ _ _ Hinv2) as (T3 & h3 & t3 & Hall3 & Hinv3 & Hcont3).
  exists T1, T2, T3. repeat (split; [done|]).
  rewrite (get_refines _ _ _ _ Hinv3), Hcont3, Hcont2. f_equal.
  rewrite assoc_put_records_other by done. apply assoc_kv_insert_eq.
Qed.

(** ** The tree as a finite map *)

(** The finite map a sequence of puts describes. *)
Definition model_of (ops : list (Z * string)) : gmap Z string :=
  foldl (λ m op, <[op.1 := op.2]> m) ∅ ops.

Lemma assoc_put_records_map (ops kvs : list (Z * string)) (m : gmap Z string) (k : Z) :
  (∀ k', assoc k' kvs = m !! k') →
  assoc k (put_records kvs ops) = foldl (λ m op, <[op.1 := op.2]> m) m ops !! k.
Proof.
  revert kvs m. induction ops as [|[k0 v0] ops IH]; intros kvs m Heq; [by apply Heq|].
  simpl. apply IH. intros k'. destruct (decide (k0 = k')) as [->|Hne].
  - by rewrite assoc_kv_insert_eq, lookup_insert_eq.
  - by rewrite assoc_kv_insert_ne, lookup_insert_ne.
Qed.

(** After any sequence of puts on the empty tree, [get] answers like the
    finite map built by the same insertions: the value of the last put of
    the key, and not-found for a key that was never put. *)
Theorem get_agrees_with_map (ops : list (Z * string)) :
  ∃ T, put_all BPlusTree_new ops = Some T ∧ ∀ k, get T k = Some (model_of ops !! k).
Proof.
  destruct (put_all_refines ops _ _ _ tree_inv_new) as (T & h & t & Hall & Hinv & Hcont).
  exists T. split; [done|]. intros k.
  rewrite (get_refines _ _ _ _ Hinv), Hcont. f_equal.
  apply assoc_put_records_map. intros k'. by rewrite lookup_empty.
Qed.

(** ** Point queries through [rangeQuery] *)

Lemma filter_point (kvs : list (Z * string)) (k : Z) :
  keys_sorted kvs.*1 →
  filter (in_range k k) kvs = match assoc k kvs with Some v => [(k, v)] | None => [] end.
Proof.
  induction kvs as [|[k0 v0] kvs IH]; [done|]. simpl. intros Hs.
  apply StronglySorted_inv in Hs as [Hs Hall]. rewrite Forall_forall in Hall.
  case_decide as Hk.
  - subst k0. rewrite filter_cons_True by (unfold in_range; simpl; lia).
    f_equal. apply filter_none, Forall_forall. intros [k' v'] Hin.
    unfold in_range. simpl.
    assert (k < k')%Z; [|lia]. apply Hall, list_elem_of_fmap. by exists (k', v').
  - rewrite filter_cons_False by (unfold in_range; simpl; lia). by apply IH.
Qed.

(** A range query for the single key [k] returns the record [get] finds
    for [k], or nothing when [get] finds none (cut to [max_results]). *)
Theorem range_query_point (ops : list (Z * string)) (k : Z) (max_results : nat) :
  ∃ T found,
    put_all BPlusTree_new ops = Some T
    ∧ get T k = Some found
    ∧ rangeQuery T k k max_results
      = Some (take max_results (match found with Some v => [(k, v)] | None => [] end)).
Proof.
  destruct (put_all_refines ops _ _ _ tree_inv_new) as (T & h & t & Hall & Hinv & Hcont).
  simpl in Hcont.
  assert (keys_sorted (contents t).*1) as Hsorted.
  { rewrite Hcont. apply put_records_sorted. constructor. }
  exists T, (assoc k (contents t)). split; [done|].
  split; [by apply (get_refines _ h)|].
  rewrite (rangeQuery_refines T h t k k max_results Hinv Hsorted).
  by rewrite filter_point.
Qed.

(** ** [insertLeaf] without a split *)

Lemma records_keys (leaf : LeafNode) :
  length (leaf_keys leaf) = MAX_KEYS_LEAF → length (leaf_values leaf) = MAX_KEYS_LEAF →
  leaf_numKeys leaf ≤ MAX_KEYS_LEAF →
  (records leaf).*1 = take (leaf_numKeys leaf) (leaf_keys leaf)
  ∧ length (records leaf) = leaf_numKeys leaf.
Proof.
  intros Hk Hv Hn. unfold records. split.
  - apply fst_zip. rewrite !length_take. lia.
  - rewrite length_zip_with, !length_take. lia.
Qed.

(** [insertLeaf] on a sorted leaf that holds the key or has room: the
    leaf is rewritten in place with the record inserted in key order (or
    its value replaced), nothing is allocated, no other node changes and
    no split is reported. *)
Theorem insert_leaf_in_place (T : BPlusTree) (leafOffset : nat) (leaf : LeafNode)
    (key : Z) (val : string) :
  nodes_ T !! leafOffset = Some (Leaf leaf) →
  length (leaf_keys leaf) = MAX_KEYS_LEAF → length (leaf_values leaf) = MAX_KEYS_LEAF →
  leaf_numKeys leaf ≤ MAX_KEYS_LEAF →
  keys_sorted (take (leaf_numKeys leaf) (leaf_keys leaf)) →
  key ∈ take (leaf_numKeys leaf) (leaf_keys leaf) ∨ leaf_numKeys leaf < MAX_KEYS_LEAF →
  let T' := (insertLeaf T leafOffset leaf key val).1 in
  let res := (insertLeaf T leafOffset leaf key val).2 in
  splitted res = false
  ∧ length (nodes_ T') = length (nodes_ T)
  ∧ (∀ j, j ≠ leafOffset → nodes_ T' !! j = nodes_ T !! j)
  ∧ ∃ leaf',
      nodes_ T' !! leafOffset = Some (Leaf leaf')
      ∧ records leaf' = kv_insert key val (records leaf)
      ∧ keys_sorted (records leaf').*1
      ∧ assoc key (records leaf') = Some val
      ∧ leaf_nextLeaf leaf' = leaf_nextLeaf leaf.
Proof.
  intros Hl Hlk Hlv Hn Hs Hcase T' res.
  destruct T as [root nodes]. cbn [nodes_] in *.
  pose proof (leaf_rep_records leaf Hlk Hlv Hn) as Hrep.
  destruct (records_keys leaf Hlk Hlv Hn) as [Hkeys Hlen].
  set (kvs := records leaf) in *. rewrite <- Hkeys in Hs, Hcase.
  destruct (insertLeaf_refines nodes root leafOffset leaf kvs _ key val Hl Hrep)
    as (nodes' & Hrun & Hlen' & Hframe & Hpost).
  subst T' res. rewrite Hrun. cbn [fst snd nodes_].
  assert (∃ kvs',
            leaf_insert (length nodes) leafOffset kvs key val
            = (TLeaf leafOffset kvs', None, length nodes)
            ∧ kvs' = kv_insert key val kvs) as (kvs' & Hins & Hkvs').
  { unfold leaf_insert. destruct (index_of kvs.*1 key) as [i|] eqn:Hi.
    - eexists. split; [done|]. by apply leaf_overwrite_sorted.
    - destruct Hcase as [Hin|Hroom]; [by apply index_of_None in Hi|].
      rewrite decide_True by lia. eexists. split; [done|].
      by destruct (leaf_room_sorted kvs key val Hs Hi). }
  rewrite Hins in *. cbn [fst snd result_of repr] in *.
  destruct Hpost as (leaf' & Hl' & Hrep').
  split; [done|]. split; [done|]. split.
  { intros j Hj. destruct (decide (j < length nodes)) as [Hlt|Hge]; [by apply Hframe|].
    rewrite !lookup_ge_None_2 by lia. done. }
  exists leaf'. split; [done|].
  pose proof (leaf_rep_is_records _ _ _ Hrep') as Hr. rewrite Hr, Hkvs'.
  split; [done|]. split; [by apply kv_insert_sorted|].
  split; [apply assoc_kv_insert_eq|]. by destruct Hrep' as (_ & _ & _ & _ & _ & ?).
Qed.

(** ** The split of an internal node *)

(** [splitInternal] on a full internal node whose child at [childIndex]
    has split: with the promoted key and the new child inserted at their
    slots there are 121 keys and 122 children; the node keeps keys
    [0..60) and children [0..61), a node allocated at the end of the arena
    takes keys [61..121) and children [61..122), and key 60 is handed to
    the parent and kept in neither node. *)
Theorem internal_split_postcondition (T : BPlusTree) (nodeOffset : nat)
    (node : InternalNode) (childIndex : nat) (pk : Z) (rc : nat) (cidx : list nat) :
  nodeOffset < length (nodes_ T) →
  int_numKeys node = MAX_KEYS_INTERNAL →
  length (int_keys node) = MAX_KEYS_INTERNAL →
  int_childIndices node = Some <$> cidx → length cidx = MAX_KEYS_INTERNAL + 1 →
  childIndex ≤ MAX_KEYS_INTERNAL →
  let keys := vector_insert (int_keys node) childIndex pk in
  let children := vector_insert cidx (childIndex + 1) rc in
  let T' := (splitInternal T nodeOffset node childIndex (mkInsertResult true rc pk)).1 in
  let res := (splitInternal T nodeOffset node childIndex (mkInsertResult true rc pk)).2 in
  length keys = 121 ∧ length children = 122
  ∧ ∃ left right,
      nodes_ T' !! nodeOffset = Some (Internal left)
      ∧ nodes_ T' !! length (nodes_ T) = Some (Internal right)
      ∧ length (nodes_ T') = S (length (nodes_ T))
      ∧ int_numKeys left = 60
      ∧ take 60 (int_keys left) = take 60 keys
      ∧ take 61 (int_childIndices left) = Some <$> take 61 children
      ∧ int_numKeys right = 60
      ∧ take 60 (int_keys right) = drop 61 keys
      ∧ take 61 (int_childIndices right) = Some <$> drop 61 children
      ∧ res = mkInsertResult true (length (nodes_ T)) (keys !!! 60).
Proof.
  intros Hoff Hn Hlk Hc Hlc Hi keys children T' res.
  destruct T as [root nodes]. cbn [nodes_] in *.
  assert (internal_rep node (int_keys node) cidx) as Hrep.
  { unfold internal_rep. rewrite Hlk, Hc, length_fmap, Hlc.
    split; [done|]. split; [by rewrite take_ge by lia|].
    split; [by rewrite take_ge by (rewrite length_fmap; lia)|]. done. }
  destruct (splitInternal_spec nodes root nodeOffset node (int_keys node) cidx childIndex
              pk rc Hoff Hrep ltac:(lia) ltac:(lia)) as (nl & nr & Hrun & Hl & Hr).
  fold keys children in Hrun, Hl, Hr.
  assert (length keys = 121) as Hkeys.
  { subst keys. rewrite vector_insert_length by lia. by rewrite Hlk. }
  assert (length children = 122) as Hchildren.
  { subst children. rewrite vector_insert_length by lia. by rewrite Hlc. }
  rewrite Hkeys in Hrun, Hl, Hr. change (121 / 2) with 60 in *. change (60 + 1) with 61 in *.
  subst T' res. rewrite Hrun. cbn [fst snd nodes_].
  split; [done|]. split; [done|]. exists nl, nr.
  destruct Hl as (Hnl & Hkl & Hcl & _). destruct Hr as (Hnr & Hkr & Hcr & _).
  rewrite length_take, Hkeys in Hnl, Hkl, Hcl.
  rewrite length_drop, Hkeys in Hnr, Hkr, Hcr.
  change (60 `min` 121) with 60 in *. change (121 - 61) with 60 in *.
  change (60 + 1) with 61 in *.
  split.
  { rewrite list_lookup_insert_ne by lia. rewrite lookup_app_l by (rewrite length_insert; lia).
    by apply list_lookup_insert_eq. }
  split.
  { apply list_lookup_insert_eq. rewrite length_app, length_insert. simpl. lia. }
  split.
  { rewrite length_insert, length_app, length_insert. simpl. lia. }
  done.
Qed.

(** ** Stats helpers *)

(** The helpers count in [int]; an addition that leaves the range of
    [int] is undefined in the source and [None] here. *)
Definition INT_MAX : Z := (2 ^ 31 - 1)%Z.

Definition int_add (a b : Z) : option Z :=
  if decide (a + b ≤ INT_MAX)%Z then Some (a + b)%Z else None.

(** The children a [for (i = 0; i <= numKeys; i++)] loop visits; the
    vector has [MAX_KEYS_INTERNAL + 1] slots, an index beyond it is
    undefined. *)
Definition visited_children (internal : InternalNode) : option (list (option nat)) :=
  if decide (int_numKeys internal < length (int_childIndices internal)) then
    Some (take (int_numKeys internal + 1) (int_childIndices internal))
  else None.

(** The four recursive helpers of [print_tree_stats].  [fuel] bounds the
    depth of the recursion; [None] is a run out of fuel, a read outside
    [nodes_] or an [int] overflow. *)
Fixpoint get_tree_depth (fuel : nat) (nodes : list Node) (nodeOffset : option nat) :
    option Z :=
  match fuel with
  | O => None
  | S fuel' =>
      match nodeOffset with
      | None => Some 0%Z
      | Some off =>
          node ← nodes !! off;
          match node with
          | Leaf _ => Some 1%Z
          | Internal internal =>
              children ← visited_children internal;
              maxDepth ←
                foldl (λ maxDepth child,
                         maxDepth ← maxDepth;
                         depth ← get_tree_depth fuel' nodes child;
                         Some (if decide (depth > maxDepth)%Z then depth else maxDepth))
                      (Some 0%Z) children;
              int_add maxDepth 1
          end
      end
  end.

Fixpoint get_total_nodes (fuel : nat) (nodes : list Node) (nodeOffset : option nat) :
    option Z :=
  match fuel with
  | O => None
  | S fuel' =>
      match nodeOffset with
      | None => Some 0%Z
      | Some off =>
          node ← nodes !! off;
          match node with
          | Leaf _ => Some 1%Z
          | Internal internal =>
              children ← visited_children internal;
              foldl (λ total child,
                       total ← total;
                       sub ← get_total_nodes fuel' nodes child;
                       int_add total sub)
                    (Some 1%Z) children
          end
      end
  end.

Fixpoint get_total_internal_nodes (fuel : nat) (nodes : list Node)
    (nodeOffset : option nat) : option Z :=
  match fuel with
  | O => None
  | S fuel' =>
      match nodeOffset with
      | None => Some 0%Z
      | Some off =>
          node ← nodes !! off;
          match node with
          | Leaf _ => Some 0%Z
          | Internal internal =>
              children ← visited_children internal;
              foldl (λ total child,
                       total ← total;
                       sub ← get_total_internal_nodes fuel' nodes child;
                       int_add total sub)
                    (Some 1%Z) children
          end
      end
  end.

Fixpoint get_total_leaf_nodes (fuel : nat) (nodes : list Node) (nodeOffset : option nat) :
    option Z :=
  match fuel with
  | O => None
  | S fuel' =>
      match nodeOffset with
      | None => Some 0%Z
      | Some off =>
          node ← nodes !! off;
          match node with
          | Leaf _ => Some 1%Z
          | Internal internal =>
              children ← visited_children internal;
              foldl (λ total child,
                       total ← total;
                       sub ← get_total_leaf_nodes fuel' nodes child;
                       int_add total sub)
                    (Some 0%Z) children
          end
      end
  end.

(** Numbers of nodes of a tree. *)
Fixpoint internals (h : nat) (t : tree) : nat :=
  match h, t with
  | S h', TNode _ _ cs => S (sum_list (internals h' <$> cs))
  | _, _ => 0
  end.

Lemma visited_children_repr (n : InternalNode) (ks : list Z) (cs : list tree) :
  internal_rep n ks (tidx <$> cs) →
  visited_children n = Some (Some <$> (tidx <$> cs)) ∧ length cs = length ks + 1.
Proof.
  intros Hrep. destruct (internal_rep_length _ _ _ Hrep) as [Hmax Hcl].
  rewrite length_fmap in Hcl.
  destruct Hrep as (Hn & _ & Hc & _ & Hlc). unfold visited_children.
  rewrite decide_True by (rewrite Hlc, Hn; unfold MAX_KEYS_INTERNAL in *; lia).
  by rewrite Hn, Hc.
Qed.

Lemma sum_list_cons (x : nat) (l : list nat) : sum_list (x :: l) = x + sum_list l.
Proof. done. Qed.

(** A summing loop over children whose counts are known. *)
Lemma sum_loop (f : option nat → option Z) (g : tree → nat) (cs : list tree) (acc : Z) :
  (∀ c, c ∈ cs → f (Some (tidx c)) = Some (Z.of_nat (g c))) →
  (0 ≤ acc)%Z → (acc + Z.of_nat (sum_list (g <$> cs)) ≤ INT_MAX)%Z →
  foldl (λ total child, total ← total; sub ← f child; int_add total sub)
        (Some acc) (Some <$> (tidx <$> cs))
  = Some (acc + Z.of_nat (sum_list (g <$> cs)))%Z.
Proof.
  revert acc. induction cs as [|c cs IH]; intros acc Hf Hacc Hfit.
  { simpl. f_equal. lia. }
  rewrite fmap_cons, sum_list_cons in Hfit. repeat rewrite fmap_cons.
  rewrite sum_list_cons.
  cbn [foldl]. cbn [mbind option_bind].
  rewrite (Hf c ltac:(by left)). cbn [mbind option_bind]. unfold int_add at 2.
  rewrite decide_True by lia.
  rewrite IH; [f_equal; lia| |lia|lia].
  intros c' Hc'. apply Hf. by right.
Qed.

Lemma sum_list_le {A} (g : A → nat) (cs : list A) (c : A) :
  c ∈ cs → g c ≤ sum_list (g <$> cs).
Proof.
  induction cs as [|c0 cs IH]; [by intros ?%elem_of_nil|].
  rewrite fmap_cons, sum_list_cons.
  intros [->|Hc]%elem_of_cons; [lia|]. specialize (IH Hc). lia.
Qed.

Lemma length_concat_sum {A B} (f : A → list B) (cs : list A) :
  length (concat (map f cs)) = sum_list ((λ c, length (f c)) <$> cs).
Proof.
  induction cs as [|c cs IH]; [done|].
  cbn [fmap list_fmap map concat]. rewrite sum_list_cons, length_app. by rewrite IH.
Qed.

Lemma idxs_split (h : nat) (t : tree) :
  shape h t → length (idxs t) = internals h t + length (leaves t).
Proof.
  revert t. induction h as [|h IH]; intros [idx kvs|idx ks cs]; simpl; try done.
  intros [_ Hcs]. rewrite !length_concat_sum. f_equal.
  induction cs as [|c cs IHcs]; [done|]. rewrite !fmap_cons, !sum_list_cons.
  rewrite (IH c) by (apply Hcs; by left).
  rewrite IHcs by (intros c' Hc'; apply Hcs; by right). lia.
Qed.

Lemma get_total_nodes_repr (h : nat) :
  ∀ fuel nodes t nxt,
  repr h nodes t nxt → h < fuel → (Z.of_nat (length (idxs t)) ≤ INT_MAX)%Z →
  get_total_nodes fuel nodes (Some (tidx t)) = Some (Z.of_nat (length (idxs t))).
Proof.
  induction h as [|h IH]; intros fuel nodes [idx kvs|idx ks cs] nxt Hrepr Hfuel Hfit;
    try done; (destruct fuel as [|fuel]; [lia|]).
  - destruct Hrepr as (leaf & Hl & _). cbn [get_total_nodes tidx]. by rewrite Hl.
  - destruct Hrepr as [(n & Hn & Hrep) Hcs].
    destruct (visited_children_repr n ks cs Hrep) as [Hv _].
    cbn [get_total_nodes tidx idxs length] in *. rewrite Hn. cbn [mbind option_bind].
    rewrite Hv. cbn [mbind option_bind].
    rewrite length_concat_sum in *.
    rewrite (sum_loop _ (λ c, length (idxs c))); [f_equal; lia| |lia|lia].
    intros c [j Hj]%list_elem_of_lookup.
    apply (IH fuel nodes c _ (Hcs j c Hj)); [lia|].
    pose proof (sum_list_le (λ c, length (idxs c)) cs c (list_elem_of_lookup_2 _ _ _ Hj)).
    simpl in *. lia.
Qed.

Lemma get_total_internal_nodes_repr (h : nat) :
  ∀ fuel nodes t nxt,
  repr h nodes t nxt → h < fuel → (Z.of_nat (internals h t) ≤ INT_MAX)%Z →
  get_total_internal_nodes fuel nodes (Some (tidx t)) = Some (Z.of_nat (internals h t)).
Proof.
  induction h as [|h IH]; intros fuel nodes [idx kvs|idx ks cs] nxt Hrepr Hfuel Hfit;
    try done; (destruct fuel as [|fuel]; [lia|]).
  - destruct Hrepr as (leaf & Hl & _). cbn [get_total_internal_nodes tidx]. by rewrite Hl.
  - destruct Hrepr as [(n & Hn & Hrep) Hcs].
    destruct (visited_children_repr n ks cs Hrep) as [Hv _].
    cbn [get_total_internal_nodes tidx internals] in *. rewrite Hn. cbn [mbind option_bind].
    rewrite Hv. cbn [mbind option_bind].
    rewrite (sum_loop _ (internals h)); [f_equal; lia| |lia|lia].
    intros c [j Hj]%list_elem_of_lookup.
    apply (IH fuel nodes c _ (Hcs j c Hj)); [lia|].
    pose proof (sum_list_le (internals h) cs c (list_elem_of_lookup_2 _ _ _ Hj)). lia.
Qed.

Lemma get_total_leaf_nodes_repr (h : nat) :
  ∀ fuel nodes t nxt,
  repr h nodes t nxt → h < fuel → (Z.of_nat (length (leaves t)) ≤ INT_MAX)%Z →
  get_total_leaf_nodes fuel nodes (Some (tidx t)) = Some (Z.of_nat (length (leaves t))).
Proof.
  induction h as [|h IH]; intros fuel nodes [idx kvs|idx ks cs] nxt Hrepr Hfuel Hfit;
    try done; (destruct fuel as [|fuel]; [lia|]).
  - destruct Hrepr as (leaf & Hl & _). cbn [get_total_leaf_nodes tidx]. by rewrite Hl.
  - destruct Hrepr as [(n & Hn & Hrep) Hcs].
    destruct (visited_children_repr n ks cs Hrep) as [Hv _].
    cbn [get_total_leaf_nodes tidx leaves] in *. rewrite Hn. cbn [mbind option_bind].
    rewrite Hv. cbn [mbind option_bind].
    rewrite length_concat_sum in *.
    rewrite (sum_loop _ (λ c, length (leaves c))); [f_equal; lia| |lia|lia].
    intros c [j Hj]%list_elem_of_lookup.
    apply (IH fuel nodes c _ (Hcs j c Hj)); [lia|].
    pose proof (sum_list_le (λ c, length (leaves c)) cs c (list_elem_of_lookup_2 _ _ _ Hj)).
    simpl in *. lia.
Qed.

(** Counted from the root, the nodes of a tree built by puts are all the
    nodes of the arena (no node is orphaned), and they are the internal
    nodes plus the leaves. *)
Theorem total_nodes_is_arena_size (ops : list (Z * string)) (T : BPlusTree) :
  put_all BPlusTree_new ops = Some T →
  (Z.of_nat (length (nodes_ T)) ≤ INT_MAX)%Z →
  ∃ internal leaf,
    get_total_nodes (fuel_of T) (nodes_ T) (rootIndex_ T)
    = Some (Z.of_nat (length (nodes_ T)))
    ∧ get_total_internal_nodes (fuel_of T) (nodes_ T) (rootIndex_ T) = Some internal
    ∧ get_total_leaf_nodes (fuel_of T) (nodes_ T) (rootIndex_ T) = Some leaf
    ∧ (internal + leaf = Z.of_nat (length (nodes_ T)))%Z
    ∧ (1 ≤ leaf)%Z.
Proof.
  intros Hall Hfit.
  destruct (put_all_refines ops _ _ _ tree_inv_new) as (T' & h & t & Hall' & Hinv & _).
  rewrite Hall in Hall'. injection Hall' as <-.
  pose proof (tree_inv_fuel _ _ _ Hinv) as Hfuel.
  destruct Hinv as (Hroot & Hrepr & _ & Hperm).
  pose proof (repr_shape _ _ _ _ Hrepr) as Hshape.
  pose proof (idxs_split h t Hshape) as Hsplit.
  pose proof (Permutation_length Hperm) as Hlen. rewrite length_seq in Hlen.
  assert (1 ≤ length (leaves t)) as Hleaf.
  { destruct (leaves t) eqn:Hl; [|simpl; lia].
    pose proof (leaves_head h t None Hshape) as Hh. by rewrite Hl in Hh. }
  exists (Z.of_nat (internals h t)), (Z.of_nat (length (leaves t))). rewrite Hroot.
  split; [rewrite <- Hlen; apply (get_total_nodes_repr h _ _ _ None); [done..|lia]|].
  split; [apply (get_total_internal_nodes_repr h _ _ _ None); [done..|lia]|].
  split; [apply (get_total_leaf_nodes_repr h _ _ _ None); [done..|lia]|].
  lia.
Qed.

(** ** Balance *)

Lemma depth_loop (f : option nat → option Z) (d : Z) (cs : list tree) (acc : Z) :
  (∀ c, c ∈ cs → f (Some (tidx c)) = Some d) →
  foldl (λ maxDepth child,
           maxDepth ← maxDepth; depth ← f child;
           Some (if decide (depth > maxDepth)%Z then depth else maxDepth))
        (Some acc) (Some <$> (tidx <$> cs))
  = Some (if decide (cs = []) then acc else Z.max acc d).
Proof.
  revert acc. induction cs as [|c cs IH]; intros acc Hf; [done|].
  cbn [fmap list_fmap foldl]. cbn [mbind option_bind].
  rewrite (Hf c ltac:(by left)). cbn [mbind option_bind].
  rewrite IH by (intros c' Hc'; apply Hf; by right).
  rewrite (decide_False (P := c :: cs = [])) by done. f_equal.
  repeat case_decide; lia.
Qed.

Lemma get_tree_depth_repr (h : nat) :
  ∀ fuel nodes t nxt,
  repr h nodes t nxt → h < fuel → (Z.of_nat (S h) ≤ INT_MAX)%Z →
  get_tree_depth fuel nodes (Some (tidx t)) = Some (Z.of_nat (S h)).
Proof.
  induction h as [|h IH]; intros fuel nodes [idx kvs|idx ks cs] nxt Hrepr Hfuel Hfit;
    try done; (destruct fuel as [|fuel]; [lia|]).
  - destruct Hrepr as (leaf & Hl & _). cbn [get_tree_depth tidx]. by rewrite Hl.
  - destruct Hrepr as [(n & Hn & Hrep) Hcs].
    destruct (visited_children_repr n ks cs Hrep) as [Hv Hlen].
    cbn [get_tree_depth tidx]. rewrite Hn. cbn [mbind option_bind].
    rewrite Hv. cbn [mbind option_bind].
    rewrite (depth_loop _ (Z.of_nat (S h))).
    + rewrite decide_False by (intros ->; simpl in Hlen; lia).
      cbn [mbind option_bind]. unfold int_add. rewrite decide_True by lia. f_equal. lia.
    + intros c [j Hj]%list_elem_of_lookup.
      apply (IH fuel nodes c _ (Hcs j c Hj)); lia.
Qed.

(** Every node of the arena is the root of a subtree of the tree. *)
Lemma repr_subtree (h : nat) :
  ∀ nodes t nxt off,
  repr h nodes t nxt → off ∈ idxs t →
  ∃ h' t' nxt', h' ≤ h ∧ repr h' nodes t' nxt' ∧ tidx t' = off.
Proof.
  induction h as [|h IH]; intros nodes [idx kvs|idx ks cs] nxt off Hrepr Hoff; try done.
  - apply list_elem_of_singleton in Hoff as ->. by exists 0, (TLeaf idx kvs), nxt.
  - cbn [idxs] in Hoff. apply elem_of_cons in Hoff as [->|Hoff].
    { by exists (S h), (TNode idx ks cs), nxt. }
    apply elem_of_concat_map in Hoff as (c & [j Hj]%list_elem_of_lookup & Hoff).
    destruct Hrepr as [_ Hcs].
    destruct (IH nodes c _ off (Hcs j c Hj) Hoff) as (h' & t' & nxt' & Hle & Hr & Ht).
    exists h', t', nxt'. split; [lia|done].
Qed.

(** The tree is balanced: in the arena of a tree built by puts, the
    subtrees below one internal node all have the same depth, one less
    than the depth of the node. *)
Theorem children_have_equal_depth (ops : list (Z * string)) (T : BPlusTree)
    (off : nat) (internal : InternalNode) (i : nat) :
  put_all BPlusTree_new ops = Some T →
  (Z.of_nat (length (nodes_ T)) ≤ INT_MAX)%Z →
  nodes_ T !! off = Some (Internal internal) →
  i ≤ int_numKeys internal →
  ∃ d,
    get_tree_depth (fuel_of T) (nodes_ T) (Some off) = Some (d + 1)%Z
    ∧ get_tree_depth (fuel_of T) (nodes_ T) (int_childIndices internal !!! i) = Some d
    ∧ (1 ≤ d)%Z.
Proof.
  intros Hall Hfit Hoff Hi.
  destruct (put_all_refines ops _ _ _ tree_inv_new) as (T' & h & t & Hall' & Hinv & _).
  rewrite Hall in Hall'. injection Hall' as <-.
  pose proof (tree_inv_fuel _ _ _ Hinv) as Hfuel.
  destruct Hinv as (Hroot & Hrepr & _ & Hperm).
  pose proof (height_lt_idxs h t (repr_shape _ _ _ _ Hrepr)) as Hh.
  rewrite Hperm, length_seq in Hh.
  assert (off ∈ idxs t) as Hin.
  { rewrite Hperm. apply elem_of_seq. apply lookup_lt_Some in Hoff. lia. }
  destruct (repr_subtree h _ t None off Hrepr Hin) as (h' & t' & nxt' & Hle & Hr & Ht).
  destruct h' as [|h'], t' as [idx kvs|idx ks cs]; try done.
  { destruct Hr as (leaf & Hl & _). simpl in Ht. subst idx. congruence. }
  simpl in Ht. subst idx.
  exists (Z.of_nat (S h')). split; [|split; [|lia]].
  - replace (Z.of_nat (S h') + 1)%Z with (Z.of_nat (S (S h'))) by lia.
    apply (get_tree_depth_repr (S h') _ _ (TNode off ks cs) nxt' Hr); lia.
  - destruct Hr as [(n & Hn & Hrep) Hcs]. rewrite Hoff in Hn. injection Hn as <-.
    destruct (internal_rep_length _ _ _ Hrep) as [_ Hcl]. rewrite length_fmap in Hcl.
    destruct Hrep as (HnN & _ & Hc & _).
    destruct (lookup_lt_is_Some_2 cs i ltac:(lia)) as [c Hci].
    assert (int_childIndices internal !!! i = Some (tidx c)) as ->.
    { apply list_lookup_total_correct.
      rewrite <- (lookup_take_lt _ (length ks + 1)) by lia.
      by rewrite Hc, !list_lookup_fmap, Hci. }
    apply (get_tree_depth_repr h' _ _ c _ (Hcs i c Hci)); lia.
Qed.

End BTree.

(** A root leaf that holds the keys 10, 20, ..., 300. *)
Definition full_leaf : BTree.LeafNode :=
  BTree.mkLeafNode 30 ((λ i, 10 * i) <$> seqZ 1 30) (replicate 30 "v") None.

Definition full_leaf_tree : BTree.BPlusTree :=
  BTree.mkTree (Some 0%nat) [BTree.Leaf full_leaf].

Lemma leaf_split_postcondition_witness :
  let T := full_leaf_tree in
  let union := BTree.kv_insert 155 "w" (BTree.records full_leaf) in
  let T' := (BTree.insertLeaf T 0 full_leaf 155 "w").1 in
  let res := (BTree.insertLeaf T 0 full_leaf 155 "w").2 in
  BTree.keys_sorted (BTree.leaf_keys full_leaf)
  ∧ (155 ∉ BTree.leaf_keys full_leaf)
  ∧ BTree.keys_sorted union.*1 ∧ union ≡ₚ (155, "w") :: BTree.records full_leaf
  ∧ length union = 31%nat
  ∧ ∃ old new,
      BTree.nodes_ T' !! 0%nat = Some (BTree.Leaf old)
      ∧ BTree.nodes_ T' !! 1%nat = Some (BTree.Leaf new)
      ∧ length (BTree.nodes_ T') = 2%nat
      ∧ BTree.leaf_numKeys old = 15%nat ∧ BTree.records old = take 15 union
      ∧ BTree.leaf_numKeys new = 16%nat ∧ BTree.records new = drop 15 union
      ∧ BTree.leaf_nextLeaf new = None
      ∧ BTree.leaf_nextLeaf old = Some 1%nat
      ∧ res = BTree.mkInsertResult true 1 (BTree.leaf_keys new !!! 0%nat)
      ∧ head (BTree.records new).*1 = Some (BTree.promotedKey res).
Proof.
  intros T union T' res.
  assert (BTree.keys_sorted (BTree.leaf_keys full_leaf)) as Hs.
  { unfold BTree.keys_sorted. vm_compute. repeat constructor. }
  assert (155 ∉ BTree.leaf_keys full_leaf) as Hnin.
  { apply (bool_decide_unpack _). vm_compute. exact I. }
  split; [exact Hs|]. split; [exact Hnin|].
  exact (BTree.leaf_split_postcondition full_leaf_tree 0 full_leaf 155 "w"
           eq_refl eq_refl eq_refl eq_refl Hs Hnin).
Defined.

(** * Last-writer-wins between worker turns

    A single client thread runs [put(k, v1)], later [put(k, v2)], then
    works on other keys.
    - B+ tree: whatever puts come before and between the two, the second
      put overwrites in place (the arena keeps its size, so no node is
      split), and after any puts to other keys [get(k)] returns [v2].
    - LSM tree, read while no worker is inside a turn (for the read
      inside a flush turn see [get_during_flush_returns_older_value]):
      in a run of fewer than [2^32] steps from a freshly built tree that
      has a level 0, whatever steps come before and between the two
      puts, after any steps that do not write [k], [get(k)] returns
      [v2], provided [v2] is not the tombstone sentinel. *)
Theorem last_writer_wins
    (std_hash : Z → Z) (iter : gmap Z string → list (Z * string)) (scale_entries : Z → Z)
    (memtable_max_entries l0_max_sstables num_levels sstable_target_entries : Z)
    (k : Z) (v1 v2 : string)
    (puts1 puts2 puts3 : list (Z * string)) (ops1 ops2 ops3 : list LSM.Op) :
  (∀ m, iter m ≡ₚ map_to_list m) →
  k ∉ puts3.*1 →
  1 ≤ num_levels →
  v2 ≠ LSM.TOMBSTONE_VALUE →
  Forall (λ o, ¬ LSM.writes o k) ops3 →
  Z.of_nat (length (ops1 ++ LSM.Put k v1 :: ops2 ++ LSM.Put k v2 :: ops3)) < 2 ^ 32 →
  (∃ T1 T2 T3,
     BTree.put_all BTree.BPlusTree_new (puts1 ++ (k, v1) :: puts2) = Some T1
     ∧ BTree.put T1 k v2 = Some T2
     ∧ length (BTree.nodes_ T2) = length (BTree.nodes_ T1)
     ∧ BTree.put_all T2 puts3 = Some T3
     ∧ BTree.get T3 k = Some (Some v2))
  ∧ LSM.get std_hash
      (LSM.run std_hash iter scale_entries
         (LSM.LSMTree_new memtable_max_entries l0_max_sstables num_levels
            sstable_target_entries)
         (ops1 ++ LSM.Put k v1 :: ops2 ++ LSM.Put k v2 :: ops3)) k
    = Some v2.
Proof.
  intros Hiter Hputs Hlevels Hv2 Hops Hlen. split.
  - by apply BTree.btree_overwrite_wins.
  - replace (ops1 ++ LSM.Put k v1 :: ops2 ++ LSM.Put k v2 :: ops3)
      with ((ops1 ++ LSM.Put k v1 :: ops2) ++ LSM.Put k v2 :: ops3) in *
      by (by rewrite <- app_assoc).
    by apply LSM.lsm_last_writer_wins.
Qed.

Lemma last_writer_wins_witness :
  (∃ T1 T2 T3,
     BTree.put_all BTree.BPlusTree_new ([] ++ (7, "a") :: [(3, "x")]) = Some T1
     ∧ BTree.put T1 7 "b" = Some T2
     ∧ length (BTree.nodes_ T2) = length (BTree.nodes_ T1)
     ∧ BTree.put_all T2 [(5, "y")] = Some T3
     ∧ BTree.get T3 7 = Some (Some "b"))
  ∧ LSM.get hash_id
      (LSM.run hash_id iter_sorted scale_by_10 (LSM.LSMTree_new 2 4 4 256)
         ([] ++ LSM.Put 7 "a" :: [LSM.Put 3 "x"]
             ++ LSM.Put 7 "b" :: [LSM.FlushTurn; LSM.Put 5 "y"; LSM.CompactionTurn])) 7
    = Some "b".
Proof.
  apply (last_writer_wins hash_id iter_sorted scale_by_10 2 4 4 256 7 "a" "b"
           [] [(3, "x")] [(5, "y")]
           [] [LSM.Put 3 "x"] [LSM.FlushTurn; LSM.Put 5 "y"; LSM.CompactionTurn]).
  - exact iter_sorted_perm.
  - apply (bool_decide_unpack _). vm_compute. exact I.
  - lia.
  - discriminate.
  - repeat constructor; simpl; (lia || tauto).
  - vm_compute. reflexivity.
Defined.

(** A leaf with three of its thirty slots in use. *)
Definition roomy_leaf : BTree.LeafNode :=
  BTree.mkLeafNode 3 ([10; 20; 30] ++ replicate 27 0) (replicate 30 "v") None.

Definition roomy_leaf_tree : BTree.BPlusTree :=
  BTree.mkTree (Some 0%nat) [BTree.Leaf roomy_leaf].

Lemma insert_leaf_in_place_witness :
  let T' := (BTree.insertLeaf roomy_leaf_tree 0 roomy_leaf 25 "w").1 in
  let res := (BTree.insertLeaf roomy_leaf_tree 0 roomy_leaf 25 "w").2 in
  BTree.keys_sorted (take 3 (BTree.leaf_keys roomy_leaf))
  ∧ BTree.splitted res = false
  ∧ length (BTree.nodes_ T') = 1%nat
  ∧ (∀ j, j ≠ 0%nat → BTree.nodes_ T' !! j = BTree.nodes_ roomy_leaf_tree !! j)
  ∧ ∃ leaf',
      BTree.nodes_ T' !! 0%nat = Some (BTree.Leaf leaf')
      ∧ BTree.records leaf' = BTree.kv_insert 25 "w" (BTree.records roomy_leaf)
      ∧ BTree.keys_sorted (BTree.records leaf').*1
      ∧ BTree.assoc 25 (BTree.records leaf') = Some "w"
      ∧ BTree.leaf_nextLeaf leaf' = BTree.leaf_nextLeaf roomy_leaf.
Proof.
  intros T' res.
  assert (BTree.keys_sorted (take 3 (BTree.leaf_keys roomy_leaf))) as Hs.
  { unfold BTree.keys_sorted. vm_compute. repeat constructor. }
  split; [exact Hs|].
  refine (BTree.insert_leaf_in_place roomy_leaf_tree 0 roomy_leaf 25 "w"
            eq_refl eq_refl eq_refl _ Hs _).
  - vm_compute. lia.
  - right. vm_compute. lia.
Defined.

(** A full internal node: keys 10, 20, ..., 1200 over the children
    1, 2, ..., 121. *)
Definition full_internal : BTree.InternalNode :=
  BTree.mkInternalNode 120 ((λ i, 10 * i) <$> seqZ 1 120) (Some <$> seq 1 121).

Definition full_internal_tree : BTree.BPlusTree :=
  BTree.mkTree (Some 0%nat) [BTree.Internal full_internal].

Lemma internal_split_postcondition_witness :
  let keys := BTree.vector_insert (BTree.int_keys full_internal) 3 35 in
  let children := BTree.vector_insert (seq 1 121) 4 200%nat in
  let T' := (BTree.splitInternal full_internal_tree 0 full_internal 3
               (BTree.mkInsertResult true 200 35)).1 in
  let res := (BTree.splitInternal full_internal_tree 0 full_internal 3
                (BTree.mkInsertResult true 200 35)).2 in
  length keys = 121%nat ∧ length children = 122%nat
  ∧ ∃ left right,
      BTree.nodes_ T' !! 0%nat = Some (BTree.Internal left)
      ∧ BTree.nodes_ T' !! 1%nat = Some (BTree.Internal right)
      ∧ length (BTree.nodes_ T') = 2%nat
      ∧ BTree.int_numKeys left = 60%nat
      ∧ take 60 (BTree.int_keys left) = take 60 keys
      ∧ take 61 (BTree.int_childIndices left) = Some <$> take 61 children
      ∧ BTree.int_numKeys right = 60%nat
      ∧ take 60 (BTree.int_keys right) = drop 61 keys
      ∧ take 61 (BTree.int_childIndices right) = Some <$> drop 61 children
      ∧ res = BTree.mkInsertResult true 1 (keys !!! 60%nat).
Proof.
  refine (BTree.internal_split_postcondition full_internal_tree 0 full_internal 3 35 200
            (seq 1 121) _ eq_refl eq_refl eq_refl eq_refl _).
  - vm_compute. lia.
  - vm_compute. lia.
Defined.

(** Three hundred puts, enough for a root with several leaves below it. *)
Definition many_puts : list (Z * string) := (λ i, (i, "v")) <$> seqZ 0 300.

Definition many_puts_tree : BTree.BPlusTree :=
  default BTree.BPlusTree_new (BTree.put_all BTree.BPlusTree_new many_puts).

Lemma total_nodes_is_arena_size_witness :
  ∃ internal leaf,
    BTree.get_total_nodes (BTree.fuel_of many_puts_tree) (BTree.nodes_ many_puts_tree)
      (BTree.rootIndex_ many_puts_tree)
    = Some (Z.of_nat (length (BTree.nodes_ many_puts_tree)))
    ∧ BTree.get_total_internal_nodes (BTree.fuel_of many_puts_tree)
        (BTree.nodes_ many_puts_tree) (BTree.rootIndex_ many_puts_tree) = Some internal
    ∧ BTree.get_total_leaf_nodes (BTree.fuel_of many_puts_tree)
        (BTree.nodes_ many_puts_tree) (BTree.rootIndex_ many_puts_tree) = Some leaf
    ∧ internal + leaf = Z.of_nat (length (BTree.nodes_ many_puts_tree))
    ∧ 1 ≤ leaf.
Proof.
  refine (BTree.total_nodes_is_arena_size many_puts many_puts_tree _ _).
  - vm_compute. reflexivity.
  - vm_compute. discriminate.
Defined.

(** The root of that tree, an internal node at index 2 of the arena. *)
Definition many_puts_root : BTree.InternalNode :=
  match BTree.nodes_ many_puts_tree !! 2%nat with
  | Some (BTree.Internal n) => n
  | _ => BTree.InternalNode_new
  end.

Lemma children_have_equal_depth_witness :
  BTree.nodes_ many_puts_tree !! 2%nat = Some (BTree.Internal many_puts_root)
  ∧ ∃ d,
      BTree.get_tree_depth (BTree.fuel_of many_puts_tree) (BTree.nodes_ many_puts_tree)
        (Some 2%nat) = Some (d + 1)
      ∧ BTree.get_tree_depth (BTree.fuel_of many_puts_tree)
          (BTree.nodes_ many_puts_tree) (BTree.int_childIndices many_puts_root !!! 5%nat)
        = Some d
      ∧ 1 ≤ d.
Proof.
  assert (BTree.nodes_ many_puts_tree !! 2%nat = Some (BTree.Internal many_puts_root))
    as Hroot by (vm_compute; reflexivity).
  split; [exact Hroot|].
  refine (BTree.children_have_equal_depth many_puts many_puts_tree 2 many_puts_root 5
            _ _ Hroot _).
  - vm_compute. reflexivity.
  - vm_compute. discriminate.
  - vm_compute. lia.
Defined.

(** * Sample runs of the LSM tree *)

(** A put, a flush, a delete of another key and a compaction turn. *)
Definition sample_ops : list LSM.Op :=
  [LSM.Put 1 "a"; LSM.FlushTurn; LSM.Del 2; LSM.CompactionTurn].


Lemma reachable_tree_structure_witness :
  let t := LSM.run hash_id iter_sorted scale_by_10 (LSM.LSMTree_new 1 4 4 256)
             sample_ops in
  Z.of_nat (length (LSM.levels_ t)) = 4
  ∧ (∀ j level s, LSM.levels_ t !! j = Some level → s ∈ level →
       (∀ k, is_Some (LSM.data s !! k) →
             LSM.min_key s ≤ k ≤ LSM.max_key s
             ∧ Bloom.Query hash_id (LSM.bloom s) k = true)
       ∧ LSM.id s < LSM.next_sstable_id_ t)
  ∧ StronglySorted (λ a b, LSM.id a < LSM.id b) (LSM.levels_ t !!! 0%nat)
  ∧ (∀ j level, (1 ≤ j)%nat → LSM.levels_ t !! j = Some level →
       StronglySorted (λ a b, LSM.min_key a ≤ LSM.min_key b) level
       ∧ NoDup (LSM.id <$> level)).
Proof.
  apply (LSM.reachable_tree_structure hash_id iter_sorted scale_by_10 iter_sorted_perm
           1 4 4 256 sample_ops).
  - lia.
  - simpl. lia.
Defined.

(** Level 0 with [(7,"x")] and [(8,"y")] flushed one after the other, in
    a tree that allows one SSTable in level 0 and two entries per
    SSTable built by compaction. *)
Definition tree_flushed_twice : LSM.LSMTree :=
  let t := LSM.LSMTree_new 1 1 4 2 in
  let t := LSM.flush_worker_step hash_id iter_sorted (LSM.put t 7 "x") in
  LSM.flush_worker_step hash_id iter_sorted (LSM.put t 8 "y").

(** A tree with two levels in use: [(7,"x")] and [(100,"y")] were flushed
    and compacted into level 1 as two SSTables of one entry each, then
    [(7,"z")] was flushed to level 0.  Of the two SSTables of level 1 the
    one with key 7 overlaps level 0, the one with key 100 does not. *)
Definition tree_two_levels : LSM.LSMTree :=
  let t := LSM.LSMTree_new 1 1 4 1 in
  let t := LSM.flush_worker_step hash_id iter_sorted (LSM.put t 7 "x") in
  let t := LSM.flush_worker_step hash_id iter_sorted (LSM.put t 100 "y") in
  let t := LSM.perform_compaction_check hash_id iter_sorted scale_by_10 t in
  LSM.flush_worker_step hash_id iter_sorted (LSM.put t 7 "z").

Lemma find_overlapping_complete_witness :
  let t := tree_two_levels in
  let src := LSM.levels_ t !!! 0%nat in
  ((λ s, (LSM.id s, map_to_list (LSM.data s))) <$> src) = [(4, [(7, "z")])]
  ∧ ((λ s, (LSM.id s, map_to_list (LSM.data s))) <$> LSM.levels_ t !!! 1%nat)
    = [(2, [(7, "x")]); (3, [(100, "y")])]
  ∧ ((λ s, (LSM.id s, map_to_list (LSM.data s)))
       <$> LSM.find_overlapping_sstables_nolock t src 1) = [(2, [(7, "x")])]
  ∧ (∀ s', s' ∈ LSM.find_overlapping_sstables_nolock t src 1 →
           s' ∈ LSM.levels_ t !!! Z.to_nat 1)
  ∧ ∀ s s' k,
      s ∈ src → s' ∈ LSM.levels_ t !!! Z.to_nat 1 →
      LSM.min_key s ≤ k ≤ LSM.max_key s → LSM.min_key s' ≤ k ≤ LSM.max_key s' →
      s' ∈ LSM.find_overlapping_sstables_nolock t src 1.
Proof.
  intros t src.
  split; [vm_compute; reflexivity|]. split; [vm_compute; reflexivity|].
  split; [vm_compute; reflexivity|].
  apply (LSM.find_overlapping_complete t src 1).
  vm_compute. split; [discriminate|reflexivity].
Defined.

(** The first SSTable a compaction of that level 0 builds. *)
Definition first_built : LSM.SSTable :=
  default (LSM.SSTable_new hash_id iter_sorted 0 0 0 ∅)
    (head (LSM.build_new_ssts hash_id iter_sorted tree_flushed_twice
             (LSM.levels_ tree_flushed_twice !!! 0%nat) []).1).

Lemma compaction_output_sizes_witness :
  first_built ∈ (LSM.build_new_ssts hash_id iter_sorted tree_flushed_twice
                   (LSM.levels_ tree_flushed_twice !!! 0%nat) []).1
  ∧ 1 ≤ Z.of_nat (size (LSM.data first_built)) ≤ Z.max 1 2
  ∧ LSM.entry_count first_built = Z.of_nat (size (LSM.data first_built)).
Proof.
  assert (first_built ∈ (LSM.build_new_ssts hash_id iter_sorted tree_flushed_twice
                           (LSM.levels_ tree_flushed_twice !!! 0%nat) []).1) as Hin.
  { apply (list_elem_of_lookup_2 _ 0%nat). vm_compute. reflexivity. }
  split; [exact Hin|].
  exact (LSM.compaction_output_sizes hash_id iter_sorted iter_sorted_perm
           tree_flushed_twice (LSM.levels_ tree_flushed_twice !!! 0%nat) [] first_built Hin).
Defined.

Lemma sstable_round_trip_witness :
  let m : gmap Z string := {[ 3 := "c"; 1 := LSM.TOMBSTONE_VALUE ]} in
  (LSM.create_from_memtable hash_id iter_sorted m 5 = None ↔ m = ∅)
  ∧ ∀ sst, LSM.create_from_memtable hash_id iter_sorted m 5 = Some sst →
      LSM.id sst = 5
      ∧ LSM.entry_count sst = Z.of_nat (size m)
      ∧ ∀ k, LSM.find_key hash_id sst k = m !! k ≫= LSM.live.
Proof.
  intros m. apply (LSM.sstable_round_trip hash_id iter_sorted iter_sorted_perm m 5).
Defined.


(** * The plain Bloom filter ([src/old_implementation/lsm/BloomFilter.h]) *)

Module SimpleBloom.
Section WithHash.

(** [std::hash<uint64_t>] *)
Variable std_hash : Z → Z.

Record BloomFilter := mkBloom {
  bits_ : list bool;
  numHashes_ : Z;
  size_ : Z
}.

(** [BloomFilter(size, numHashes)]: [size] bits, all clear. *)
Definition new (size numHashes : Z) : BloomFilter :=
  mkBloom (replicate (Z.to_nat size) false) numHashes size.

(** [hash(key, n)]; the salt [0x9e3779b9 * n] is computed in [size_t]. *)
Definition hash (key n : Z) : Z :=
  u64 (std_hash (Z.lxor key (u64 (0x9e3779b9 * n)))).

(** [add]'s loop from [n], for [cnt] more rounds.  A write outside
    [bits_] is undefined in the source and changes nothing here. *)
Fixpoint add_loop (size key n : Z) (cnt : nat) (bits : list bool) : list bool :=
  match cnt with
  | O => bits
  | S cnt' => add_loop size key (n + 1) cnt' (<[Z.to_nat (hash key n mod size) := true]> bits)
  end.

Definition add (f : BloomFilter) (key : Z) : BloomFilter :=
  mkBloom (add_loop (size_ f) key 0 (Z.to_nat (numHashes_ f)) (bits_ f))
          (numHashes_ f) (size_ f).

(** [possiblyContains]'s loop from [n], for [cnt] more rounds. *)
Fixpoint contains_loop (size key n : Z) (cnt : nat) (bits : list bool) : bool :=
  match cnt with
  | O => true
  | S cnt' =>
      match bits !! Z.to_nat (hash key n mod size) with
      | Some true => contains_loop size key (n + 1) cnt' bits
      | _ => false
      end
  end.

Definition possiblyContains (f : BloomFilter) (key : Z) : bool :=
  contains_loop (size_ f) key 0 (Z.to_nat (numHashes_ f)) (bits_ f).

(** A filter as the constructor leaves it and [add] keeps it. *)
Definition wf (f : BloomFilter) : Prop :=
  0 < size_ f ∧ length (bits_ f) = Z.to_nat (size_ f).

Lemma wf_simple_new (size numHashes : Z) : 0 < size → wf (new size numHashes).
Proof. intros H. split; [done|]. simpl. by rewrite length_replicate. Qed.

Lemma length_add_loop (size key : Z) (cnt : nat) : ∀ n bits,
  length (add_loop size key n cnt bits) = length bits.
Proof.
  induction cnt as [|cnt IH]; intros n bits; [done|].
  cbn [add_loop]. by rewrite IH, length_insert.
Qed.

Lemma wf_add (f : BloomFilter) (key : Z) : wf f → wf (add f key).
Proof. intros [Hpos Hlen]. split; [done|]. simpl. by rewrite length_add_loop. Qed.

Lemma index_lt (size key n : Z) (bits : list bool) :
  0 < size → length bits = Z.to_nat size →
  (Z.to_nat (hash key n mod size) < length bits)%nat.
Proof. intros Hpos ->. pose proof (Z.mod_pos_bound (hash key n) size Hpos). lia. Qed.

(** [add] only sets bits. *)
Lemma add_loop_keeps (size key : Z) (cnt : nat) (j : nat) : ∀ n bits,
  bits !! j = Some true → add_loop size key n cnt bits !! j = Some true.
Proof.
  induction cnt as [|cnt IH]; intros n bits Hj; [done|].
  cbn [add_loop]. apply IH.
  destruct (decide (Z.to_nat (hash key n mod size) = j)) as [->|Hne].
  - apply list_lookup_insert_eq. by apply lookup_lt_Some in Hj.
  - by rewrite list_lookup_insert_ne.
Qed.

Lemma add_loop_sets (size key : Z) (cnt : nat) : ∀ n bits m,
  0 < size → length bits = Z.to_nat size →
  n ≤ m < n + Z.of_nat cnt →
  add_loop size key n cnt bits !! Z.to_nat (hash key m mod size) = Some true.
Proof.
  induction cnt as [|cnt IH]; intros n bits m Hpos Hlen Hm; [lia|].
  cbn [add_loop]. destruct (decide (m = n)) as [->|Hne].
  - apply add_loop_keeps. apply list_lookup_insert_eq. by apply index_lt.
  - apply IH; [done|by rewrite length_insert|lia].
Qed.

Lemma contains_loop_true (size key : Z) (cnt : nat) (bits : list bool) : ∀ n,
  contains_loop size key n cnt bits = true
  ↔ ∀ m, n ≤ m < n + Z.of_nat cnt → bits !! Z.to_nat (hash key m mod size) = Some true.
Proof.
  induction cnt as [|cnt IH]; intros n; [split; [lia|done]|].
  cbn [contains_loop]. split.
  - destruct (bits !! Z.to_nat (hash key n mod size)) as [[|]|] eqn:Hn; try done.
    intros H m Hm. destruct (decide (m = n)) as [->|Hne]; [done|].
    apply (proj1 (IH (n + 1)) H). lia.
  - intros H. rewrite (H n) by lia. apply IH. intros m Hm. apply H. lia.
Qed.

Lemma possiblyContains_add_same (f : BloomFilter) (key : Z) :
  wf f → possiblyContains (add f key) key = true.
Proof.
  intros [Hpos Hlen]. unfold possiblyContains, add. cbn [bits_ numHashes_ size_].
  apply contains_loop_true. intros m Hm. by apply add_loop_sets.
Qed.

Lemma possiblyContains_add_mono (f : BloomFilter) (key key' : Z) :
  possiblyContains f key = true → possiblyContains (add f key') key = true.
Proof.
  unfold possiblyContains, add. cbn [bits_ numHashes_ size_].
  rewrite !contains_loop_true. intros H m Hm. by apply add_loop_keeps, H.
Qed.

(** No false negatives: once [add(key)] is among the calls made on a
    filter with at least one bit, [possiblyContains(key)] answers [true],
    whatever was added before or after. *)
Theorem added_key_is_reported (f : BloomFilter) (keys : list Z) (key : Z) :
  wf f → key ∈ keys → possiblyContains (foldl add f keys) key = true.
Proof.
  revert f. induction keys as [|k keys IH]; intros f Hwf Hin.
  - by apply elem_of_nil in Hin.
  - simpl. apply elem_of_cons in Hin as [->|Hin].
    + generalize (possiblyContains_add_same f k Hwf). generalize (add f k). clear.
      induction keys as [|k' keys IH]; intros g Hg; [done|].
      simpl. by apply IH, possiblyContains_add_mono.
    + apply IH; [by apply wf_add|done].
Qed.

(** A filter that has seen no key rejects every key when it uses at
    least one hash function; with none it accepts every key. *)
Theorem fresh_filter_rejects (size numHashes key : Z) :
  0 < size →
  possiblyContains (new size numHashes) key = bool_decide (numHashes ≤ 0).
Proof.
  intros Hpos. unfold possiblyContains, new. cbn [bits_ numHashes_ size_].
  destruct (decide (numHashes ≤ 0)) as [Hnh|Hnh].
  - rewrite (bool_decide_eq_true_2 (numHashes ≤ 0)) by done.
    by replace (Z.to_nat numHashes) with O by lia.
  - rewrite (bool_decide_eq_false_2 (numHashes ≤ 0)) by done.
    destruct (Z.to_nat numHashes) as [|cnt] eqn:Hcnt; [lia|].
    cbn [contains_loop].
    pose proof (index_lt size key 0 (replicate (Z.to_nat size) false) Hpos
                  ltac:(by rewrite length_replicate)) as Hlt.
    destruct (lookup_lt_is_Some_2 _ _ Hlt) as [b Hb]. rewrite Hb.
    by apply lookup_replicate in Hb as [-> _].
Qed.

End WithHash.
End SimpleBloom.

Lemma added_key_is_reported_witness :
  SimpleBloom.possiblyContains (λ x, x)
    (foldl (SimpleBloom.add (λ x, x)) (SimpleBloom.new 64 3) [10; 20; 30]) 20 = true.
Proof.
  apply SimpleBloom.added_key_is_reported.
  - apply SimpleBloom.wf_simple_new. lia.
  - right. left.
Defined.

Lemma simple_fresh_filter_rejects_witness :
  SimpleBloom.possiblyContains (λ x, x) (SimpleBloom.new 64 3) 20 = bool_decide (3 ≤ 0).
Proof. apply SimpleBloom.fresh_filter_rejects. lia. Defined.

Lemma fresh_filter_query_witness :
  Bloom.Query (λ x, x) (Bloom.new 512 7) 20 = bool_decide (7 ≤ 1).
Proof. apply Bloom.fresh_filter_query. lia. Defined.

Lemma insert_order_irrelevant_witness :
  foldl (Bloom.Insert (λ x, x)) (Bloom.new 512 7) [10; 20; 30]
  = foldl (Bloom.Insert (λ x, x)) (Bloom.new 512 7) [20; 10; 30].
Proof. apply Bloom.insert_order_irrelevant. apply perm_swap. Defined.

(** A learned index over three keys, with the floating-point results
    erased. *)
Lemma predict_outside_training_witness :
  let idx := Learned.empty_index unit in
  let fit := λ _ _ : list Z, (tt, tt, tt) in
  let bounds := λ (_ : Learned.SegmentModel unit) (_ _ : Z), (0, 0) in
  Learned.predict_index_range unit bounds (Learned.train unit fit idx []) 11 = (false, (0, 0))
  ∧ Learned.predict_index_range unit bounds (Learned.train unit fit idx [5; 7; 9]) 11
    = (true, (1, 0)).
Proof.
  intros idx fit bounds.
  apply (Learned.predict_outside_training unit fit bounds idx [5; 7; 9] 5 9 11);
    [done|done|simpl; lia|lia].
Defined.

Lemma chosen_segment_holds_key_witness :
  let idx := Learned.empty_index unit in
  let fit := λ _ _ : list Z, (tt, tt, tt) in
  let bounds := λ (_ : Learned.SegmentModel unit) (_ _ : Z), (0, 0) in
  ∃ seg,
    Learned.chosen_segment unit (Learned.segments_ unit (Learned.train unit fit idx [5; 7; 9])) 7
    = Some seg
    ∧ seg ∈ Learned.segments_ unit (Learned.train unit fit idx [5; 7; 9])
    ∧ Learned.first_key unit seg ≤ 7
    ∧ Learned.start_index_global unit seg ≤ Z.of_nat 1
      < Learned.start_index_global unit seg + Learned.num_keys_in_segment unit seg
    ∧ Learned.predict_index_range unit bounds (Learned.train unit fit idx [5; 7; 9]) 7
      = (true, bounds seg 7 (Z.of_nat (length [5; 7; 9]))).
Proof.
  intros idx fit bounds.
  apply (Learned.chosen_segment_holds_key unit fit bounds idx [5; 7; 9] 1 7).
  - repeat constructor; lia.
  - simpl. lia.
  - done.
Defined.

(** * The key generators ([src/zipf_implementation.h]) *)

Module Zipf.

Definition kFNVOffsetBasis64 : Z := 0xCBF29CE484222325.
Definition kFNVPrime64 : Z := 1099511628211.

(** The loop of [FNVHash64], for [cnt] more octets. *)
Fixpoint fnv_loop (cnt : nat) (val hash : Z) : Z :=
  match cnt with
  | O => hash
  | S cnt' =>
      let octet := Z.land val 0x00ff in
      let val := Z.shiftr val 8 in
      let hash := Z.lxor hash octet in
      let hash := u64 (hash * kFNVPrime64) in
      fnv_loop cnt' val hash
  end.

Definition FNVHash64 (val : Z) : Z := fnv_loop 8 val kFNVOffsetBasis64.

(** How a call ends: it returns, it throws [std::invalid_argument], or it
    never returns. *)
Inductive outcome (A : Type) : Type :=
| Returns (a : A)
| Throws (what : string)
| Hangs.

Arguments Returns {A} a.
Arguments Throws {A} what.
Arguments Hangs {A}.

(** The loop [for (uint64_t i = 1; i <= num; ++i)] of [utils::Zeta], which
    is also the loop of [ZipfianGenerator::Zeta(0, num, theta, 0.0)].
    The sum it builds is a [double] made with [std::pow] and is left
    out; [zeta_loop_ends num i] says that the loop, standing at [i],
    comes to its end.  [++i] wraps around. *)
Inductive zeta_loop_ends (num : Z) : Z → Prop :=
| zeta_loop_exit (i : Z) : ¬ i ≤ num → zeta_loop_ends num i
| zeta_loop_next (i : Z) :
    i ≤ num → zeta_loop_ends num (u64 (i + 1)) → zeta_loop_ends num i.

(** Whether [Zeta(num, theta)] returns: at once for [num == 0], else
    after the loop from 1, which ends unless [num] is the largest
    [uint64_t] ([Zeta_returns_spec]). *)
Definition Zeta_returns (num : Z) : bool := bool_decide (num < 2 ^ 64 - 1).

Definition kMaxNumItems : Z := Z.shiftl 1 40.

(** [ZipfianGenerator(min, max, zipfian_const, zeta_n)]: the integer
    fields [(items_, base_)] on success.  The [Zeta(2, theta_)] and
    [Eta()] of its body return. *)
Definition ZipfianGenerator_range (min max : Z) : outcome (Z * Z) :=
  let items_ := u64 (max - min + 1) in
  if decide (items_ < 2) then Throws "Number of items must be at least 2"
  else if decide (items_ >= kMaxNumItems) then
    Throws "Number of items exceeds maximum limit"
  else Returns (items_, min).

(** [ZipfianGenerator(min, max, zipfian_const)]: the argument
    [Zeta(max - min + 1, zipfian_const)] of the delegated constructor is
    evaluated before that constructor checks the range. *)
Definition ZipfianGenerator_min_max (min max : Z) : outcome (Z * Z) :=
  if Zeta_returns (u64 (max - min + 1)) then ZipfianGenerator_range min max else Hangs.

(** [ZipfianGenerator(num_items, theta, write_ratio)]: the delegated
    constructor [ZipfianGenerator(0, num_items - 1, theta)] runs first,
    then the body. *)
Definition ZipfianGenerator_new (num_items : Z) : outcome (Z * Z) :=
  match ZipfianGenerator_min_max 0 (u64 (num_items - 1)) with
  | Returns g =>
      if decide (num_items = 0) then Throws "num_items must be > 0" else Returns g
  | Throws what => Throws what
  | Hangs => Hangs
  end.

(** The integer fields of [ScrambledZipfianGenerator], those of the
    generator it wraps included; what works in [double] is left out. *)
Record ScrambledZipfianGenerator := mkScrambled {
  base_ : Z;
  num_items_ : Z;
  generator_ : Z * Z
}.

(** [ScrambledZipfianGenerator(min, max, theta, write_ratio)].  The
    members are initialised in the order of their declaration: [base_],
    [num_items_], then [generator_(0, num_items_, theta, zeta_n)], whose
    last argument is [kZetan] when [theta == kUsedZipfianConstant] and
    [utils::Zeta(num_items_, theta)] otherwise. *)
Definition ScrambledZipfianGenerator_new (min max : Z)
    (theta_is_kUsedZipfianConstant : bool) : outcome ScrambledZipfianGenerator :=
  let base_ := min in
  let num_items_ := u64 (max - min + 1) in
  if negb theta_is_kUsedZipfianConstant && negb (Zeta_returns num_items_) then Hangs
  else
    match ZipfianGenerator_range 0 num_items_ with
    | Returns generator_ => Returns (mkScrambled base_ num_items_ generator_)
    | Throws what => Throws what
    | Hangs => Hangs
    end.

Definition Scramble (g : ScrambledZipfianGenerator) (value : Z) : Z :=
  u64 (base_ g + FNVHash64 value mod num_items_ g).

Lemma fnv_loop_range (cnt : nat) : ∀ val hash,
  0 ≤ hash < 2 ^ 64 → 0 ≤ fnv_loop cnt val hash < 2 ^ 64.
Proof.
  induction cnt as [|cnt IH]; intros val hash Hh; [done|].
  cbn [fnv_loop]. apply IH, u64_range.
Qed.

Lemma zeta_loop_runs (num : Z) (n : nat) : ∀ i,
  num < 2 ^ 64 - 1 → 0 ≤ i → num + 1 - i ≤ Z.of_nat n → zeta_loop_ends num i.
Proof.
  induction n as [|n IH]; intros i Hnum Hi Hn.
  - apply zeta_loop_exit. lia.
  - destruct (decide (i ≤ num)) as [Hle|Hgt]; [|by apply zeta_loop_exit].
    apply zeta_loop_next; [done|].
    assert (u64 (i + 1) = i + 1) as -> by (unfold u64; apply Z.mod_small; lia).
    apply IH; lia.
Qed.

Lemma zeta_loop_forever (i : Z) :
  zeta_loop_ends (2 ^ 64 - 1) i → ¬ 0 ≤ i < 2 ^ 64.
Proof.
  induction 1 as [i Hgt|i Hle _ IH]; [lia|].
  intros _. apply IH, u64_range.
Qed.

(** [Zeta_returns] decides whether the loop of [Zeta] ends. *)
Lemma Zeta_returns_spec (num : Z) :
  0 ≤ num < 2 ^ 64 → Zeta_returns num = true ↔ zeta_loop_ends num 1.
Proof.
  intros Hnum. unfold Zeta_returns. rewrite bool_decide_eq_true. split.
  - intros Hlt. apply (zeta_loop_runs num (Z.to_nat (num + 1))); lia.
  - intros Hends. destruct (decide (num < 2 ^ 64 - 1)) as [|Hge]; [done|].
    assert (num = 2 ^ 64 - 1) as -> by lia.
    apply zeta_loop_forever in Hends. lia.
Qed.

(** [ScrambledZipfianGenerator(min, max, theta, write_ratio)] with
    [min <= max] constructs a generator exactly when the range has fewer
    than [2^40 - 1] keys: otherwise the constructor of the generator it
    wraps throws, or [utils::Zeta] does not return.  [Scramble] of a
    constructed generator maps every value into [[min, max]]. *)
Theorem Scramble_in_range (min max value : Z) (theta_is_kUsedZipfianConstant : bool) :
  0 ≤ min ≤ max → max < 2 ^ 64 →
  ((∃ g, ScrambledZipfianGenerator_new min max theta_is_kUsedZipfianConstant = Returns g)
   ↔ max - min + 2 < 2 ^ 40)
  ∧ ∀ g, ScrambledZipfianGenerator_new min max theta_is_kUsedZipfianConstant = Returns g →
         min ≤ Scramble g value ≤ max.
Proof.
  intros Hm Hmax.
  unfold ScrambledZipfianGenerator_new, ZipfianGenerator_range, Zeta_returns.
  change kMaxNumItems with (2 ^ 40).
  destruct (decide (max - min + 1 = 2 ^ 64)) as [Hfull|Hfull].
  { rewrite Hfull. change (u64 (2 ^ 64)) with 0. simpl.
    rewrite andb_false_r. split; [|done]. split; [by intros [g ?]|lia]. }
  assert (u64 (max - min + 1) = max - min + 1) as ->.
  { unfold u64. apply Z.mod_small. lia. }
  replace (max - min + 1 - 0 + 1) with (max - min + 2) by lia.
  destruct (decide (max - min + 2 = 2 ^ 64)) as [Hlast|Hlast].
  { rewrite Hlast. change (u64 (2 ^ 64)) with 0.
    rewrite bool_decide_eq_false_2 by lia.
    destruct theta_is_kUsedZipfianConstant; simpl;
      (split; [split; [by intros [g ?]|lia]|done]). }
  assert (u64 (max - min + 2) = max - min + 2) as ->.
  { unfold u64. apply Z.mod_small. lia. }
  rewrite bool_decide_eq_true_2 by lia. rewrite andb_false_r.
  rewrite decide_False by lia.
  case_decide as Hbig.
  { split; [split; [by intros [g ?]|lia]|done]. }
  split; [split; [lia|by eexists]|].
  intros g [= <-]. unfold Scramble. cbn [base_ num_items_].
  pose proof (Z.mod_pos_bound (FNVHash64 value) (max - min + 1) ltac:(lia)) as Hb.
  unfold u64. rewrite Z.mod_small; lia.
Qed.

(** [ZipfianGenerator(num_items)] constructs a generator exactly for
    [2 <= num_items < 2^40], with [items_ = num_items] and [base_ = 0].
    Zero and one item are refused by the range check of the delegated
    constructor, so the message of the [num_items == 0] check is never
    the one thrown.  [2^40] items or more are refused too, but only
    after [Zeta] has summed over all of them, and for the largest
    [uint64_t] the loop of [Zeta] never ends. *)
Theorem ZipfianGenerator_new_accepts (num_items : Z) :
  0 ≤ num_items < 2 ^ 64 →
  ZipfianGenerator_new num_items
  = if decide (num_items < 2) then Throws "Number of items must be at least 2"
    else if decide (num_items < 2 ^ 40) then Returns (num_items, 0)
    else if decide (num_items < 2 ^ 64 - 1) then
      Throws "Number of items exceeds maximum limit"
    else Hangs.
Proof.
  intros Hn.
  unfold ZipfianGenerator_new, ZipfianGenerator_min_max, ZipfianGenerator_range,
    Zeta_returns.
  change kMaxNumItems with (2 ^ 40).
  assert (u64 (u64 (num_items - 1) - 0 + 1) = num_items) as ->.
  { unfold u64. destruct (decide (num_items = 0)) as [->|Hne]; [done|].
    rewrite (Z.mod_small (num_items - 1)) by lia. rewrite Z.mod_small; lia. }
  destruct (decide (num_items < 2 ^ 64 - 1)) as [Hlt|Hge].
  - rewrite bool_decide_eq_true_2 by done. repeat case_decide; try done; lia.
  - rewrite bool_decide_eq_false_2 by done. repeat case_decide; try done; lia.
Qed.

End Zipf.

Lemma Scramble_in_range_witness :
  ((∃ g, Zipf.ScrambledZipfianGenerator_new 1000 1999 true = Zipf.Returns g)
   ↔ 1999 - 1000 + 2 < 2 ^ 40)
  ∧ ∀ g, Zipf.ScrambledZipfianGenerator_new 1000 1999 true = Zipf.Returns g →
         1000 ≤ Zipf.Scramble g 42 ≤ 1999.
Proof. apply Zipf.Scramble_in_range; lia. Defined.

Lemma ZipfianGenerator_new_accepts_witness :
  Zipf.ZipfianGenerator_new 1000 = Zipf.Returns (1000, 0)
  ∧ Zipf.ZipfianGenerator_new (2 ^ 40) = Zipf.Throws "Number of items exceeds maximum limit"
  ∧ Zipf.ZipfianGenerator_new (2 ^ 64 - 1) = Zipf.Hangs.
Proof.
  split; [|split].
  - exact (Zipf.ZipfianGenerator_new_accepts 1000 ltac:(lia)).
  - exact (Zipf.ZipfianGenerator_new_accepts (2 ^ 40) ltac:(lia)).
  - exact (Zipf.ZipfianGenerator_new_accepts (2 ^ 64 - 1) ltac:(lia)).
Defined.

(** A memtable with one value and one tombstone. *)
Definition sample_memtable : gmap Z string := {[ 3 := "c"; 1 := LSM.TOMBSTONE_VALUE ]}.

Lemma current_sstable_round_trip_witness :
  (LSMCurrent.create_from_memtable iter_sorted sample_memtable 5 = None
   ↔ sample_memtable = ∅)
  ∧ ∀ sst, LSMCurrent.create_from_memtable iter_sorted sample_memtable 5 = Some sst →
      LSMCurrent.id sst = 5
      ∧ LSMCurrent.entry_count sst = Z.of_nat (size sample_memtable)
      ∧ ∀ k, LSMCurrent.find_key sst k = sample_memtable !! k ≫= LSM.live.
Proof.
  apply (LSM.current_sstable_round_trip iter_sorted iter_sorted_perm sample_memtable 5).
Defined.

Lemma sstable_range_is_tight_witness :
  (∀ sst, LSM.create_from_memtable hash_id iter_sorted sample_memtable 5 = Some sst →
     is_Some (LSM.data sst !! LSM.min_key sst) ∧ is_Some (LSM.data sst !! LSM.max_key sst))
  ∧ (∀ sst, LSMCurrent.create_from_memtable iter_sorted sample_memtable 5 = Some sst →
       is_Some (LSMCurrent.data sst !! LSMCurrent.min_key sst)
       ∧ is_Some (LSMCurrent.data sst !! LSMCurrent.max_key sst)).
Proof.
  assert (∀ k, is_Some (sample_memtable !! k) → 0 ≤ k ≤ LSM.UINT64_MAX) as Hrange.
  { intros k [v Hk]. unfold sample_memtable in Hk.
    apply lookup_insert_Some in Hk as [[<- _]|[_ Hk]]; [unfold LSM.UINT64_MAX; lia|].
    apply lookup_singleton_Some in Hk as [<- _]. unfold LSM.UINT64_MAX; lia. }
  apply (LSM.sstable_range_is_tight hash_id iter_sorted iter_sorted_perm sample_memtable 5
           Hrange).
Defined.

Lemma flush_moves_oldest_memtable_witness :
  let t := LSM.run hash_id iter_sorted scale_by_10 (LSM.LSMTree_new 1 4 4 256)
             [LSM.Put 7 "x"] in
  LSM.immutable_memtables_ t = [{[ 7 := "x" ]}]
  ∧ ∃ s,
      LSM.levels_ (LSM.flush_worker_step hash_id iter_sorted t) !!! 0%nat
      = LSM.levels_ t !!! 0%nat ++ [s]
      ∧ LSM.data s = {[ 7 := "x" ]} ∧ LSM.id s = LSM.next_sstable_id_ t
      ∧ (∀ j, (1 ≤ j)%nat →
              LSM.levels_ (LSM.flush_worker_step hash_id iter_sorted t) !! j
              = LSM.levels_ t !! j)
      ∧ LSM.immutable_memtables_ (LSM.flush_worker_step hash_id iter_sorted t) = []
      ∧ LSM.active_memtable_ (LSM.flush_worker_step hash_id iter_sorted t)
        = LSM.active_memtable_ t
      ∧ LSM.next_sstable_id_ (LSM.flush_worker_step hash_id iter_sorted t)
        = LSM.next_sstable_id_ t + 1.
Proof.
  intros t.
  assert (LSM.immutable_memtables_ t = [{[ 7 := "x" ]}]) as Himm
    by (vm_compute; reflexivity).
  split; [exact Himm|].
  refine (LSM.flush_moves_oldest_memtable hash_id iter_sorted scale_by_10 iter_sorted_perm
            1 4 4 256 [LSM.Put 7 "x"] {[ 7 := "x" ]} [] _ _ Himm).
  - lia.
  - simpl. lia.
Defined.

(** * The skip-list memtable
    ([src/old_implementation/LSM/memtable/skiplist_memtable.cpp]) *)

Module SkipList.

(** [SkipListNode::MAX_LEVEL] *)
Definition MAX_LEVEL : nat := 32.

(** [operator<] of [std::string]: lexicographic on the bytes. *)
Definition key_lt (a b : string) : Prop := OrdersEx.String_as_OT.compare a b = Lt.

Global Instance key_lt_dec a b : Decision (key_lt a b).
Proof. unfold key_lt. apply _. Defined.

(** A node; a pointer to a node is its index in the heap, [nullptr] is
    [None]. *)
Record SkipListNode := mkNode {
  key : string;
  value : string;
  is_deleted : bool;
  next : list (option nat);
  level : Z
}.

Definition SkipListNode_new (k v : string) (lvl : Z) : SkipListNode :=
  mkNode k v false (replicate MAX_LEVEL None) lvl.

Section WithSizeof.

(** [sizeof(SkipListNode)] *)
Variable sizeof_SkipListNode : Z.

(** The memtable with the nodes it has allocated.  The methods are
    modelled as one thread runs them; the locks are left out. *)
Record SkipListMemtable := mkMemtable {
  heap : list SkipListNode;
  head_ : nat;
  tail_ : nat;
  size_ : Z;
  memory_usage_ : Z;
  max_size_ : Z;
  total_inserts_ : Z;
  total_lookups_ : Z;
  total_deletes_ : Z;
  total_updates_ : Z
}.

(** The constructor: head and tail are the first two allocations, every
    [next] of head points to tail. *)
Definition SkipListMemtable_new (max_size : Z) : SkipListMemtable :=
  mkMemtable
    [mkNode EmptyString EmptyString false (replicate MAX_LEVEL (Some 1%nat))
            (Z.of_nat MAX_LEVEL);
     SkipListNode_new EmptyString EmptyString (Z.of_nat MAX_LEVEL)]
    0 1 0 0 max_size 0 0 0 0.

Definition set_heap (m : SkipListMemtable) (h : list SkipListNode) : SkipListMemtable :=
  mkMemtable h (head_ m) (tail_ m) (size_ m) (memory_usage_ m) (max_size_ m)
             (total_inserts_ m) (total_lookups_ m) (total_deletes_ m) (total_updates_ m).

(** The loops below walk pointers; [fuel] bounds their iterations and
    [None] is a run out of fuel or a dereference of [nullptr]. *)
Definition fuel_of (m : SkipListMemtable) : nat := length (heap m).

(** The [while (true)] loop of [findNode] at level [i]. *)
Fixpoint advance (fuel : nat) (h : list SkipListNode) (tail : nat) (k : string)
    (i : nat) (current : nat) : option nat :=
  match fuel with
  | O => None
  | S fuel' =>
      node ← h !! current;
      nx ← next node !! i;
      match nx with
      | None => None
      | Some next_ =>
          if decide (next_ = tail) then Some current
          else
            next_node ← h !! next_;
            if decide (key_lt (key next_node) k) then advance fuel' h tail k i next_
            else Some current
      end
  end.

(** The [for] loop of [findNode] over the levels [cnt - 1 .. 0]. *)
Fixpoint descend (fuel : nat) (h : list SkipListNode) (tail : nat) (k : string)
    (cnt : nat) (current : nat) (update : list nat) : option (nat * list nat) :=
  match cnt with
  | O => Some (current, update)
  | S i =>
      current ← advance fuel h tail k i current;
      descend fuel h tail k i current (<[i := current]> update)
  end.

(** [findNode]: the node found ([None] for [nullptr]) and the [update]
    array, which the loop fills at every level. *)
Definition findNode (m : SkipListMemtable) (k : string) : option (option nat * list nat) :=
  '(current, update) ←
    descend (fuel_of m) (heap m) (tail_ m) k MAX_LEVEL (head_ m) (replicate MAX_LEVEL 0%nat);
  node ← heap m !! current;
  nx ← next node !! 0%nat;
  current ← nx;
  if decide (current = tail_ m) then Some (None, update)
  else
    current_node ← heap m !! current;
    Some (if decide (key current_node = k) then Some current else None, update).

Definition set_next (h : list SkipListNode) (p i : nat) (q : option nat) :
    list SkipListNode :=
  alter (λ n, mkNode (key n) (value n) (is_deleted n) (<[i := q]> (next n)) (level n)) p h.

(** The loop "Update forward pointers" of [put], from level [i], for
    [cnt] more levels. *)
Fixpoint link_loop (new_node : nat) (update : list nat) (i : nat) (cnt : nat)
    (h : list SkipListNode) : option (list SkipListNode) :=
  match cnt with
  | O => Some h
  | S cnt' =>
      u ← update !! i;
      node ← h !! u;
      nx ← next node !! i;
      let h := set_next h new_node i nx in
      let h := set_next h u i (Some new_node) in
      link_loop new_node update (S i) cnt' h
  end.

(** [put]; [lvl] is the value [getRandomLevel()] returns in this call. *)
Definition put (m : SkipListMemtable) (k v : string) (lvl : Z) :
    option (bool * SkipListMemtable) :=
  '(existing, _) ← findNode m k;
  match existing with
  | Some e =>
      let h := alter (λ n, mkNode (key n) v false (next n) (level n)) e (heap m) in
      Some (true,
            mkMemtable h (head_ m) (tail_ m) (size_ m) (memory_usage_ m) (max_size_ m)
              (total_inserts_ m) (total_lookups_ m) (total_deletes_ m)
              (u64 (total_updates_ m + 1)))
  | None =>
      let new_memory :=
        u64 (sizeof_SkipListNode + Z.of_nat (String.length k) + Z.of_nat (String.length v)) in
      if decide (u64 (memory_usage_ m + new_memory) > max_size_ m) then Some (false, m)
      else
        let new_node := length (heap m) in
        let h := heap m ++ [SkipListNode_new k v lvl] in
        '(_, update) ← findNode (set_heap m h) k;
        h ← link_loop new_node update 0 (Z.to_nat lvl) h;
        Some (true,
              mkMemtable h (head_ m) (tail_ m) (u64 (size_ m + 1))
                (u64 (memory_usage_ m + new_memory)) (max_size_ m)
                (u64 (total_inserts_ m + 1)) (total_lookups_ m) (total_deletes_ m)
                (total_updates_ m))
  end.

Definition count_lookup (m : SkipListMemtable) : SkipListMemtable :=
  mkMemtable (heap m) (head_ m) (tail_ m) (size_ m) (memory_usage_ m) (max_size_ m)
             (total_inserts_ m) (u64 (total_lookups_ m + 1)) (total_deletes_ m)
             (total_updates_ m).

(** [get]: [Some v] is [true] with [value = v]. *)
Definition get (m : SkipListMemtable) (k : string) :
    option (option string * SkipListMemtable) :=
  '(node, _) ← findNode m k;
  match node with
  | Some p =>
      n ← heap m !! p;
      Some (if is_deleted n then None else Some (value n), count_lookup m)
  | None => Some (None, count_lookup m)
  end.

(** [delete_key] marks the node, it does not unlink it. *)
Definition delete_key (m : SkipListMemtable) (k : string) :
    option (bool * SkipListMemtable) :=
  '(node, _) ← findNode m k;
  match node with
  | Some p =>
      let h := alter (λ n, mkNode (key n) (value n) true (next n) (level n)) p (heap m) in
      Some (true,
            mkMemtable h (head_ m) (tail_ m) (size_ m) (memory_usage_ m) (max_size_ m)
              (total_inserts_ m) (total_lookups_ m) (u64 (total_deletes_ m + 1))
              (total_updates_ m))
  | None => Some (false, m)
  end.

Definition update (m : SkipListMemtable) (k v : string) (lvl : Z) :
    option (bool * SkipListMemtable) :=
  put m k v lvl.

(** [KeyValue] *)
Record KeyValue := mkKeyValue {
  kv_key : string;
  kv_value : string;
  kv_is_deleted : bool
}.

(** The [while (current != tail_)] loop of [getAll]. *)
Fixpoint getAll_loop (fuel : nat) (h : list SkipListNode) (tail : nat) (current : nat)
    (result : list KeyValue) : option (list KeyValue) :=
  match fuel with
  | O => None
  | S fuel' =>
      if decide (current = tail) then Some result
      else
        node ← h !! current;
        nx ← next node !! 0%nat;
        nx ← nx;
        getAll_loop fuel' h tail nx
          (if is_deleted node then result
           else result ++ [mkKeyValue (key node) (value node) false])
  end.

(** [getAll] *)
Definition getAll (m : SkipListMemtable) : option (list KeyValue) :=
  node ← heap m !! head_ m;
  nx ← next node !! 0%nat;
  current ← nx;
  getAll_loop (fuel_of m) (heap m) (tail_ m) current [].

(** The second loop of [validate]: at level [i], walk to the node whose
    [next] is tail. *)
Fixpoint validate_walk (fuel : nat) (h : list SkipListNode) (tail : nat) (i : nat)
    (current : nat) : option (option nat) :=
  match fuel with
  | O => None
  | S fuel' =>
      node ← h !! current;
      nx ← next node !! i;
      if decide (nx = Some tail) then Some (Some current)
      else
        match nx with
        | None => Some None
        | Some next_ => validate_walk fuel' h tail i next_
        end
  end.

(** The [for] loop around it, over the levels [cnt - 1 .. 0]. *)
Fixpoint validate_levels (fuel : nat) (h : list SkipListNode) (tail : nat) (cnt : nat)
    (current : nat) : option bool :=
  match cnt with
  | O => Some true
  | S i =>
      r ← validate_walk fuel h tail i current;
      match r with
      | None => Some false
      | Some current => validate_levels fuel h tail i current
      end
  end.

(** [validate]: the first loop looks for a [nullptr] in [head_->next]. *)
Definition validate (m : SkipListMemtable) : option bool :=
  head ← heap m !! head_ m;
  if decide (Exists (λ nx, nx = None) (take MAX_LEVEL (next head))) then Some false
  else validate_levels (fuel_of m) (heap m) (tail_ m) MAX_LEVEL (head_ m).


(** ** The order on keys *)

Lemma key_lt_irrefl (a : string) : ¬ key_lt a a.
Proof. apply (irreflexivity OrdersEx.String_as_OT.lt). Qed.

Lemma key_lt_trans (a b c : string) : key_lt a b → key_lt b c → key_lt a c.
Proof. apply (transitivity (R := OrdersEx.String_as_OT.lt)). Qed.

Lemma key_lt_total (a b : string) : ¬ key_lt a b → a ≠ b → key_lt b a.
Proof.
  unfold key_lt. intros Hlt Hne.
  destruct (OrdersEx.String_as_OT.compare_spec a b) as [Heq|Hab|Hba]; done.
Qed.

Global Instance key_lt_transitive : Transitive key_lt.
Proof. intros a b c. apply key_lt_trans. Qed.

(** ** Chains of [next] pointers *)

Definition node_key (h : list SkipListNode) (p : nat) : string :=
  default EmptyString (key <$> h !! p).
Definition node_value (h : list SkipListNode) (p : nat) : string :=
  default EmptyString (value <$> h !! p).
Definition node_deleted (h : list SkipListNode) (p : nat) : bool :=
  default false (is_deleted <$> h !! p).
Definition node_level (h : list SkipListNode) (p : nat) : Z :=
  default 0 (level <$> h !! p).

(** [next[i]] of node [p], when it is not [nullptr]. *)
Definition nxt (h : list SkipListNode) (i p : nat) : option nat :=
  n ← h !! p; nx ← next n !! i; nx.

Lemma nxt_Some (h : list SkipListNode) (i p q : nat) :
  nxt h i p = Some q ↔ ∃ n, h !! p = Some n ∧ next n !! i = Some (Some q).
Proof.
  unfold nxt. split.
  - destruct (h !! p) as [n|]; [|done]. simpl.
    destruct (next n !! i) as [[q'|]|] eqn:Hn; try done. simpl. intros [= ->]. by exists n.
  - intros (n & -> & Hn). simpl. by rewrite Hn.
Qed.

(** The last node of [p :: l]. *)
Fixpoint lastd (p : nat) (l : list nat) : nat :=
  match l with
  | [] => p
  | q :: l' => lastd q l'
  end.

Lemma lastd_app (p : nat) (l1 l2 : list nat) : lastd p (l1 ++ l2) = lastd (lastd p l1) l2.
Proof. revert p. induction l1 as [|q l1 IH]; intros p; [done|]. simpl. apply IH. Qed.

Lemma lastd_elem (p : nat) (l : list nat) : lastd p l = p ∨ lastd p l ∈ l.
Proof.
  revert p. induction l as [|q l IH]; intros p; [by left|]. simpl. right.
  destruct (IH q) as [->|Hin]; [by left|by right].
Qed.

(** [p] links to the first node of [l], each node of [l] to the one after
    it, at level [i]. *)
Fixpoint path (h : list SkipListNode) (i : nat) (p : nat) (l : list nat) : Prop :=
  match l with
  | [] => True
  | q :: l' => nxt h i p = Some q ∧ path h i q l'
  end.

(** The level-[i] list from [p] visits exactly [l] and ends in [e]. *)
Definition seg (h : list SkipListNode) (i : nat) (p : nat) (l : list nat) (e : nat) : Prop :=
  path h i p l ∧ nxt h i (lastd p l) = Some e.

Lemma path_app (h : list SkipListNode) (i : nat) (p : nat) (l1 l2 : list nat) :
  path h i p (l1 ++ l2) ↔ path h i p l1 ∧ path h i (lastd p l1) l2.
Proof.
  revert p. induction l1 as [|q l1 IH]; intros p; simpl; [tauto|].
  rewrite IH. tauto.
Qed.

(** A path only reads the pointers of the nodes before its last one. *)
Lemma path_frame (h h' : list SkipListNode) (i : nat) (p : nat) (l : list nat) :
  (∀ q, q ∈ p :: l → q ≠ lastd p l → nxt h' i q = nxt h i q) →
  NoDup (p :: l) →
  path h i p l → path h' i p l.
Proof.
  revert p. induction l as [|q l IH]; intros p Hsame Hnd; [done|].
  simpl. intros [Hpq Hpath].
  apply NoDup_cons in Hnd as [Hp Hnd]. split.
  - rewrite Hsame; [done|by left|]. intros Heq.
    destruct (lastd_elem q l) as [Hl|Hl]; simpl in Heq.
    + apply Hp. rewrite Heq, Hl. by left.
    + apply Hp. rewrite Heq. by right.
  - apply IH; [|done..]. intros q' Hq' Hne. apply Hsame; [by right|done].
Qed.

Lemma path_frame_all (h h' : list SkipListNode) (i : nat) (p : nat) (l : list nat) :
  (∀ q, q ∈ p :: l → nxt h' i q = nxt h i q) →
  path h i p l → path h' i p l.
Proof.
  revert p. induction l as [|q l IH]; intros p Hsame; [done|].
  simpl. intros [Hpq Hpath]. split; [by rewrite Hsame by (by left)|].
  apply IH; [|done]. intros q' Hq'. apply Hsame. by right.
Qed.

(** ** [findNode] on a well-formed skip list *)

Definition tall (h : list SkipListNode) (i : nat) (p : nat) : Prop :=
  Z.of_nat i < node_level h p.

Global Instance tall_dec h i p : Decision (tall h i p).
Proof. unfold tall. apply _. Defined.

(** The nodes of [l] linked at level [i]. *)
Definition lvl_list (h : list SkipListNode) (i : nat) (l : list nat) : list nat :=
  filter (tall h i) l.

Definition below (h : list SkipListNode) (k : string) (l : list nat) : list nat :=
  filter (λ p, key_lt (node_key h p) k) l.
Definition above (h : list SkipListNode) (k : string) (l : list nat) : list nat :=
  filter (λ p, ¬ key_lt (node_key h p) k) l.

(** [l0] lists the nodes between head and tail in key order; the list of
    level [i] links those of them whose [level] exceeds [i]. *)
Record inv (m : SkipListMemtable) (l0 : list nat) : Prop := mk_inv {
  inv_ht : head_ m ≠ tail_ m;
  inv_head : (head_ m < length (heap m))%nat;
  inv_tail : (tail_ m < length (heap m))%nat;
  inv_fresh : Forall (λ p, (p < length (heap m))%nat ∧ p ≠ head_ m ∧ p ≠ tail_ m) l0;
  inv_len : (length l0 < length (heap m))%nat;
  inv_next : Forall (λ n, length (next n) = MAX_LEVEL) (heap m);
  inv_levels : Forall (λ p, 1 ≤ node_level (heap m) p ≤ Z.of_nat MAX_LEVEL) l0;
  inv_sorted : StronglySorted key_lt (node_key (heap m) <$> l0);
  inv_links : ∀ i, (i < MAX_LEVEL)%nat →
    seg (heap m) i (head_ m) (lvl_list (heap m) i l0) (tail_ m)
}.

Lemma seg_nodes (h : list SkipListNode) (i : nat) (l : list nat) : ∀ p e q,
  path h i p l → nxt h i (lastd p l) = Some e → q ∈ p :: l → is_Some (h !! q).
Proof.
  induction l as [|q' l IH]; intros p e q Hpath Hend Hq.
  - apply list_elem_of_singleton in Hq as ->. simpl in Hend.
    apply nxt_Some in Hend as (n & -> & _). by eexists.
  - destruct Hpath as [Hpq Hpath]. apply elem_of_cons in Hq as [->|Hq].
    + apply nxt_Some in Hpq as (n & -> & _). by eexists.
    + by apply (IH q' e).
Qed.

Lemma advance_spec (h : list SkipListNode) (tail : nat) (k : string) (i : nat) :
  ∀ l1 fuel p l2,
  path h i p (l1 ++ l2) → nxt h i (lastd p (l1 ++ l2)) = Some tail →
  Forall (λ q, q ≠ tail ∧ key_lt (node_key h q) k) l1 →
  match l2 with
  | [] => True
  | q :: _ => q ≠ tail ∧ ¬ key_lt (node_key h q) k
  end →
  (length l1 < fuel)%nat →
  advance fuel h tail k i p = Some (lastd p l1).
Proof.
  induction l1 as [|q l1 IH]; intros fuel p l2 Hpath Hend Hl1 Hl2 Hfuel;
    (destruct fuel as [|fuel]; [simpl in Hfuel; lia|]).
  - simpl in *. destruct l2 as [|q l2].
    + simpl in Hend. apply nxt_Some in Hend as (n & Hn & Hnx).
      cbn [advance]. rewrite Hn. simpl. rewrite Hnx. simpl.
      by rewrite decide_True.
    + destruct (seg_nodes h i (q :: l2) p tail q Hpath Hend) as [nq Hnq]; [right; by left|].
      destruct Hpath as [Hpq _]. destruct Hl2 as [Hq Hk].
      apply nxt_Some in Hpq as (n & Hn & Hnx).
      cbn [advance]. rewrite Hn. simpl. rewrite Hnx. simpl.
      rewrite decide_False by done. rewrite Hnq. simpl.
      unfold node_key in Hk. rewrite Hnq in Hk. simpl in Hk.
      by rewrite decide_False.
  - destruct (seg_nodes h i ((q :: l1) ++ l2) p tail q Hpath Hend) as [nq Hnq];
      [right; by left|].
    simpl in Hpath, Hend. destruct Hpath as [Hpq Hpath].
    apply Forall_cons in Hl1 as [[Hq Hk] Hl1].
    apply nxt_Some in Hpq as (n & Hn & Hnx). cbn [advance]. rewrite Hn. simpl.
    rewrite Hnx. simpl. rewrite decide_False by done. rewrite Hnq. simpl.
    unfold node_key in Hk. rewrite Hnq in Hk. simpl in Hk.
    rewrite decide_True by done.
    apply (IH fuel q l2); [done..|]. simpl in Hfuel. lia.
Qed.

Lemma lastd_nonempty (p q : nat) (l : list nat) : l ≠ [] → lastd p l = lastd q l.
Proof. by destruct l. Qed.

(** Filtering by a weaker predicate keeps the last node of the stronger
    filter, followed by more nodes. *)
Lemma filter_weaker_split (P Q : nat → Prop) `{∀ x, Decision (P x)} `{∀ x, Decision (Q x)}
    (l : list nat) :
  (∀ x, P x → Q x) →
  ∀ p, ∃ A B, filter Q l = A ++ B ∧ lastd p A = lastd p (filter P l).
Proof.
  intros HPQ. induction l as [|x l IH]; intros p; [by exists [], []|].
  destruct (decide (P x)) as [HP|HP].
  - destruct (IH x) as (A & B & HQ & Hlast).
    exists (x :: A), B. rewrite (filter_cons_True Q) by auto.
    rewrite (filter_cons_True P) by done. split; [by rewrite HQ|done].
  - rewrite (filter_cons_False P) by done.
    destruct (IH p) as (A & B & HQ & Hlast).
    destruct (decide (Q x)) as [HQx|HQx].
    + rewrite (filter_cons_True Q) by done. rewrite HQ.
      destruct A as [|a A].
      * by exists [], (x :: B).
      * exists (x :: a :: A), B. split; [done|]. by rewrite <- Hlast.
    + rewrite (filter_cons_False Q) by done. by exists A, B.
Qed.

Lemma sorted_split (h : list SkipListNode) (k : string) (l : list nat) :
  StronglySorted key_lt (node_key h <$> l) → l = below h k l ++ above h k l.
Proof.
  unfold below, above. induction l as [|x l IH]; [done|].
  rewrite fmap_cons. intros Hs. apply StronglySorted_inv in Hs as [Hs Hall].
  destruct (decide (key_lt (node_key h x) k)) as [Hx|Hx].
  - rewrite filter_cons_True by done. rewrite filter_cons_False by tauto.
    simpl. f_equal. by apply IH.
  - rewrite filter_cons_False by done. rewrite filter_cons_True by done.
    assert (Forall (λ p, ¬ key_lt (node_key h p) k) l) as Hrest.
    { apply Forall_forall. intros r Hr Hrk. apply Hx.
      rewrite Forall_forall in Hall.
      apply (key_lt_trans _ (node_key h r)); [|done].
      apply Hall, list_elem_of_fmap. by exists r. }
    assert (filter (λ p, key_lt (node_key h p) k) l = []) as ->.
    { clear -Hrest. induction Hrest as [|r l Hr _ IHl]; [done|].
      by rewrite filter_cons_False. }
    simpl. f_equal. clear -Hrest. induction Hrest as [|r l Hr _ IHl]; [done|].
    rewrite filter_cons_True by done. by f_equal.
Qed.

(** The node [findNode] stands on after level [i]: the last node before
    [k] that is linked at level [i], head when there is none. *)
Definition pred (m : SkipListMemtable) (l0 : list nat) (k : string) (i : nat) : nat :=
  lastd (head_ m) (lvl_list (heap m) i (below (heap m) k l0)).

Lemma lvl_list_top (m : SkipListMemtable) (l0 l : list nat) :
  inv m l0 → l ⊆ l0 → lvl_list (heap m) MAX_LEVEL l = [].
Proof.
  intros Hinv Hsub. unfold lvl_list.
  pose proof (inv_levels m l0 Hinv) as Hlv. rewrite Forall_forall in Hlv.
  induction l as [|p l IH]; [done|].
  rewrite filter_cons_False; [apply IH; intros x Hx; apply Hsub; by right|].
  unfold tall. specialize (Hlv p (Hsub p ltac:(by left))). lia.
Qed.

Lemma lvl_list_bottom (m : SkipListMemtable) (l0 l : list nat) :
  inv m l0 → l ⊆ l0 → lvl_list (heap m) 0 l = l.
Proof.
  intros Hinv Hsub. unfold lvl_list.
  pose proof (inv_levels m l0 Hinv) as Hlv. rewrite Forall_forall in Hlv.
  induction l as [|p l IH]; [done|].
  rewrite filter_cons_True; [f_equal; apply IH; intros x Hx; apply Hsub; by right|].
  unfold tall. specialize (Hlv p (Hsub p ltac:(by left))). lia.
Qed.

Lemma below_subseteq (h : list SkipListNode) (k : string) (l : list nat) : below h k l ⊆ l.
Proof. intros p Hp. unfold below in Hp. by apply list_elem_of_filter in Hp as [_ ?]. Qed.

Lemma above_subseteq (h : list SkipListNode) (k : string) (l : list nat) : above h k l ⊆ l.
Proof. intros p Hp. unfold above in Hp. by apply list_elem_of_filter in Hp as [_ ?]. Qed.

Lemma lvl_list_subseteq (h : list SkipListNode) (i : nat) (l : list nat) : lvl_list h i l ⊆ l.
Proof. intros p Hp. unfold lvl_list in Hp. by apply list_elem_of_filter in Hp as [_ ?]. Qed.

Lemma length_filter_le {A} (P : A → Prop) `{∀ x, Decision (P x)} (l : list A) :
  (length (filter P l) ≤ length l)%nat.
Proof.
  induction l as [|x l IH]; [done|]. rewrite filter_cons. case_decide; simpl; lia.
Qed.

(** The level-[i] list, cut at [k]. *)
Lemma level_chain (m : SkipListMemtable) (l0 : list nat) (k : string) (i : nat) :
  inv m l0 → (i < MAX_LEVEL)%nat →
  let lo := lvl_list (heap m) i (below (heap m) k l0) in
  let hi := lvl_list (heap m) i (above (heap m) k l0) in
  path (heap m) i (head_ m) (lo ++ hi)
  ∧ nxt (heap m) i (lastd (head_ m) (lo ++ hi)) = Some (tail_ m).
Proof.
  intros Hinv Hi lo hi. destruct (inv_links m l0 Hinv i Hi) as [Hpath Hend].
  rewrite (sorted_split (heap m) k l0 (inv_sorted m l0 Hinv)) in Hpath, Hend.
  unfold lvl_list in Hpath, Hend. by rewrite filter_app in Hpath, Hend.
Qed.

Lemma advance_level (m : SkipListMemtable) (l0 : list nat) (k : string) (i : nat) :
  inv m l0 → (i < MAX_LEVEL)%nat →
  advance (fuel_of m) (heap m) (tail_ m) k i (pred m l0 k (S i)) = Some (pred m l0 k i).
Proof.
  intros Hinv Hi. destruct (level_chain m l0 k i Hinv Hi) as [Hpath Hend].
  unfold pred. set (lo := below (heap m) k l0) in *.
  destruct (filter_weaker_split (tall (heap m) (S i)) (tall (heap m) i) lo
              ltac:(unfold tall; lia) (head_ m)) as (A & B & Hsplit & Hlast).
  fold (lvl_list (heap m) i lo) in Hsplit. fold (lvl_list (heap m) (S i) lo) in Hlast.
  rewrite Hsplit, <- app_assoc in Hpath, Hend.
  apply path_app in Hpath as [_ Hpath]. rewrite lastd_app in Hend.
  rewrite Hlast in Hpath, Hend.
  pose proof (inv_fresh m l0 Hinv) as Hfresh. rewrite Forall_forall in Hfresh.
  assert (∀ q, q ∈ lvl_list (heap m) i lo → q ∈ l0 ∧ key_lt (node_key (heap m) q) k) as Hlo.
  { intros q Hq%lvl_list_subseteq. unfold lo, below in Hq.
    by apply list_elem_of_filter in Hq as [? ?]. }
  rewrite (advance_spec (heap m) (tail_ m) k i B (fuel_of m) _ _ Hpath Hend).
  - f_equal. by rewrite Hsplit, lastd_app, Hlast.
  - apply Forall_forall. intros q Hq.
    destruct (Hlo q) as [Hq0 Hk]; [rewrite Hsplit; apply elem_of_app; by right|].
    split; [|done]. by apply Hfresh.
  - destruct (lvl_list (heap m) i (above (heap m) k l0)) as [|q hi] eqn:Hhi; [done|].
    assert (q ∈ lvl_list (heap m) i (above (heap m) k l0)) as Hq by (rewrite Hhi; by left).
    apply lvl_list_subseteq in Hq. unfold above in Hq.
    apply list_elem_of_filter in Hq as [Hk Hq]. split; [|done]. by apply Hfresh.
  - pose proof (inv_len m l0 Hinv) as Hlen. unfold fuel_of.
    assert (length (lvl_list (heap m) i lo) ≤ length l0)%nat.
    { unfold lvl_list, lo, below.
      etrans; [apply length_filter_le|apply length_filter_le]. }
    rewrite Hsplit, length_app in *. lia.
Qed.

Lemma pred_top (m : SkipListMemtable) (l0 : list nat) (k : string) :
  inv m l0 → pred m l0 k MAX_LEVEL = head_ m.
Proof.
  intros Hinv. unfold pred.
  by rewrite (lvl_list_top m l0 _ Hinv (below_subseteq _ _ _)).
Qed.

Lemma descend_spec (m : SkipListMemtable) (l0 : list nat) (k : string) (cnt : nat) :
  inv m l0 → (cnt ≤ MAX_LEVEL)%nat →
  ∀ update, length update = MAX_LEVEL →
  ∃ update',
    descend (fuel_of m) (heap m) (tail_ m) k cnt (pred m l0 k cnt) update
    = Some (pred m l0 k 0, update')
    ∧ length update' = MAX_LEVEL
    ∧ (∀ i, (i < cnt)%nat → update' !! i = Some (pred m l0 k i))
    ∧ (∀ i, (cnt ≤ i)%nat → update' !! i = update !! i).
Proof.
  intros Hinv. induction cnt as [|i IH]; intros Hcnt update Hlen.
  { exists update. split; [done|]. split; [done|]. split; [lia|done]. }
  cbn [descend]. rewrite (advance_level m l0 k i Hinv) by lia. simpl.
  destruct (IH ltac:(lia) (<[i := pred m l0 k i]> update)) as (update' & Hrun & Hlen' & Hlow & Hhigh).
  { by rewrite length_insert. }
  exists update'. split; [done|]. split; [done|]. split.
  - intros j Hj. destruct (decide (j = i)) as [->|Hne]; [|apply Hlow; lia].
    rewrite Hhigh by lia. apply list_lookup_insert_eq. lia.
  - intros j Hj. rewrite Hhigh by lia. apply list_lookup_insert_ne. lia.
Qed.

(** The node that holds [k], if any. *)
Definition lookup_node (h : list SkipListNode) (l0 : list nat) (k : string) : option nat :=
  head (filter (λ p, node_key h p = k) l0).

Lemma lookup_node_below (h : list SkipListNode) (k : string) (l : list nat) :
  filter (λ p, node_key h p = k) (below h k l) = [].
Proof.
  unfold below. induction l as [|p l IH]; [done|].
  rewrite filter_cons. case_decide as Hp; [|done].
  rewrite filter_cons_False; [done|]. intros Heq. rewrite Heq in Hp.
  by apply key_lt_irrefl in Hp.
Qed.

Lemma lookup_node_above (h : list SkipListNode) (k : string) (l : list nat) :
  StronglySorted key_lt (node_key h <$> l) →
  lookup_node h l k = head (filter (λ p, node_key h p = k) (above h k l)).
Proof.
  intros Hs. unfold lookup_node. rewrite (sorted_split h k l Hs) at 1.
  by rewrite filter_app, lookup_node_below.
Qed.

Lemma findNode_spec (m : SkipListMemtable) (l0 : list nat) (k : string) :
  inv m l0 →
  ∃ update,
    findNode m k = Some (lookup_node (heap m) l0 k, update)
    ∧ length update = MAX_LEVEL
    ∧ ∀ i, (i < MAX_LEVEL)%nat → update !! i = Some (pred m l0 k i).
Proof.
  intros Hinv. unfold findNode.
  destruct (descend_spec m l0 k MAX_LEVEL Hinv ltac:(done) (replicate MAX_LEVEL 0%nat))
    as (update & Hrun & Hlen & Hup & _); [by rewrite length_replicate|].
  rewrite (pred_top m l0 k Hinv) in Hrun. rewrite Hrun. cbn [mbind option_bind].
  exists update. split; [|done].
  destruct (level_chain m l0 k 0 Hinv ltac:(unfold MAX_LEVEL; lia)) as [Hpath Hend].
  rewrite (lvl_list_bottom m l0 _ Hinv (below_subseteq _ _ _)) in Hpath, Hend.
  rewrite (lvl_list_bottom m l0 _ Hinv (above_subseteq _ _ _)) in Hpath, Hend.
  assert (pred m l0 k 0 = lastd (head_ m) (below (heap m) k l0)) as Hp0.
  { unfold pred. by rewrite (lvl_list_bottom m l0 _ Hinv (below_subseteq _ _ _)). }
  rewrite Hp0. apply path_app in Hpath as [_ Hpath]. rewrite lastd_app in Hend.
  pose proof (inv_sorted m l0 Hinv) as Hsorted.
  pose proof (sorted_split (heap m) k l0 Hsorted) as Hsplit.
  rewrite (lookup_node_above (heap m) k l0 Hsorted).
  pose proof (inv_fresh m l0 Hinv) as Hfresh. rewrite Forall_forall in Hfresh.
  destruct (above (heap m) k l0) as [|c hi] eqn:Hhi.
  - simpl in Hend. apply nxt_Some in Hend as (n & -> & Hnx). simpl. rewrite Hnx. simpl.
    by rewrite decide_True.
  - destruct (seg_nodes (heap m) 0 (c :: hi) _ _ c Hpath Hend) as [nc Hnc]; [right; by left|].
    destruct Hpath as [Hpc _]. apply nxt_Some in Hpc as (n & -> & Hnx). simpl.
    rewrite Hnx. simpl.
    assert (c ∈ l0) as Hc by (apply (above_subseteq (heap m) k); rewrite Hhi; by left).
    rewrite decide_False by (by apply Hfresh). rewrite Hnc. simpl.
    assert (node_key (heap m) c = key nc) as Hkc by (unfold node_key; by rewrite Hnc).
    destruct (decide (key nc = k)) as [Hk|Hk].
    + by rewrite filter_cons_True by congruence.
    + rewrite filter_cons_False by congruence. do 2 f_equal. symmetry.
      (* the nodes after [c] hold larger keys *)
      rewrite Hsplit, fmap_app in Hsorted.
      apply StronglySorted_app_1_r in Hsorted. rewrite fmap_cons in Hsorted.
      apply StronglySorted_inv in Hsorted as [_ Hall]. rewrite Forall_forall in Hall.
      assert (¬ key_lt (node_key (heap m) c) k) as Hnlt.
      { assert (c ∈ above (heap m) k l0) as Hc' by (rewrite Hhi; by left).
        unfold above in Hc'. by apply list_elem_of_filter in Hc' as [? _]. }
      assert (key_lt k (node_key (heap m) c)) as Hkc'.
      { apply key_lt_total; [done|congruence]. }
      clear -Hall Hkc'. induction hi as [|r hi IH]; [done|].
      rewrite filter_cons_False.
      * apply IH. intros x Hx. apply Hall. rewrite fmap_cons. by right.
      * intros Heq. apply (key_lt_irrefl k).
        apply (key_lt_trans _ (node_key (heap m) c)); [done|].
        rewrite <- Heq. apply Hall. rewrite fmap_cons. by left.
Qed.

(** ** What the skip list holds *)

(** The entries as a map from key to value and deletion mark. *)
Definition view (h : list SkipListNode) (l0 : list nat) : gmap string (string * bool) :=
  list_to_map ((λ p, (node_key h p, (node_value h p, node_deleted h p))) <$> l0).

Lemma view_lookup (h : list SkipListNode) (l0 : list nat) (k : string) :
  view h l0 !! k = (λ p, (node_value h p, node_deleted h p)) <$> lookup_node h l0 k.
Proof.
  unfold view, lookup_node. induction l0 as [|p l0 IH]; [done|].
  rewrite fmap_cons. cbn [list_to_map]. rewrite filter_cons. case_decide as Hp.
  - simpl. rewrite <- Hp. by rewrite lookup_insert_eq.
  - simpl. by rewrite lookup_insert_ne.
Qed.

Lemma lookup_node_Some (h : list SkipListNode) (l0 : list nat) (k : string) (p : nat) :
  lookup_node h l0 k = Some p → p ∈ l0 ∧ node_key h p = k.
Proof.
  unfold lookup_node. intros Hh.
  assert (p ∈ filter (λ p, node_key h p = k) l0) as Hp.
  { destruct (filter _ l0) as [|q l]; [done|]. injection Hh as ->. by left. }
  by apply list_elem_of_filter in Hp as [? ?].
Qed.

Lemma lookup_node_None (h : list SkipListNode) (l0 : list nat) (k : string) (p : nat) :
  lookup_node h l0 k = None → p ∈ l0 → node_key h p ≠ k.
Proof.
  unfold lookup_node. intros Hh Hp Hk.
  assert (p ∈ filter (λ p, node_key h p = k) l0) as Hp' by (by apply list_elem_of_filter).
  destruct (filter _ l0); [by apply elem_of_nil in Hp'|done].
Qed.

Lemma sorted_NoDup (h : list SkipListNode) (l0 : list nat) :
  StronglySorted key_lt (node_key h <$> l0) → NoDup l0.
Proof.
  intros Hs. apply (NoDup_fmap_1 (node_key h)).
  induction Hs as [|x l Hs IH Hall]; constructor; [|done].
  intros Hx. rewrite Forall_forall in Hall. by apply (key_lt_irrefl x), Hall.
Qed.

Lemma NoDup_fmap_eq_keys (h : list SkipListNode) (l0 : list nat) (q p : nat) :
  NoDup (node_key h <$> l0) → q ∈ l0 → p ∈ l0 → node_key h q = node_key h p → q = p.
Proof.
  induction l0 as [|x l0 IH]; intros Hnd Hq Hp Heq; [by apply elem_of_nil in Hq|].
  rewrite fmap_cons in Hnd. apply NoDup_cons in Hnd as [Hx Hnd].
  apply elem_of_cons in Hq as [->|Hq], Hp as [->|Hp]; try done.
  - exfalso. apply Hx. rewrite Heq. apply list_elem_of_fmap. by exists p.
  - exfalso. apply Hx. rewrite <- Heq. apply list_elem_of_fmap. by exists q.
  - by apply IH.
Qed.

Lemma lookup_node_unique (h : list SkipListNode) (l0 : list nat) (k : string) (p : nat) :
  StronglySorted key_lt (node_key h <$> l0) → p ∈ l0 → node_key h p = k →
  lookup_node h l0 k = Some p.
Proof.
  intros Hs Hp Hk. destruct (lookup_node h l0 k) as [q|] eqn:Hq.
  - apply lookup_node_Some in Hq as [Hq Hkq]. f_equal.
    assert (NoDup (node_key h <$> l0)) as Hnd.
    { clear -Hs. induction Hs as [|x l Hs IH Hall]; constructor; [|done].
      intros Hx. rewrite Forall_forall in Hall. by apply (key_lt_irrefl x), Hall. }
    apply (NoDup_fmap_eq_keys h l0 q p Hnd); congruence.
  - by apply (lookup_node_None h l0 k p) in Hq.
Qed.

(** ** Heaps that agree on the links *)

(** [h'] has the nodes of [h] below index [n] with the same key, level
    and pointers. *)
Definition agree (h h' : list SkipListNode) (n : nat) : Prop :=
  ∀ p, (p < n)%nat →
    key <$> h' !! p = key <$> h !! p
    ∧ level <$> h' !! p = level <$> h !! p
    ∧ next <$> h' !! p = next <$> h !! p.

Lemma agree_nxt (h h' : list SkipListNode) (n : nat) (i p : nat) :
  agree h h' n → (p < n)%nat → nxt h' i p = nxt h i p.
Proof.
  intros Hag Hp. destruct (Hag p Hp) as (_ & _ & Hn). unfold nxt.
  destruct (h' !! p) as [a|], (h !! p) as [b|]; simpl in *; try done.
  by injection Hn as ->.
Qed.

Lemma agree_key (h h' : list SkipListNode) (n : nat) (p : nat) :
  agree h h' n → (p < n)%nat → node_key h' p = node_key h p.
Proof. intros Hag Hp. destruct (Hag p Hp) as (Hk & _). unfold node_key. by rewrite Hk. Qed.

Lemma agree_level (h h' : list SkipListNode) (n : nat) (p : nat) :
  agree h h' n → (p < n)%nat → node_level h' p = node_level h p.
Proof. intros Hag Hp. destruct (Hag p Hp) as (_ & Hl & _). unfold node_level. by rewrite Hl. Qed.

Lemma filter_ext_in {A} (P Q : A → Prop) `{∀ x, Decision (P x)} `{∀ x, Decision (Q x)}
    (l : list A) :
  (∀ x, x ∈ l → P x ↔ Q x) → filter P l = filter Q l.
Proof.
  induction l as [|x l IH]; intros Hext; [done|].
  rewrite !filter_cons. rewrite IH by (intros y Hy; apply Hext; by right).
  destruct (decide (P x)) as [HP|HP], (decide (Q x)) as [HQ|HQ]; try done;
    exfalso; apply (Hext x ltac:(by left)) in HP || apply (Hext x ltac:(by left)) in HQ; done.
Qed.

Lemma fmap_ext_in {A B} (f g : A → B) (l : list A) :
  (∀ x, x ∈ l → f x = g x) → f <$> l = g <$> l.
Proof.
  induction l as [|x l IH]; intros Hext; [done|].
  rewrite !fmap_cons, IH by (intros y Hy; apply Hext; by right).
  by rewrite (Hext x) by (by left).
Qed.

Lemma inv_agree (m m' : SkipListMemtable) (l0 : list nat) :
  inv m l0 →
  agree (heap m) (heap m') (length (heap m)) →
  (length (heap m) ≤ length (heap m'))%nat →
  Forall (λ n, length (next n) = MAX_LEVEL) (heap m') →
  head_ m' = head_ m → tail_ m' = tail_ m →
  inv m' l0.
Proof.
  intros Hinv Hag Hlen Hnext Hh Ht.
  pose proof (inv_fresh m l0 Hinv) as Hfresh. rewrite Forall_forall in Hfresh.
  assert (∀ p, p ∈ l0 → node_key (heap m') p = node_key (heap m) p) as Hkey.
  { intros p Hp. apply (agree_key _ _ _ _ Hag). by apply Hfresh. }
  assert (∀ p, p ∈ l0 → node_level (heap m') p = node_level (heap m) p) as Hlevel.
  { intros p Hp. apply (agree_level _ _ _ _ Hag). by apply Hfresh. }
  split; rewrite ?Hh, ?Ht.
  - apply Hinv.
  - pose proof (inv_head m l0 Hinv). lia.
  - pose proof (inv_tail m l0 Hinv). lia.
  - apply Forall_forall. intros p Hp. destruct (Hfresh p Hp) as (? & ? & ?).
    split; [lia|done].
  - pose proof (inv_len m l0 Hinv). lia.
  - done.
  - pose proof (inv_levels m l0 Hinv) as Hlv. rewrite Forall_forall in Hlv.
    apply Forall_forall. intros p Hp. rewrite Hlevel by done. by apply Hlv.
  - rewrite (fmap_ext_in _ (node_key (heap m)) l0 Hkey). apply Hinv.
  - intros i Hi. destruct (inv_links m l0 Hinv i Hi) as [Hpath Hend].
    assert (lvl_list (heap m') i l0 = lvl_list (heap m) i l0) as ->.
    { apply filter_ext_in. intros p Hp. unfold tall. by rewrite Hlevel. }
    assert (∀ q, q ∈ head_ m :: lvl_list (heap m) i l0 →
                 nxt (heap m') i q = nxt (heap m) i q) as Hsame.
    { intros q Hq. apply (agree_nxt _ _ _ _ _ Hag).
      apply elem_of_cons in Hq as [->|Hq%lvl_list_subseteq]; [apply Hinv|by apply Hfresh]. }
    split; [by apply (path_frame_all (heap m))|].
    rewrite Hsame; [done|]. destruct (lastd_elem (head_ m) (lvl_list (heap m) i l0)) as [->|?];
      [by left|by right].
Qed.

Lemma agree_alter (h : list SkipListNode) (f : SkipListNode → SkipListNode) (e n : nat) :
  (∀ x, key (f x) = key x ∧ level (f x) = level x ∧ next (f x) = next x) →
  agree h (alter f e h) n.
Proof.
  intros Hf p _. destruct (decide (e = p)) as [->|Hne].
  - rewrite list_lookup_alter_eq. destruct (h !! p) as [x|]; [|done]. simpl.
    destruct (Hf x) as (-> & -> & ->). done.
  - by rewrite list_lookup_alter_ne.
Qed.

Lemma Forall_next_alter (h : list SkipListNode) (f : SkipListNode → SkipListNode) (e : nat) :
  (∀ x, next (f x) = next x) →
  Forall (λ n, length (next n) = MAX_LEVEL) h →
  Forall (λ n, length (next n) = MAX_LEVEL) (alter f e h).
Proof. intros Hf Hall. apply Forall_alter; [done|]. intros x _. by rewrite Hf. Qed.

(** Rewriting value and deletion mark of the node that holds [k]. *)
Lemma view_alter (h : list SkipListNode) (l0 : list nat) (k : string) (e : nat)
    (v : string) (d : bool) :
  StronglySorted key_lt (node_key h <$> l0) →
  lookup_node h l0 k = Some e → (e < length h)%nat →
  view (alter (λ n, mkNode (key n) v d (next n) (level n)) e h) l0
  = <[k := (v, d)]> (view h l0).
Proof.
  intros Hs He Hlt. set (h' := alter _ e h).
  assert (agree h h' (length h)) as Hag by (by apply agree_alter).
  assert (∀ p, (p < length h)%nat → node_key h' p = node_key h p) as Hkey.
  { intros p Hp. by apply (agree_key _ _ _ _ Hag). }
  pose proof (lookup_node_Some h l0 k e He) as [Hel Hek].
  destruct (lookup_lt_is_Some_2 h e Hlt) as [ne Hne].
  assert (∀ k', lookup_node h' l0 k' = lookup_node h l0 k') as Hlookup.
  { intros k'. unfold lookup_node. f_equal. apply filter_ext_in. intros p Hp.
    unfold node_key, h'. destruct (decide (e = p)) as [->|Hnp].
    - rewrite list_lookup_alter_eq. by destruct (h !! p).
    - by rewrite list_lookup_alter_ne. }
  apply map_eq. intros k'. rewrite view_lookup, Hlookup.
  destruct (decide (k = k')) as [<-|Hk].
  - rewrite lookup_insert_eq, He. simpl. unfold node_value, node_deleted, h'.
    by rewrite list_lookup_alter_eq, Hne.
  - rewrite lookup_insert_ne by done. rewrite view_lookup.
    destruct (lookup_node h l0 k') as [p|] eqn:Hp; [|done]. simpl.
    apply lookup_node_Some in Hp as [_ Hkp].
    assert (e ≠ p) as Hep by (intros ->; congruence).
    unfold node_value, node_deleted, h'. by rewrite list_lookup_alter_ne.
Qed.

(** ** Linking a new node *)

Lemma nxt_set_next (h : list SkipListNode) (p i : nat) (q : option nat) (j r : nat) :
  (p < length h)%nat → (i < MAX_LEVEL)%nat →
  Forall (λ n, length (next n) = MAX_LEVEL) h →
  nxt (set_next h p i q) j r = if decide (r = p ∧ j = i) then q else nxt h j r.
Proof.
  intros Hp Hi Hall. unfold nxt, set_next.
  destruct (decide (p = r)) as [->|Hne].
  - rewrite list_lookup_alter_eq.
    destruct (lookup_lt_is_Some_2 h r Hp) as [n Hn]. rewrite Hn. simpl.
    pose proof (Forall_lookup_1 _ _ _ _ Hall Hn) as Hlen. simpl in Hlen.
    destruct (decide (i = j)) as [->|Hij].
    + rewrite decide_True by done. rewrite list_lookup_insert_eq by lia. done.
    + rewrite decide_False by (intros [_ ?]; done). by rewrite list_lookup_insert_ne.
  - rewrite list_lookup_alter_ne by done. rewrite decide_False; [done|]. intros [? _]. done.
Qed.

Lemma set_next_fields (h : list SkipListNode) (p i : nat) (q : option nat) (r : nat) :
  key <$> set_next h p i q !! r = key <$> h !! r
  ∧ value <$> set_next h p i q !! r = value <$> h !! r
  ∧ is_deleted <$> set_next h p i q !! r = is_deleted <$> h !! r
  ∧ level <$> set_next h p i q !! r = level <$> h !! r.
Proof.
  unfold set_next. destruct (decide (p = r)) as [->|Hne].
  - rewrite list_lookup_alter_eq. by destruct (h !! r).
  - by rewrite list_lookup_alter_ne.
Qed.

Lemma set_next_next_length (h : list SkipListNode) (p i : nat) (q : option nat) :
  Forall (λ n, length (next n) = MAX_LEVEL) h →
  Forall (λ n, length (next n) = MAX_LEVEL) (set_next h p i q).
Proof.
  intros Hall. apply Forall_alter; [done|]. intros x _ Hx. simpl. by rewrite length_insert.
Qed.

Lemma length_set_next (h : list SkipListNode) (p i : nat) (q : option nat) :
  length (set_next h p i q) = length h.
Proof. apply length_alter. Qed.

(** After the loop, at each level [j] it ran over, [update[j]] points to
    the new node and the new node to what [update[j]] pointed to;
    nothing else changes. *)
Lemma link_loop_spec (N : nat) (update : list nat) (cnt : nat) :
  ∀ i h,
  (i + cnt ≤ MAX_LEVEL)%nat → (N < length h)%nat →
  Forall (λ n, length (next n) = MAX_LEVEL) h →
  (∀ j, (i ≤ j < i + cnt)%nat → ∃ u, update !! j = Some u ∧ (u < length h)%nat ∧ u ≠ N) →
  ∃ h',
    link_loop N update i cnt h = Some h'
    ∧ length h' = length h
    ∧ Forall (λ n, length (next n) = MAX_LEVEL) h'
    ∧ (∀ r, key <$> h' !! r = key <$> h !! r
            ∧ value <$> h' !! r = value <$> h !! r
            ∧ is_deleted <$> h' !! r = is_deleted <$> h !! r
            ∧ level <$> h' !! r = level <$> h !! r)
    ∧ (∀ j r, nxt h' j r =
         if decide (i ≤ j < i + cnt)%nat then
           match update !! j with
           | Some u =>
               if decide (r = u) then Some N
               else if decide (r = N) then nxt h j u else nxt h j r
           | None => nxt h j r
           end
         else nxt h j r).
Proof.
  induction cnt as [|cnt IH]; intros i h Hcnt HN Hall Hup.
  { exists h. split; [done|]. split; [done|]. split; [done|]. split; [done|].
    intros j r. rewrite decide_False by lia. done. }
  destruct (Hup i ltac:(lia)) as (u & Hu & Hul & HuN).
  destruct (lookup_lt_is_Some_2 h u Hul) as [nu Hnu].
  pose proof (Forall_lookup_1 _ _ _ _ Hall Hnu) as Hlen. simpl in Hlen.
  destruct (lookup_lt_is_Some_2 (next nu) i ltac:(lia)) as [nx Hnx].
  cbn [link_loop]. rewrite Hu. simpl. rewrite Hnu. simpl. rewrite Hnx. simpl.
  set (h1 := set_next h N i nx). set (h2 := set_next h1 u i (Some N)).
  assert (Forall (λ n, length (next n) = MAX_LEVEL) h1) as Hall1
    by (by apply set_next_next_length).
  assert (Forall (λ n, length (next n) = MAX_LEVEL) h2) as Hall2
    by (by apply set_next_next_length).
  assert (length h2 = length h) as Hlen2 by (unfold h2, h1; by rewrite !length_set_next).
  assert (nxt h i u = nx) as Hnxt by (unfold nxt; by rewrite Hnu; simpl; rewrite Hnx).
  assert (∀ j r, nxt h2 j r =
            if decide (r = u ∧ j = i) then Some N
            else if decide (r = N ∧ j = i) then nxt h i u else nxt h j r) as Hstep.
  { intros j r. unfold h2. rewrite nxt_set_next;
      [|unfold h1; rewrite length_set_next; lia|lia|done].
    case_decide; [done|]. unfold h1. rewrite nxt_set_next by (done || lia).
    by rewrite Hnxt. }
  destruct (IH (S i) h2) as (h' & Hrun & Hlen' & Hall' & Hfields & Hnxt');
    [lia|lia|done| |].
  { intros j Hj. destruct (Hup j ltac:(lia)) as (u' & ? & ? & ?). exists u'.
    split; [done|]. split; [lia|done]. }
  exists h'. split; [done|]. split; [lia|]. split; [done|]. split.
  - intros r. destruct (Hfields r) as (-> & -> & -> & ->). unfold h2.
    destruct (set_next_fields h1 u i (Some N) r) as (-> & -> & -> & ->). unfold h1.
    apply set_next_fields.
  - intros j r. rewrite Hnxt'.
    destruct (decide (j = i)) as [->|Hji].
    + rewrite decide_False by lia. rewrite decide_True by lia. rewrite Hu, Hstep.
      destruct (decide (r = u)) as [->|Hru].
      * by rewrite decide_True.
      * rewrite decide_False by (intros [? _]; done).
        destruct (decide (r = N)) as [->|HrN]; [by rewrite decide_True|].
        rewrite decide_False; [done|]. intros [? _]. done.
    + assert (∀ r', nxt h2 j r' = nxt h j r') as Hsame.
      { intros r'. rewrite Hstep.
        rewrite decide_False by (intros [_ ?]; done).
        by rewrite decide_False by (intros [_ ?]; done). }
      destruct (update !! j) as [u'|]; rewrite ?Hsame;
        repeat case_decide; try lia; done.
Qed.

Lemma inv_extend (m : SkipListMemtable) (l0 : list nat) (n : SkipListNode) :
  inv m l0 → length (next n) = MAX_LEVEL → inv (set_heap m (heap m ++ [n])) l0.
Proof.
  intros Hinv Hn. apply (inv_agree m); [done| | | |done|done]; cbn [set_heap heap].
  - intros p Hp. by rewrite lookup_app_l.
  - rewrite length_app. lia.
  - apply Forall_app. split; [apply Hinv|]. by constructor.
Qed.

Lemma NoDup_filter {A} (P : A → Prop) `{∀ x, Decision (P x)} (l : list A) :
  NoDup l → NoDup (filter P l).
Proof.
  induction 1 as [|x l Hx Hnd IH]; [constructor|].
  rewrite filter_cons. case_decide; [|done]. constructor; [|done].
  intros Hin. apply Hx. by apply list_elem_of_filter in Hin as [_ ?].
Qed.

(** The new node [N], not yet linked, is linked at its [lvl] lowest
    levels behind the nodes in [update]: the list of each level gains [N]
    at the place of its key. *)
Lemma link_new_inv (m1 : SkipListMemtable) (l0 : list nat) (k : string) (N : nat)
    (lvl : Z) (update : list nat) :
  inv m1 l0 →
  lookup_node (heap m1) l0 k = None →
  (N < length (heap m1))%nat → N ∉ l0 → N ≠ head_ m1 → N ≠ tail_ m1 →
  node_key (heap m1) N = k → node_level (heap m1) N = lvl →
  1 ≤ lvl ≤ Z.of_nat MAX_LEVEL →
  (length l0 + 1 < length (heap m1))%nat →
  (∀ i, (i < MAX_LEVEL)%nat → update !! i = Some (pred m1 l0 k i)) →
  ∃ h2,
    link_loop N update 0 (Z.to_nat lvl) (heap m1) = Some h2
    ∧ (∀ r, node_key h2 r = node_key (heap m1) r
            ∧ node_value h2 r = node_value (heap m1) r
            ∧ node_deleted h2 r = node_deleted (heap m1) r)
    ∧ inv (set_heap m1 h2) (below (heap m1) k l0 ++ N :: above (heap m1) k l0).
Proof.
  intros Hinv Hnone HN HNl0 HNh HNt HNk HNl Hlvl Hroom Hup.
  set (h1 := heap m1) in *.
  pose proof (inv_fresh m1 l0 Hinv) as Hfresh. rewrite Forall_forall in Hfresh.
  pose proof (inv_sorted m1 l0 Hinv) as Hsorted. fold h1 in Hsorted.
  pose proof (sorted_split h1 k l0 Hsorted) as Hsplit.
  pose proof (sorted_NoDup h1 l0 Hsorted) as Hnd.
  set (lo := below h1 k l0) in *. set (hi := above h1 k l0) in *.
  assert (∀ q, q ∈ lo → q ∈ l0) as Hlo by apply below_subseteq.
  assert (∀ q, q ∈ hi → q ∈ l0) as Hhi by apply above_subseteq.
  assert (∀ i, pred m1 l0 k i = head_ m1 ∨ pred m1 l0 k i ∈ lo) as Hpred.
  { intros i. unfold pred. fold h1 lo.
    destruct (lastd_elem (head_ m1) (lvl_list h1 i lo)) as [->|Hin]; [by left|right].
    by apply lvl_list_subseteq in Hin. }
  assert (∀ i, pred m1 l0 k i ≠ N) as HpN.
  { intros i. destruct (Hpred i) as [->|Hin]; [done|]. intros Heq. rewrite Heq in Hin.
    by apply HNl0, Hlo. }
  destruct (link_loop_spec N update (Z.to_nat lvl) 0 h1) as (h2 & Hrun & Hlen2 & Hall2 & Hfields & Hnxt2).
  { unfold MAX_LEVEL in *. lia. }
  { done. }
  { apply Hinv. }
  { intros j Hj. exists (pred m1 l0 k j). split; [apply Hup; unfold MAX_LEVEL in *; lia|].
    split; [|done]. destruct (Hpred j) as [->|Hin]; [apply Hinv|]. by apply Hfresh, Hlo. }
  exists h2. split; [done|].
  assert (∀ r, node_key h2 r = node_key h1 r ∧ node_value h2 r = node_value h1 r
               ∧ node_deleted h2 r = node_deleted h1 r ∧ node_level h2 r = node_level h1 r)
    as Hnode.
  { intros r. destruct (Hfields r) as (Hk & Hv & Hd & Hl).
    unfold node_key, node_value, node_deleted, node_level. by rewrite Hk, Hv, Hd, Hl. }
  split; [intros r; destruct (Hnode r) as (? & ? & ? & _); done|].
  assert (∀ i, lvl_list h2 i (lo ++ N :: hi)
               = lvl_list h1 i lo ++ (if decide (Z.of_nat i < lvl) then [N] else [])
                   ++ lvl_list h1 i hi) as Hlvl_list.
  { intros i. unfold lvl_list. rewrite filter_app, filter_cons.
    assert (∀ l : list nat, filter (tall h2 i) l = filter (tall h1 i) l) as Hsame.
    { intros l. apply filter_ext_in. intros p _. unfold tall.
      destruct (Hnode p) as (_ & _ & _ & ->). done. }
    rewrite !Hsame. f_equal.
    assert (tall h2 i N ↔ Z.of_nat i < lvl) as Htall.
    { unfold tall. destruct (Hnode N) as (_ & _ & _ & ->). by rewrite HNl. }
    destruct (decide (tall h2 i N)), (decide (Z.of_nat i < lvl)); try done; tauto. }
  split; cbn [set_heap heap head_ tail_].
  - apply Hinv.
  - rewrite Hlen2. apply Hinv.
  - rewrite Hlen2. apply Hinv.
  - rewrite Hlen2. apply Forall_app. split; [|constructor].
    + apply Forall_forall. intros p Hp. by apply Hfresh, Hlo.
    + done.
    + apply Forall_forall. intros p Hp. by apply Hfresh, Hhi.
  - rewrite Hlen2. rewrite length_app. simpl.
    rewrite Hsplit, length_app in Hroom. lia.
  - done.
  - pose proof (inv_levels m1 l0 Hinv) as Hlv. rewrite Forall_forall in Hlv. fold h1 in Hlv.
    apply Forall_app. split; [|constructor].
    + apply Forall_forall. intros p Hp. destruct (Hnode p) as (_ & _ & _ & ->).
      by apply Hlv, Hlo.
    + destruct (Hnode N) as (_ & _ & _ & ->). by rewrite HNl.
    + apply Forall_forall. intros p Hp. destruct (Hnode p) as (_ & _ & _ & ->).
      by apply Hlv, Hhi.
  - rewrite (fmap_ext_in _ (node_key h1)) by (intros p _; by destruct (Hnode p) as (-> & _)).
    rewrite Hsplit, fmap_app in Hsorted.
    apply StronglySorted_app in Hsorted as (Hcross & Hslo & Hshi).
    rewrite fmap_app, fmap_cons, HNk.
    apply StronglySorted_app_2; [|done|].
    + intros x1 x2 [p1 [-> Hp1]]%list_elem_of_fmap Hx2.
      assert (key_lt (node_key h1 p1) k) as Hp1k.
      { unfold lo, below in Hp1. by apply list_elem_of_filter in Hp1 as [? _]. }
      apply elem_of_cons in Hx2 as [->|[p2 [-> Hp2]]%list_elem_of_fmap]; [done|].
      apply Hcross; apply list_elem_of_fmap; eauto.
    + constructor; [done|]. apply Forall_forall.
      intros x [p [-> Hp]]%list_elem_of_fmap.
      apply key_lt_total.
      * unfold hi, above in Hp. by apply list_elem_of_filter in Hp as [? _].
      * by apply (lookup_node_None h1 l0 k p Hnone), Hhi.
  - intros i Hi. rewrite Hlvl_list.
    destruct (level_chain m1 l0 k i Hinv Hi) as [Hpath Hend].
    fold h1 lo hi in Hpath, Hend.
    set (lo_i := lvl_list h1 i lo) in *. set (hi_i := lvl_list h1 i hi) in *.
    assert (pred m1 l0 k i = lastd (head_ m1) lo_i) as Hu by done.
    assert (∀ q, q ∈ lo_i → q ∈ lo) as Hloi by apply lvl_list_subseteq.
    assert (∀ q, q ∈ hi_i → q ∈ hi) as Hhii by apply lvl_list_subseteq.
    assert (∀ q, q ∈ head_ m1 :: lo_i → q ≠ N) as HqN.
    { intros q [->|Hq]%elem_of_cons; [done|]. intros ->. by apply HNl0, Hlo, Hloi. }
    assert (∀ q, q ∈ hi_i → q ≠ N ∧ q ≠ lastd (head_ m1) lo_i) as Hhiq.
    { intros q Hq. split; [intros ->; by apply HNl0, Hhi, Hhii|]. intros Heq.
      rewrite Hsplit in Hnd. apply NoDup_app in Hnd as (_ & Hdisj & _).
      destruct (lastd_elem (head_ m1) lo_i) as [Hl|Hl].
      - rewrite Hl in Heq. subst q.
        by destruct (Hfresh (head_ m1)) as (_ & ? & _); [apply Hhi, Hhii|].
      - apply (Hdisj q); [apply Hloi; by rewrite Heq|by apply Hhii]. }
    apply path_app in Hpath as [Hpath_lo Hpath_hi].
    rewrite lastd_app in Hend.
    destruct (decide (Z.of_nat i < lvl)) as [Htall|Htall].
    + assert (∀ r, nxt h2 i r =
                if decide (r = lastd (head_ m1) lo_i) then Some N
                else if decide (r = N) then nxt h1 i (lastd (head_ m1) lo_i)
                     else nxt h1 i r) as Hn.
      { intros r. rewrite Hnxt2. rewrite decide_True by lia.
        by rewrite (Hup i Hi), Hu. }
      split.
      * apply path_app. split.
        -- apply (path_frame h1); [|constructor|done].
           ++ intros q Hq Hne. rewrite Hn. rewrite decide_False by done.
              by rewrite decide_False by (by apply HqN).
           ++ intros Hin. by destruct (Hfresh (head_ m1)) as (_ & ? & _); [apply Hlo, Hloi|].
           ++ apply NoDup_filter, NoDup_filter. done.
        -- cbn [path app]. split; [rewrite Hn; by rewrite decide_True|].
           destruct hi_i as [|c rest] eqn:Hhi_i; [done|].
           destruct Hpath_hi as [Hc Hrest]. split.
           ++ rewrite Hn. rewrite decide_False.
              ** by rewrite decide_True.
              ** intros Heq. apply (HqN (lastd (head_ m1) lo_i)); [|done].
                 destruct (lastd_elem (head_ m1) lo_i) as [->|?]; [by left|by right].
           ++ apply (path_frame_all h1); [|done]. intros q Hq. rewrite Hn.
              destruct (Hhiq q Hq) as [? ?].
              rewrite decide_False by done. by rewrite decide_False.
      * rewrite lastd_app. cbn [lastd app].
        destruct hi_i as [|c rest] eqn:Hhi_i.
        -- cbn [lastd] in *. rewrite Hn. rewrite decide_False.
           ++ by rewrite decide_True.
           ++ intros Heq. apply (HqN (lastd (head_ m1) lo_i)); [|done].
              destruct (lastd_elem (head_ m1) lo_i) as [->|?]; [by left|by right].
        -- cbn [lastd] in *. rewrite Hn.
           assert (lastd c rest ∈ c :: rest) as Hin.
           { destruct (lastd_elem c rest) as [->|?]; [by left|by right]. }
           destruct (Hhiq _ Hin) as [? ?].
           rewrite decide_False by done. by rewrite decide_False.
    + assert (∀ r, nxt h2 i r = nxt h1 i r) as Hn.
      { intros r. rewrite Hnxt2. by rewrite decide_False by lia. }
      cbn [app]. split.
      * apply (path_frame_all h1); [by intros|]. apply path_app. done.
      * by rewrite Hn, lastd_app.
Qed.

(** ** The operations against a map *)

(** The reference: a finite map from key to value and deletion mark,
    with the two counters that [put] consults and reports. *)
Record Ref := mkRef {
  r_map : gmap string (string * bool);
  r_memory_usage : Z;
  r_size : Z
}.

Definition ref_new : Ref := mkRef ∅ 0 0.

Definition ref_put (max_size : Z) (r : Ref) (k v : string) : bool * Ref :=
  if decide (is_Some (r_map r !! k)) then
    (true, mkRef (<[k := (v, false)]> (r_map r)) (r_memory_usage r) (r_size r))
  else
    let new_memory :=
      u64 (sizeof_SkipListNode + Z.of_nat (String.length k) + Z.of_nat (String.length v)) in
    if decide (u64 (r_memory_usage r + new_memory) > max_size) then (false, r)
    else (true, mkRef (<[k := (v, false)]> (r_map r))
                      (u64 (r_memory_usage r + new_memory)) (u64 (r_size r + 1))).

Definition ref_get (r : Ref) (k : string) : option string :=
  '(v, d) ← r_map r !! k; if d : bool then None else Some v.

Definition ref_delete (r : Ref) (k : string) : bool * Ref :=
  match r_map r !! k with
  | Some (v, _) => (true, mkRef (<[k := (v, true)]> (r_map r)) (r_memory_usage r) (r_size r))
  | None => (false, r)
  end.

Definition refines (m : SkipListMemtable) (r : Ref) : Prop :=
  ∃ l0, inv m l0 ∧ view (heap m) l0 = r_map r
        ∧ memory_usage_ m = r_memory_usage r ∧ size_ m = r_size r.

Lemma skiplist_new_refines (max_size : Z) : refines (SkipListMemtable_new max_size) ref_new.
Proof.
  exists []. split; [|done]. unfold SkipListMemtable_new. split; cbn [heap head_ tail_].
  - done.
  - simpl. lia.
  - simpl. lia.
  - constructor.
  - simpl. lia.
  - repeat constructor.
  - constructor.
  - constructor.
  - intros i Hi. unfold lvl_list. rewrite filter_nil. split; [done|]. cbn [lastd].
    apply nxt_Some. eexists. split; [done|]. cbn [next]. by apply lookup_replicate_2.
Qed.

Lemma lookup_node_view (h : list SkipListNode) (l0 : list nat) (k : string) :
  is_Some (view h l0 !! k) ↔ is_Some (lookup_node h l0 k).
Proof. rewrite view_lookup. by rewrite fmap_is_Some. Qed.

Lemma view_ext (h h' : list SkipListNode) (l : list nat) :
  (∀ p, p ∈ l → node_key h' p = node_key h p ∧ node_value h' p = node_value h p
                ∧ node_deleted h' p = node_deleted h p) →
  view h' l = view h l.
Proof.
  intros Hext. unfold view. f_equal. apply fmap_ext_in. intros p Hp.
  by destruct (Hext p Hp) as (-> & -> & ->).
Qed.

Lemma view_insert_new (h : list SkipListNode) (l0 : list nat) (k : string) (N : nat) :
  StronglySorted key_lt (node_key h <$> l0) →
  lookup_node h l0 k = None → node_key h N = k →
  view h (below h k l0 ++ N :: above h k l0)
  = <[k := (node_value h N, node_deleted h N)]> (view h l0).
Proof.
  intros Hs Hnone HN. apply map_eq. intros k'. rewrite view_lookup.
  unfold lookup_node. rewrite filter_app, filter_cons.
  destruct (decide (k = k')) as [<-|Hk].
  - rewrite lookup_insert_eq, lookup_node_below. rewrite decide_True by done. done.
  - rewrite lookup_insert_ne by done. rewrite decide_False by congruence.
    rewrite <- filter_app, <- (sorted_split h k l0 Hs). by rewrite view_lookup.
Qed.

Lemma skiplist_put_refines (m : SkipListMemtable) (r : Ref) (k v : string) (lvl : Z) :
  refines m r → 1 ≤ lvl ≤ Z.of_nat MAX_LEVEL →
  ∃ m',
    put m k v lvl = Some ((ref_put (max_size_ m) r k v).1, m')
    ∧ refines m' (ref_put (max_size_ m) r k v).2
    ∧ max_size_ m' = max_size_ m.
Proof.
  intros (l0 & Hinv & Hview & Hmem & Hsize) Hlvl.
  destruct (findNode_spec m l0 k Hinv) as (update & Hfind & _).
  unfold put, ref_put. rewrite Hfind. cbn [mbind option_bind].
  pose proof (lookup_node_view (heap m) l0 k) as Hsome. rewrite Hview in Hsome.
  destruct (lookup_node (heap m) l0 k) as [e|] eqn:He.
  - rewrite decide_True by (apply Hsome; by eexists).
    eexists. split; [done|]. split; [|done]. cbn [snd].
    pose proof (lookup_node_Some _ _ _ _ He) as [Hel _].
    pose proof (inv_fresh m l0 Hinv) as Hfresh. rewrite Forall_forall in Hfresh.
    exists l0. split; [|split; [|done]]; cbn [heap].
    + apply (inv_agree m); cbn [heap head_ tail_]; try done.
      * by apply agree_alter.
      * by rewrite length_alter.
      * apply Forall_next_alter; [done|apply Hinv].
    + rewrite (view_alter (heap m) l0 k e v false);
        [by rewrite Hview|apply Hinv|done|by apply Hfresh].
  - rewrite (decide_False (P := is_Some (r_map r !! k)))
      by (intros H; apply Hsome in H; by destruct H).
    rewrite <- Hmem. case_decide as Hfull.
    { eexists. split; [done|]. split; [|done]. by exists l0. }
    set (n := SkipListNode_new k v lvl). set (N := length (heap m)).
    set (m1 := set_heap m (heap m ++ [n])).
    assert (inv m1 l0) as Hinv1 by (by apply inv_extend).
    pose proof (inv_fresh m l0 Hinv) as Hfresh. rewrite Forall_forall in Hfresh.
    assert (∀ p, (p < N)%nat → heap m1 !! p = heap m !! p) as Hold.
    { intros p Hp. unfold m1. cbn [set_heap heap]. by rewrite lookup_app_l. }
    assert (heap m1 !! N = Some n) as HNn.
    { unfold m1. cbn [set_heap heap]. by rewrite list_lookup_middle. }
    assert (∀ p, p ∈ l0 → node_key (heap m1) p = node_key (heap m) p
                 ∧ node_value (heap m1) p = node_value (heap m) p
                 ∧ node_deleted (heap m1) p = node_deleted (heap m) p) as Hsame.
    { intros p Hp. unfold node_key, node_value, node_deleted.
      rewrite Hold; [done|]. by apply Hfresh. }
    assert (lookup_node (heap m1) l0 k = None) as He1.
    { rewrite <- He. unfold lookup_node. f_equal. apply filter_ext_in. intros p Hp.
      by destruct (Hsame p Hp) as (-> & _). }
    destruct (findNode_spec m1 l0 k Hinv1) as (update1 & Hfind1 & _ & Hup1).
    rewrite He1 in Hfind1. fold n m1. rewrite Hfind1. cbn [mbind option_bind].
    destruct (link_new_inv m1 l0 k N lvl update1 Hinv1 He1) as (h2 & Hrun & Hnode & Hinv2);
      try done.
    { unfold m1. cbn [set_heap heap]. rewrite length_app. simpl. lia. }
    { intros HN. apply Hfresh in HN. lia. }
    { pose proof (inv_head m l0 Hinv). cbn [m1 set_heap head_]. lia. }
    { pose proof (inv_tail m l0 Hinv). cbn [m1 set_heap tail_]. lia. }
    { unfold node_key. by rewrite HNn. }
    { unfold node_level. by rewrite HNn. }
    { pose proof (inv_len m l0 Hinv). unfold m1. cbn [set_heap heap].
      rewrite length_app. simpl. lia. }
    change (heap m ++ [n]) with (heap m1). fold N. rewrite Hrun. cbn [mbind option_bind].
    eexists. split; [done|]. split; [|done]. cbn [snd].
    exists (below (heap m1) k l0 ++ N :: above (heap m1) k l0).
    split; [|split; [|split]]; cbn [heap memory_usage_ size_ r_map r_memory_usage r_size].
    + apply (inv_agree (set_heap m1 h2));
        [exact Hinv2|by intros p _|done|apply Hinv2|done|done].
    + rewrite (view_ext (heap m1) h2) by (intros p _; apply Hnode).
      rewrite view_insert_new; [|apply Hinv1|done|by unfold node_key; rewrite HNn].
      rewrite (view_ext (heap m) (heap m1) l0 Hsame), Hview.
      unfold node_value, node_deleted. by rewrite HNn.
    + done.
    + by rewrite Hsize.
Qed.

Lemma skiplist_get_refines (m : SkipListMemtable) (r : Ref) (k : string) :
  refines m r →
  get m k = Some (ref_get r k, count_lookup m) ∧ refines (count_lookup m) r.
Proof.
  intros (l0 & Hinv & Hview & Hmem & Hsize). split.
  - destruct (findNode_spec m l0 k Hinv) as (update & Hfind & _).
    unfold get, ref_get. rewrite Hfind. cbn [mbind option_bind].
    rewrite <- Hview, view_lookup.
    destruct (lookup_node (heap m) l0 k) as [p|] eqn:Hp; [|done].
    apply lookup_node_Some in Hp as [Hp _].
    pose proof (inv_fresh m l0 Hinv) as Hfresh. rewrite Forall_forall in Hfresh.
    destruct (lookup_lt_is_Some_2 (heap m) p) as [n Hn]; [by apply Hfresh|].
    rewrite Hn. simpl. unfold node_value, node_deleted. rewrite Hn. simpl.
    by destruct (is_deleted n).
  - exists l0. split; [|done].
    apply (inv_agree m); [done|by intros p _|done|apply Hinv|done|done].
Qed.

Lemma skiplist_delete_refines (m : SkipListMemtable) (r : Ref) (k : string) :
  refines m r →
  ∃ m',
    delete_key m k = Some ((ref_delete r k).1, m')
    ∧ refines m' (ref_delete r k).2
    ∧ max_size_ m' = max_size_ m.
Proof.
  intros (l0 & Hinv & Hview & Hmem & Hsize).
  destruct (findNode_spec m l0 k Hinv) as (update & Hfind & _).
  unfold delete_key, ref_delete. rewrite Hfind. cbn [mbind option_bind].
  rewrite <- Hview, view_lookup.
  destruct (lookup_node (heap m) l0 k) as [e|] eqn:He; cbn [fmap option_fmap option_map].
  - eexists. split; [done|]. split; [|done]. cbn [snd].
    pose proof (lookup_node_Some _ _ _ _ He) as [Hel _].
    pose proof (inv_fresh m l0 Hinv) as Hfresh. rewrite Forall_forall in Hfresh.
    destruct (lookup_lt_is_Some_2 (heap m) e) as [n Hn]; [by apply Hfresh|].
    exists l0. split; [|split; [|done]]; cbn [heap r_map].
    + apply (inv_agree m); cbn [heap head_ tail_]; try done.
      * by apply agree_alter.
      * by rewrite length_alter.
      * apply Forall_next_alter; [done|apply Hinv].
    + assert (alter (λ n, mkNode (key n) (value n) true (next n) (level n)) e (heap m)
              = alter (λ n, mkNode (key n) (node_value (heap m) e) true (next n) (level n))
                      e (heap m)) as ->.
      { apply list_alter_ext; [|done]. intros x Hx. unfold node_value.
        rewrite Hx. done. }
      rewrite (view_alter (heap m) l0 k e (node_value (heap m) e) true);
        [done|apply Hinv|done|by apply Hfresh].
  - eexists. split; [done|]. split; [|done]. by exists l0.
Qed.

Lemma put_false_unchanged (m m' : SkipListMemtable) (k v : string) (lvl : Z) :
  put m k v lvl = Some (false, m') → m' = m.
Proof.
  unfold put. destruct (findNode m k) as [[[e|] u]|]; cbn [mbind option_bind]; try done.
  case_decide; [by intros [= ->]|].
  destruct (findNode _ k) as [[e u']|]; cbn [mbind option_bind]; [|done].
  by destruct (link_loop _ _ _ _ _).
Qed.

(** ** [getAll] and [validate] on a well-formed skip list *)

(** The entries [getAll] reports for the nodes [l]. *)
Definition entries (h : list SkipListNode) (l : list nat) : list KeyValue :=
  (λ p, mkKeyValue (node_key h p) (node_value h p) false)
    <$> filter (λ p, node_deleted h p = false) l.

Lemma entries_cons (h : list SkipListNode) (p : nat) (l : list nat) :
  entries h (p :: l)
  = (if node_deleted h p then [] else [mkKeyValue (node_key h p) (node_value h p) false])
    ++ entries h l.
Proof.
  unfold entries. rewrite filter_cons.
  destruct (decide (node_deleted h p = false)) as [Hd|Hd].
  - by rewrite Hd.
  - by destruct (node_deleted h p).
Qed.

Lemma getAll_loop_spec (h : list SkipListNode) (tail : nat) :
  ∀ l p fuel result,
  path h 0 p l → nxt h 0 (lastd p l) = Some tail →
  Forall (λ q, q ≠ tail) (p :: l) → (length l + 2 ≤ fuel)%nat →
  getAll_loop fuel h tail p result = Some (result ++ entries h (p :: l)).
Proof.
  induction l as [|q l IH]; intros p fuel result Hpath Hlast Hne Hfuel.
  - destruct fuel as [|[|fuel]]; [simpl in Hfuel; lia..|].
    apply Forall_cons in Hne as [Hp _]. simpl in Hlast.
    apply nxt_Some in Hlast as (n & Hn & Hnx).
    cbn [getAll_loop]. rewrite decide_False by done. rewrite Hn. cbn [mbind option_bind].
    rewrite Hnx. cbn [mbind option_bind]. rewrite decide_True by done.
    rewrite entries_cons. unfold entries. rewrite filter_nil, fmap_nil, app_nil_r.
    unfold node_deleted, node_key, node_value. rewrite Hn. simpl.
    destruct (is_deleted n); by rewrite ?app_nil_r.
  - destruct fuel as [|fuel]; [simpl in Hfuel; lia|].
    apply Forall_cons in Hne as [Hp Hne]. destruct Hpath as [Hpq Hpath]. simpl in Hlast.
    apply nxt_Some in Hpq as (n & Hn & Hnx).
    cbn [getAll_loop]. rewrite decide_False by done. rewrite Hn. cbn [mbind option_bind].
    rewrite Hnx. cbn [mbind option_bind].
    rewrite (IH q fuel); [|done|done|done|simpl in Hfuel; lia].
    rewrite (entries_cons h p). f_equal.
    unfold node_deleted, node_key, node_value. rewrite Hn. simpl.
    destruct (is_deleted n); by rewrite <- ?app_assoc.
Qed.

Lemma getAll_spec (m : SkipListMemtable) (l0 : list nat) :
  inv m l0 → getAll m = Some (entries (heap m) l0).
Proof.
  intros Hinv. pose proof (inv_links m l0 Hinv 0%nat) as [Hpath Hlast].
  { unfold MAX_LEVEL. lia. }
  rewrite (lvl_list_bottom m l0 l0 Hinv) in Hpath, Hlast by done.
  pose proof (inv_fresh m l0 Hinv) as Hfresh.
  pose proof (inv_len m l0 Hinv) as Hlen.
  unfold getAll. destruct l0 as [|q l].
  - simpl in Hlast. apply nxt_Some in Hlast as (n & Hn & Hnx).
    rewrite Hn. cbn [mbind option_bind]. rewrite Hnx. cbn [mbind option_bind].
    unfold fuel_of. destruct (heap m) as [|x h'] eqn:Hh; [done|].
    cbn [length getAll_loop]. by rewrite decide_True.
  - destruct Hpath as [Hhq Hpath]. simpl in Hlast.
    apply nxt_Some in Hhq as (n & Hn & Hnx).
    rewrite Hn. cbn [mbind option_bind]. rewrite Hnx. cbn [mbind option_bind].
    rewrite (getAll_loop_spec (heap m) (tail_ m) l q); try done.
    + eapply Forall_impl; [exact Hfresh|]. intros p (_ & _ & Hp). exact Hp.
    + unfold fuel_of. simpl in Hlen. lia.
Qed.

Lemma entries_sorted (h : list SkipListNode) (l : list nat) :
  StronglySorted key_lt (node_key h <$> l) →
  StronglySorted key_lt (kv_key <$> entries h l).
Proof.
  induction l as [|p l IH]; intros Hs; [constructor|].
  rewrite fmap_cons in Hs. apply StronglySorted_inv in Hs as [Hs Hall].
  rewrite entries_cons. destruct (node_deleted h p); simpl; [by apply IH|].
  constructor; [by apply IH|].
  rewrite Forall_forall in Hall. apply Forall_forall. intros k Hk.
  apply list_elem_of_fmap in Hk as (kv & -> & Hkv).
  unfold entries in Hkv. apply list_elem_of_fmap in Hkv as (q & -> & Hq).
  apply list_elem_of_filter in Hq as [_ Hq]. simpl. apply Hall.
  apply list_elem_of_fmap. by exists q.
Qed.

Lemma entries_view (h : list SkipListNode) (l : list nat) (k v : string) (d : bool) :
  StronglySorted key_lt (node_key h <$> l) →
  mkKeyValue k v d ∈ entries h l ↔ d = false ∧ view h l !! k = Some (v, false).
Proof.
  intros Hs. rewrite view_lookup. unfold entries. split.
  - intros Hin. apply list_elem_of_fmap in Hin as (p & [= -> -> ->] & Hp).
    apply list_elem_of_filter in Hp as [Hd Hp]. split; [done|].
    rewrite (lookup_node_unique h l (node_key h p) p Hs Hp eq_refl). simpl. by rewrite Hd.
  - intros [-> Hv].
    destruct (lookup_node h l k) as [p|] eqn:Hp; [|done].
    simpl in Hv. injection Hv as Hv Hd.
    apply lookup_node_Some in Hp as [Hp Hk].
    apply list_elem_of_fmap. exists p. split; [by rewrite Hk, Hv|].
    by apply list_elem_of_filter.
Qed.

(** The walk of [validate] at level [i] stops on the last node of the
    level-[i] list. *)
Lemma validate_walk_spec (h : list SkipListNode) (tail : nat) (i : nat) :
  ∀ l p fuel,
  path h i p l → nxt h i (lastd p l) = Some tail → tail ∉ l → (length l < fuel)%nat →
  validate_walk fuel h tail i p = Some (Some (lastd p l)).
Proof.
  induction l as [|q l IH]; intros p fuel Hpath Hlast Hne Hfuel.
  - destruct fuel as [|fuel]; [simpl in Hfuel; lia|]. simpl in Hlast.
    apply nxt_Some in Hlast as (n & Hn & Hnx).
    cbn [validate_walk]. rewrite Hn. cbn [mbind option_bind]. rewrite Hnx.
    cbn [mbind option_bind]. by rewrite decide_True.
  - destruct fuel as [|fuel]; [simpl in Hfuel; lia|].
    destruct Hpath as [Hpq Hpath]. simpl in Hlast.
    apply nxt_Some in Hpq as (n & Hn & Hnx).
    cbn [validate_walk]. rewrite Hn. cbn [mbind option_bind]. rewrite Hnx.
    cbn [mbind option_bind].
    rewrite decide_False by (intros [= ->]; apply Hne; left).
    simpl. apply IH; [done|done| |simpl in Hfuel; lia].
    intros Hin. apply Hne. by right.
Qed.

Lemma validate_levels_spec (m : SkipListMemtable) (l0 : list nat) :
  inv m l0 →
  ∀ cnt, (cnt ≤ MAX_LEVEL)%nat →
  validate_levels (fuel_of m) (heap m) (tail_ m) cnt
    (lastd (head_ m) (lvl_list (heap m) cnt l0)) = Some true.
Proof.
  intros Hinv. pose proof (inv_fresh m l0 Hinv) as Hfresh. rewrite Forall_forall in Hfresh.
  induction cnt as [|i IH]; intros Hcnt; [done|].
  cbn [validate_levels].
  destruct (filter_weaker_split (tall (heap m) (S i)) (tall (heap m) i) l0) with
    (p := head_ m) as (A & B & HAB & HA).
  { unfold tall. intros x. lia. }
  pose proof (inv_links m l0 Hinv i) as [Hpath Hlast]; [lia|].
  unfold lvl_list in *. rewrite HAB in Hpath, Hlast.
  apply path_app in Hpath as [_ Hpath]. rewrite lastd_app in Hlast.
  rewrite <- HA.
  rewrite (validate_walk_spec (heap m) (tail_ m) i B); [| done | done | |].
  - cbn [mbind option_bind]. rewrite <- lastd_app, <- HAB. apply IH. lia.
  - intros Hin. assert (tail_ m ∈ l0) as Ht.
    { apply (lvl_list_subseteq (heap m) i l0). unfold lvl_list. rewrite HAB.
      apply elem_of_app. by right. }
    by destruct (Hfresh _ Ht) as (_ & _ & ?).
  - unfold fuel_of. pose proof (inv_len m l0 Hinv).
    pose proof (length_filter_le (tall (heap m) i) l0) as Hle.
    rewrite HAB, length_app in Hle. lia.
Qed.

Lemma validate_spec (m : SkipListMemtable) (l0 : list nat) :
  inv m l0 → validate m = Some true.
Proof.
  intros Hinv. unfold validate.
  destruct (lookup_lt_is_Some_2 (heap m) (head_ m)) as [hd Hhd]; [apply Hinv|].
  rewrite Hhd. cbn [mbind option_bind].
  rewrite decide_False.
  - rewrite <- (pred_top m l0 EmptyString Hinv). unfold pred.
    rewrite (lvl_list_top m l0 _ Hinv) by apply below_subseteq.
    rewrite <- (lvl_list_top m l0 l0 Hinv) at 1 by done.
    by apply validate_levels_spec.
  - intros Hex. apply Exists_exists in Hex as (nx & Hin & ->).
    apply list_elem_of_lookup in Hin as [i Hi].
    apply lookup_take_Some in Hi as [Hi Hlt].
    pose proof (inv_links m l0 Hinv i Hlt) as [Hpath Hlast].
    destruct (lvl_list (heap m) i l0) as [|q l].
    + simpl in Hlast. apply nxt_Some in Hlast as (n & Hn & Hnx).
      rewrite Hhd in Hn. injection Hn as <-. by rewrite Hi in Hnx.
    + destruct Hpath as [Hq _]. apply nxt_Some in Hq as (n & Hn & Hnx).
      rewrite Hhd in Hn. injection Hn as <-. by rewrite Hi in Hnx.
Qed.

(** ** Sequences of operations *)

Inductive Op :=
| OpPut (k v : string) (lvl : Z)
| OpGet (k : string)
| OpDelete (k : string).

Definition step (m : SkipListMemtable) (op : Op) : option SkipListMemtable :=
  match op with
  | OpPut k v lvl => snd <$> put m k v lvl
  | OpGet k => snd <$> get m k
  | OpDelete k => snd <$> delete_key m k
  end.

Fixpoint run (m : SkipListMemtable) (ops : list Op) : option SkipListMemtable :=
  match ops with
  | [] => Some m
  | op :: ops' => m' ← step m op; run m' ops'
  end.

(** [ThreadLocalRandom::getLevel] returns a level between 1 and 32. *)
Definition level_ok (lvl : Z) : Prop := 1 ≤ lvl ≤ Z.of_nat MAX_LEVEL.

Definition levels_ok (ops : list Op) : Prop :=
  Forall (λ op, match op with OpPut _ _ lvl => level_ok lvl | _ => True end) ops.

Lemma skiplist_run_refines (ops : list Op) :
  ∀ m r, levels_ok ops → refines m r →
  ∃ m' r', run m ops = Some m' ∧ refines m' r' ∧ max_size_ m' = max_size_ m
           ∧ (0 ≤ memory_usage_ m ≤ max_size_ m → 0 ≤ memory_usage_ m' ≤ max_size_ m').
Proof.
  induction ops as [|op ops IH]; intros m r Hok Href; [by exists m, r|].
  apply Forall_cons in Hok as [Hop Hok]. cbn [run].
  destruct op as [k v lvl|k|k]; cbn [step].
  - destruct (skiplist_put_refines m r k v lvl Href Hop) as (m1 & Hput & Href1 & Hmax).
    rewrite Hput. cbn [fmap option_fmap option_map mbind option_bind snd].
    destruct (IH m1 _ Hok Href1) as (m' & r' & Hrun & Href' & Hmax' & Hmem').
    exists m', r'. split_and!; [done|done|congruence|].
    intros Hmem. apply Hmem'.
    destruct Href as (l0 & _ & _ & Hmu & _).
    destruct Href1 as (l1 & _ & _ & Hmu1 & _).
    rewrite Hmu1, Hmax. unfold ref_put. rewrite <- Hmu.
    repeat case_decide; cbn [snd r_memory_usage]; try lia.
    split; [apply u64_range|lia].
  - destruct (skiplist_get_refines m r k Href) as [Hget Href1].
    rewrite Hget. cbn [fmap option_fmap option_map mbind option_bind snd].
    destruct (IH (count_lookup m) r Hok Href1) as (m' & r' & Hrun & Href' & Hmax' & Hmem').
    by exists m', r'.
  - destruct (skiplist_delete_refines m r k Href) as (m1 & Hdel & Href1 & Hmax).
    rewrite Hdel. cbn [fmap option_fmap option_map mbind option_bind snd].
    destruct (IH m1 _ Hok Href1) as (m' & r' & Hrun & Href' & Hmax' & Hmem').
    exists m', r'. split_and!; [done|done|congruence|].
    intros Hmem. apply Hmem'.
    destruct Href as (l0 & _ & _ & Hmu & _).
    destruct Href1 as (l1 & _ & _ & Hmu1 & _).
    rewrite Hmu1, Hmax. unfold ref_delete. rewrite <- Hmu.
    destruct (r_map r !! k) as [[? ?]|]; cbn [snd r_memory_usage]; lia.
Qed.

Lemma reachable_refines (max_size : Z) (ops : list Op) :
  levels_ok ops →
  ∃ m r, run (SkipListMemtable_new max_size) ops = Some m ∧ refines m r
         ∧ max_size_ m = max_size
         ∧ (0 ≤ max_size → 0 ≤ memory_usage_ m ≤ max_size).
Proof.
  intros Hok.
  destruct (skiplist_run_refines ops _ _ Hok (skiplist_new_refines max_size))
    as (m & r & Hrun & Href & Hmax & Hmem).
  exists m, r. split_and!; [done|done|done|].
  intros Hpos. rewrite Hmax in Hmem. apply Hmem. simpl. lia.
Qed.

Lemma get_fst (m : SkipListMemtable) (r : Ref) (k : string) :
  refines m r → fst <$> get m k = Some (ref_get r k).
Proof. intros Href. by destruct (skiplist_get_refines m r k Href) as [-> _]. Qed.

Lemma ref_get_live (r : Ref) (k v : string) :
  ref_get r k = Some v ↔ r_map r !! k = Some (v, false).
Proof.
  unfold ref_get. destruct (r_map r !! k) as [[v' [|]]|]; simpl; split; congruence.
Qed.

Lemma delete_false_unchanged (m m' : SkipListMemtable) (k : string) :
  delete_key m k = Some (false, m') → m' = m.
Proof.
  unfold delete_key. destruct (findNode m k) as [[[e|] u]|]; cbn [mbind option_bind];
    try done. by intros [= ->].
Qed.

(** [put] of a key that has a node, deleted or not. *)
Lemma put_existing (m : SkipListMemtable) (l0 : list nat) (k v : string) (lvl : Z) (e : nat) :
  inv m l0 → lookup_node (heap m) l0 k = Some e →
  put m k v lvl
  = Some (true,
          mkMemtable (alter (λ n, mkNode (key n) v false (next n) (level n)) e (heap m))
            (head_ m) (tail_ m) (size_ m) (memory_usage_ m) (max_size_ m)
            (total_inserts_ m) (total_lookups_ m) (total_deletes_ m)
            (u64 (total_updates_ m + 1))).
Proof.
  intros Hinv He. destruct (findNode_spec m l0 k Hinv) as (update & Hfind & _).
  unfold put. rewrite Hfind, He. done.
Qed.

(** ** The memtable after any sequence of operations *)

(** A [put] that returns [true] makes [get] of the key return the value,
    a [put] that returns [false] changes nothing, and neither changes
    what [get] returns for another key.  This holds after any sequence
    of [put], [get] and [delete_key] on a new memtable, whatever levels
    between 1 and 32 were drawn; the sequence and the [put] return. *)
Theorem skiplist_put_then_get (max_size : Z) (ops : list Op) (k v : string) (lvl : Z) :
  levels_ok ops → level_ok lvl →
  ∃ m b m',
    run (SkipListMemtable_new max_size) ops = Some m
    ∧ put m k v lvl = Some (b, m')
    ∧ (b = true → fst <$> get m' k = Some (Some v))
    ∧ (b = false → m' = m)
    ∧ ∀ k', k' ≠ k → fst <$> get m' k' = fst <$> get m k'.
Proof.
  intros Hok Hlvl.
  destruct (reachable_refines max_size ops Hok) as (m & r & Hrun & Href & _).
  destruct (skiplist_put_refines m r k v lvl Href Hlvl) as (m' & Hput & Href' & _).
  exists m, (ref_put (max_size_ m) r k v).1, m'. split_and!; [done|done|..].
  - intros Hb. rewrite (get_fst m' _ k Href'). f_equal. apply ref_get_live.
    revert Hb. unfold ref_put. repeat case_decide; cbn [fst snd r_map]; try done;
      intros _; apply lookup_insert_eq.
  - intros Hb. rewrite Hb in Hput. by apply put_false_unchanged in Hput.
  - intros k' Hk'. rewrite (get_fst m' _ k' Href'), (get_fst m r k' Href). f_equal.
    unfold ref_put, ref_get. repeat case_decide; cbn [snd r_map]; try done;
      by rewrite lookup_insert_ne.
Qed.

(** After [delete_key], [get] of the key finds nothing and [get] of any
    other key is unchanged; [size_] and [memory_usage_] stay as they
    were.  [delete_key] returns [false] only when it changed nothing,
    and a second [delete_key] of the key returns what the first did: a
    deleted key keeps its node. *)
Theorem delete_key_hides_key (max_size : Z) (ops : list Op) (k : string) :
  levels_ok ops →
  ∃ m b m',
    run (SkipListMemtable_new max_size) ops = Some m
    ∧ delete_key m k = Some (b, m')
    ∧ fst <$> get m' k = Some None
    ∧ (∀ k', k' ≠ k → fst <$> get m' k' = fst <$> get m k')
    ∧ (b = false → m' = m)
    ∧ size_ m' = size_ m ∧ memory_usage_ m' = memory_usage_ m
    ∧ ∃ m'', delete_key m' k = Some (b, m'').
Proof.
  intros Hok.
  destruct (reachable_refines max_size ops Hok) as (m & r & Hrun & Href & _).
  destruct (skiplist_delete_refines m r k Href) as (m' & Hdel & Href' & _).
  destruct (skiplist_delete_refines m' _ k Href') as (m'' & Hdel' & _).
  exists m, (ref_delete r k).1, m'. split_and!; [done|done|..].
  - rewrite (get_fst m' _ k Href'). f_equal. unfold ref_delete, ref_get.
    destruct (r_map r !! k) as [[v d]|] eqn:Hk; cbn [snd r_map].
    + by rewrite lookup_insert_eq.
    + by rewrite Hk.
  - intros k' Hk'. rewrite (get_fst m' _ k' Href'), (get_fst m r k' Href). f_equal.
    unfold ref_delete, ref_get.
    destruct (r_map r !! k) as [[v d]|]; cbn [snd r_map]; [|done].
    by rewrite lookup_insert_ne.
  - intros Hb. rewrite Hb in Hdel. by apply delete_false_unchanged in Hdel.
  - destruct Href as (? & _ & _ & _ & ->). destruct Href' as (? & _ & _ & _ & ->).
    unfold ref_delete. by destruct (r_map r !! k) as [[v d]|].
  - destruct Href as (? & _ & _ & -> & _). destruct Href' as (? & _ & _ & -> & _).
    unfold ref_delete. by destruct (r_map r !! k) as [[v d]|].
  - exists m''. rewrite Hdel'. do 2 f_equal. unfold ref_delete.
    destruct (r_map r !! k) as [[v d]|] eqn:Hk; cbn [fst snd r_map].
    + by rewrite lookup_insert_eq.
    + by rewrite Hk.
Qed.

(** A [put] of a key that [delete_key] has marked deleted takes the
    update path: it returns [true] whatever [memory_usage_] and
    [max_size_] are, [get] returns the new value, [size_],
    [memory_usage_] and [total_inserts_] keep their values and
    [total_updates_] counts one more. *)
Theorem put_revives_deleted_key (max_size : Z) (ops : list Op) (k v : string) (lvl : Z)
    (m m1 : SkipListMemtable) :
  levels_ok ops →
  run (SkipListMemtable_new max_size) ops = Some m →
  delete_key m k = Some (true, m1) →
  ∃ m2,
    put m1 k v lvl = Some (true, m2)
    ∧ fst <$> get m2 k = Some (Some v)
    ∧ size_ m2 = size_ m ∧ memory_usage_ m2 = memory_usage_ m
    ∧ total_inserts_ m2 = total_inserts_ m
    ∧ total_updates_ m2 = u64 (total_updates_ m + 1).
Proof.
  intros Hok Hrun Hdel.
  destruct (reachable_refines max_size ops Hok) as (m0 & r & Hrun0 & Href & _).
  rewrite Hrun in Hrun0. injection Hrun0 as <-.
  destruct (skiplist_delete_refines m r k Href) as (m1' & Hdel' & Href1 & _).
  rewrite Hdel in Hdel'. injection Hdel' as Hb <-.
  destruct Href1 as (l1 & Hinv1 & Hview1 & Hmu1 & Hsz1).
  assert (is_Some (lookup_node (heap m1) l1 k)) as [e He].
  { apply lookup_node_view. rewrite Hview1. unfold ref_delete in *.
    destruct (r_map r !! k) as [[v0 d]|]; [|done]. cbn [snd r_map].
    rewrite lookup_insert_eq. by eexists. }
  rewrite (put_existing m1 l1 k v lvl e Hinv1 He).
  eexists. split; [done|].
  assert (refines m1 (ref_delete r k).2) as Href1 by (by exists l1).
  destruct (skiplist_put_refines m1 _ k v 1 Href1) as (m2 & Hput & Href2 & _).
  { unfold level_ok, MAX_LEVEL. lia. }
  rewrite (put_existing m1 l1 k v 1 e Hinv1 He) in Hput. injection Hput as Hb2 <-.
  split_and!.
  - rewrite (get_fst _ _ k Href2). f_equal. apply ref_get_live.
    unfold ref_put. rewrite decide_True; [apply lookup_insert_eq|].
    rewrite <- Hview1. by apply lookup_node_view.
  - cbn [size_]. unfold delete_key in Hdel.
    destruct (findNode m k) as [[[p|] u]|]; cbn [mbind option_bind] in Hdel; try done.
    by injection Hdel as <-.
  - cbn [memory_usage_]. unfold delete_key in Hdel.
    destruct (findNode m k) as [[[p|] u]|]; cbn [mbind option_bind] in Hdel; try done.
    by injection Hdel as <-.
  - cbn [total_inserts_]. unfold delete_key in Hdel.
    destruct (findNode m k) as [[[p|] u]|]; cbn [mbind option_bind] in Hdel; try done.
    by injection Hdel as <-.
  - cbn [total_updates_]. unfold delete_key in Hdel.
    destruct (findNode m k) as [[[p|] u]|]; cbn [mbind option_bind] in Hdel; try done.
    by injection Hdel as <-.
Qed.

(** [getAll] returns the entries in strictly ascending key order, and an
    entry is in the result exactly when it is not marked deleted and
    [get] of its key returns its value: deleted keys are left out and no
    key occurs twice. *)
Theorem getAll_sorted_live (max_size : Z) (ops : list Op) :
  levels_ok ops →
  ∃ m l,
    run (SkipListMemtable_new max_size) ops = Some m
    ∧ getAll m = Some l
    ∧ StronglySorted key_lt (kv_key <$> l)
    ∧ ∀ k v d, mkKeyValue k v d ∈ l ↔ d = false ∧ fst <$> get m k = Some (Some v).
Proof.
  intros Hok.
  destruct (reachable_refines max_size ops Hok) as (m & r & Hrun & Href & _).
  pose proof Href as (l0 & Hinv & Hview & _).
  exists m, (entries (heap m) l0). split_and!; [done|by apply getAll_spec|..].
  - apply entries_sorted, Hinv.
  - intros k v d. rewrite (entries_view _ _ k v d (inv_sorted m l0 Hinv)).
    rewrite (get_fst m r k Href), Hview, <- ref_get_live.
    split; intros [-> H]; (split; [done|]); congruence.
Qed.

(** Every sequence of [put], [get] and [delete_key] on a new memtable
    runs to its end when the levels drawn are between 1 and 32 (no
    [nullptr] is followed, every search ends), and [validate] returns
    [true] on the memtable it leaves. *)
Theorem validate_after_any_run (max_size : Z) (ops : list Op) :
  levels_ok ops →
  ∃ m, run (SkipListMemtable_new max_size) ops = Some m ∧ validate m = Some true.
Proof.
  intros Hok.
  destruct (reachable_refines max_size ops Hok) as (m & r & Hrun & (l0 & Hinv & _) & _).
  exists m. split; [done|]. by apply (validate_spec m l0).
Qed.

(** [memory_usage_] never exceeds [max_size_]: whatever is put, the
    counter of a memtable constructed with [max_size] stays between 0
    and [max_size], and [max_size_] keeps the constructor's value. *)
Theorem memory_usage_within_max_size (max_size : Z) (ops : list Op) :
  0 ≤ max_size → levels_ok ops →
  ∃ m,
    run (SkipListMemtable_new max_size) ops = Some m
    ∧ 0 ≤ memory_usage_ m ≤ max_size ∧ max_size_ m = max_size.
Proof.
  intros Hpos Hok.
  destruct (reachable_refines max_size ops Hok) as (m & r & Hrun & _ & Hmax & Hmem).
  exists m. split_and!; [done|by apply Hmem..|done].
Qed.

End WithSizeof.
End SkipList.

(** A run of the skip list with a [sizeof(SkipListNode)] of 336 bytes:
    two nodes fit below a [max_size] of 700, the third [put] is refused. *)
Definition skiplist_ops : list SkipList.Op :=
  [SkipList.OpPut "b" "1" 2; SkipList.OpPut "a" "2" 1; SkipList.OpDelete "b";
   SkipList.OpPut "c" "3" 32; SkipList.OpGet "a"].

(** Every level of the run is one [getLevel] can return. *)
Ltac skiplist_levels :=
  unfold SkipList.levels_ok, skiplist_ops;
  repeat (constructor;
          [first [exact I|unfold SkipList.level_ok, SkipList.MAX_LEVEL; lia]|]);
  constructor.

Lemma skiplist_put_then_get_witness :
  ∃ m b m',
    SkipList.run 336 (SkipList.SkipListMemtable_new 700) skiplist_ops = Some m
    ∧ SkipList.put 336 m "c" "3" 4 = Some (b, m')
    ∧ (b = true → fst <$> SkipList.get m' "c" = Some (Some "3"))
    ∧ (b = false → m' = m)
    ∧ ∀ k', k' ≠ "c" → fst <$> SkipList.get m' k' = fst <$> SkipList.get m k'.
Proof.
  apply (SkipList.skiplist_put_then_get 336 700 skiplist_ops "c" "3" 4).
  - skiplist_levels.
  - unfold SkipList.level_ok, SkipList.MAX_LEVEL. lia.
Defined.

Lemma delete_key_hides_key_witness :
  ∃ m b m',
    SkipList.run 336 (SkipList.SkipListMemtable_new 700) skiplist_ops = Some m
    ∧ SkipList.delete_key m "a" = Some (b, m')
    ∧ fst <$> SkipList.get m' "a" = Some None
    ∧ (∀ k', k' ≠ "a" → fst <$> SkipList.get m' k' = fst <$> SkipList.get m k')
    ∧ (b = false → m' = m)
    ∧ SkipList.size_ m' = SkipList.size_ m
    ∧ SkipList.memory_usage_ m' = SkipList.memory_usage_ m
    ∧ ∃ m'', SkipList.delete_key m' "a" = Some (b, m'').
Proof.
  apply (SkipList.delete_key_hides_key 336 700 skiplist_ops "a").
  skiplist_levels.
Defined.

Lemma put_revives_deleted_key_witness :
  let m0 := SkipList.SkipListMemtable_new 700 in
  let m := default m0 (SkipList.run 336 m0 skiplist_ops) in
  let m1 := default m (snd <$> SkipList.delete_key m "b") in
  SkipList.memory_usage_ m1 + 338 > SkipList.max_size_ m1
  ∧ ∃ m2,
      SkipList.put 336 m1 "b" "9" 1 = Some (true, m2)
      ∧ fst <$> SkipList.get m2 "b" = Some (Some "9")
      ∧ SkipList.size_ m2 = SkipList.size_ m
      ∧ SkipList.memory_usage_ m2 = SkipList.memory_usage_ m
      ∧ SkipList.total_inserts_ m2 = SkipList.total_inserts_ m
      ∧ SkipList.total_updates_ m2 = u64 (SkipList.total_updates_ m + 1).
Proof.
  intros m0 m m1. split; [vm_compute; reflexivity|].
  apply (SkipList.put_revives_deleted_key 336 700 skiplist_ops "b" "9" 1 m m1).
  - skiplist_levels.
  - vm_compute. reflexivity.
  - vm_compute. reflexivity.
Defined.

Lemma getAll_sorted_live_witness :
  ∃ m l,
    SkipList.run 336 (SkipList.SkipListMemtable_new 700) skiplist_ops = Some m
    ∧ SkipList.getAll m = Some l
    ∧ StronglySorted SkipList.key_lt (SkipList.kv_key <$> l)
    ∧ ∀ k v d, SkipList.mkKeyValue k v d ∈ l
               ↔ d = false ∧ fst <$> SkipList.get m k = Some (Some v).
Proof.
  apply (SkipList.getAll_sorted_live 336 700 skiplist_ops).
  skiplist_levels.
Defined.

Lemma validate_after_any_run_witness :
  ∃ m,
    SkipList.run 336 (SkipList.SkipListMemtable_new 700) skiplist_ops = Some m
    ∧ SkipList.validate m = Some true.
Proof.
  apply (SkipList.validate_after_any_run 336 700 skiplist_ops).
  skiplist_levels.
Defined.

Lemma memory_usage_within_max_size_witness :
  ∃ m,
    SkipList.run 336 (SkipList.SkipListMemtable_new 700) skiplist_ops = Some m
    ∧ 0 ≤ SkipList.memory_usage_ m ≤ 700 ∧ SkipList.max_size_ m = 700.
Proof.
  apply (SkipList.memory_usage_within_max_size 336 700 skiplist_ops).
  - lia.
  - skiplist_levels.
Defined.
